(** * giffer: the GIF encoder of gif.hpp / gif.cpp, embedded in Rocq

    The encoder is translated function by function.  Conventions:

    - byte buffers ([u8*], [std::array<u8,N>], [std::unique_ptr<u8[]>]) are
      [list Z]; a pointer into a buffer is the buffer together with a byte
      offset; [rd]/[wr] read and write one cell.  Reads and writes outside
      the buffer are undefined in C++; [rd] yields 0 and [wr] does nothing
      there, and the theorems state the lengths they rely on;
    - unsigned integers are [Z] with the wrap-around written at the
      conversions and subtractions ([u8], [u32], [usize]); signed overflow
      is undefined in C++: the [i32] accumulators of the dither quantizer
      go through [i32], which is an error outside the range of the type;
      the [int] arithmetic of the colour query is exact (its operands are
      bytes and rounded accumulators, at most 2^23 in absolute value);
    - integer division of signed values is [Z.quot] (truncation), of
      unsigned values [Z.div];
    - a function that recurses without a structural argument takes fuel, and
      the undefined behaviours that matter here (an out-of-range split
      axis, a store past the chunk array, a signed overflow, a bit depth
      the palette arrays cannot hold, a frame larger than the buffer of the
      writer) are errors of the [result] type;
    - the arrays of a [Palette] and the chunk of a [BitStatus] are not
      initialised by their constructors: their initial contents are an
      explicit argument. *)

From Stdlib Require Import ZArith Lia List Bool.
From stdpp Require Import base option list gmap.
Local Open Scope Z_scope.

(** ** Results of fallible code *)

Inductive error : Type :=
| OutOfFuel        (* the model ran out of fuel *)
| BadSplitAxis     (* [comps[k]] read with k > 2 *)
| ChunkOverflow    (* [chunk[chunk_index]] stored with chunk_index >= 256 *)
| SignedOverflow   (* an [i32] result outside [-2^31, 2^31) *)
| BadBitDepth      (* [1 << (bit_depth - 1)] outside the 256 cells of the arrays *)
| FrameOverrun.    (* a frame of more bytes than [old_image] was allocated with *)

Inductive result (A : Type) : Type :=
| Ok (a : A)
| Err (e : error).
Arguments Ok {A} a.
Arguments Err {A} e.

Definition bind {A B} (m : result A) (k : A -> result B) : result B :=
  match m with
  | Ok a => k a
  | Err e => Err e
  end.

Notation "'let*' x ':=' m 'in' k" := (bind m (fun x => k))
  (at level 10, x pattern, m at level 200, k at level 200).

(** ** Machine integers and buffers *)

Definition u8 (v : Z) : Z := v mod 256.
Definition u32 (v : Z) : Z := v mod 2 ^ 32.
Definition usize (v : Z) : Z := v mod 2 ^ 64.

(** The result of an [i32] operation whose exact value is [v]. *)
Definition i32 (v : Z) : result Z :=
  if (- 2 ^ 31 <=? v) && (v <? 2 ^ 31) then Ok v else Err SignedOverflow.

Definition rd (buf : list Z) (i : Z) : Z := default 0 (buf !! Z.to_nat i).
Definition wr (buf : list Z) (i v : Z) : list Z := <[Z.to_nat i := v]> buf.

(** [for (i = i0; i < i0 + n; ++i) body] *)
Fixpoint for_pure {S : Type} (n : nat) (i : Z) (body : Z -> S -> S) (s : S) : S :=
  match n with
  | O => s
  | S n' => for_pure n' (i + 1) body (body i s)
  end.

Fixpoint for_loop {S : Type} (n : nat) (i : Z) (body : Z -> S -> result S)
    (s : S) : result S :=
  match n with
  | O => Ok s
  | S n' => let* s' := body i s in for_loop n' (i + 1) body s'
  end.

(** ** Pixels *)

Definition transparency_index : Z := 0.

Definition RED : Z := 0.
Definition GREEN : Z := 1.
Definition BLUE : Z := 2.
Definition ALPHA : Z := 3.

Definition pixidx (i color : Z) : Z := i * 4 + color.

(** [image] is the pointer (buffer, byte offset [off]). *)
Definition pixat (image : list Z) (off i color : Z) : Z :=
  rd image (off + pixidx i color).

Definition setpix (image : list Z) (off i color v : Z) : list Z :=
  wr image (off + pixidx i color) v.

Definition find_darkest_color (image : list Z) (off num_pixels : Z) : Z * Z * Z :=
  for_pure (Z.to_nat num_pixels) 0
    (fun i acc =>
       let '(r, g, b) := acc in
       (Z.min r (pixat image off i RED),
        Z.min g (pixat image off i GREEN),
        Z.min b (pixat image off i BLUE)))
    (255, 255, 255).

Definition find_lightest_color (image : list Z) (off num_pixels : Z) : Z * Z * Z :=
  for_pure (Z.to_nat num_pixels) 0
    (fun i acc =>
       let '(r, g, b) := acc in
       (Z.max r (pixat image off i RED),
        Z.max g (pixat image off i GREEN),
        Z.max b (pixat image off i BLUE)))
    (0, 0, 0).

Definition find_subcube_average (image : list Z) (off num_pixels : Z) : Z * Z * Z :=
  let '(r, g, b) :=
    for_pure (Z.to_nat num_pixels) 0
      (fun i acc =>
         let '(r, g, b) := acc in
         (r + pixat image off i RED,
          g + pixat image off i GREEN,
          b + pixat image off i BLUE))
      (0, 0, 0) in
  let r := r + num_pixels / 2 in
  let g := g + num_pixels / 2 in
  let b := b + num_pixels / 2 in
  (u32 (r / num_pixels), u32 (g / num_pixels), u32 (b / num_pixels)).

Definition find_largest_range (image : list Z) (off num_pixels : Z) : Z * Z * Z :=
  let '(min_r, max_r, min_g, max_g, min_b, max_b) :=
    for_pure (Z.to_nat num_pixels) 0
      (fun i acc =>
         let '(min_r, max_r, min_g, max_g, min_b, max_b) := acc in
         let r := pixat image off i RED in
         let g := pixat image off i GREEN in
         let b := pixat image off i BLUE in
         let max_r := if r >? max_r then r else max_r in
         let min_r := if r <? min_r then r else min_r in
         let max_g := if g >? max_g then g else max_g in
         let min_g := if g <? min_g then g else min_g in
         let max_b := if b >? max_b then b else max_b in
         let min_b := if b <? min_b then b else min_b in
         (min_r, max_r, min_g, max_g, min_b, max_b))
      (255, 0, 255, 0, 255, 0) in
  (max_r - min_r, max_g - min_g, max_b - min_b).

Definition swap_pixels (image : list Z) (off a b : Z) : list Z :=
  let ra := pixat image off a RED in
  let ga := pixat image off a GREEN in
  let ba := pixat image off a BLUE in
  let aa := pixat image off a ALPHA in
  let rb := pixat image off b RED in
  let gb := pixat image off b GREEN in
  let bb := pixat image off b BLUE in
  let ab := pixat image off b ALPHA in
  let image := setpix image off a RED rb in
  let image := setpix image off a GREEN gb in
  let image := setpix image off a BLUE bb in
  let image := setpix image off a ALPHA ab in
  let image := setpix image off b RED ra in
  let image := setpix image off b GREEN ga in
  let image := setpix image off b BLUE ba in
  setpix image off b ALPHA aa.

(** The loop body of [partition]; the state is (image, store_index, split). *)
Definition partition_body (off elt pivot_value : Z) (i : Z)
    (st : list Z * Z * bool) : list Z * Z * bool :=
  let '(image, store_index, split) := st in
  let val := rd image (off + (i * 4 + elt)) in
  if val <? pivot_value then
    (swap_pixels image off i store_index, store_index + 1, split)
  else if val =? pivot_value then
    if split then (swap_pixels image off i store_index, store_index + 1, negb split)
    else (image, store_index, negb split)
  else (image, store_index, split).

Definition partition (image : list Z) (off left right elt pivot_index : Z)
    : list Z * Z :=
  let pivot_value := rd image (off + (pivot_index * 4 + elt)) in
  let image := swap_pixels image off pivot_index (usize (right - 1)) in
  let '(image, store_index, _) :=
    for_pure (Z.to_nat (usize (right - 1) - left)) left
      (partition_body off elt pivot_value) (image, left, false) in
  let image := swap_pixels image off store_index (usize (right - 1)) in
  (image, store_index).

Fixpoint partition_by_median (fuel : nat) (image : list Z)
    (off left right com needed_center : Z) : result (list Z) :=
  match fuel with
  | O => Err OutOfFuel
  | S fuel =>
    if left <? usize (right - 1) then
      let pivot_index := left + (right - left) / 2 in
      let '(image, pivot_index) := partition image off left right com pivot_index in
      let* image := (if pivot_index >? needed_center
                     then partition_by_median fuel image off left pivot_index com needed_center
                     else Ok image) in
      if pivot_index <? needed_center
      then partition_by_median fuel image off (pivot_index + 1) right com needed_center
      else Ok image
    else Ok image
  end.

(** ** Palette *)

Module Palette.
Record t : Type := mk {
  bit_depth : Z;
  r : list Z;
  g : list Z;
  b : list Z;
  (* k-d tree over RGB space, organized in heap fashion *)
  tree_split_elt : list Z;
  tree_split : list Z
}.
End Palette.

Definition set_color (pal : Palette.t) (i : Z) (c : Z * Z * Z) : Palette.t :=
  let '(r, g, b) := c in
  Palette.mk (Palette.bit_depth pal)
    (wr (Palette.r pal) i (u8 r)) (wr (Palette.g pal) i (u8 g))
    (wr (Palette.b pal) i (u8 b))
    (Palette.tree_split_elt pal) (Palette.tree_split pal).

Definition set_tree_split_elt (pal : Palette.t) (n v : Z) : Palette.t :=
  Palette.mk (Palette.bit_depth pal) (Palette.r pal) (Palette.g pal)
    (Palette.b pal) (wr (Palette.tree_split_elt pal) n (u8 v))
    (Palette.tree_split pal).

Definition set_tree_split (pal : Palette.t) (n v : Z) : Palette.t :=
  Palette.mk (Palette.bit_depth pal) (Palette.r pal) (Palette.g pal)
    (Palette.b pal) (Palette.tree_split_elt pal)
    (wr (Palette.tree_split pal) n (u8 v)).

Definition set_bit_depth (pal : Palette.t) (bit_depth : Z) : Palette.t :=
  Palette.mk bit_depth (Palette.r pal) (Palette.g pal) (Palette.b pal)
    (Palette.tree_split_elt pal) (Palette.tree_split pal).

(** [array comps{r, g, b}; comps[k]] *)
Definition comps (r g b k : Z) : result Z :=
  if k =? 0 then Ok r
  else if k =? 1 then Ok g
  else if k =? 2 then Ok b
  else Err BadSplitAxis.

(** [best] is the pair of in/out parameters (best_ind, best_diff). *)
Fixpoint get_closest_pallete_color (fuel : nat) (pal : Palette.t) (r g b : Z)
    (best : Z * Z) (tree_root : Z) : result (Z * Z) :=
  match fuel with
  | O => Err OutOfFuel
  | S fuel =>
    let '(best_ind, best_diff) := best in
    (* base case, reached the bottom of the tree *)
    if tree_root >? Z.shiftl 1 (Palette.bit_depth pal) - 1 then
      let ind := tree_root - Z.shiftl 1 (Palette.bit_depth pal) in
      if ind =? transparency_index then Ok best
      else
        let r_err := r - rd (Palette.r pal) ind in
        let g_err := g - rd (Palette.g pal) ind in
        let b_err := b - rd (Palette.b pal) ind in
        let diff := Z.abs r_err + Z.abs g_err + Z.abs b_err in
        if diff <? best_diff then Ok (ind, diff) else Ok best
    else
      let* split_comp := comps r g b (rd (Palette.tree_split_elt pal) tree_root) in
      let split_pos := rd (Palette.tree_split pal) tree_root in
      if split_pos >? split_comp then
        let* best := get_closest_pallete_color fuel pal r g b best (tree_root * 2) in
        if snd best >? split_pos - split_comp
        then get_closest_pallete_color fuel pal r g b best (tree_root * 2 + 1)
        else Ok best
      else
        let* best := get_closest_pallete_color fuel pal r g b best (tree_root * 2 + 1) in
        if snd best >? split_comp - split_pos
        then get_closest_pallete_color fuel pal r g b best (tree_root * 2)
        else Ok best
  end.

(** The query as its callers run it, from the root (node 1); the recursion
    is [bit_depth] levels deep. *)
Definition closest_from_root (pal : Palette.t) (r g b best_ind : Z) : result (Z * Z) :=
  get_closest_pallete_color (S (Z.to_nat (Palette.bit_depth pal))) pal r g b
    (best_ind, 1000000) 1.

(** [split] works on the pointer (image, off) and returns the palette and
    the reordered buffer. *)
Fixpoint split (fuel : nat) (pal : Palette.t) (image : list Z)
    (off num_pixels first_elt last_elt split_elt split_dist tree_node : Z)
    (build_for_dither : bool) : result (Palette.t * list Z) :=
  match fuel with
  | O => Err OutOfFuel
  | S fuel =>
    if (last_elt <=? first_elt) || (num_pixels =? 0) then Ok (pal, image)
    else if last_elt =? first_elt + 1 then
      (* base case, bottom of the tree *)
      if build_for_dither && (first_elt =? 1) then
        Ok (set_color pal first_elt (find_darkest_color image off num_pixels), image)
      else if build_for_dither
              && (first_elt =? Z.shiftl 1 (Palette.bit_depth pal) - 1) then
        Ok (set_color pal first_elt (find_lightest_color image off num_pixels), image)
      else
        Ok (set_color pal first_elt (find_subcube_average image off num_pixels), image)
    else
      let '(r_range, g_range, b_range) := find_largest_range image off num_pixels in
      let split_com := 1 in
      let split_com := if b_range >? g_range then 2 else split_com in
      let split_com :=
        if (r_range >? b_range) && (r_range >? g_range) then 0 else split_com in
      let sub_pixels_a :=
        usize (num_pixels * usize (split_elt - first_elt))
        / usize (last_elt - first_elt) in
      let sub_pixels_b := usize (num_pixels - sub_pixels_a) in
      let* image :=
        partition_by_median (S (Z.to_nat num_pixels)) image off 0 num_pixels
          split_com sub_pixels_a in
      let pal := set_tree_split_elt pal tree_node split_com in
      let pal := set_tree_split pal tree_node
                   (rd image (off + (sub_pixels_a * 4 + split_com))) in
      let* (pal, image) :=
        split fuel pal image off sub_pixels_a first_elt split_elt
          (usize (split_elt - split_dist)) (split_dist / 2) (tree_node * 2)
          build_for_dither in
      split fuel pal image (off + sub_pixels_a * 4) sub_pixels_b split_elt last_elt
        (usize (split_elt + split_dist)) (split_dist / 2) (tree_node * 2 + 1)
        build_for_dither
  end.

(** The loop body of [pick_changed_pixels]; the state is the frame buffer,
    the write cursor [wit] (a byte offset) and [num_changed]. *)
Definition pick_changed_body (last_frame : list Z) (i : Z)
    (st : list Z * Z * Z) : list Z * Z * Z :=
  let '(frame, wit, num_changed) := st in
  if negb (rd last_frame (i * 4) =? rd frame (i * 4))
     || negb (rd last_frame (i * 4 + 1) =? rd frame (i * 4 + 1))
     || negb (rd last_frame (i * 4 + 2) =? rd frame (i * 4 + 2)) then
    let frame := wr frame wit (rd frame (i * 4)) in
    let frame := wr frame (wit + 1) (rd frame (i * 4 + 1)) in
    let frame := wr frame (wit + 2) (rd frame (i * 4 + 2)) in
    (frame, wit + 4, num_changed + 1)
  else (frame, wit, num_changed).

Definition pick_changed_pixels (last_frame frame : list Z) (num_pixels : Z)
    : list Z * Z :=
  let '(frame, _, num_changed) :=
    for_pure (Z.to_nat num_pixels) 0 (pick_changed_body last_frame) (frame, 0, 0) in
  (frame, num_changed).

(** [std::make_unique<u8[]>(image_size)] filled from [src]. *)
Definition copy_image (src : list Z) (image_size : Z) : list Z :=
  take (Z.to_nat image_size) src.

(** The constructor [Palette::Palette].  [uninit] holds the indeterminate
    initial contents of the five arrays.  The arrays have 256 cells and the
    constructor stores at [1 << (bit_depth - 1)]: a bit depth outside
    [1, 8] is an error. *)
Definition Palette_new (uninit : Palette.t) (last_frame : option (list Z))
    (next_frame : list Z) (width height bit_depth : Z) (build_for_dither : bool)
    : result Palette.t :=
  if negb ((1 <=? bit_depth) && (bit_depth <=? 8)) then Err BadBitDepth else
  let pal := set_bit_depth uninit bit_depth in
  let image_size := usize (width * height * 4) in
  let destroyable_image := copy_image next_frame image_size in
  let num_pixels := usize (width * height) in
  let '(destroyable_image, num_pixels) :=
    match last_frame with
    | Some last_frame => pick_changed_pixels last_frame destroyable_image num_pixels
    | None => (destroyable_image, num_pixels)
    end in
  let last_elt := Z.shiftl 1 bit_depth in
  let split_elt := Z.quot last_elt 2 in
  let split_dist := Z.quot split_elt 2 in
  let* (pal, _) :=
    split (S (Z.to_nat bit_depth)) pal destroyable_image 0 num_pixels 1 last_elt
      split_elt split_dist 1 build_for_dither in
  (* add the bottom node for the transparency index *)
  let pal := set_tree_split pal (Z.shiftl 1 (bit_depth - 1)) 0 in
  let pal := set_tree_split_elt pal (Z.shiftl 1 (bit_depth - 1)) 0 in
  Ok (set_color pal 0 (0, 0, 0)).

Definition fputc (c : Z) (f : list Z) : list Z := f ++ [u8 c].

Definition Palette_write (pal : Palette.t) (f : list Z) : list Z :=
  let f := fputc 0 (fputc 0 (fputc 0 f)) in
  for_pure (Z.to_nat (Z.shiftl 1 (Palette.bit_depth pal) - 1)) 1
    (fun i f =>
       fputc (rd (Palette.b pal) i)
         (fputc (rd (Palette.g pal) i) (fputc (rd (Palette.r pal) i) f)))
    f.

(** ** Quantizers *)

(** The [last_frame] argument of the quantizers: [Writer::write_frame] passes
    either [nullptr] or the very buffer it also passes as [out_frame]. *)
Inductive frame_ptr : Type :=
| Null
| Separate (buf : list Z)   (* a buffer of its own *)
| SameAsOut.                (* the buffer [out_frame] points to *)

Definition is_null (p : frame_ptr) : bool :=
  match p with Null => true | _ => false end.

(** What a read through the pointer sees when [out_frame] holds [out]. *)
Definition deref (p : frame_ptr) (out : list Z) : list Z :=
  match p with
  | Null => []
  | Separate buf => buf
  | SameAsOut => out
  end.

(** [err * weight / 16] on [i32]; for the weight 1 the source writes
    [err / 16]. *)
Definition share (weight err : Z) : result Z :=
  if weight =? 1 then Ok (Z.quot err 16)
  else let* m := i32 (err * weight) in Ok (Z.quot m 16).

(** [pix += max(-pix, err * weight / 16)] on [i32]; yields the new value of
    [pix]. *)
Definition add_channel (pix err weight : Z) : result Z :=
  let* neg := i32 (- pix) in
  let* inc := share weight err in
  i32 (pix + Z.max neg inc).

(** [pixN[c] += max(-pixN[c], c_err * weight / 16)] for the three colour
    channels of the pixel [loc], when [loc < num_pixels]. *)
Definition add_error (quant_pixels : list Z) (num_pixels loc weight : Z)
    (r_err g_err b_err : Z) : result (list Z) :=
  if loc <? num_pixels then
    let q := quant_pixels in
    let* v := add_channel (rd q (4 * loc)) r_err weight in
    let q := wr q (4 * loc) v in
    let* v := add_channel (rd q (4 * loc + 1)) g_err weight in
    let q := wr q (4 * loc + 1) v in
    let* v := add_channel (rd q (4 * loc + 2)) b_err weight in
    Ok (wr q (4 * loc + 2) v)
  else Ok quant_pixels.

Definition quantloc_7 (width x y : Z) : Z := usize (y * width + x + 1).
Definition quantloc_3 (width x y : Z) : Z := usize (y * width + width + x - 1).
Definition quantloc_5 (width x y : Z) : Z := usize (y * width + width + x).
Definition quantloc_1 (width x y : Z) : Z := usize (y * width + width + x + 1).

(** The error propagation at the end of the loop body of [dither_image]. *)
Definition propagate (q : list Z) (num_pixels width x y r_err g_err b_err : Z)
    : result (list Z) :=
  let* q := add_error q num_pixels (quantloc_7 width x y) 7 r_err g_err b_err in
  let* q := add_error q num_pixels (quantloc_3 width x y) 3 r_err g_err b_err in
  let* q := add_error q num_pixels (quantloc_5 width x y) 5 r_err g_err b_err in
  add_error q num_pixels (quantloc_1 width x y) 1 r_err g_err b_err.

(** [(v + 127) / 256] on [i32]: the colour a scaled value rounds to. *)
Definition rounded (v : Z) : Z := Z.quot (v + 127) 256.

(** [next_pix[c] - static_cast<int32_t>(pal.c[best_ind]) * 256] *)
Definition pixel_error (v col : Z) : result Z := i32 (v - col * 256).

(** The body of the inner loop of [dither_image] at pixel (x, y); the state
    is [quant_pixels].  [last] is what [last_frame] points to. *)
Definition dither_pixel (last_frame : frame_ptr) (last : list Z) (pal : Palette.t)
    (num_pixels width : Z) (y x : Z) (q : list Z) : result (list Z) :=
  let i := usize (y * width + x) in
  (* Compute the colors we want (rounding to nearest) *)
  let* _ := i32 (rd q (4 * i) + 127) in
  let rr := rounded (rd q (4 * i)) in
  let* _ := i32 (rd q (4 * i + 1) + 127) in
  let gg := rounded (rd q (4 * i + 1)) in
  let* _ := i32 (rd q (4 * i + 2) + 127) in
  let bb := rounded (rd q (4 * i + 2)) in
  if negb (is_null last_frame)
     && (rd last (4 * i) =? rr) && (rd last (4 * i + 1) =? gg)
     && (rd last (4 * i + 2) =? bb) then
    let q := wr q (4 * i) rr in
    let q := wr q (4 * i + 1) gg in
    let q := wr q (4 * i + 2) bb in
    Ok (wr q (4 * i + 3) transparency_index)
  else
    let* best := closest_from_root pal rr gg bb transparency_index in
    let best_ind := fst best in
    let* r_err := pixel_error (rd q (4 * i)) (rd (Palette.r pal) best_ind) in
    let* g_err := pixel_error (rd q (4 * i + 1)) (rd (Palette.g pal) best_ind) in
    let* b_err := pixel_error (rd q (4 * i + 2)) (rd (Palette.b pal) best_ind) in
    let q := wr q (4 * i) (rd (Palette.r pal) best_ind) in
    let q := wr q (4 * i + 1) (rd (Palette.g pal) best_ind) in
    let q := wr q (4 * i + 2) (rd (Palette.b pal) best_ind) in
    let q := wr q (4 * i + 3) best_ind in
    propagate q num_pixels width x y r_err g_err b_err.

(** [quant_pixels] initially holds color*256 for all pixels. *)
Definition quant_init (next_frame : list Z) (num_pixels : Z) : list Z :=
  (fun i => rd next_frame i * 256) <$> seqZ 0 (usize (num_pixels * 4)).

(** The two nested loops of [dither_image], run for the first [rows] rows. *)
Definition dither_rows (last_frame : frame_ptr) (last : list Z) (pal : Palette.t)
    (num_pixels width : Z) (rows : nat) (q : list Z) : result (list Z) :=
  for_loop rows 0
    (fun y q =>
       for_loop (Z.to_nat width) 0
         (dither_pixel last_frame last pal num_pixels width y) q)
    q.

Definition dither_image (last_frame : frame_ptr) (next_frame out_frame : list Z)
    (width height : Z) (pal : Palette.t) : result (list Z) :=
  let num_pixels := usize (width * height) in
  let quant_pixels := quant_init next_frame num_pixels in
  let* quant_pixels :=
    dither_rows last_frame (deref last_frame out_frame) pal num_pixels width
      (Z.to_nat height) quant_pixels in
  (* Copy the palettized result to the output buffer *)
  Ok (for_pure (Z.to_nat (usize (num_pixels * 4))) 0
        (fun i out_frame => wr out_frame i (u8 (rd quant_pixels i))) out_frame).

(** The loop body of [threshold_image]; the state is the buffer behind
    [out_frame].  Every read through [last_frame] sees the current state of
    that buffer when the two pointers are the same. *)
Definition threshold_pixel (last_frame : frame_ptr) (next_frame : list Z)
    (pal : Palette.t) (i : Z) (out : list Z) : result (list Z) :=
  if negb (is_null last_frame)
     && (rd (deref last_frame out) (4 * i) =? rd next_frame (4 * i))
     && (rd (deref last_frame out) (4 * i + 1) =? rd next_frame (4 * i + 1))
     && (rd (deref last_frame out) (4 * i + 2) =? rd next_frame (4 * i + 2)) then
    let out := wr out (4 * i) (rd (deref last_frame out) (4 * i)) in
    let out := wr out (4 * i + 1) (rd (deref last_frame out) (4 * i + 1)) in
    let out := wr out (4 * i + 2) (rd (deref last_frame out) (4 * i + 2)) in
    Ok (wr out (4 * i + 3) transparency_index)
  else
    (* palettize the pixel *)
    let* best :=
      closest_from_root pal (rd next_frame (4 * i)) (rd next_frame (4 * i + 1))
        (rd next_frame (4 * i + 2)) 1 in
    let best_ind := fst best in
    let out := wr out (4 * i) (rd (Palette.r pal) best_ind) in
    let out := wr out (4 * i + 1) (rd (Palette.g pal) best_ind) in
    let out := wr out (4 * i + 2) (rd (Palette.b pal) best_ind) in
    Ok (wr out (4 * i + 3) (u8 best_ind)).

Definition threshold_image (last_frame : frame_ptr) (next_frame out_frame : list Z)
    (width height : Z) (pal : Palette.t) : result (list Z) :=
  let num_pixels := usize (width * height) in
  for_loop (Z.to_nat num_pixels) 0 (threshold_pixel last_frame next_frame pal)
    out_frame.

(** ** BitStatus: the LZW output one bit at a time *)

Module BitStatus.
Record t : Type := mk {
  bit_index : Z;    (* how many bits in the partial byte written so far *)
  byte : Z;         (* current partial byte *)
  chunk_index : Z;
  chunk : list Z    (* array<u8, 256> *)
}.
End BitStatus.

(** insert a single bit; the store [chunk[chunk_index++]] is checked
    against the 256 cells of the array. *)
Definition write_bit (stat : BitStatus.t) (bit : Z) : result BitStatus.t :=
  let bit := Z.land bit 1 in
  let bit := u32 (Z.shiftl bit (BitStatus.bit_index stat)) in
  let byte := u8 (Z.lor (BitStatus.byte stat) bit) in
  let bit_index := u8 (BitStatus.bit_index stat + 1) in
  if bit_index >? 7 then
    (* move the newly-finished byte to the chunk buffer *)
    if BitStatus.chunk_index stat <? 256 then
      Ok (BitStatus.mk 0 0 (u32 (BitStatus.chunk_index stat + 1))
            (wr (BitStatus.chunk stat) (BitStatus.chunk_index stat) byte))
    else Err ChunkOverflow
  else
    Ok (BitStatus.mk bit_index byte (BitStatus.chunk_index stat)
          (BitStatus.chunk stat)).

(** write all bytes so far to the file *)
Definition write_chunk (stat : BitStatus.t) (f : list Z) : BitStatus.t * list Z :=
  let f := fputc (BitStatus.chunk_index stat) f in
  let f := f ++ take (Z.to_nat (BitStatus.chunk_index stat)) (BitStatus.chunk stat) in
  (BitStatus.mk 0 0 0 (BitStatus.chunk stat), f).

(** One iteration of the loop of [write_code]; the state is
    (stat, file, code). *)
Definition write_code_bit (st : BitStatus.t * list Z * Z)
    : result (BitStatus.t * list Z * Z) :=
  let '(stat, f, code) := st in
  let* stat := write_bit stat code in
  let code := Z.shiftr code 1 in
  if BitStatus.chunk_index stat =? 255 then
    let '(stat, f) := write_chunk stat f in Ok (stat, f, code)
  else Ok (stat, f, code).

Definition write_code (stat : BitStatus.t) (f : list Z) (code length : Z)
    : result (BitStatus.t * list Z) :=
  let* st := for_loop (Z.to_nat length) 0 (fun _ => write_code_bit) (stat, f, code) in
  Ok (fst st).

(** ** LZW compression *)

Record lzw_state : Type := mk_lzw {
  codetree : gmap (Z * Z) Z;   (* codetree[c].next[v], 0 where absent *)
  curr_code : Z;
  code_size : Z;
  max_code : Z;
  stat : BitStatus.t;
  file : list Z
}.

Definition codetree_next (codetree : gmap (Z * Z) Z) (code value : Z) : Z :=
  default 0 (codetree !! (code, value)).

(** The body of the pixel loop of [write_lzw_image] for the input symbol
    [next_value]. *)
Definition lzw_pixel (min_code_size clear_code : Z) (next_value : Z)
    (s : lzw_state) : result lzw_state :=
  if curr_code s <? 0 then
    (* first value in a new run *)
    Ok (mk_lzw (codetree s) next_value (code_size s) (max_code s) (stat s) (file s))
  else if negb (codetree_next (codetree s) (curr_code s) next_value =? 0) then
    (* current run already in the dictionary *)
    Ok (mk_lzw (codetree s) (codetree_next (codetree s) (curr_code s) next_value)
          (code_size s) (max_code s) (stat s) (file s))
  else
    (* finish the current run, write a code *)
    let* (stat1, f1) := write_code (stat s) (file s) (u32 (curr_code s)) (code_size s) in
    (* insert the new run into the dictionary *)
    let max_code1 := u32 (max_code s + 1) in
    let codetree1 := <[(curr_code s, next_value) := max_code1 mod 65536]> (codetree s) in
    let code_size1 :=
      if max_code1 >=? Z.shiftl 1 (code_size s) then u32 (code_size s + 1)
      else code_size s in
    if max_code1 =? 4095 then
      (* the dictionary is full, clear it out and begin anew *)
      let* (stat2, f2) := write_code stat1 f1 clear_code code_size1 in
      Ok (mk_lzw ∅ next_value (u32 (min_code_size + 1)) (u32 (clear_code + 1))
            stat2 f2)
    else
      Ok (mk_lzw codetree1 next_value code_size1 max_code1 stat1 f1).

(** [while (stat.bit_index) stat.write_bit(0);] *)
Fixpoint pad_bits (fuel : nat) (stat : BitStatus.t) : result BitStatus.t :=
  match fuel with
  | O => Err OutOfFuel
  | S fuel =>
    if BitStatus.bit_index stat =? 0 then Ok stat
    else let* stat := write_bit stat 0 in pad_bits fuel stat
  end.

(** graphics control extension, image descriptor and local color table *)
Definition write_frame_header (f : list Z) (left top width height delay : Z)
    (pal : Palette.t) : list Z :=
  let f := fputc 0x21 f in
  let f := fputc 0xf9 f in
  let f := fputc 0x04 f in
  let f := fputc 0x05 f in
  let f := fputc (Z.land delay 0xff) f in
  let f := fputc (Z.land (Z.shiftr delay 8) 0xff) f in
  let f := fputc transparency_index f in
  let f := fputc 0 f in
  let f := fputc 0x2c f in
  let f := fputc (Z.land left 0xff) f in
  let f := fputc (Z.land (Z.shiftr left 8) 0xff) f in
  let f := fputc (Z.land top 0xff) f in
  let f := fputc (Z.land (Z.shiftr top 8) 0xff) f in
  let f := fputc (Z.land width 0xff) f in
  let f := fputc (Z.land (Z.shiftr width 8) 0xff) f in
  let f := fputc (Z.land height 0xff) f in
  let f := fputc (Z.land (Z.shiftr height 8) 0xff) f in
  let f := fputc (0x80 + Palette.bit_depth pal - 1) f in
  Palette_write pal f.

(** The symbol the encoder reads for pixel (x, y): the fourth byte of the
    pixel quad. *)
Definition lzw_input (image : list Z) (width y x : Z) : Z :=
  rd image (usize (y * width + x) * 4 + 3).

(** write the image header, LZW-compress and write out the image.
    [chunk0] holds the indeterminate initial contents of [stat.chunk]. *)
Definition write_lzw_image (chunk0 : list Z) (f : list Z) (image : list Z)
    (left top width height delay : Z) (pal : Palette.t) : result (list Z) :=
  let f := write_frame_header f left top width height delay pal in
  let min_code_size := Palette.bit_depth pal in
  let clear_code := u32 (Z.shiftl 1 (Palette.bit_depth pal)) in
  let f := fputc min_code_size f in
  let init_code_size := u32 (min_code_size + 1) in
  let init_max_code := u32 (clear_code + 1) in
  let init_stat := BitStatus.mk 0 0 0 chunk0 in
  (* start with a fresh LZW dictionary *)
  let* (stat0, f) := write_code init_stat f clear_code init_code_size in
  let* s :=
    for_loop (Z.to_nat height) 0
      (fun y s =>
         for_loop (Z.to_nat width) 0
           (fun x s => lzw_pixel min_code_size clear_code (lzw_input image width y x) s)
           s)
      (mk_lzw ∅ (-1) init_code_size init_max_code stat0 f) in
  (* compression footer *)
  let* (stat1, f) := write_code (stat s) (file s) (u32 (curr_code s)) (code_size s) in
  let* (stat2, f) := write_code stat1 f clear_code (code_size s) in
  let* (stat3, f) :=
    write_code stat2 f (u32 (clear_code + 1)) (u32 (min_code_size + 1)) in
  (* write out the last partial chunk *)
  let* stat4 := pad_bits 8 stat3 in
  let '(_, f) :=
    if negb (BitStatus.chunk_index stat4 =? 0) then write_chunk stat4 f
    else (stat4, f) in
  Ok (fputc 0 f).

(** ** Writer *)

Module Writer.
Record t : Type := mk {
  f : option (list Z);          (* the open FILE: the bytes written so far *)
  old_image : option (list Z);
  first_frame : bool
}.
End Writer.

(** The files that were closed, with their final contents, in the order of
    the [fclose] calls. *)
Definition disk : Type := list (list Z).

(** The deleter of [Writer::File], the lambda of [Writer::open]. *)
Definition deleter (f : list Z) (d : disk) : disk :=
  d ++ [fputc 0x3b f].

(** Resetting or destroying the [unique_ptr]: the deleter runs on a
    non-null pointer only. *)
Definition release (f : option (list Z)) (d : disk) : disk :=
  match f with
  | Some f => deleter f d
  | None => d
  end.

Definition fputs (s : list Z) (f : list Z) : list Z := f ++ s.

Definition GIF89a : list Z := [71; 73; 70; 56; 57; 97].
Definition NETSCAPE2_0 : list Z := [78; 69; 84; 83; 67; 65; 80; 69; 50; 46; 48].

(** [Writer::open]; [fopen_ok] tells whether [fopen] returned a stream. *)
Definition Writer_open (fopen_ok : bool) (width height delay bit_depth : Z)
    (dither : bool) : option Writer.t :=
  if negb fopen_ok then None
  else
    let old_image := replicate (Z.to_nat (usize (width * height * 4))) 0 in
    let f := fputs GIF89a [] in
    (* screen descriptor *)
    let f := fputc (Z.land width 0xff) f in
    let f := fputc (Z.land (Z.shiftr width 8) 0xff) f in
    let f := fputc (Z.land height 0xff) f in
    let f := fputc (Z.land (Z.shiftr height 8) 0xff) f in
    let f := fputc 0xf0 f in
    let f := fputc 0 f in
    let f := fputc 0 f in
    (* the "global" palette *)
    let f := fputc 0 (fputc 0 (fputc 0 f)) in
    let f := fputc 0 (fputc 0 (fputc 0 f)) in
    let f :=
      if negb (delay =? 0) then
        let f := fputc 0x21 f in
        let f := fputc 0xff f in
        let f := fputc 11 f in
        let f := fputs NETSCAPE2_0 f in
        let f := fputc 3 f in
        let f := fputc 1 f in
        let f := fputc 0 f in
        let f := fputc 0 f in
        fputc 0 f
      else f in
    Some (Writer.mk (Some f) (Some old_image) true).

(** The indeterminate memory a call of [write_frame] starts from. *)
Record uninit : Type := mk_uninit {
  uninit_pal : Palette.t;
  uninit_chunk : list Z
}.

(** [Writer::write_frame]; returns the flag and the writer.  The
    quantizers and the LZW encoder go through [4 * width * height] bytes of
    the buffer [old_image], which [Writer::open] allocated once: a larger
    frame is an error. *)
Definition write_frame (u : uninit) (w : Writer.t) (image : list Z)
    (width height delay bit_depth : Z) (dither : bool)
    : result (bool * Writer.t) :=
  match Writer.f w with
  | None => Ok (false, w)
  | Some f =>
    let buf := default [] (Writer.old_image w) in
    if Z.of_nat (length buf) <? 4 * usize (width * height) then Err FrameOverrun
    else
    let old_image := if Writer.first_frame w then Null else SameAsOut in
    let* pal :=
      Palette_new (uninit_pal u)
        (if dither || Writer.first_frame w then None else Some buf)
        image width height bit_depth dither in
    let* buf :=
      if dither then dither_image old_image image buf width height pal
      else threshold_image old_image image buf width height pal in
    let* f := write_lzw_image (uninit_chunk u) f buf 0 0 width height delay pal in
    Ok (true, Writer.mk (Some f) (Some buf) false)
  end.

(** [Writer::close]: assigning [nullptr] to [f] runs the deleter. *)
Definition Writer_close (w : Writer.t) (d : disk) : bool * Writer.t * disk :=
  match Writer.f w with
  | None => (false, w, d)
  | Some _ =>
    (true, Writer.mk None None (Writer.first_frame w), release (Writer.f w) d)
  end.

(** The destructor of a [Writer]: its members are destroyed. *)
Definition Writer_drop (w : Writer.t) (d : disk) : disk :=
  release (Writer.f w) d.

(** ** Executions of a writer *)

(** What a caller does with a writer between [open] and the end of its
    life. *)
Inductive call : Type :=
| CallWriteFrame (u : uninit) (image : list Z)
    (width height delay bit_depth : Z) (dither : bool)
| CallClose.

Definition is_close (c : call) : bool :=
  match c with CallClose => true | _ => false end.

Definition run_call (c : call) (st : Writer.t * disk) : result (Writer.t * disk) :=
  let '(w, d) := st in
  match c with
  | CallWriteFrame u image width height delay bit_depth dither =>
    let* r := write_frame u w image width height delay bit_depth dither in
    Ok (snd r, d)
  | CallClose =>
    let '(_, w, d) := Writer_close w d in Ok (w, d)
  end.

Fixpoint run (cs : list call) (st : Writer.t * disk) : result (Writer.t * disk) :=
  match cs with
  | [] => Ok st
  | c :: cs => let* st := run_call c st in run cs st
  end.

(** The calls made before the first [close]. *)
Fixpoint before_close (cs : list call) : list call :=
  match cs with
  | [] => []
  | c :: cs => if is_close c then [] else c :: before_close cs
  end.

(** * Vocabulary of the properties *)

(** ** Buffers and palettes *)

Definition nonneg (q : list Z) : Prop := forall j, 0 <= rd q j.

Definition bytes (l : list Z) : Prop := Forall (fun v => 0 <= v <= 255) l.

(** The palette colours are bytes. *)
Definition pal_bytes (pal : Palette.t) : Prop :=
  forall k, 0 <= rd (Palette.r pal) k <= 255
            /\ 0 <= rd (Palette.g pal) k <= 255
            /\ 0 <= rd (Palette.b pal) k <= 255.

(** The five arrays of a palette are [array<u8, 256>]. *)
Definition pal_wf (pal : Palette.t) : Prop :=
  (length (Palette.r pal) = 256%nat /\ bytes (Palette.r pal))
  /\ (length (Palette.g pal) = 256%nat /\ bytes (Palette.g pal))
  /\ (length (Palette.b pal) = 256%nat /\ bytes (Palette.b pal))
  /\ (length (Palette.tree_split_elt pal) = 256%nat
      /\ bytes (Palette.tree_split_elt pal))
  /\ (length (Palette.tree_split pal) = 256%nat /\ bytes (Palette.tree_split pal)).

Definition pixel (buf : list Z) (i : Z) : Z * Z * Z * Z :=
  (rd buf (4 * i), rd buf (4 * i + 1), rd buf (4 * i + 2), rd buf (4 * i + 3)).

Definition same_rgb (a b : list Z) (i : Z) : bool :=
  (rd a (4 * i) =? rd b (4 * i)) && (rd a (4 * i + 1) =? rd b (4 * i + 1))
  && (rd a (4 * i + 2) =? rd b (4 * i + 2)).

(** ** The nearest-colour query *)

(** The L1 distance computed at the leaf of palette entry [ind]. *)
Definition leaf_diff (pal : Palette.t) (r g b : Z) (ind : Z) : Z :=
  Z.abs (r - rd (Palette.r pal) ind) + Z.abs (g - rd (Palette.g pal) ind)
  + Z.abs (b - rd (Palette.b pal) ind).

(** What a query may do to the in/out pair: leave it, or replace it by a
    palette entry other than the transparency slot, at a smaller
    distance. *)
Definition improves (pal : Palette.t) (r g b : Z) (best best' : Z * Z) : Prop :=
  best' = best
  \/ (1 <= fst best' <= 2 ^ Palette.bit_depth pal - 1 /\ snd best' < snd best
      /\ snd best' = leaf_diff pal r g b (fst best')).

(** The query is defined on trees whose split axes are valid. *)
Definition tree_ok (pal : Palette.t) : Prop :=
  forall n, 1 <= n < 2 ^ Palette.bit_depth pal ->
            0 <= rd (Palette.tree_split_elt pal) n <= 2.

(** A pair a leaf has been written to, for the query (r, g, b). *)
Definition found (pal : Palette.t) (r g b : Z) (best : Z * Z) : Prop :=
  1 <= fst best <= 2 ^ Palette.bit_depth pal - 1 /\ snd best <= r + g + b + 765.

(** The element range and split point of a node [k] levels above the
    leaves, as [Palette::Palette] and [split] pass them down. *)
Definition node_inv (k : nat) (first_elt last_elt split_elt split_dist : Z) : Prop :=
  0 <= first_elt /\ last_elt <= 256
  /\ (last_elt <= first_elt + 1
      \/ match k with
         | O => False
         | S j =>
           last_elt = split_elt + 2 ^ Z.of_nat j
           /\ (first_elt = split_elt - 2 ^ Z.of_nat j
               \/ first_elt = split_elt - 2 ^ Z.of_nat j + 1)
           /\ split_dist = 2 ^ Z.of_nat j / 2
         end).

(** ** The threshold quantizer *)

(** The postcondition of pixel [i] on the output buffer [out]; the previous
    frame is what [last_frame] points to when the quantizer is called. *)
Definition threshold_post (last_frame : frame_ptr) (next_frame out_frame : list Z)
    (pal : Palette.t) (out : list Z) (i : Z) : Prop :=
  let prev := deref last_frame out_frame in
  if negb (is_null last_frame) && same_rgb prev next_frame i
  then pixel out i = (rd prev (4 * i), rd prev (4 * i + 1), rd prev (4 * i + 2), 0)
  else exists best_ind best_diff,
      closest_from_root pal (rd next_frame (4 * i)) (rd next_frame (4 * i + 1))
        (rd next_frame (4 * i + 2)) 1 = Ok (best_ind, best_diff)
      /\ pixel out i = (rd (Palette.r pal) best_ind, rd (Palette.g pal) best_ind,
                        rd (Palette.b pal) best_ind, best_ind).

(** The state of the loop before pixel [k]. *)
Definition threshold_inv (last_frame : frame_ptr) (next_frame out_frame : list Z)
    (pal : Palette.t) (k : Z) (out : list Z) : Prop :=
  length out = length out_frame
  /\ (forall j, 4 * k <= j -> rd out j = rd out_frame j)
  /\ forall i, 0 <= i < k -> threshold_post last_frame next_frame out_frame pal out i.

(** ** The bit stream and the LZW loop *)

(** The state between the bits of a code: at most 254 bytes are buffered. *)
Definition stat_ok (stat : BitStatus.t) : Prop :=
  0 <= BitStatus.bit_index stat <= 7 /\ 0 <= BitStatus.chunk_index stat <= 254.

(** The ranges the pixel loop of [write_lzw_image] keeps, for a bit depth in
    [1, 8] and input symbols that are bytes: codes stay below 4095 and
    [code_size] never exceeds 12. *)
Definition lzw_inv (min_code_size : Z) (s : lzw_state) : Prop :=
  -1 <= curr_code s < 4095
  /\ 2 ^ min_code_size + 1 <= max_code s < 4095
  /\ min_code_size + 1 <= code_size s <= 12
  /\ max_code s < 2 ^ code_size s
  /\ (forall c v, 0 <= codetree_next (codetree s) c v < 4095)
  /\ stat_ok (stat s).

(** The colour channels of every pixel lie in [0, M]. *)
Definition colours_within (M : Z) (q : list Z) : Prop :=
  forall p c, 0 <= p -> 0 <= c <= 2 -> 0 <= rd q (4 * p + c) <= M.

(** ** Error accumulation on the dither path *)

(** Pixel [j] holds the same value [v] in its three colour channels. *)
Definition chan (q : list Z) (j v : Z) : Prop :=
  rd q (4 * j) = v /\ rd q (4 * j + 1) = v /\ rd q (4 * j + 2) = v.

(** In a frame two pixels wide whose only palette colour is black, the
    dither pass is a recurrence on three values: the channel value of the
    pixel being visited and of the next two (the pixels further on still
    hold the input, white).  The whole value of a pixel is its error: 7/16
    and 3/16 of it go to the next pixel, 5/16 to the second, 1/16 to the
    third. *)
Definition window_step (w : Z * Z * Z) : Z * Z * Z :=
  let '(a, b, c) := w in
  (b + Z.quot (a * 7) 16 + Z.quot (a * 3) 16, c + Z.quot (a * 5) 16,
   65280 + Z.quot a 16).

Definition window (k : nat) : Z * Z * Z := Nat.iter k window_step (0, 65280, 65280).

(** The first [n] windows from [w] on hold values below 300000000: seven
    times such a value is an [i32]. *)
Fixpoint windows_small (n : nat) (w : Z * Z * Z) : bool :=
  match n with
  | O => true
  | S n =>
    let '(a, b, c) := w in
    (a <? 300000000) && (b <? 300000000) && (c <? 300000000)
    && windows_small n (window_step w)
  end.

(** The index the query returns for a pixel whose channels hold [a]. *)
Definition window_index (a : Z) : Z :=
  if 3 * rounded a <? 1000000 then 1 else 0.

(** The state of the buffer before pixel [k] of [num_pixels]. *)
Definition window_inv (num_pixels k : Z) (q : list Z) : Prop :=
  length q = Z.to_nat (4 * num_pixels)
  /\ (k < num_pixels -> chan q k (fst (fst (window (Z.to_nat k)))))
  /\ (k + 1 < num_pixels -> chan q (k + 1) (snd (fst (window (Z.to_nat k)))))
  /\ (k + 2 < num_pixels -> chan q (k + 2) (snd (window (Z.to_nat k))))
  /\ (forall j, k + 3 <= j < num_pixels -> chan q j 65280)
  /\ (forall j, 0 <= j < k ->
        pixel q j = (0, 0, 0, window_index (fst (fst (window (Z.to_nat j)))))).

(** ** What a decoder shows *)

(** The colour a decoder shows for pixel [i] of a frame, after the spec's
    glossary (palette, transparency index, delta encoding): the symbol of the
    pixel selects an entry of the frame's colour table, and the transparency
    index keeps what the canvas showed before. *)
Definition decoded (pal : Palette.t) (canvas frame : list Z) (i : Z) : Z * Z * Z :=
  let ind := rd frame (4 * i + 3) in
  if ind =? transparency_index
  then (rd canvas (4 * i), rd canvas (4 * i + 1), rd canvas (4 * i + 2))
  else (rd (Palette.r pal) ind, rd (Palette.g pal) ind, rd (Palette.b pal) ind).

Definition buffered (frame : list Z) (i : Z) : Z * Z * Z :=
  (rd frame (4 * i), rd frame (4 * i + 1), rd frame (4 * i + 2)).

(** ** Concrete writers, palettes and frames *)

(** A default-constructed [Writer]: never opened. *)
Definition Writer_default : Writer.t := Writer.mk None None true.

Definition demo_uninit : uninit :=
  mk_uninit (Palette.mk 0 (replicate 256 0) (replicate 256 0) (replicate 256 0)
               (replicate 256 0) (replicate 256 0))
            (replicate 256 0).

Definition demo_uninit_77 : uninit :=
  mk_uninit (Palette.mk 0 (replicate 256 77) (replicate 256 0) (replicate 256 0)
               (replicate 256 0) (replicate 256 0))
            (replicate 256 0).

Definition demo_calls : list call :=
  [CallWriteFrame demo_uninit [10; 20; 30; 255] 1 1 0 1 false; CallClose;
   CallWriteFrame demo_uninit [10; 20; 30; 255] 1 1 0 1 false; CallClose].

Definition demo_w0 : Writer.t :=
  Eval vm_compute in default Writer_default (Writer_open true 1 1 0 1 false).

Definition demo_end : Writer.t * disk :=
  Eval vm_compute in
    match run demo_calls (demo_w0, []) with
    | Ok st => st
    | Err _ => (Writer_default, [])
    end.

Definition demo_pal : Palette.t :=
  Palette.mk 1 [0; 200] [0; 100] [0; 50] [0; 0] [0; 0].

Definition demo_frame2 : list Z := [0; 0; 0; 255; 255; 255; 255; 255].

Definition demo_frame3 : list Z := [255; 0; 0; 255; 255; 0; 0; 255; 0; 0; 0; 255].



(** A frame two pixels wide: one black pixel, then [n] white ones. *)
Definition black_then_white (n : nat) : list Z :=
  [0; 0; 0; 255] ++ concat (replicate n [255; 255; 255; 255]).

(** The palette of the 2x940 frame [black_then_white 1879] at bit depth 1,
    built for dithering. *)
Definition black_pal : Palette.t :=
  Eval vm_compute in
    match Palette_new (uninit_pal demo_uninit) None (black_then_white 1879)
            2 940 1 true with
    | Ok pal => pal
    | Err _ => uninit_pal demo_uninit
    end.

Definition demo_dither_pal : Palette.t :=
  Eval vm_compute in
    match Palette_new (uninit_pal demo_uninit) None demo_frame3 3 1 1 true with
    | Ok pal => pal
    | Err _ => uninit_pal demo_uninit
    end.

(** ** Colour statistics *)

(** The three channels of the pixels [0, n) of the buffer (image, off) all
    lie in the byte range. *)
Definition rgb_bytes (image : list Z) (off n : Z) : Prop :=
  forall i c, 0 <= i < n -> 0 <= c <= 2 -> 0 <= pixat image off i c <= 255.

(** ** File layout *)

(** The value of a 16-bit little-endian field at byte [i] of a file. *)
Definition le16 (f : list Z) (i : Z) : Z := rd f i + 256 * rd f (i + 1).

(** The colour table [Palette::write] emits for the entries [1, n]. *)
Definition color_table (pal : Palette.t) (n : nat) : list Z :=
  [0; 0; 0]
  ++ concat ((fun i => [u8 (rd (Palette.r pal) i); u8 (rd (Palette.g pal) i);
                        u8 (rd (Palette.b pal) i)]) <$> seqZ 1 (Z.of_nat n)).

(** ** The bit stream *)

(** The [n] low bits of [v], least significant first. *)
Definition low_bits (v : Z) (n : nat) : list bool :=
  (fun i => Z.testbit v (Z.of_nat i)) <$> seq 0 n.

(** The bits a sequence of bytes carries, each byte least significant bit
    first. *)
Definition bits_of_bytes (l : list Z) : list bool :=
  concat ((fun v => low_bits v 8) <$> l).

(** The bits a [BitStatus] holds back: the finished bytes of the chunk,
    then the bits of the partial byte. *)
Definition buffered_bits (stat : BitStatus.t) : list bool :=
  bits_of_bytes (take (Z.to_nat (BitStatus.chunk_index stat)) (BitStatus.chunk stat))
  ++ low_bits (BitStatus.byte stat) (Z.to_nat (BitStatus.bit_index stat)).

(** A [BitStatus] with at most [m] finished bytes in its 256-byte chunk,
    whose partial byte has no bit set beyond [bit_index]. *)
Definition bit_inv (m : Z) (stat : BitStatus.t) : Prop :=
  0 <= BitStatus.bit_index stat <= 7
  /\ 0 <= BitStatus.chunk_index stat <= m
  /\ length (BitStatus.chunk stat) = 256%nat
  /\ 0 <= BitStatus.byte stat < 2 ^ BitStatus.bit_index stat.

(** A data sub-block as it lies in the file: the length byte, then the
    data. *)
Definition sub_block (b : list Z) : list Z := Z.of_nat (length b) :: b.

(** The bits of a sequence of codes, each with its width. *)
Definition code_bits (codes : list (Z * Z)) : list bool :=
  concat ((fun cn => low_bits (fst cn) (Z.to_nat (snd cn))) <$> codes).

(** From ([stat], [f]) to ([stat'], [f']) the bits [bits] went into the
    stream: the file grew by complete sub-blocks of 255 bytes, and bits are
    neither lost nor invented. *)
Definition emits (stat : BitStatus.t) (f : list Z) (bits : list bool)
    (stat' : BitStatus.t) (f' : list Z) : Prop :=
  exists blocks,
    f' = f ++ concat (sub_block <$> blocks)
    /\ Forall (fun b => length b = 255%nat) blocks
    /\ bit_inv 254 stat'
    /\ bits_of_bytes (concat blocks) ++ buffered_bits stat'
       = buffered_bits stat ++ bits.

(** The LZW loop without its output side: the dictionary state
    (codetree, curr_code, code_size, max_code) after the input symbol
    [next_value], and the codes handed to [write_code] for it, with their
    widths. *)
Definition lzw_step (min_code_size clear_code next_value : Z)
    (t : gmap (Z * Z) Z * Z * Z * Z) : gmap (Z * Z) Z * Z * Z * Z * list (Z * Z) :=
  let '(codetree, curr_code, code_size, max_code) := t in
  if curr_code <? 0 then
    (codetree, next_value, code_size, max_code, [])
  else if negb (codetree_next codetree curr_code next_value =? 0) then
    (codetree, codetree_next codetree curr_code next_value, code_size, max_code, [])
  else
    let max_code1 := u32 (max_code + 1) in
    let codetree1 := <[(curr_code, next_value) := max_code1 mod 65536]> codetree in
    let code_size1 :=
      if max_code1 >=? Z.shiftl 1 code_size then u32 (code_size + 1)
      else code_size in
    if max_code1 =? 4095 then
      (∅, next_value, u32 (min_code_size + 1), u32 (clear_code + 1),
       [(u32 curr_code, code_size); (clear_code, code_size1)])
    else
      (codetree1, next_value, code_size1, max_code1, [(u32 curr_code, code_size)]).

(** The codes of one frame: the clear code, the codes of the pixel loop and
    the footer (the last run, a clear code, the end code). *)
Definition lzw_codes (image : list Z) (width height : Z) (pal : Palette.t)
    : list (Z * Z) :=
  let min_code_size := Palette.bit_depth pal in
  let clear_code := u32 (Z.shiftl 1 (Palette.bit_depth pal)) in
  let init_code_size := u32 (min_code_size + 1) in
  let init_max_code := u32 (clear_code + 1) in
  let '(codetree, curr_code, code_size, max_code, codes) :=
    for_pure (Z.to_nat height) 0
      (fun y acc =>
         for_pure (Z.to_nat width) 0
           (fun x acc =>
              let '(t, codes) := acc in
              let '(t, new) :=
                lzw_step min_code_size clear_code (lzw_input image width y x) t in
              (t, codes ++ new))
           acc)
      (∅, -1, init_code_size, init_max_code, [(clear_code, init_code_size)]) in
  codes ++ [(u32 curr_code, code_size); (clear_code, code_size);
            (u32 (clear_code + 1), u32 (min_code_size + 1))].

(** ** Pixels of a buffer *)

(** The pixel quad [j] of the buffer (image, off). *)
Definition quad (image : list Z) (off j : Z) : Z * Z * Z * Z :=
  (pixat image off j RED, pixat image off j GREEN, pixat image off j BLUE,
   pixat image off j ALPHA).

(** The pixels [left, right) of the buffer, in order. *)
Definition quads (image : list Z) (off left right : Z) : list (Z * Z * Z * Z) :=
  quad image off <$> seqZ left (right - left).

(** Channel [c] of a quad. *)
Definition channel (q : Z * Z * Z * Z) (c : Z) : Z :=
  let '(r, g, b, a) := q in
  if c =? 0 then r else if c =? 1 then g else if c =? 2 then b else a.

(** The exchange of two indices. *)
Definition transpose (a b j : Z) : Z :=
  if j =? b then a else if j =? a then b else j.

(** The state of the loop of [partition] before index [i]: the pixels
    [left, store_index) are at most the pivot value in channel [elt], the
    pixels [store_index, i) at least; the pivot waits at [right - 1]. *)
Definition partition_inv (image0 : list Z) (off left right elt pivot_value : Z)
    (i : Z) (st : list Z * Z * bool) : Prop :=
  let '(image, store_index, _) := st in
  length image = length image0
  /\ left <= store_index <= i
  /\ (forall j, left <= j < store_index -> pixat image off j elt <= pivot_value)
  /\ (forall j, store_index <= j < i -> pivot_value <= pixat image off j elt)
  /\ pixat image off (right - 1) elt = pivot_value
  /\ quads image off left right ≡ₚ quads image0 off left right
  /\ (forall k, 0 <= k -> k < off + 4 * left \/ off + 4 * right <= k ->
        rd image k = rd image0 k).

(** The postcondition of [partition_by_median] on the range [left, right):
    pixel [needed_center] is in its sorted place for channel [com]. *)
Definition selected (image image' : list Z) (off left right com needed_center : Z)
    : Prop :=
  length image' = length image
  /\ (forall j, left <= j < needed_center ->
        pixat image' off j com <= pixat image' off needed_center com)
  /\ (forall j, needed_center < j < right ->
        pixat image' off needed_center com <= pixat image' off j com)
  /\ quads image' off left right ≡ₚ quads image off left right
  /\ (forall k, 0 <= k -> k < off + 4 * left \/ off + 4 * right <= k ->
        rd image' k = rd image k).

(** Three pixels with red 3, 1, 2. *)
Definition demo_three : list Z := [3; 0; 0; 255; 1; 0; 0; 255; 2; 0; 0; 255].

(** ** Changed pixels *)

(** The pixels among the first [n] whose colour differs between the two
    frames, in raster order. *)
Definition changed_pixels (last_frame frame : list Z) (n : Z) : list Z :=
  filter (fun i => same_rgb last_frame frame i = false) (seqZ 0 n).

(** The state of the loop of [pick_changed_pixels] before pixel [i]. *)
Definition pick_changed_inv (last_frame frame0 : list Z) (i : Z)
    (st : list Z * Z * Z) : Prop :=
  let '(frame, wit, num_changed) := st in
  length frame = length frame0
  /\ wit = 4 * num_changed
  /\ 0 <= num_changed <= i
  /\ num_changed = Z.of_nat (length (changed_pixels last_frame frame0 i))
  /\ buffered frame <$> seqZ 0 num_changed
     = buffered frame0 <$> changed_pixels last_frame frame0 i
  /\ (forall k, 4 * num_changed <= k -> rd frame k = rd frame0 k)
  /\ (forall j, 0 <= j -> rd frame (4 * j + 3) = rd frame0 (4 * j + 3)).

(** ** The dither quantizer *)

(** What the dither pass leaves at a pixel it is done with: the colour of
    the previous frame with the transparency index, or a palette colour
    with its index. *)
Definition dither_done (last_frame : frame_ptr) (last : list Z) (pal : Palette.t)
    (q : list Z) (j : Z) : Prop :=
  (is_null last_frame = false
   /\ pixel q j = (rd last (4 * j), rd last (4 * j + 1), rd last (4 * j + 2),
                   transparency_index))
  \/ exists ind,
      0 <= ind < 2 ^ Palette.bit_depth pal
      /\ pixel q j = (rd (Palette.r pal) ind, rd (Palette.g pal) ind,
                      rd (Palette.b pal) ind, ind).

(** The state of the dither pass before pixel [k], in a frame at least two
    pixels wide: the pixels before [k] are done. *)
Definition dither_inv (last_frame : frame_ptr) (last : list Z) (pal : Palette.t)
    (num_pixels k : Z) (q : list Z) : Prop :=
  length q = Z.to_nat (4 * num_pixels)
  /\ forall j, 0 <= j < k -> dither_done last_frame last pal q j.

(** The same for the index alone, whatever the width. *)
Definition dither_index_inv (pal : Palette.t) (num_pixels k : Z) (q : list Z) : Prop :=
  length q = Z.to_nat (4 * num_pixels)
  /\ forall j, 0 <= j < k -> 0 <= rd q (4 * j + 3) < 2 ^ Palette.bit_depth pal.

(** ** The k-d tree of a palette *)

(** Channel [c] of palette entry [e]. *)
Definition entry (pal : Palette.t) (c e : Z) : Z :=
  if c =? 0 then rd (Palette.r pal) e
  else if c =? 1 then rd (Palette.g pal) e
  else rd (Palette.b pal) e.

(** The tree is a heap: node [m], [h] levels above the leaves, has the
    children [m * 2] and [m * 2 + 1], and the leaves are the nodes
    2^D + e for the palette entries e, D being the bit depth.  Below the
    node lie the entries from [node_lo] up to [node_last], of which entry 0,
    the transparency slot, is no colour. *)
Definition node_lo (D : Z) (h : nat) (m : Z) : Z := m * 2 ^ Z.of_nat h - 2 ^ D.

Definition node_first (D : Z) (h : nat) (m : Z) : Z := Z.max 1 (node_lo D h m).

Definition node_last (D : Z) (h : nat) (m : Z) : Z := node_lo D h m + 2 ^ Z.of_nat h.

Definition at_level (D : Z) (h : nat) (m : Z) : Prop :=
  Z.of_nat h <= D /\ 2 ^ (D - Z.of_nat h) <= m < 2 * 2 ^ (D - Z.of_nat h).

(** The search invariant of the tree below node [m]: at every node that
    has colours on both sides, the split axis is a channel, no entry of the
    left half exceeds the split value in that channel and no entry of the
    right half is below it. *)
Fixpoint kd (pal : Palette.t) (h : nat) (m : Z) : Prop :=
  match h with
  | O => True
  | S j =>
    let D := Palette.bit_depth pal in
    let mid := node_last D (S j) m - 2 ^ Z.of_nat j in
    (node_last D (S j) m <= node_first D (S j) m + 1
     \/ (let c := rd (Palette.tree_split_elt pal) m in
         let v := rd (Palette.tree_split pal) m in
         0 <= c <= 2
         /\ (forall e, node_first D (S j) m <= e < mid -> entry pal c e <= v)
         /\ (forall e, mid <= e < node_last D (S j) m -> v <= entry pal c e)))
    /\ kd pal j (m * 2) /\ kd pal j (m * 2 + 1)
  end.

(** The inner nodes of the tree below node [m] (with [m] itself). *)
Fixpoint below (h : nat) (m x : Z) : Prop :=
  match h with
  | O => False
  | S j => x = m \/ below j (m * 2) x \/ below j (m * 2 + 1) x
  end.

(** Channel [c] of a colour. *)
Definition comp3 (col : Z * Z * Z) (c : Z) : Z :=
  let '(r, g, b) := col in if c =? 0 then r else if c =? 1 then g else b.

(** The axis [split] cuts along: the channel with the largest range, green
    before blue before red when ranges are equal. *)
Definition split_axis (image : list Z) (off num_pixels : Z) : Z :=
  let '(r_range, g_range, b_range) := find_largest_range image off num_pixels in
  if (r_range >? b_range) && (r_range >? g_range) then 0
  else if b_range >? g_range then 2 else 1.

(** What a call of [split] at node [m], [h] levels above the leaves,
    guarantees when it has at least one pixel for each of its entries. *)
Definition split_post (h : nat) (m : Z) (pal : Palette.t) (image : list Z)
    (off n first last : Z) (pal' : Palette.t) (image' : list Z) : Prop :=
  length image' = length image
  /\ quads image' off 0 n ≡ₚ quads image off 0 n
  /\ (forall k, 0 <= k -> k < off \/ off + 4 * n <= k -> rd image' k = rd image k)
  /\ pal_wf pal'
  /\ Palette.bit_depth pal' = Palette.bit_depth pal
  /\ (forall c e, 0 <= e -> e < first \/ last <= e -> entry pal' c e = entry pal c e)
  /\ (forall x, 0 <= x -> ~ below h m x ->
        rd (Palette.tree_split_elt pal') x = rd (Palette.tree_split_elt pal) x
        /\ rd (Palette.tree_split pal') x = rd (Palette.tree_split pal) x)
  /\ (forall c lo hi, 0 <= c <= 2 ->
        (forall j, 0 <= j < n -> lo <= pixat image off j c <= hi) ->
        forall e, first <= e < last -> lo <= entry pal' c e <= hi)
  /\ kd pal' h m.

(** The search invariant of a finished palette: every inner node has a
    channel as its axis, no entry of its left half exceeds the split value
    in that channel and no entry of its right half is below it. *)
Fixpoint search_tree (pal : Palette.t) (h : nat) (m : Z) : Prop :=
  match h with
  | O => True
  | S j =>
    let D := Palette.bit_depth pal in
    let mid := node_last D (S j) m - 2 ^ Z.of_nat j in
    let c := rd (Palette.tree_split_elt pal) m in
    let v := rd (Palette.tree_split pal) m in
    0 <= c <= 2
    /\ (forall e, node_first D (S j) m <= e < mid -> entry pal c e <= v)
    /\ (forall e, mid <= e < node_last D (S j) m -> v <= entry pal c e)
    /\ search_tree pal j (m * 2) /\ search_tree pal j (m * 2 + 1)
  end.

(** The pixels a palette is built from: all [n] pixels of the first frame,
    the changed ones of a later frame. *)
Definition palette_input (last_frame : option (list Z)) (next_frame : list Z)
    (n : Z) : list Z :=
  match last_frame with
  | Some last_frame => changed_pixels last_frame next_frame n
  | None => seqZ 0 n
  end.

(** A frame of three pixels and its palette at bit depth 2. *)
Definition demo_frame_rgb : list Z :=
  [200; 10; 30; 255; 20; 60; 70; 255; 90; 100; 110; 255].

Definition demo_tree_pal : Palette.t :=
  Eval vm_compute in
    match Palette_new (uninit_pal demo_uninit) None demo_frame_rgb 3 1 2 false with
    | Ok pal => pal
    | Err _ => uninit_pal demo_uninit
    end.

(** The last statements of the constructor: the bottom node for the
    transparency index and entry 0. *)
Definition finish (pal : Palette.t) : Palette.t :=
  let p := Z.shiftl 1 (Palette.bit_depth pal - 1) in
  set_color (set_tree_split_elt (set_tree_split pal p 0) p 0) 0 (0, 0, 0).

(** ** The chunk buffer *)

(** Two results that agree up to a relation on their values. *)
Definition rel_result {T : Type} (R : T -> T -> Prop) (r r' : result T) : Prop :=
  match r, r' with
  | Ok a, Ok b => R a b
  | Err e, Err e' => e = e'
  | _, _ => False
  end.

(** Two bit streams that differ only in the cells of the chunk buffer that
    have not been written since the last flush. *)
Definition same_stream (s s' : BitStatus.t) : Prop :=
  BitStatus.bit_index s' = BitStatus.bit_index s
  /\ BitStatus.byte s' = BitStatus.byte s
  /\ BitStatus.chunk_index s' = BitStatus.chunk_index s
  /\ 0 <= BitStatus.chunk_index s
  /\ length (BitStatus.chunk s) = 256%nat /\ length (BitStatus.chunk s') = 256%nat
  /\ take (Z.to_nat (BitStatus.chunk_index s)) (BitStatus.chunk s')
     = take (Z.to_nat (BitStatus.chunk_index s)) (BitStatus.chunk s).

Definition same_lzw (s s' : lzw_state) : Prop :=
  codetree s' = codetree s /\ curr_code s' = curr_code s
  /\ code_size s' = code_size s /\ max_code s' = max_code s
  /\ file s' = file s /\ same_stream (stat s) (stat s').

(** ** What a frame reads of a palette *)

(** Two palettes agree on the bit depth, on the entries below 2^bit_depth
    and on the tree nodes from 1 below 2^bit_depth. *)
Definition region_eq (pal pal' : Palette.t) : Prop :=
  Palette.bit_depth pal' = Palette.bit_depth pal
  /\ (forall c e, 0 <= e < 2 ^ Palette.bit_depth pal ->
        entry pal' c e = entry pal c e)
  /\ (forall x, 1 <= x < 2 ^ Palette.bit_depth pal ->
        rd (Palette.tree_split_elt pal') x = rd (Palette.tree_split_elt pal) x
        /\ rd (Palette.tree_split pal') x = rd (Palette.tree_split pal) x).

(** The arguments of a call of [split] at node [m], [h] levels above the
    leaves, of a palette of bit depth [D], on [n] pixels of bytes. *)
Definition split_pre (D : Z) (h : nat) (image : list Z)
    (off n first last selt dist m : Z) : Prop :=
  1 <= D <= 8 /\ at_level D h m
  /\ first = node_first D h m /\ last = node_last D h m
  /\ (forall j, h = S j -> selt = last - 2 ^ Z.of_nat j /\ dist = 2 ^ Z.of_nat j / 2)
  /\ 0 <= off /\ last - first <= n /\ 0 <= n < 2 ^ 48
  /\ off + 4 * n <= Z.of_nat (length image) /\ rgb_bytes image off n.

(** The colour [split] gives the entry of a leaf. *)
Definition leaf_color (D : Z) (image : list Z) (off n first : Z) (dither : bool)
    : Z * Z * Z :=
  if dither && (first =? 1) then find_darkest_color image off n
  else if dither && (first =? Z.shiftl 1 D - 1) then find_lightest_color image off n
  else find_subcube_average image off n.

(** Uninitialised memory other than [demo_uninit]'s. *)
Definition demo_uninit_99 : uninit :=
  mk_uninit (Palette.mk 0 (replicate 256 77) (replicate 256 3) (replicate 256 0)
               (replicate 256 9) (replicate 256 200))
            (replicate 256 99).

(** ** The codes of a frame *)

(** A code with its width: the code fits the width, and the width is one a
    GIF decoder of minimum code size [D] accepts. *)
Definition code_ok (D : Z) (c : Z * Z) : Prop :=
  0 <= fst c < 2 ^ snd c /\ D + 1 <= snd c <= 12.

(** The dictionary state between two pixels. *)
Definition codes_inv (D : Z) (t : gmap (Z * Z) Z * Z * Z * Z) : Prop :=
  let '(codetree, curr_code, code_size, max_code) := t in
  -1 <= curr_code <= max_code
  /\ 2 ^ D + 1 <= max_code < 4095
  /\ D + 1 <= code_size <= 12
  /\ max_code < 2 ^ code_size
  /\ forall c v, 0 <= codetree_next codetree c v <= max_code.

(** ** Decoding the codes of a frame *)

(** The symbols of a frame in raster order, as [write_lzw_image] reads
    them. *)
Definition lzw_symbols (image : list Z) (width height : Z) : list Z :=
  concat ((fun y => (fun x => lzw_input image width y x) <$> seqZ 0 width)
          <$> seqZ 0 height).

(** A reference decoder for a sequence of LZW codes, as the GIF format
    describes it; the repository has no decoder.  Its state is the string
    table for the codes from [clear + 2] on, the next free code and the
    string of the previous code. *)
Definition dec_state : Type := gmap Z (list Z) * Z * option (list Z).

Definition dec_init (clear : Z) : dec_state := (∅, clear + 2, None).

Definition dec_str (clear : Z) (table : gmap Z (list Z)) (c : Z) : option (list Z) :=
  if (0 <=? c) && (c <? clear) then Some [c] else table !! c.

Definition dec_step (clear : Z) (d : dec_state) (c : Z)
    : option (dec_state * list Z) :=
  let '(table, next, prev) := d in
  if c =? clear then Some (dec_init clear, [])
  else
    match prev with
    | None =>
      match dec_str clear table c with
      | Some s => Some ((table, next, Some s), s)
      | None => None
      end
    | Some p =>
      match (if c =? next then Some (p ++ take 1 p) else dec_str clear table c) with
      | Some s =>
        Some (if next <? 4096
              then (<[next := p ++ take 1 s]> table, next + 1, Some s)
              else (table, next, Some s), s)
      | None => None
      end
    end.

(** Decoding stops at the end code [clear + 1]. *)
Fixpoint lzw_decode (clear : Z) (d : dec_state) (codes : list Z)
    : option (list Z) :=
  match codes with
  | [] => None
  | c :: codes =>
    if c =? clear + 1 then Some []
    else
      match dec_step clear d c with
      | Some (d, s) =>
        match lzw_decode clear d codes with
        | Some rest => Some (s ++ rest)
        | None => None
        end
      | None => None
      end
  end.

(** Decoding a sequence of codes in two parts. *)
Fixpoint dec_steps (clear : Z) (d : dec_state) (codes : list Z)
    : option (dec_state * list Z) :=
  match codes with
  | [] => Some (d, [])
  | c :: codes =>
    match dec_step clear d c with
    | Some (d, s) =>
      match dec_steps clear d codes with
      | Some (d', rest) => Some (d', s ++ rest)
      | None => None
      end
    | None => None
    end
  end.

(** The string of a code of the encoder, [G] holding the strings of the
    dictionary codes. *)
Definition code_str (clear : Z) (G : gmap Z (list Z)) (c : Z) : list Z :=
  if c <? clear then [c] else default [] (G !! c).

(** The encoder between two pixels, against the decoder that has read the
    codes written so far: [G] holds the strings of the dictionary codes, [w]
    is the run the encoder has matched but not yet written, [out] what the
    decoder has produced. *)
Definition decode_inv (clear : Z) (G : gmap Z (list Z))
    (t : gmap (Z * Z) Z * Z * Z * Z) (d : dec_state) (w out syms : list Z) : Prop :=
  let '(codetree, curr_code, code_size, max_code) := t in
  let '(table, next, prev) := d in
    clear + 1 <= max_code < 4095
    /\ (forall k, is_Some (G !! k) <-> clear + 2 <= k <= max_code)
    /\ (forall c v k, codetree !! (c, v) = Some k ->
          clear + 2 <= k <= max_code
          /\ (0 <= c < clear \/ clear + 2 <= c <= max_code)
          /\ G !! k = Some (code_str clear G c ++ [v]))
    /\ (if curr_code <? 0 then w = [] /\ prev = None
        else (0 <= curr_code < clear \/ clear + 2 <= curr_code <= max_code)
             /\ code_str clear G curr_code = w /\ w <> [])
    /\ out ++ w = syms
    /\ match prev with
       | None => G = ∅ /\ max_code = clear + 1 /\ table = ∅ /\ next = clear + 2
       | Some p =>
         p <> [] /\ next = max_code /\ table = delete max_code G
         /\ G !! max_code = Some (p ++ take 1 w) /\ 0 <= curr_code
       end.

(** The encoder after the symbols [syms], with the codes written so far. *)
Definition decoded_so_far (D : Z) (syms : list Z)
    (acc : gmap (Z * Z) Z * Z * Z * Z * list (Z * Z)) : Prop :=
  exists G d w out,
    dec_steps (2 ^ D) (dec_init (2 ^ D)) (fst <$> snd acc) = Some (d, out)
    /\ Forall (fun c => c <> 2 ^ D + 1) (fst <$> snd acc)
    /\ decode_inv (2 ^ D) G (fst acc) d w out syms
    /\ (syms <> [] -> 0 <= snd (fst (fst (fst acc)))).

(** ** Whole executions *)

(** Two calls that differ at most in the uninitialised memory they start
    from. *)
Definition same_call (c c' : call) : Prop :=
  match c, c' with
  | CallWriteFrame _ image width height delay bit_depth dither,
    CallWriteFrame _ image' width' height' delay' bit_depth' dither' =>
    image' = image /\ width' = width /\ height' = height /\ delay' = delay
    /\ bit_depth' = bit_depth /\ dither' = dither
  | CallClose, CallClose => True
  | _, _ => False
  end.

(** A call that writes a dithered frame of bytes with at least
    2^bit_depth - 1 pixels, or closes the writer. *)
Definition dithered_call (c : call) : Prop :=
  match c with
  | CallWriteFrame u image width height delay bit_depth dither =>
    dither = true /\ 1 <= bit_depth <= 8
    /\ pal_wf (uninit_pal u) /\ length (uninit_chunk u) = 256%nat
    /\ 2 ^ bit_depth - 1 <= width * height < 2 ^ 48
    /\ 4 * (width * height) <= Z.of_nat (length image)
    /\ bytes image
  | CallClose => True
  end.

(** ** The dither pass on small frames *)

(** The sum of the cells of a buffer. *)
Definition total (q : list Z) : Z := foldr Z.add 0 q.

(** * Properties *)

(** ** Buffers and loops *)

Lemma rd_wr_cases (buf : list Z) (i v j : Z) :
  rd (wr buf i v) j = v \/ rd (wr buf i v) j = rd buf j.
Proof.
  unfold rd, wr.
  destruct (decide (Z.to_nat i = Z.to_nat j)) as [e|n].
  - rewrite e. destruct (decide (Z.to_nat j < length buf)%nat) as [Hlt|Hge].
    + left. by rewrite list_lookup_insert_eq.
    + right. rewrite list_insert_ge; [done|lia].
  - right. by rewrite list_lookup_insert_ne.
Qed.

Lemma rd_wr_same (buf : list Z) (i v : Z) :
  0 <= i -> i < Z.of_nat (length buf) -> rd (wr buf i v) i = v.
Proof.
  intros Hi Hlen. unfold rd, wr. rewrite list_lookup_insert_eq; [done|lia].
Qed.

Lemma rd_wr_other (buf : list Z) (i v j : Z) :
  0 <= i -> 0 <= j -> i <> j -> rd (wr buf i v) j = rd buf j.
Proof.
  intros Hi Hj Hne. unfold rd, wr. rewrite list_lookup_insert_ne; [done|lia].
Qed.

Lemma wr_length (buf : list Z) (i v : Z) : length (wr buf i v) = length buf.
Proof. unfold wr. apply length_insert. Qed.

Lemma for_pure_inv {T : Type} (P : Z -> T -> Prop) (body : Z -> T -> T) :
  forall (n : nat) (i : Z) (s : T),
    P i s ->
    (forall j t, i <= j < i + Z.of_nat n -> P j t -> P (j + 1) (body j t)) ->
    P (i + Z.of_nat n) (for_pure n i body s).
Proof.
  induction n as [|n IH]; intros i s H0 Hstep; simpl for_pure.
  - replace (i + Z.of_nat 0) with i by lia. exact H0.
  - replace (i + Z.of_nat (S n)) with (i + 1 + Z.of_nat n) by lia.
    apply IH.
    + apply Hstep; [lia|exact H0].
    + intros j t Hj. apply Hstep. lia.
Qed.

Lemma for_loop_inv {T : Type} (P : Z -> T -> Prop) (body : Z -> T -> result T) :
  forall (n : nat) (i : Z) (s s' : T),
    P i s ->
    (forall j t t', i <= j < i + Z.of_nat n -> P j t -> body j t = Ok t' ->
                    P (j + 1) t') ->
    for_loop n i body s = Ok s' ->
    P (i + Z.of_nat n) s'.
Proof.
  induction n as [|n IH]; intros i s s' H0 Hstep Hrun; simpl in Hrun.
  - injection Hrun as <-. replace (i + Z.of_nat 0) with i by lia. exact H0.
  - destruct (body i s) as [t|e] eqn:Hb; simpl in Hrun; [|discriminate].
    replace (i + Z.of_nat (S n)) with (i + 1 + Z.of_nat n) by lia.
    apply (IH (i + 1) t s'); [|intros j u u' Hj; apply Hstep; lia|exact Hrun].
    apply (Hstep i s t); [lia|exact H0|exact Hb].
Qed.

(** A loop whose body never fails on states of the invariant finishes. *)
Lemma for_loop_total {T : Type} (P : Z -> T -> Prop) (body : Z -> T -> result T) :
  forall (n : nat) (i : Z) (s : T),
    P i s ->
    (forall j t, i <= j < i + Z.of_nat n -> P j t ->
                 exists t', body j t = Ok t' /\ P (j + 1) t') ->
    exists s', for_loop n i body s = Ok s' /\ P (i + Z.of_nat n) s'.
Proof.
  induction n as [|n IH]; intros i s H0 Hstep; simpl for_loop.
  - exists s. replace (i + Z.of_nat 0) with i by lia. auto.
  - destruct (Hstep i s) as (t & Hb & Ht); [lia|exact H0|].
    rewrite Hb. simpl.
    replace (i + Z.of_nat (S n)) with (i + 1 + Z.of_nat n) by lia.
    apply IH; [exact Ht|]. intros j u Hj. apply Hstep. lia.
Qed.

(** ** The writer's life cycle *)

(** C7.  On a writer whose sink is released (closed before, or never
    opened), [write_frame] and [close] return false and leave the writer and
    the closed files as they are; [close] on an open writer returns true, and
    the writer it leaves is a released one. *)
Theorem closed_writer_reports_closed :
  forall (w : Writer.t) (d : disk),
    (Writer.f w = None ->
     (forall u image width height delay bit_depth dither,
        write_frame u w image width height delay bit_depth dither = Ok (false, w))
     /\ Writer_close w d = (false, w, d))
    /\ (forall s, Writer.f w = Some s ->
        exists w' d',
          Writer_close w d = (true, w', d')
          /\ Writer.f w' = None
          /\ Writer_close w' d' = (false, w', d')).
Proof.
  intros w d. split.
  - intros Hf. split.
    + intros. unfold write_frame. by rewrite Hf.
    + unfold Writer_close. by rewrite Hf.
  - intros s Hf. unfold Writer_close at 1. rewrite Hf.
    eexists _, _. split; [reflexivity|]. split; reflexivity.
Qed.

Lemma closed_writer_reports_closed_witness :
  Writer.f Writer_default = None
  /\ write_frame (mk_uninit (Palette.mk 0 [] [] [] [] []) []) Writer_default
       [1; 2; 3; 255] 1 1 0 1 false = Ok (false, Writer_default)
  /\ Writer_close Writer_default [] = (false, Writer_default, []).
Proof.
  destruct (closed_writer_reports_closed Writer_default []) as [H _].
  split; [reflexivity|].
  destruct (H eq_refl) as [Hw Hc]. split; [apply Hw|exact Hc].
Defined.

Lemma run_released (cs : list call) (w : Writer.t) (d : disk) :
  Writer.f w = None -> run cs (w, d) = Ok (w, d).
Proof.
  intros Hf. induction cs as [|c cs IH]; [reflexivity|].
  simpl. destruct c; simpl.
  - unfold write_frame. rewrite Hf. simpl. exact IH.
  - unfold Writer_close. rewrite Hf. simpl. exact IH.
Qed.

Lemma write_frame_keeps_open u w image width height delay bit_depth dither r s :
  Writer.f w = Some s ->
  write_frame u w image width height delay bit_depth dither = Ok r ->
  exists s', Writer.f (snd r) = Some s'.
Proof.
  intros Hf. unfold write_frame. rewrite Hf.
  destruct (_ <? _); [discriminate|].
  destruct (Palette_new _ _ _ _ _ _ _) as [pal|]; simpl; [|discriminate].
  destruct (if dither then _ else _) as [buf|]; simpl; [|discriminate].
  destruct (write_lzw_image _ _ _ _ _ _ _ _ _) as [f'|]; simpl; [|discriminate].
  intros [= <-]. simpl. eauto.
Qed.

Lemma run_open_writer (cs : list call) :
  forall (w w' : Writer.t) (d' : disk) (s : list Z),
    Writer.f w = Some s ->
    run cs (w, []) = Ok (w', d') ->
    exists w1 stream,
      run (before_close cs) (w, []) = Ok (w1, [])
      /\ Writer.f w1 = Some stream
      /\ Writer_drop w' d' = [stream ++ [0x3b]].
Proof.
  induction cs as [|c cs IH]; intros w w' d' s Hf Hrun.
  - simpl in Hrun. injection Hrun as <- <-. exists w, s.
    split; [reflexivity|]. split; [exact Hf|].
    unfold Writer_drop, release. rewrite Hf. reflexivity.
  - destruct c as [u image width height delay bit_depth dither|].
    + simpl in Hrun |- *.
      destruct (write_frame u w image width height delay bit_depth dither)
        as [r|] eqn:Hw; simpl in Hrun |- *; [|discriminate].
      destruct (write_frame_keeps_open _ _ _ _ _ _ _ _ _ _ Hf Hw) as [s1 Hs1].
      exact (IH _ _ _ _ Hs1 Hrun).
    + simpl in Hrun |- *. unfold Writer_close in Hrun. rewrite Hf in Hrun.
      simpl in Hrun. rewrite run_released in Hrun by reflexivity.
      injection Hrun as <- <-. exists w, s.
      split; [reflexivity|]. split; [exact Hf|]. reflexivity.
Qed.

(** C8.  After [Writer::open] succeeded, whatever calls of [write_frame] and
    [close] follow, when the writer is finally destroyed exactly one file has
    been closed, and its contents are the bytes written before the first
    [close] followed by the single trailer byte 0x3B. *)
Theorem trailer_on_release :
  forall (width height delay bit_depth : Z) (dither : bool) (w0 : Writer.t),
    Writer_open true width height delay bit_depth dither = Some w0 ->
    forall (cs : list call) (w : Writer.t) (d : disk),
      run cs (w0, []) = Ok (w, d) ->
      exists w1 stream,
        run (before_close cs) (w0, []) = Ok (w1, [])
        /\ Writer.f w1 = Some stream
        /\ Writer_drop w d = [stream ++ [0x3b]].
Proof.
  intros width height delay bit_depth dither w0 Hopen cs w d Hrun.
  unfold Writer_open in Hopen. simpl in Hopen. injection Hopen as <-.
  eapply run_open_writer; [reflexivity|exact Hrun].
Qed.

Lemma trailer_on_release_witness :
  Writer_open true 1 1 0 1 false = Some demo_w0
  /\ run demo_calls (demo_w0, []) = Ok demo_end
  /\ exists w1 stream,
       run (before_close demo_calls) (demo_w0, []) = Ok (w1, [])
       /\ Writer.f w1 = Some stream
       /\ Writer_drop (fst demo_end) (snd demo_end) = [stream ++ [0x3b]].
Proof.
  split; [reflexivity|]. split; [reflexivity|].
  apply (trailer_on_release 1 1 0 1 false demo_w0 eq_refl demo_calls
           (fst demo_end) (snd demo_end)).
  reflexivity.
Defined.

(** ** The bit stream *)

Lemma write_bit_spec (stat : BitStatus.t) (bit : Z) :
  stat_ok stat ->
  exists stat',
    write_bit stat bit = Ok stat'
    /\ (if BitStatus.bit_index stat =? 7
        then BitStatus.bit_index stat' = 0
             /\ BitStatus.chunk_index stat' = BitStatus.chunk_index stat + 1
        else BitStatus.bit_index stat' = BitStatus.bit_index stat + 1
             /\ BitStatus.chunk_index stat' = BitStatus.chunk_index stat).
Proof.
  intros [Hb Hc]. unfold write_bit.
  assert (Hu : u8 (BitStatus.bit_index stat + 1) = BitStatus.bit_index stat + 1).
  { unfold u8. apply Z.mod_small. lia. }
  rewrite Hu.
  destruct (Z.eqb_spec (BitStatus.bit_index stat) 7) as [H7|H7].
  - destruct (Z.gtb_spec (BitStatus.bit_index stat + 1) 7); [|lia].
    destruct (Z.ltb_spec (BitStatus.chunk_index stat) 256); [|lia].
    eexists. split; [reflexivity|]. simpl. split; [reflexivity|].
    unfold u32. apply Z.mod_small. lia.
  - destruct (Z.gtb_spec (BitStatus.bit_index stat + 1) 7); [lia|].
    eexists. split; [reflexivity|]. simpl. auto.
Qed.

Lemma write_code_bit_spec (stat : BitStatus.t) (f : list Z) (code : Z) :
  stat_ok stat ->
  exists stat' f',
    write_code_bit (stat, f, code) = Ok (stat', f', Z.shiftr code 1)
    /\ stat_ok stat'.
Proof.
  intros Hok. destruct (write_bit_spec stat code Hok) as (s1 & Hw & Hs1).
  unfold write_code_bit. rewrite Hw. simpl.
  destruct Hok as [Hb Hc].
  destruct (Z.eqb_spec (BitStatus.chunk_index s1) 255) as [H255|H255].
  - eexists _, _. split; [reflexivity|]. unfold stat_ok. simpl. lia.
  - eexists _, _. split; [reflexivity|]. unfold stat_ok.
    destruct (Z.eqb_spec (BitStatus.bit_index stat) 7); lia.
Qed.

Lemma write_code_spec (stat : BitStatus.t) (f : list Z) (code length : Z) :
  stat_ok stat ->
  exists stat' f', write_code stat f code length = Ok (stat', f') /\ stat_ok stat'.
Proof.
  intros Hok. unfold write_code.
  destruct (for_loop_total (fun _ st => stat_ok (fst (fst st)))
              (fun _ => write_code_bit) (Z.to_nat length) 0 (stat, f, code))
    as (st' & Hrun & Hst'); [exact Hok| |].
  - intros j [[s1 f1] c1] _ H1. simpl in H1.
    destruct (write_code_bit_spec s1 f1 c1 H1) as (s2 & f2 & Hw & H2).
    eexists. split; [exact Hw|exact H2].
  - rewrite Hrun. simpl. destruct st' as [[s2 f2] c2]. simpl in *.
    eexists _, _. split; [reflexivity|exact Hst'].
Qed.

Lemma lzw_pixel_spec (min_code_size clear_code next_value : Z) (s : lzw_state) :
  stat_ok (stat s) ->
  exists s', lzw_pixel min_code_size clear_code next_value s = Ok s'
             /\ stat_ok (stat s').
Proof.
  intros Hok. unfold lzw_pixel.
  destruct (curr_code s <? 0); [eexists; split; [reflexivity|exact Hok]|].
  destruct (negb _); [eexists; split; [reflexivity|exact Hok]|].
  destruct (write_code_spec (stat s) (file s) (u32 (curr_code s)) (code_size s) Hok)
    as (s1 & f1 & Hw1 & H1).
  rewrite Hw1. simpl.
  destruct (u32 (max_code s + 1) =? 4095).
  - match goal with |- context [write_code s1 f1 ?c ?l] =>
      destruct (write_code_spec s1 f1 c l H1) as (s2 & f2 & Hw2 & H2)
    end.
    rewrite Hw2. simpl. eexists. split; [reflexivity|exact H2].
  - eexists. split; [reflexivity|exact H1].
Qed.

Lemma pad_bits_spec :
  forall (fuel : nat) (stat : BitStatus.t),
    stat_ok stat ->
    9 - BitStatus.bit_index stat <= Z.of_nat fuel
    \/ (BitStatus.bit_index stat = 0 /\ 1 <= Z.of_nat fuel) ->
    exists stat',
      pad_bits fuel stat = Ok stat'
      /\ BitStatus.bit_index stat' = 0
      /\ BitStatus.chunk_index stat <= BitStatus.chunk_index stat'
         <= BitStatus.chunk_index stat + 1.
Proof.
  induction fuel as [|fuel IH]; intros stat Hok Hfuel.
  - destruct Hok. lia.
  - simpl pad_bits.
    destruct (Z.eqb_spec (BitStatus.bit_index stat) 0) as [H0|H0].
    + exists stat. split; [reflexivity|]. lia.
    + destruct (write_bit_spec stat 0 Hok) as (s1 & Hw & Hs1).
      rewrite Hw. simpl. destruct Hok as [Hb Hc].
      destruct (Z.eqb_spec (BitStatus.bit_index stat) 7) as [H7|H7].
      * destruct Hs1 as [Hb1 Hc1]. destruct fuel as [|fuel]; [lia|].
        simpl. rewrite Hb1. simpl. exists s1. split; [reflexivity|]. lia.
      * destruct Hs1 as [Hb1 Hc1].
        destruct (IH s1) as (s2 & Hp & Hb2 & Hc2).
        { unfold stat_ok. lia. }
        { lia. }
        exists s2. split; [exact Hp|]. lia.
Qed.

(** C6.  The LZW emission of a frame never stores past the chunk array:
    [write_lzw_image] finishes on every input (each store of [write_bit] is
    checked against the 256 cells).  Between the bits of a code at most 254
    bytes are buffered, since [write_code] flushes as soon as the 255th byte
    is complete; the final padding completes at most one more byte, so the
    index is at most 255 at the closing flush check. *)
Theorem chunk_index_bound :
  (forall chunk0 f image left top width height delay pal,
     exists f',
       write_lzw_image chunk0 f image left top width height delay pal = Ok f')
  /\ (forall stat f code,
        stat_ok stat ->
        exists stat1 stat' f',
          write_bit stat code = Ok stat1
          /\ 0 <= BitStatus.chunk_index stat1 <= 255
          /\ write_code_bit (stat, f, code) = Ok (stat', f', Z.shiftr code 1)
          /\ stat_ok stat'
          /\ (BitStatus.chunk_index stat1 = 255 ->
              BitStatus.chunk_index stat' = 0
              /\ f' = f ++ 255 :: take 255 (BitStatus.chunk stat1)))
  /\ (forall stat,
        stat_ok stat ->
        exists stat',
          pad_bits 8 stat = Ok stat'
          /\ BitStatus.bit_index stat' = 0
          /\ BitStatus.chunk_index stat <= BitStatus.chunk_index stat'
             <= BitStatus.chunk_index stat + 1
          /\ BitStatus.chunk_index stat' <= 255).
Proof.
  split; [|split].
  - intros. unfold write_lzw_image.
    set (f0 := fputc _ _).
    assert (H0 : stat_ok (BitStatus.mk 0 0 0 chunk0)) by (unfold stat_ok; simpl; lia).
    match goal with |- context [write_code ?s ?g ?c ?l] =>
      destruct (write_code_spec s g c l H0) as (s0 & f1 & Hw0 & Hs0)
    end.
    rewrite Hw0. cbn [bind].
    match goal with |- context [for_loop ?n 0 ?body ?init] =>
      destruct (for_loop_total (fun _ s => stat_ok (stat s)) body n 0 init)
        as (s & Hrun & Hs)
    end.
    { exact Hs0. }
    { intros y t _ Ht.
      match goal with |- context [for_loop ?n 0 ?body t] =>
        destruct (for_loop_total (fun _ s => stat_ok (stat s)) body n 0 t)
          as (t' & Hrow & Ht')
      end.
      - exact Ht.
      - intros x v _ Hv. apply lzw_pixel_spec. exact Hv.
      - exists t'. split; [exact Hrow|exact Ht']. }
    rewrite Hrun. cbn [bind].
    match goal with |- context [write_code (stat s) ?g ?c ?l] =>
      destruct (write_code_spec (stat s) g c l Hs) as (s1 & f2 & Hw1 & Hs1)
    end.
    rewrite Hw1. cbn [bind].
    match goal with |- context [write_code s1 ?g ?c ?l] =>
      destruct (write_code_spec s1 g c l Hs1) as (s2 & f3 & Hw2 & Hs2)
    end.
    rewrite Hw2. cbn [bind].
    match goal with |- context [write_code s2 ?g ?c ?l] =>
      destruct (write_code_spec s2 g c l Hs2) as (s3 & f4 & Hw3 & Hs3)
    end.
    rewrite Hw3. cbn [bind].
    destruct (pad_bits_spec 8 s3 Hs3) as (s4 & Hp & _).
    { destruct Hs3. lia. }
    rewrite Hp. cbn [bind].
    destruct (if negb _ then _ else _). eexists. reflexivity.
  - intros stat f code Hok.
    destruct (write_bit_spec stat code Hok) as (s1 & Hw & Hs1).
    destruct (write_code_bit_spec stat f code Hok) as (s' & f' & Hc & Hs').
    exists s1, s', f'. split; [exact Hw|].
    split; [destruct Hok; destruct (Z.eqb_spec (BitStatus.bit_index stat) 7); lia|].
    split; [exact Hc|]. split; [exact Hs'|].
    intros H255. unfold write_code_bit in Hc. rewrite Hw in Hc. simpl in Hc.
    rewrite H255 in Hc. simpl in Hc. injection Hc as <- <-.
    split; [reflexivity|]. unfold fputc. rewrite <- app_assoc. reflexivity.
  - intros stat Hok.
    destruct (pad_bits_spec 8 stat Hok) as (s' & Hp & Hb & Hc).
    { destruct Hok. lia. }
    exists s'. split; [exact Hp|]. split; [exact Hb|]. split; [exact Hc|].
    destruct Hok. lia.
Qed.

Lemma chunk_index_bound_witness :
  stat_ok (BitStatus.mk 7 0 254 [])
  /\ exists stat',
       pad_bits 8 (BitStatus.mk 7 0 254 []) = Ok stat'
       /\ BitStatus.bit_index stat' = 0
       /\ 254 <= BitStatus.chunk_index stat' <= 254 + 1
       /\ BitStatus.chunk_index stat' <= 255.
Proof.
  assert (H : stat_ok (BitStatus.mk 7 0 254 [])) by (unfold stat_ok; simpl; lia).
  split; [exact H|].
  exact (proj2 (proj2 chunk_index_bound) (BitStatus.mk 7 0 254 []) H).
Defined.

(** ** LZW dictionary growth *)

(** The ranges of [lzw_inv] are kept by every step of the pixel loop. *)
Lemma lzw_pixel_inv (min_code_size next_value : Z) (s s' : lzw_state) :
  1 <= min_code_size <= 8 -> 0 <= next_value <= 255 ->
  lzw_inv min_code_size s ->
  lzw_pixel min_code_size (2 ^ min_code_size) next_value s = Ok s' ->
  lzw_inv min_code_size s'.
Proof.
  intros Hmin Hnext (Hcurr & Hmax & Hsize & Hlt & Htree & Hstat) Hstep.
  assert (Hclear : 2 <= 2 ^ min_code_size <= 256).
  { split; [change 2 with (2 ^ 1) at 1|change 256 with (2 ^ 8)];
      apply Z.pow_le_mono_r; lia. }
  assert (Hreset : 2 ^ min_code_size + 1 < 2 ^ (min_code_size + 1)).
  { assert (Hs : 2 ^ (min_code_size + 1) = 2 * 2 ^ min_code_size)
      by (apply Z.pow_succ_r; lia).
    lia. }
  assert (Hinsert : forall m, 0 <= m < 4095 -> forall c v,
    0 <= codetree_next (<[(curr_code s, next_value) := m mod 65536]> (codetree s))
           c v < 4095).
  { intros m Hm c v. unfold codetree_next.
    destruct (decide ((curr_code s, next_value) = (c, v))) as [<-|Hne].
    - rewrite lookup_insert_eq, Z.mod_small by lia. simpl. lia.
    - rewrite lookup_insert_ne by exact Hne. apply Htree. }
  unfold lzw_pixel in Hstep.
  destruct (Z.ltb_spec (curr_code s) 0).
  { injection Hstep as <-. unfold lzw_inv. simpl.
    split; [lia|]. split; [lia|]. split; [lia|]. split; [lia|]. auto. }
  destruct (Z.eqb_spec (codetree_next (codetree s) (curr_code s) next_value) 0)
    as [Hzero|Hnz]; cbn [negb] in Hstep.
  2:{ injection Hstep as <-. unfold lzw_inv. simpl.
      pose proof (Htree (curr_code s) next_value).
      split; [lia|]. split; [lia|]. split; [lia|]. split; [lia|]. auto. }
  destruct (write_code_spec (stat s) (file s) (u32 (curr_code s)) (code_size s) Hstat)
    as (stat1 & f1 & Hw1 & H1).
  rewrite Hw1 in Hstep. cbn [bind] in Hstep.
  assert (Hu_max : u32 (max_code s + 1) = max_code s + 1)
    by (unfold u32; apply Z.mod_small; lia).
  assert (Hu_size : u32 (code_size s + 1) = code_size s + 1)
    by (unfold u32; apply Z.mod_small; lia).
  rewrite Hu_max, Hu_size, Z.shiftl_1_l in Hstep.
  destruct (Z.eqb_spec (max_code s + 1) 4095) as [H4095|H4095].
  - match type of Hstep with context [write_code stat1 f1 ?c ?l] =>
      destruct (write_code_spec stat1 f1 c l H1) as (stat2 & f2 & Hw2 & H2)
    end.
    rewrite Hw2 in Hstep. cbn [bind] in Hstep. injection Hstep as <-.
    unfold lzw_inv, u32. simpl. rewrite !Z.mod_small by lia.
    split; [lia|]. split; [lia|]. split; [lia|]. split; [lia|].
    split; [|exact H2].
    intros c v. unfold codetree_next. rewrite lookup_empty. simpl. lia.
  - injection Hstep as <-. unfold lzw_inv. simpl.
    assert (Hpow12 : 2 ^ 12 = 4096) by reflexivity.
    assert (Hnext_pow : 2 ^ (code_size s + 1) = 2 * 2 ^ code_size s)
      by (apply Z.pow_succ_r; lia).
    destruct (Z.geb_spec (max_code s + 1) (2 ^ code_size s)).
    + assert (code_size s < 12).
      { destruct (Z.eq_dec (code_size s) 12) as [E|]; [rewrite E in *; lia|lia]. }
      split; [lia|]. split; [lia|]. split; [lia|]. split; [lia|].
      split; [apply Hinsert; lia|exact H1].
    + split; [lia|]. split; [lia|]. split; [lia|]. split; [lia|].
      split; [apply Hinsert; lia|exact H1].
Qed.

(** ** The nearest-colour query *)

Section Query.
Variable pal : Palette.t.
Variables r g b : Z.

Local Abbreviation D := (Palette.bit_depth pal).

Lemma closest_leaf (fuel : nat) (best : Z * Z) (tree_root : Z) :
  2 ^ D <= tree_root ->
  get_closest_pallete_color (S fuel) pal r g b best tree_root
  = if tree_root =? 2 ^ D then Ok best
    else if leaf_diff pal r g b (tree_root - 2 ^ D) <? snd best
         then Ok (tree_root - 2 ^ D, leaf_diff pal r g b (tree_root - 2 ^ D))
         else Ok best.
Proof.
  intros Hleaf. destruct best as [best_ind best_diff]. simpl.
  rewrite Z.shiftl_1_l.
  destruct (Z.gtb_spec tree_root (2 ^ D - 1)); [|lia].
  unfold transparency_index.
  destruct (Z.eqb_spec (tree_root - 2 ^ D) 0);
    destruct (Z.eqb_spec tree_root (2 ^ D)); try lia; reflexivity.
Qed.

Lemma closest_node (fuel : nat) (best : Z * Z) (tree_root : Z) :
  tree_root < 2 ^ D ->
  get_closest_pallete_color (S fuel) pal r g b best tree_root
  = let* split_comp := comps r g b (rd (Palette.tree_split_elt pal) tree_root) in
    let split_pos := rd (Palette.tree_split pal) tree_root in
    if split_pos >? split_comp then
      let* best := get_closest_pallete_color fuel pal r g b best (tree_root * 2) in
      if snd best >? split_pos - split_comp
      then get_closest_pallete_color fuel pal r g b best (tree_root * 2 + 1)
      else Ok best
    else
      let* best := get_closest_pallete_color fuel pal r g b best (tree_root * 2 + 1) in
      if snd best >? split_comp - split_pos
      then get_closest_pallete_color fuel pal r g b best (tree_root * 2)
      else Ok best.
Proof.
  intros Hnode. destruct best as [best_ind best_diff]. simpl.
  rewrite Z.shiftl_1_l.
  destruct (Z.gtb_spec tree_root (2 ^ D - 1)); [lia|]. reflexivity.
Qed.

Lemma improves_trans (b1 b2 b3 : Z * Z) :
  improves pal r g b b1 b2 -> improves pal r g b b2 b3 -> improves pal r g b b1 b3.
Proof.
  intros [->|H12] [->|H23]; unfold improves; auto.
  right. lia.
Qed.

Lemma closest_improves :
  forall (fuel : nat) (best best' : Z * Z) (tree_root : Z),
    1 <= tree_root < 2 ^ (D + 1) ->
    get_closest_pallete_color fuel pal r g b best tree_root = Ok best' ->
    improves pal r g b best best'.
Proof.
  assert (Hpow : 2 ^ (D + 1) = 2 * 2 ^ D \/ D < 0).
  { destruct (Z_lt_le_dec D 0); [auto|left]. apply Z.pow_succ_r. lia. }
  induction fuel as [|fuel IH]; intros best best' tree_root Hroot Hrun;
    [discriminate|].
  destruct (Z_lt_le_dec tree_root (2 ^ D)) as [Hnode|Hleaf].
  - rewrite closest_node in Hrun by exact Hnode.
    assert (Hc : forall c, c = tree_root * 2 \/ c = tree_root * 2 + 1 ->
                           1 <= c < 2 ^ (D + 1)).
    { intros c Hc. destruct Hpow as [Hpow|Hneg]; [lia|].
      rewrite Z.pow_neg_r in Hnode by lia. lia. }
    destruct (comps r g b _) as [split_comp|]; [|discriminate].
    cbn [bind] in Hrun.
    destruct (_ >? _).
    + destruct (get_closest_pallete_color fuel pal r g b best (tree_root * 2))
        as [b1|] eqn:H1; [|discriminate].
      cbn [bind] in Hrun. apply IH in H1; [|apply Hc; auto].
      destruct (_ >? _).
      * apply IH in Hrun; [|apply Hc; auto]. eapply improves_trans; eauto.
      * injection Hrun as <-. exact H1.
    + destruct (get_closest_pallete_color fuel pal r g b best (tree_root * 2 + 1))
        as [b1|] eqn:H1; [|discriminate].
      cbn [bind] in Hrun. apply IH in H1; [|apply Hc; auto].
      destruct (_ >? _).
      * apply IH in Hrun; [|apply Hc; auto]. eapply improves_trans; eauto.
      * injection Hrun as <-. exact H1.
  - rewrite closest_leaf in Hrun by exact Hleaf.
    destruct (Z.eqb_spec tree_root (2 ^ D)); [injection Hrun as <-; left; auto|].
    destruct (Z.ltb_spec (leaf_diff pal r g b (tree_root - 2 ^ D)) (snd best)).
    + injection Hrun as <-. right. simpl.
      destruct Hpow as [Hpow|Hneg]; [lia|].
      rewrite Z.pow_neg_r in Hleaf by lia.
      rewrite (Z.pow_neg_r 2 D) in * by lia.
      assert (D + 1 <= 0) by lia.
      assert (2 ^ (D + 1) <= 1).
      { destruct (Z.eq_dec (D + 1) 0) as [->|]; [simpl; lia|].
        rewrite Z.pow_neg_r by lia. lia. }
      lia.
    + injection Hrun as <-. left. auto.
Qed.

Lemma comps_ok (k : Z) : 0 <= k <= 2 -> exists c, comps r g b k = Ok c.
Proof.
  intros Hk. unfold comps.
  destruct (Z.eqb_spec k 0); [eauto|].
  destruct (Z.eqb_spec k 1); [eauto|].
  destruct (Z.eqb_spec k 2); [eauto|lia].
Qed.

Lemma closest_total :
  forall (n : nat) (fuel : nat) (best : Z * Z) (tree_root : Z),
    tree_ok pal ->
    1 <= tree_root ->
    2 ^ D <= tree_root * 2 ^ Z.of_nat n ->
    (n < fuel)%nat ->
    exists best', get_closest_pallete_color fuel pal r g b best tree_root = Ok best'.
Proof.
  intros n. induction n as [|n IH]; intros fuel best tree_root Hok Hroot Hn Hfuel.
  - destruct fuel as [|fuel]; [lia|].
    rewrite closest_leaf by (simpl in Hn; lia).
    destruct (_ =? _); [eauto|]. destruct (_ <? _); eauto.
  - destruct fuel as [|fuel]; [lia|].
    destruct (Z_lt_le_dec tree_root (2 ^ D)) as [Hnode|Hleaf].
    + rewrite closest_node by exact Hnode.
      destruct (comps_ok (rd (Palette.tree_split_elt pal) tree_root))
        as [c Hc]; [apply Hok; lia|].
      rewrite Hc. cbn [bind].
      assert (Hpow : 2 ^ Z.of_nat (S n) = 2 * 2 ^ Z.of_nat n).
      { rewrite Nat2Z.inj_succ. apply Z.pow_succ_r. lia. }
      assert (Hp : 0 < 2 ^ Z.of_nat n) by (apply Z.pow_pos_nonneg; lia).
      assert (IHl : forall bst, exists best',
                 get_closest_pallete_color fuel pal r g b bst (tree_root * 2)
                 = Ok best').
      { intros bst. apply IH; [exact Hok|lia| |lia]. nia. }
      assert (IHr : forall bst, exists best',
                 get_closest_pallete_color fuel pal r g b bst (tree_root * 2 + 1)
                 = Ok best').
      { intros bst. apply IH; [exact Hok|lia| |lia]. nia. }
      destruct (_ >? _).
      * destruct (IHl best) as [b1 H1]. rewrite H1. cbn [bind].
        destruct (_ >? _); [apply IHr|eauto].
      * destruct (IHr best) as [b1 H1]. rewrite H1. cbn [bind].
        destruct (_ >? _); [apply IHl|eauto].
    + rewrite closest_leaf by exact Hleaf.
      destruct (_ =? _); [eauto|]. destruct (_ <? _); eauto.
Qed.

Lemma closest_from_root_total (best_ind : Z) :
  0 <= D -> tree_ok pal ->
  exists best', closest_from_root pal r g b best_ind = Ok best'.
Proof.
  intros HD Hok. unfold closest_from_root.
  apply (closest_total (Z.to_nat D)); [exact Hok|lia| |lia].
  rewrite Z2Nat.id by lia. lia.
Qed.

Lemma closest_from_root_improves (best_ind : Z) (best' : Z * Z) :
  0 <= D ->
  closest_from_root pal r g b best_ind = Ok best' ->
  improves pal r g b (best_ind, 1000000) best'.
Proof.
  intros HD Hrun. unfold closest_from_root in Hrun.
  apply closest_improves in Hrun; [exact Hrun|].
  split; [lia|]. apply Z.pow_gt_1; lia.
Qed.
End Query.

(** ** The threshold quantizer *)

(** Four stores into the quad of pixel [k]. *)
Lemma wr_quad (o : list Z) (k a b c d : Z) :
  0 <= k -> 4 * k + 3 < Z.of_nat (length o) ->
  let o' := wr (wr (wr (wr o (4 * k) a) (4 * k + 1) b) (4 * k + 2) c) (4 * k + 3) d in
  pixel o' k = (a, b, c, d)
  /\ length o' = length o
  /\ forall j, 0 <= j -> j < 4 * k \/ 4 * k + 4 <= j -> rd o' j = rd o j.
Proof.
  intros Hk Hlen o'. subst o'. split; [|split].
  - unfold pixel.
    rewrite (rd_wr_same _ (4 * k + 3)) by (rewrite ?wr_length; lia).
    rewrite !(rd_wr_other _ (4 * k + 3)) by lia.
    rewrite (rd_wr_same _ (4 * k + 2)) by (rewrite ?wr_length; lia).
    rewrite !(rd_wr_other _ (4 * k + 2)) by lia.
    rewrite (rd_wr_same _ (4 * k + 1)) by (rewrite ?wr_length; lia).
    rewrite !(rd_wr_other _ (4 * k + 1)) by lia.
    rewrite (rd_wr_same _ (4 * k)) by (rewrite ?wr_length; lia).
    reflexivity.
  - rewrite !wr_length. reflexivity.
  - intros j Hj Hout. rewrite !rd_wr_other by lia. reflexivity.
Qed.

Section Threshold.
Variables (last_frame : frame_ptr) (next_frame out_frame : list Z).
Variable pal : Palette.t.

(** The previous frame: what [last_frame] points to when the quantizer is
    called. *)
Local Abbreviation prev := (deref last_frame out_frame).

Hypothesis Hdepth : 0 <= Palette.bit_depth pal <= 8.

Lemma threshold_post_stable (out out' : list Z) (i : Z) :
  pixel out' i = pixel out i -> threshold_post last_frame next_frame out_frame pal out i -> threshold_post last_frame next_frame out_frame pal out' i.
Proof.
  unfold threshold_post. intros ->. auto.
Qed.

Lemma threshold_pixel_step (k : Z) (out out' : list Z) :
  0 <= k -> 4 * k + 3 < Z.of_nat (length out_frame) ->
  threshold_inv last_frame next_frame out_frame pal k out ->
  threshold_pixel last_frame next_frame pal k out = Ok out' ->
  threshold_inv last_frame next_frame out_frame pal (k + 1) out'.
Proof.
  intros Hk Hlen (Hl & Hrest & Hdone) Hstep.
  assert (Hprev : forall j o,
             (forall j', j <= j' -> rd o j' = rd out_frame j') ->
             is_null last_frame = false ->
             rd (deref last_frame o) j = rd prev j).
  { intros j o Ho Hnn. destruct last_frame; simpl in *;
      [discriminate|reflexivity|apply Ho; lia]. }
  assert (Hquad : forall o' a b c d,
    o' = wr (wr (wr (wr out (4 * k) a) (4 * k + 1) b) (4 * k + 2) c)
           (4 * k + 3) d ->
    (pixel o' k = (a, b, c, d) -> threshold_post last_frame next_frame out_frame pal o' k) ->
    threshold_inv last_frame next_frame out_frame pal (k + 1) o').
  { intros o' a b c d -> Hpost.
    destruct (wr_quad out k a b c d Hk) as (Hpix & Hlen' & Hother);
      [rewrite Hl; lia|].
    split; [congruence|]. split.
    - intros j Hj. rewrite Hother by lia. apply Hrest. lia.
    - intros i Hi. destruct (Z.eq_dec i k) as [->|Hne]; [apply Hpost, Hpix|].
      apply (threshold_post_stable out); [|apply Hdone; lia].
      unfold pixel. rewrite !Hother by lia. reflexivity. }
  unfold threshold_pixel in Hstep.
  destruct (is_null last_frame) eqn:Hnull; cbn [negb andb] in Hstep.
  - destruct (closest_from_root _ _ _ _ _) as [[bi bd]|] eqn:Hq; [|discriminate].
    cbn [bind fst] in Hstep. injection Hstep as <-.
    pose proof (closest_from_root_improves _ _ _ _ _ _ (proj1 Hdepth) Hq) as Himp.
    assert (Hbi : u8 bi = bi).
    { assert (2 ^ Palette.bit_depth pal <= 2 ^ 8)
        by (apply Z.pow_le_mono_r; lia).
      unfold u8. apply Z.mod_small. destruct Himp as [[= -> ->]|Himp];
        simpl in *; lia. }
    eapply Hquad; [reflexivity|]. intros Hpix. unfold threshold_post.
    rewrite Hnull. cbn [negb andb]. exists bi, bd. split; [exact Hq|].
    rewrite Hpix, Hbi. reflexivity.
  - assert (Hrest' : forall j, 4 * k <= j ->
               forall j', j <= j' -> rd out j' = rd out_frame j')
      by (intros j Hj j' Hj'; apply Hrest; lia).
    rewrite (Hprev (4 * k)) in Hstep by (auto; apply Hrest'; lia).
    rewrite (Hprev (4 * k + 1)) in Hstep by (auto; apply Hrest'; lia).
    rewrite (Hprev (4 * k + 2)) in Hstep by (auto; apply Hrest'; lia).
    fold (same_rgb prev next_frame k) in Hstep.
    destruct (same_rgb prev next_frame k) eqn:Hsame.
    + injection Hstep as <-.
      rewrite (Hprev (4 * k + 1) (wr out _ _)); [| |reflexivity].
      2:{ intros j Hj. rewrite rd_wr_other by lia. apply Hrest. lia. }
      rewrite (Hprev (4 * k + 2) (wr (wr out _ _) _ _)); [| |reflexivity].
      2:{ intros j Hj. rewrite !rd_wr_other by lia. apply Hrest. lia. }
      eapply Hquad; [reflexivity|]. intros Hpix. unfold threshold_post.
      rewrite Hnull, Hsame. cbn [negb andb]. exact Hpix.
    + destruct (closest_from_root _ _ _ _ _) as [[bi bd]|] eqn:Hq; [|discriminate].
      cbn [bind fst] in Hstep. injection Hstep as <-.
      pose proof (closest_from_root_improves _ _ _ _ _ _ (proj1 Hdepth) Hq) as Himp.
      assert (Hbi : u8 bi = bi).
      { assert (2 ^ Palette.bit_depth pal <= 2 ^ 8)
          by (apply Z.pow_le_mono_r; lia).
        unfold u8. apply Z.mod_small. destruct Himp as [[= -> ->]|Himp];
          simpl in *; lia. }
      eapply Hquad; [reflexivity|]. intros Hpix. unfold threshold_post.
      rewrite Hnull, Hsame. cbn [negb andb]. exists bi, bd. split; [exact Hq|].
      rewrite Hpix, Hbi. reflexivity.
Qed.

Lemma threshold_pixel_total (k : Z) (out : list Z) :
  tree_ok pal ->
  exists out', threshold_pixel last_frame next_frame pal k out = Ok out'.
Proof.
  intros Hok. unfold threshold_pixel.
  destruct (_ && _); [eauto|].
  match goal with |- context [closest_from_root pal ?x ?y ?z ?bi] =>
    destruct (closest_from_root_total pal x y z bi (proj1 Hdepth) Hok) as [best Hq]
  end.
  rewrite Hq. cbn [bind]. eauto.
Qed.
End Threshold.

Lemma threshold_image_post :
  forall (last_frame : frame_ptr) (next_frame out_frame : list Z)
         (width height : Z) (pal : Palette.t) (out' : list Z),
    0 <= Palette.bit_depth pal <= 8 ->
    4 * usize (width * height) <= Z.of_nat (length out_frame) ->
    threshold_image last_frame next_frame out_frame width height pal = Ok out' ->
    length out' = length out_frame
    /\ forall i, 0 <= i < usize (width * height) ->
         threshold_post last_frame next_frame out_frame pal out' i.
Proof.
  intros last_frame next_frame out_frame width height pal out' Hdepth Hlen Hrun.
  assert (Hn : 0 <= usize (width * height))
    by (unfold usize; apply Z.mod_pos_bound; lia).
  unfold threshold_image in Hrun.
  apply (for_loop_inv
           (fun k out => 0 <= k /\
              threshold_inv last_frame next_frame out_frame pal k out))
    in Hrun.
  - rewrite Z.add_0_l, Z2Nat.id in Hrun by exact Hn.
    destruct Hrun as (_ & Hl & _ & Hpost). split; [exact Hl|exact Hpost].
  - split; [lia|]. split; [reflexivity|]. split; [auto|]. intros i Hi. lia.
  - intros j t t' Hj [Hj0 Hinv] Hstep. split; [lia|].
    apply (threshold_pixel_step last_frame next_frame out_frame pal Hdepth j t t');
      [lia| |exact Hinv|exact Hstep].
    rewrite Z2Nat.id in Hj by exact Hn. lia.
Qed.

Lemma threshold_image_total :
  forall (last_frame : frame_ptr) (next_frame out_frame : list Z)
         (width height : Z) (pal : Palette.t),
    0 <= Palette.bit_depth pal <= 8 -> tree_ok pal ->
    exists out',
      threshold_image last_frame next_frame out_frame width height pal = Ok out'.
Proof.
  intros last_frame next_frame out_frame width height pal Hdepth Hok.
  unfold threshold_image.
  destruct (for_loop_total (fun _ _ => True)
              (threshold_pixel last_frame next_frame pal)
              (Z.to_nat (usize (width * height))) 0 out_frame)
    as (out' & Hrun & _); [exact I| |eauto].
  intros j t _ _.
  destruct (threshold_pixel_total last_frame next_frame pal Hdepth j t Hok)
    as [t' Ht'].
  eauto.
Qed.

(** C1.  [threshold_image] leaves in the output buffer, for every pixel i in
    raster order: the RGB of the previous frame with index 0 when a previous
    frame exists and agrees with the input on R, G and B at i; otherwise the
    palette colour and the index found by the nearest-colour query started
    at the root with best_ind = 1 and best_diff = 1000000.  The quantizer
    finishes whenever the split axes of the tree are valid. *)
Theorem threshold_postcondition :
  forall (last_frame : frame_ptr) (next_frame out_frame : list Z)
         (width height : Z) (pal : Palette.t),
    0 <= Palette.bit_depth pal <= 8 ->
    4 * usize (width * height) <= Z.of_nat (length out_frame) ->
    (tree_ok pal ->
     exists out',
       threshold_image last_frame next_frame out_frame width height pal = Ok out')
    /\ forall out',
        threshold_image last_frame next_frame out_frame width height pal = Ok out' ->
        length out' = length out_frame
        /\ forall i, 0 <= i < usize (width * height) ->
             threshold_post last_frame next_frame out_frame pal out' i.
Proof.
  intros last_frame next_frame out_frame width height pal Hdepth Hlen. split.
  - intros Hok. apply threshold_image_total; assumption.
  - intros out' Hrun. apply threshold_image_post; assumption.
Qed.

Lemma demo_pal_tree_ok : tree_ok demo_pal.
Proof.
  intros n Hn. change (2 ^ Palette.bit_depth demo_pal) with 2 in Hn.
  assert (n = 1) as -> by lia. split; vm_compute; discriminate.
Qed.

Lemma threshold_postcondition_witness :
  0 <= Palette.bit_depth demo_pal <= 8
  /\ 4 * usize (2 * 1) <= Z.of_nat (length [9; 9; 9; 0; 1; 2; 3; 0])
  /\ (tree_ok demo_pal ->
      exists out',
        threshold_image (Separate [9; 9; 9; 0; 1; 2; 3; 0]) [9; 9; 9; 255; 7; 7; 7; 255]
          [9; 9; 9; 0; 1; 2; 3; 0] 2 1 demo_pal = Ok out')
  /\ forall out',
       threshold_image (Separate [9; 9; 9; 0; 1; 2; 3; 0]) [9; 9; 9; 255; 7; 7; 7; 255]
         [9; 9; 9; 0; 1; 2; 3; 0] 2 1 demo_pal = Ok out' ->
       length out' = length [9; 9; 9; 0; 1; 2; 3; 0]
       /\ forall i, 0 <= i < usize (2 * 1) ->
            threshold_post (Separate [9; 9; 9; 0; 1; 2; 3; 0])
              [9; 9; 9; 255; 7; 7; 7; 255] [9; 9; 9; 0; 1; 2; 3; 0] demo_pal out' i.
Proof.
  assert (H1 : 0 <= Palette.bit_depth demo_pal <= 8) by (simpl; lia).
  assert (H2 : 4 * usize (2 * 1) <= Z.of_nat (length [9; 9; 9; 0; 1; 2; 3; 0]))
    by (vm_compute; discriminate).
  split; [exact H1|]. split; [exact H2|].
  exact (threshold_postcondition (Separate [9; 9; 9; 0; 1; 2; 3; 0])
           [9; 9; 9; 255; 7; 7; 7; 255] [9; 9; 9; 0; 1; 2; 3; 0] 2 1 demo_pal H1 H2).
Defined.

(** ** The dither quantizer *)

Lemma nonneg_wr (q : list Z) (i v : Z) : nonneg q -> 0 <= v -> nonneg (wr q i v).
Proof.
  intros Hq Hv j. destruct (rd_wr_cases q i v j) as [->| ->]; [exact Hv|apply Hq].
Qed.

(** *** Arithmetic on [i32] *)

Lemma i32_ok (v r : Z) : i32 v = Ok r -> r = v /\ - 2 ^ 31 <= v < 2 ^ 31.
Proof.
  unfold i32.
  destruct (Z.leb_spec (- 2 ^ 31) v); destruct (Z.ltb_spec v (2 ^ 31));
    cbn [andb]; intros [=]; subst; lia.
Qed.

Lemma i32_small (v : Z) : - 2 ^ 31 <= v < 2 ^ 31 -> i32 v = Ok v.
Proof.
  intros Hv. unfold i32.
  destruct (Z.leb_spec (- 2 ^ 31) v); destruct (Z.ltb_spec v (2 ^ 31));
    cbn [andb]; try lia; reflexivity.
Qed.

Lemma quot16_bounds (a : Z) : Z.min 0 a <= Z.quot a 16 <= Z.max 0 a.
Proof.
  destruct (Z.le_gt_cases 0 a) as [Ha|Ha].
  - rewrite Z.quot_div_nonneg by lia.
    pose proof (Z.div_pos a 16 Ha ltac:(lia)).
    pose proof (Z.div_le_upper_bound a 16 a ltac:(lia) ltac:(lia)). lia.
  - replace a with (- (- a)) at 2 3 by lia. rewrite Z.quot_opp_l by lia.
    rewrite Z.quot_div_nonneg by lia.
    pose proof (Z.div_pos (- a) 16 ltac:(lia) ltac:(lia)).
    pose proof (Z.div_le_upper_bound (- a) 16 (- a) ltac:(lia) ltac:(lia)). lia.
Qed.

Lemma share_ok (weight err inc : Z) :
  share weight err = Ok inc -> inc = Z.quot (err * weight) 16.
Proof.
  unfold share. destruct (Z.eqb_spec weight 1) as [->|_].
  - intros [= <-]. rewrite Z.mul_1_r. reflexivity.
  - destruct (i32 (err * weight)) as [m|] eqn:Hm; cbn [bind]; [|discriminate].
    intros [= <-]. apply i32_ok in Hm as [-> _]. reflexivity.
Qed.

Lemma share_small (weight err : Z) :
  - 2 ^ 31 <= err * weight < 2 ^ 31 ->
  share weight err = Ok (Z.quot (err * weight) 16).
Proof.
  intros Hr. unfold share. destruct (Z.eqb_spec weight 1) as [->|_].
  - rewrite Z.mul_1_r. reflexivity.
  - rewrite i32_small by exact Hr. reflexivity.
Qed.

Lemma add_channel_ok (pix err weight v : Z) :
  add_channel pix err weight = Ok v ->
  v = pix + Z.max (- pix) (Z.quot (err * weight) 16)
  /\ 0 <= v < 2 ^ 31
  /\ (weight <> 1 -> - 2 ^ 31 <= err * weight < 2 ^ 31).
Proof.
  unfold add_channel.
  destruct (i32 (- pix)) as [neg|] eqn:Hn; cbn [bind]; [|discriminate].
  destruct (share weight err) as [inc|] eqn:Hs; cbn [bind]; [|discriminate].
  intros Hv. apply i32_ok in Hn as [-> _].
  assert (Hw : weight <> 1 -> - 2 ^ 31 <= err * weight < 2 ^ 31).
  { intros Hne. unfold share in Hs. destruct (Z.eqb_spec weight 1); [contradiction|].
    destruct (i32 (err * weight)) as [m|] eqn:Hm; [|discriminate].
    apply i32_ok in Hm. lia. }
  apply share_ok in Hs as ->. apply i32_ok in Hv as [-> Hr].
  split; [reflexivity|]. split; [lia|exact Hw].
Qed.

Lemma add_channel_small (pix err weight : Z) :
  0 <= pix < 2 ^ 31 ->
  - 2 ^ 31 <= err * weight < 2 ^ 31 ->
  pix + Z.quot (err * weight) 16 < 2 ^ 31 ->
  add_channel pix err weight = Ok (pix + Z.max (- pix) (Z.quot (err * weight) 16)).
Proof.
  intros Hpix Herr Hsum. unfold add_channel.
  rewrite i32_small by lia. cbn [bind].
  rewrite share_small by exact Herr. cbn [bind].
  apply i32_small. lia.
Qed.

(** *** One update and the four of a pixel *)

Lemma add_error_inv (q q' : list Z) (num_pixels loc weight r_err g_err b_err : Z) :
  0 <= loc ->
  add_error q num_pixels loc weight r_err g_err b_err = Ok q' ->
  (num_pixels <= loc /\ q' = q)
  \/ (loc < num_pixels
      /\ exists v0 v1 v2,
           add_channel (rd q (4 * loc)) r_err weight = Ok v0
           /\ add_channel (rd q (4 * loc + 1)) g_err weight = Ok v1
           /\ add_channel (rd q (4 * loc + 2)) b_err weight = Ok v2
           /\ q' = wr (wr (wr q (4 * loc) v0) (4 * loc + 1) v1) (4 * loc + 2) v2).
Proof.
  intros Hloc. unfold add_error.
  destruct (Z.ltb_spec loc num_pixels) as [Hlt|Hge];
    [|intros [= <-]; left; split; [lia|reflexivity]].
  cbv zeta.
  destruct (add_channel (rd q (4 * loc)) r_err weight) as [v0|] eqn:H0;
    cbn [bind]; [|discriminate].
  rewrite rd_wr_other by lia.
  destruct (add_channel (rd q (4 * loc + 1)) g_err weight) as [v1|] eqn:H1;
    cbn [bind]; [|discriminate].
  rewrite !rd_wr_other by lia.
  destruct (add_channel (rd q (4 * loc + 2)) b_err weight) as [v2|] eqn:H2;
    cbn [bind]; [|discriminate].
  intros [= <-]. right. split; [exact Hlt|]. exists v0, v1, v2. auto.
Qed.

Lemma add_error_nonneg (q q' : list Z) (num_pixels loc weight r_err g_err b_err : Z) :
  nonneg q ->
  add_error q num_pixels loc weight r_err g_err b_err = Ok q' -> nonneg q'.
Proof.
  intros Hq. unfold add_error. destruct (loc <? num_pixels); [|intros [= <-]; exact Hq].
  cbv zeta.
  destruct (add_channel _ r_err weight) as [v0|] eqn:H0; cbn [bind]; [|discriminate].
  destruct (add_channel _ g_err weight) as [v1|] eqn:H1; cbn [bind]; [|discriminate].
  destruct (add_channel _ b_err weight) as [v2|] eqn:H2; cbn [bind]; [|discriminate].
  intros [= <-].
  apply add_channel_ok in H0 as (_ & ? & _), H1 as (_ & ? & _), H2 as (_ & ? & _).
  repeat apply nonneg_wr; try exact Hq; lia.
Qed.

Lemma add_error_frame (q q' : list Z) (num_pixels loc weight r_err g_err b_err : Z) :
  0 <= loc ->
  add_error q num_pixels loc weight r_err g_err b_err = Ok q' ->
  length q' = length q
  /\ forall j, 0 <= j -> j < 4 * loc \/ 4 * loc + 3 <= j -> rd q' j = rd q j.
Proof.
  intros Hloc Hrun.
  destruct (add_error_inv q q' num_pixels loc weight r_err g_err b_err Hloc Hrun)
    as [[_ ->]|(_ & v0 & v1 & v2 & _ & _ & _ & ->)]; [auto|].
  split; [rewrite !wr_length; reflexivity|].
  intros j Hj Hout. rewrite !rd_wr_other by lia. reflexivity.
Qed.

Lemma add_error_value (q q' : list Z) (num_pixels loc weight r_err g_err b_err : Z) :
  0 <= loc < num_pixels -> 4 * loc + 2 < Z.of_nat (length q) ->
  add_error q num_pixels loc weight r_err g_err b_err = Ok q' ->
  rd q' (4 * loc)
  = rd q (4 * loc) + Z.max (- rd q (4 * loc)) (Z.quot (r_err * weight) 16)
  /\ rd q' (4 * loc + 1)
     = rd q (4 * loc + 1) + Z.max (- rd q (4 * loc + 1)) (Z.quot (g_err * weight) 16)
  /\ rd q' (4 * loc + 2)
     = rd q (4 * loc + 2) + Z.max (- rd q (4 * loc + 2)) (Z.quot (b_err * weight) 16)
  /\ (0 <= rd q' (4 * loc) < 2 ^ 31 /\ 0 <= rd q' (4 * loc + 1) < 2 ^ 31
      /\ 0 <= rd q' (4 * loc + 2) < 2 ^ 31).
Proof.
  intros Hloc Hlen Hrun.
  destruct (add_error_inv q q' num_pixels loc weight r_err g_err b_err
              ltac:(lia) Hrun)
    as [[? _]|(_ & v0 & v1 & v2 & H0 & H1 & H2 & ->)]; [lia|].
  apply add_channel_ok in H0 as (E0 & R0 & _), H1 as (E1 & R1 & _),
    H2 as (E2 & R2 & _).
  assert (G0 : rd (wr (wr (wr q (4 * loc) v0) (4 * loc + 1) v1) (4 * loc + 2) v2)
                 (4 * loc) = v0).
  { rewrite !(rd_wr_other _ (4 * loc + 2)), !(rd_wr_other _ (4 * loc + 1)) by lia.
    apply rd_wr_same; lia. }
  assert (G1 : rd (wr (wr (wr q (4 * loc) v0) (4 * loc + 1) v1) (4 * loc + 2) v2)
                 (4 * loc + 1) = v1).
  { rewrite !(rd_wr_other _ (4 * loc + 2)) by lia.
    apply rd_wr_same; [lia|rewrite ?wr_length; lia]. }
  assert (G2 : rd (wr (wr (wr q (4 * loc) v0) (4 * loc + 1) v1) (4 * loc + 2) v2)
                 (4 * loc + 2) = v2).
  { apply rd_wr_same; [lia|rewrite ?wr_length; lia]. }
  rewrite G0, G1, G2. repeat split; first [assumption | lia].
Qed.

Lemma propagate_inv (q q' : list Z) (num_pixels width x y r_err g_err b_err : Z) :
  propagate q num_pixels width x y r_err g_err b_err = Ok q' <->
  exists q7 q3 q5,
    add_error q num_pixels (quantloc_7 width x y) 7 r_err g_err b_err = Ok q7
    /\ add_error q7 num_pixels (quantloc_3 width x y) 3 r_err g_err b_err = Ok q3
    /\ add_error q3 num_pixels (quantloc_5 width x y) 5 r_err g_err b_err = Ok q5
    /\ add_error q5 num_pixels (quantloc_1 width x y) 1 r_err g_err b_err = Ok q'.
Proof.
  unfold propagate. split.
  - destruct (add_error q _ _ 7 _ _ _) as [q7|] eqn:H7; cbn [bind]; [|discriminate].
    destruct (add_error q7 _ _ 3 _ _ _) as [q3|] eqn:H3; cbn [bind]; [|discriminate].
    destruct (add_error q3 _ _ 5 _ _ _) as [q5|] eqn:H5; cbn [bind]; [|discriminate].
    intros H1. exists q7, q3, q5. repeat split; assumption.
  - intros (q7 & q3 & q5 & -> & H3 & H5 & H1). cbn [bind].
    rewrite H3. cbn [bind]. rewrite H5. exact H1.
Qed.

Lemma propagate_nonneg (q q' : list Z) (num_pixels width x y r_err g_err b_err : Z) :
  nonneg q -> propagate q num_pixels width x y r_err g_err b_err = Ok q' ->
  nonneg q'.
Proof.
  intros Hq Hrun. apply propagate_inv in Hrun as (q7 & q3 & q5 & H7 & H3 & H5 & H1).
  eauto using add_error_nonneg.
Qed.

Lemma quantloc_nonneg (width x y : Z) :
  0 <= quantloc_7 width x y /\ 0 <= quantloc_3 width x y
  /\ 0 <= quantloc_5 width x y /\ 0 <= quantloc_1 width x y.
Proof.
  unfold quantloc_7, quantloc_3, quantloc_5, quantloc_1, usize.
  repeat split; apply Z.mod_pos_bound; lia.
Qed.

Lemma rounded_nonneg (v : Z) : 0 <= v -> 0 <= rounded v.
Proof. intros Hv. unfold rounded. apply Z.quot_pos; lia. Qed.

(** *** One pixel *)

(** What [dither_pixel] does: the pixel repeats the previous frame and is
    written as transparent, or it takes the colour the palette query finds
    for the rounded colour and hands its error on. *)
Lemma dither_pixel_cases (last_frame : frame_ptr) (last : list Z) (pal : Palette.t)
    (num_pixels width y x : Z) (q q' : list Z) :
  dither_pixel last_frame last pal num_pixels width y x q = Ok q' ->
  let i := usize (y * width + x) in
  let rr := rounded (rd q (4 * i)) in
  let gg := rounded (rd q (4 * i + 1)) in
  let bb := rounded (rd q (4 * i + 2)) in
  (is_null last_frame = false
   /\ (rd last (4 * i), rd last (4 * i + 1), rd last (4 * i + 2)) = (rr, gg, bb)
   /\ q' = wr (wr (wr (wr q (4 * i) rr) (4 * i + 1) gg) (4 * i + 2) bb) (4 * i + 3)
             transparency_index)
  \/ ((is_null last_frame = true
       \/ (rd last (4 * i), rd last (4 * i + 1), rd last (4 * i + 2)) <> (rr, gg, bb))
      /\ exists best_ind best_diff,
           closest_from_root pal rr gg bb transparency_index = Ok (best_ind, best_diff)
           /\ let r_err := rd q (4 * i) - rd (Palette.r pal) best_ind * 256 in
              let g_err := rd q (4 * i + 1) - rd (Palette.g pal) best_ind * 256 in
              let b_err := rd q (4 * i + 2) - rd (Palette.b pal) best_ind * 256 in
              (- 2 ^ 31 <= r_err < 2 ^ 31 /\ - 2 ^ 31 <= g_err < 2 ^ 31
               /\ - 2 ^ 31 <= b_err < 2 ^ 31)
              /\ propagate
                   (wr (wr (wr (wr q (4 * i) (rd (Palette.r pal) best_ind))
                              (4 * i + 1) (rd (Palette.g pal) best_ind))
                          (4 * i + 2) (rd (Palette.b pal) best_ind))
                      (4 * i + 3) best_ind)
                   num_pixels width x y r_err g_err b_err = Ok q').
Proof.
  intros Hrun i rr gg bb. unfold dither_pixel in Hrun. fold i in Hrun.
  destruct (i32 (rd q (4 * i) + 127)) as [?|]; cbn [bind] in Hrun; [|discriminate].
  destruct (i32 (rd q (4 * i + 1) + 127)) as [?|]; cbn [bind] in Hrun; [|discriminate].
  destruct (i32 (rd q (4 * i + 2) + 127)) as [?|]; cbn [bind] in Hrun; [|discriminate].
  fold rr gg bb in Hrun.
  destruct (is_null last_frame) eqn:Hnull; cbn [negb andb] in Hrun.
  - right. split; [left; reflexivity|].
    destruct (closest_from_root pal rr gg bb transparency_index) as [[bi bd]|] eqn:Hq;
      cbn [bind fst] in Hrun; [|discriminate].
    unfold pixel_error in Hrun.
    destruct (i32 (rd q (4 * i) - _)) as [r_err|] eqn:Hr; cbn [bind] in Hrun;
      [|discriminate].
    destruct (i32 (rd q (4 * i + 1) - _)) as [g_err|] eqn:Hg; cbn [bind] in Hrun;
      [|discriminate].
    destruct (i32 (rd q (4 * i + 2) - _)) as [b_err|] eqn:Hb; cbn [bind] in Hrun;
      [|discriminate].
    apply i32_ok in Hr as [-> Rr], Hg as [-> Rg], Hb as [-> Rb].
    exists bi, bd. split; [reflexivity|]. cbv zeta. auto.
  - destruct (Z.eqb_spec (rd last (4 * i)) rr) as [E0|N0]; cbn [andb] in Hrun;
      [destruct (Z.eqb_spec (rd last (4 * i + 1)) gg) as [E1|N1]; cbn [andb] in Hrun;
       [destruct (Z.eqb_spec (rd last (4 * i + 2)) bb) as [E2|N2]|]|].
    { left. injection Hrun as <-. rewrite E0, E1, E2. auto. }
    all: right; (split; [right; congruence|]);
      (destruct (closest_from_root pal rr gg bb transparency_index) as [[bi bd]|] eqn:Hq;
       cbn [bind fst] in Hrun; [|discriminate]);
      unfold pixel_error in Hrun;
      (destruct (i32 (rd q (4 * i) - _)) as [r_err|] eqn:Hr; cbn [bind] in Hrun;
       [|discriminate]);
      (destruct (i32 (rd q (4 * i + 1) - _)) as [g_err|] eqn:Hg; cbn [bind] in Hrun;
       [|discriminate]);
      (destruct (i32 (rd q (4 * i + 2) - _)) as [b_err|] eqn:Hb; cbn [bind] in Hrun;
       [|discriminate]);
      apply i32_ok in Hr as [-> Rr], Hg as [-> Rg], Hb as [-> Rb];
      exists bi, bd; (split; [reflexivity|]); cbv zeta; auto.
Qed.

Lemma dither_pixel_nonneg (last_frame : frame_ptr) (last : list Z)
    (pal : Palette.t) (num_pixels width y x : Z) (q q' : list Z) :
  0 <= Palette.bit_depth pal -> pal_bytes pal -> nonneg q ->
  dither_pixel last_frame last pal num_pixels width y x q = Ok q' ->
  nonneg q'.
Proof.
  intros HD Hpal Hq Hstep.
  destruct (dither_pixel_cases _ _ _ _ _ _ _ _ _ Hstep)
    as [(_ & _ & ->)|(_ & bi & bd & Hbest & _ & Hprop)].
  - repeat apply nonneg_wr; try exact Hq; try (apply rounded_nonneg, Hq).
    unfold transparency_index. lia.
  - apply closest_from_root_improves in Hbest; [|exact HD].
    assert (0 <= bi).
    { destruct Hbest as [[= -> _]|Hbest];
        [unfold transparency_index; lia|simpl in Hbest; lia]. }
    eapply propagate_nonneg; [|exact Hprop].
    repeat apply nonneg_wr; try exact Hq; try lia; apply Hpal.
Qed.

Lemma quant_init_nonneg (next_frame : list Z) (num_pixels : Z) :
  nonneg next_frame -> nonneg (quant_init next_frame num_pixels).
Proof.
  intros Hnext j. unfold quant_init, rd at 1.
  rewrite list_lookup_fmap.
  destruct (seqZ 0 (usize (num_pixels * 4)) !! Z.to_nat j) as [i|]; simpl; [|lia].
  specialize (Hnext i). lia.
Qed.

Lemma quant_init_value (next_frame : list Z) (num_pixels j : Z) :
  0 <= j < usize (num_pixels * 4) ->
  rd (quant_init next_frame num_pixels) j = rd next_frame j * 256.
Proof.
  intros Hj. unfold quant_init, rd at 1.
  rewrite list_lookup_fmap, lookup_seqZ_lt by lia. simpl.
  rewrite Z2Nat.id by lia. reflexivity.
Qed.

Lemma quant_init_length (next_frame : list Z) (num_pixels : Z) :
  length (quant_init next_frame num_pixels) = Z.to_nat (usize (num_pixels * 4)).
Proof. unfold quant_init. rewrite length_fmap. apply length_seqZ. Qed.

Lemma dither_rows_nonneg (last_frame : frame_ptr) (last : list Z)
    (pal : Palette.t) (num_pixels width : Z) (rows : nat) (q q' : list Z) :
  0 <= Palette.bit_depth pal -> pal_bytes pal -> nonneg q ->
  dither_rows last_frame last pal num_pixels width rows q = Ok q' ->
  nonneg q'.
Proof.
  intros HD Hpal Hq Hrun. unfold dither_rows in Hrun.
  apply (for_loop_inv (fun _ q => nonneg q)) in Hrun; [exact Hrun|exact Hq|].
  intros y t t' _ Ht Hrow.
  apply (for_loop_inv (fun _ q => nonneg q)) in Hrow; [exact Hrow|exact Ht|].
  intros x v v' _ Hv Hpix. eapply dither_pixel_nonneg; eauto.
Qed.

(** *** Where the arithmetic stays within [i32] *)

Lemma colours_within_chan (M : Z) (q : list Z) (p : Z) :
  colours_within M q -> 0 <= p ->
  0 <= rd q (4 * p) <= M /\ 0 <= rd q (4 * p + 1) <= M /\ 0 <= rd q (4 * p + 2) <= M.
Proof.
  intros Hq Hp. pose proof (Hq p 0 Hp ltac:(lia)) as H0.
  rewrite Z.add_0_r in H0. split; [exact H0|]. split; apply Hq; lia.
Qed.

Lemma colours_within_wr (M : Z) (q : list Z) (i v : Z) :
  colours_within M q -> 0 <= v <= M -> colours_within M (wr q i v).
Proof.
  intros Hq Hv p c Hp Hc.
  destruct (rd_wr_cases q i v (4 * p + c)) as [->| ->]; [exact Hv|apply Hq; lia].
Qed.

Lemma colours_within_wr_index (M : Z) (q : list Z) (i v : Z) :
  colours_within M q -> 0 <= i -> colours_within M (wr q (4 * i + 3) v).
Proof.
  intros Hq Hi p c Hp Hc. rewrite rd_wr_other by lia. apply Hq; lia.
Qed.

Lemma add_error_total (q : list Z) (num_pixels loc weight r_err g_err b_err M E : Z) :
  0 <= loc -> 1 <= weight <= 7 -> 0 <= M -> 0 <= E ->
  7 * E < 2 ^ 31 -> M + E < 2 ^ 31 ->
  - E <= r_err <= E -> - E <= g_err <= E -> - E <= b_err <= E ->
  colours_within M q ->
  exists q',
    add_error q num_pixels loc weight r_err g_err b_err = Ok q'
    /\ colours_within (M + E) q'.
Proof.
  intros Hloc Hw HM HE H7 HME Hr Hg Hb Hq.
  assert (Hup : colours_within (M + E) q).
  { intros p c Hp Hc. specialize (Hq p c Hp Hc). lia. }
  unfold add_error. destruct (loc <? num_pixels); [|eauto].
  destruct (colours_within_chan M q loc Hq Hloc) as (C0 & C1 & C2).
  assert (Hch : forall pix err, 0 <= pix <= M -> - E <= err <= E ->
            add_channel pix err weight
            = Ok (pix + Z.max (- pix) (Z.quot (err * weight) 16))
            /\ 0 <= pix + Z.max (- pix) (Z.quot (err * weight) 16) <= M + E).
  { intros pix err Hpix Herr.
    assert (Hm : - (7 * E) <= err * weight <= 7 * E) by nia.
    pose proof (quot16_bounds (err * weight)) as Hq16.
    assert (Hs : Z.quot (err * weight) 16 <= E).
    { destruct (Z.le_gt_cases 0 (err * weight)) as [Hpos|Hneg].
      - rewrite Z.quot_div_nonneg by lia.
        apply Z.div_le_upper_bound; lia.
      - lia. }
    split; [apply add_channel_small; lia|lia]. }
  cbv zeta.
  destruct (Hch _ r_err C0 Hr) as [-> R0]. cbn [bind].
  rewrite rd_wr_other by lia.
  destruct (Hch _ g_err C1 Hg) as [-> R1]. cbn [bind].
  rewrite !rd_wr_other by lia.
  destruct (Hch _ b_err C2 Hb) as [-> R2]. cbn [bind].
  eexists. split; [reflexivity|].
  repeat apply colours_within_wr; assumption.
Qed.

Lemma propagate_total (q : list Z) (num_pixels width x y r_err g_err b_err M E : Z) :
  0 <= M -> 0 <= E -> 7 * E < 2 ^ 31 -> M + 4 * E < 2 ^ 31 ->
  - E <= r_err <= E -> - E <= g_err <= E -> - E <= b_err <= E ->
  colours_within M q ->
  exists q',
    propagate q num_pixels width x y r_err g_err b_err = Ok q'
    /\ colours_within (M + 4 * E) q'.
Proof.
  intros HM HE H7 HME Hr Hg Hb Hq.
  destruct (quantloc_nonneg width x y) as (N7 & N3 & N5 & N1).
  destruct (add_error_total q num_pixels (quantloc_7 width x y) 7 r_err g_err b_err
              M E) as (q7 & R7 & C7); try assumption; try lia.
  destruct (add_error_total q7 num_pixels (quantloc_3 width x y) 3 r_err g_err b_err
              (M + E) E) as (q3 & R3 & C3); try assumption; try lia.
  destruct (add_error_total q3 num_pixels (quantloc_5 width x y) 5 r_err g_err b_err
              (M + E + E) E) as (q5 & R5 & C5); try assumption; try lia.
  destruct (add_error_total q5 num_pixels (quantloc_1 width x y) 1 r_err g_err b_err
              (M + E + E + E) E) as (q1 & R1 & C1); try assumption; try lia.
  exists q1. split; [apply propagate_inv; eauto 10|].
  replace (M + 4 * E) with (M + E + E + E + E) by lia. exact C1.
Qed.

(** A pixel step is defined on a valid tree as long as the colour cells
    are at most 2^27. *)
Lemma dither_pixel_total (last_frame : frame_ptr) (last : list Z)
    (pal : Palette.t) (num_pixels width y x : Z) (q : list Z) :
  0 <= Palette.bit_depth pal -> tree_ok pal -> pal_bytes pal ->
  colours_within (2 ^ 27) q ->
  exists q', dither_pixel last_frame last pal num_pixels width y x q = Ok q'.
Proof.
  intros HD Hok Hpal Hq. unfold dither_pixel.
  set (i := usize (y * width + x)).
  assert (Hi : 0 <= i) by (apply Z.mod_pos_bound; lia).
  destruct (colours_within_chan _ q i Hq Hi) as (C0 & C1 & C2).
  assert (H27 : 2 ^ 27 = 134217728) by reflexivity.
  assert (H31 : 2 ^ 31 = 2147483648) by reflexivity.
  rewrite !i32_small by lia. cbn [bind].
  destruct (_ && _); [eauto|].
  match goal with |- context [closest_from_root pal ?a ?b ?c ?bi] =>
    destruct (closest_from_root_total pal a b c bi HD Hok) as [best Hbest]
  end.
  rewrite Hbest. cbn [bind]. unfold pixel_error.
  destruct (Hpal (fst best)) as (P0 & P1 & P2).
  rewrite !i32_small by lia. cbn [bind].
  destruct (propagate_total
              (wr (wr (wr (wr q (4 * i) (rd (Palette.r pal) (fst best)))
                         (4 * i + 1) (rd (Palette.g pal) (fst best)))
                     (4 * i + 2) (rd (Palette.b pal) (fst best)))
                 (4 * i + 3) (fst best))
              num_pixels width x y
              (rd q (4 * i) - rd (Palette.r pal) (fst best) * 256)
              (rd q (4 * i + 1) - rd (Palette.g pal) (fst best) * 256)
              (rd q (4 * i + 2) - rd (Palette.b pal) (fst best) * 256)
              (2 ^ 27) (2 ^ 27)) as (q' & Hrun & _); try lia.
  - apply colours_within_wr_index; [|exact Hi].
    repeat apply colours_within_wr; try assumption; lia.
  - eauto.
Qed.

(** C5.  The dither buffer holds the input scaled by 256.  At a pixel the
    colour asked from the palette is [(q + 127) / 256] per channel; unless
    the pixel repeats the previous frame, its error is [q - 256 * colour]
    for the palette colour found, the pixel is replaced by that colour and
    its index, and the error is handed on by four updates, with the weights
    7, 3, 5 and 1, each adding [max (- channel) (err * weight / 16)] to the
    three colour channels of its target.  All of it is [i32] arithmetic: a
    step that yields a buffer has stayed within the range of the type.
    Hence every cell of the buffer is non-negative after any number of rows
    and pixels of the pass, and between the four updates of one pixel,
    while a non-negative increment is added whole, however large the sum
    gets.  A pixel step does yield a buffer as long as the colour cells are
    at most 2^27. *)
Theorem dither_fixed_point :
  forall (last_frame : frame_ptr) (last : list Z) (pal : Palette.t)
         (next_frame : list Z) (num_pixels width : Z),
    0 <= Palette.bit_depth pal -> pal_bytes pal -> nonneg next_frame ->
    (forall j, 0 <= j < usize (num_pixels * 4) ->
       rd (quant_init next_frame num_pixels) j = rd next_frame j * 256)
    /\ (forall v, 0 <= v -> rounded v = (v + 127) / 256)
    /\ (forall y x q q',
          dither_pixel last_frame last pal num_pixels width y x q = Ok q' ->
          let i := usize (y * width + x) in
          let rr := rounded (rd q (4 * i)) in
          let gg := rounded (rd q (4 * i + 1)) in
          let bb := rounded (rd q (4 * i + 2)) in
          (is_null last_frame = false
           /\ (rd last (4 * i), rd last (4 * i + 1), rd last (4 * i + 2))
              = (rr, gg, bb)
           /\ q' = wr (wr (wr (wr q (4 * i) rr) (4 * i + 1) gg) (4 * i + 2) bb)
                     (4 * i + 3) transparency_index)
          \/ ((is_null last_frame = true
               \/ (rd last (4 * i), rd last (4 * i + 1), rd last (4 * i + 2))
                  <> (rr, gg, bb))
              /\ exists best_ind best_diff,
                   closest_from_root pal rr gg bb transparency_index
                   = Ok (best_ind, best_diff)
                   /\ let r_err := rd q (4 * i) - rd (Palette.r pal) best_ind * 256 in
                      let g_err :=
                        rd q (4 * i + 1) - rd (Palette.g pal) best_ind * 256 in
                      let b_err :=
                        rd q (4 * i + 2) - rd (Palette.b pal) best_ind * 256 in
                      (- 2 ^ 31 <= r_err < 2 ^ 31 /\ - 2 ^ 31 <= g_err < 2 ^ 31
                       /\ - 2 ^ 31 <= b_err < 2 ^ 31)
                      /\ propagate
                           (wr (wr (wr (wr q (4 * i) (rd (Palette.r pal) best_ind))
                                      (4 * i + 1) (rd (Palette.g pal) best_ind))
                                  (4 * i + 2) (rd (Palette.b pal) best_ind))
                              (4 * i + 3) best_ind)
                           num_pixels width x y r_err g_err b_err = Ok q'))
    /\ (forall q x y r_err g_err b_err q',
          propagate q num_pixels width x y r_err g_err b_err = Ok q' <->
          exists q7 q3 q5,
            add_error q num_pixels (quantloc_7 width x y) 7 r_err g_err b_err = Ok q7
            /\ add_error q7 num_pixels (quantloc_3 width x y) 3 r_err g_err b_err
               = Ok q3
            /\ add_error q3 num_pixels (quantloc_5 width x y) 5 r_err g_err b_err
               = Ok q5
            /\ add_error q5 num_pixels (quantloc_1 width x y) 1 r_err g_err b_err
               = Ok q')
    /\ (forall q loc weight r_err g_err b_err q',
          0 <= loc < num_pixels -> 4 * loc + 2 < Z.of_nat (length q) ->
          add_error q num_pixels loc weight r_err g_err b_err = Ok q' ->
          rd q' (4 * loc)
          = rd q (4 * loc) + Z.max (- rd q (4 * loc)) (Z.quot (r_err * weight) 16)
          /\ rd q' (4 * loc + 1)
             = rd q (4 * loc + 1)
               + Z.max (- rd q (4 * loc + 1)) (Z.quot (g_err * weight) 16)
          /\ rd q' (4 * loc + 2)
             = rd q (4 * loc + 2)
               + Z.max (- rd q (4 * loc + 2)) (Z.quot (b_err * weight) 16)
          /\ (0 <= rd q' (4 * loc) < 2 ^ 31 /\ 0 <= rd q' (4 * loc + 1) < 2 ^ 31
              /\ 0 <= rd q' (4 * loc + 2) < 2 ^ 31))
    /\ (forall q loc weight r_err g_err b_err q',
          nonneg q ->
          add_error q num_pixels loc weight r_err g_err b_err = Ok q' -> nonneg q')
    /\ (forall (rows cols : nat) q1 q2,
          dither_rows last_frame last pal num_pixels width rows
            (quant_init next_frame num_pixels) = Ok q1 ->
          for_loop cols 0
            (dither_pixel last_frame last pal num_pixels width (Z.of_nat rows)) q1
          = Ok q2 ->
          nonneg q1 /\ nonneg q2)
    /\ (forall q loc weight r_err g_err b_err q',
          0 <= loc < num_pixels -> 4 * loc + 2 < Z.of_nat (length q) ->
          0 <= rd q (4 * loc) -> 0 <= r_err * weight ->
          add_error q num_pixels loc weight r_err g_err b_err = Ok q' ->
          rd q' (4 * loc) = rd q (4 * loc) + r_err * weight / 16)
    /\ (tree_ok pal ->
        forall y x q, colours_within (2 ^ 27) q ->
          exists q', dither_pixel last_frame last pal num_pixels width y x q = Ok q').
Proof.
  intros last_frame last pal next_frame num_pixels width HD Hpal Hnext.
  split; [intros j Hj; apply quant_init_value; exact Hj|].
  split; [intros v Hv; unfold rounded; apply Z.quot_div_nonneg; lia|].
  split; [intros y x q q' Hrun; exact (dither_pixel_cases _ _ _ _ _ _ _ _ _ Hrun)|].
  split; [intros; apply propagate_inv|].
  split; [intros q loc weight r_err g_err b_err q' Hloc Hlen Hrun;
          exact (add_error_value _ _ _ _ _ _ _ _ Hloc Hlen Hrun)|].
  split; [intros q loc weight r_err g_err b_err q' Hq Hrun;
          exact (add_error_nonneg _ _ _ _ _ _ _ _ Hq Hrun)|].
  split.
  { intros rows cols q1 q2 Hrows Hcols.
    assert (Hq1 : nonneg q1).
    { eapply dither_rows_nonneg; [exact HD|exact Hpal| |exact Hrows].
      apply quant_init_nonneg. exact Hnext. }
    split; [exact Hq1|].
    apply (for_loop_inv (fun _ q => nonneg q)) in Hcols; [exact Hcols|exact Hq1|].
    intros x v v' _ Hv Hpix. eapply dither_pixel_nonneg; eauto. }
  split.
  { intros q loc weight r_err g_err b_err q' Hloc Hlen Hq Hinc Hrun.
    destruct (add_error_value _ _ _ _ _ _ _ _ Hloc Hlen Hrun) as (H0 & _).
    rewrite H0, Z.quot_div_nonneg by lia.
    pose proof (Z.div_pos (r_err * weight) 16 Hinc ltac:(lia)). lia. }
  intros Hok y x q Hq. apply dither_pixel_total; assumption.
Qed.

(** The overshoot is real: after the first pixel of a 3x1 frame whose
    darkest colour is black, the red channel of the second pixel holds
    93840, more than 256 * 255. *)
Example dither_overshoot :
  exists q,
    dither_pixel Null [] demo_dither_pal 3 3 0 0 (quant_init demo_frame3 3) = Ok q
    /\ rd q 4 = 93840 /\ 256 * 255 < rd q 4.
Proof. eexists. split; [vm_compute; reflexivity|]. split; [reflexivity|reflexivity]. Qed.

(** And so is the overflow: a channel that has grown to 400000000 has an
    error whose sevenfold is no [i32]. *)
Example dither_overflow :
  dither_pixel Null [] demo_dither_pal 3 3 0 0
    [400000000; 0; 0; 255; 0; 0; 0; 255; 0; 0; 0; 255]
  = Err SignedOverflow.
Proof. vm_compute. reflexivity. Qed.

Lemma bytes_rd (l : list Z) (k : Z) : bytes l -> 0 <= rd l k <= 255.
Proof.
  intros Hl. unfold rd. destruct (l !! Z.to_nat k) as [v|] eqn:Hv; simpl; [|lia].
  exact (proj1 (Forall_lookup _ l) Hl _ _ Hv).
Qed.

Lemma bytes_wr (l : list Z) (i v : Z) : bytes l -> 0 <= v <= 255 -> bytes (wr l i v).
Proof. intros Hl Hv. unfold wr. apply Forall_insert; assumption. Qed.

Lemma bytes_nonneg (l : list Z) : bytes l -> nonneg l.
Proof. intros Hl j. apply (bytes_rd l j Hl). Qed.

Lemma u8_range (v : Z) : 0 <= u8 v <= 255.
Proof. unfold u8. pose proof (Z.mod_pos_bound v 256). lia. Qed.

Lemma pal_bytes_intro (pal : Palette.t) :
  bytes (Palette.r pal) -> bytes (Palette.g pal) -> bytes (Palette.b pal) ->
  pal_bytes pal.
Proof. intros Hr Hg Hb k. auto using bytes_rd. Qed.

Lemma demo_dither_pal_bytes : pal_bytes demo_dither_pal.
Proof.
  apply pal_bytes_intro; unfold bytes; simpl;
    repeat (constructor; [lia|]); constructor.
Qed.

Lemma dither_fixed_point_witness :
  0 <= Palette.bit_depth demo_dither_pal
  /\ pal_bytes demo_dither_pal
  /\ nonneg demo_frame3
  /\ (exists q' best_ind best_diff,
        dither_pixel Null [] demo_dither_pal 3 3 0 0 (quant_init demo_frame3 3) = Ok q'
        /\ closest_from_root demo_dither_pal 255 0 0 transparency_index
           = Ok (best_ind, best_diff)
        /\ propagate
             (wr (wr (wr (wr (quant_init demo_frame3 3) 0
                            (rd (Palette.r demo_dither_pal) best_ind))
                        1 (rd (Palette.g demo_dither_pal) best_ind))
                    2 (rd (Palette.b demo_dither_pal) best_ind))
                3 best_ind)
             3 3 0 0 (65280 - rd (Palette.r demo_dither_pal) best_ind * 256)
             (0 - rd (Palette.g demo_dither_pal) best_ind * 256)
             (0 - rd (Palette.b demo_dither_pal) best_ind * 256) = Ok q')
  /\ forall (rows cols : nat) q1 q2,
       dither_rows Null [] demo_dither_pal 3 3 rows (quant_init demo_frame3 3)
       = Ok q1 ->
       for_loop cols 0 (dither_pixel Null [] demo_dither_pal 3 3 (Z.of_nat rows)) q1
       = Ok q2 ->
       nonneg q1 /\ nonneg q2.
Proof.
  assert (H1 : 0 <= Palette.bit_depth demo_dither_pal) by (simpl; lia).
  assert (H2 : pal_bytes demo_dither_pal) by exact demo_dither_pal_bytes.
  assert (H3 : nonneg demo_frame3).
  { apply bytes_nonneg. unfold bytes, demo_frame3.
    repeat (constructor; [lia|]). constructor. }
  split; [exact H1|]. split; [exact H2|]. split; [exact H3|].
  destruct (dither_fixed_point Null [] demo_dither_pal demo_frame3 3 3 H1 H2 H3)
    as (_ & _ & Hpix & _ & _ & _ & Hrows & _).
  split; [|exact Hrows].
  destruct (dither_pixel Null [] demo_dither_pal 3 3 0 0 (quant_init demo_frame3 3))
    as [q'|] eqn:Hrun; [|vm_compute in Hrun; discriminate].
  destruct (Hpix 0 0 (quant_init demo_frame3 3) q' Hrun)
    as [(Hnull & _)|(_ & bi & bd & Hq & _ & Hprop)]; [discriminate Hnull|].
  exists q', bi, bd. split; [reflexivity|]. split; [exact Hq|exact Hprop].
Defined.

(** ** Where the dither errors go *)

Lemma usize_small (v : Z) : 0 <= v < 2 ^ 64 -> usize v = v.
Proof. intros Hv. unfold usize. apply Z.mod_small. exact Hv. Qed.

Lemma usize_range (v : Z) : 0 <= usize v < 2 ^ 64.
Proof. unfold usize. apply Z.mod_pos_bound. lia. Qed.

Lemma depth_guard (bit_depth : Z) :
  1 <= bit_depth <= 8 -> negb ((1 <=? bit_depth) && (bit_depth <=? 8)) = false.
Proof.
  intros Hd. destruct (Z.leb_spec 1 bit_depth); destruct (Z.leb_spec bit_depth 8);
    simpl; first [reflexivity | lia].
Qed.




(** ** The transparency slot is never returned *)

Section QueryRange.
Variable pal : Palette.t.
Variables r g b : Z.

Local Abbreviation D := (Palette.bit_depth pal).
Local Abbreviation far := (r + g + b + 765).

Hypothesis HD : 1 <= D.
Hypothesis Hbytes : pal_bytes pal.
Hypothesis Hquery : 0 <= r /\ 0 <= g /\ 0 <= b.
(* the node the constructor patches *)
Hypothesis Hnode_elt : rd (Palette.tree_split_elt pal) (2 ^ (D - 1)) = 0.
Hypothesis Hnode_split : rd (Palette.tree_split pal) (2 ^ (D - 1)) = 0.

Lemma leaf_diff_bound (ind : Z) : 0 <= leaf_diff pal r g b ind <= far.
Proof.
  unfold leaf_diff. destruct (Hbytes ind) as (Hr & Hg & Hb). lia.
Qed.

Lemma found_improves (best best' : Z * Z) :
  found pal r g b best -> improves pal r g b best best' -> found pal r g b best'.
Proof.
  intros [Hi Hd] [->|(Hi' & Hd' & _)]; [split; assumption|].
  split; [exact Hi'|lia].
Qed.

Lemma pow_D : 2 ^ (D + 1) = 2 * 2 ^ D /\ 0 < 2 ^ D /\ 2 ^ D = 2 * 2 ^ (D - 1).
Proof.
  split; [apply Z.pow_succ_r; lia|]. split; [apply Z.pow_pos_nonneg; lia|].
  replace D with (Z.succ (D - 1)) at 1 by lia. apply Z.pow_succ_r. lia.
Qed.

Lemma pow_nat (n : nat) :
  0 < 2 ^ Z.of_nat n /\ 2 ^ Z.of_nat (S n) = 2 * 2 ^ Z.of_nat n.
Proof.
  split; [apply Z.pow_pos_nonneg; lia|].
  rewrite Nat2Z.inj_succ. apply Z.pow_succ_r. lia.
Qed.

(** A subtree whose leaves are all palette entries above 0: the first leaf
    it visits is written to the pair. *)
Lemma closest_off_spine :
  forall (n fuel : nat) (best best' : Z * Z) (tree_root : Z),
    2 ^ D < tree_root * 2 ^ Z.of_nat n ->
    tree_root * 2 ^ Z.of_nat n + 2 ^ Z.of_nat n <= 2 ^ (D + 1) ->
    far < snd best ->
    get_closest_pallete_color fuel pal r g b best tree_root = Ok best' ->
    found pal r g b best'.
Proof.
  destruct pow_D as (HD1 & HD0 & _).
  induction n as [|n IH]; intros fuel best best' tree_root Hlo Hhi Hfar Hrun;
    (destruct fuel as [|fuel]; [discriminate|]).
  - change (2 ^ Z.of_nat 0) with 1 in *.
    rewrite closest_leaf in Hrun by lia. 
    destruct (Z.eqb_spec tree_root (2 ^ D)); [lia|].
    pose proof (leaf_diff_bound (tree_root - 2 ^ D)).
    destruct (Z.ltb_spec (leaf_diff pal r g b (tree_root - 2 ^ D)) (snd best));
      [|lia].
    injection Hrun as <-. split; simpl; lia.
  - destruct (pow_nat n) as [Hp Hs]. rewrite Hs in Hlo, Hhi.
    rewrite closest_node in Hrun by nia.
    destruct (comps r g b _) as [split_comp|]; [|discriminate].
    cbn [bind] in Hrun.
    assert (Hchild : forall c fl bst bst',
               c = tree_root * 2 \/ c = tree_root * 2 + 1 ->
               get_closest_pallete_color fl pal r g b bst c = Ok bst' ->
               (far < snd bst -> found pal r g b bst') /\ (found pal r g b bst -> found pal r g b bst')).
    { intros c fl bst bst' Hc Hq. split.
      - intros Hf. apply (IH fl bst bst' c); [nia|nia|exact Hf|exact Hq].
      - intros Hf. apply (found_improves bst); [exact Hf|].
        apply (closest_improves pal r g b fl bst bst' c); [nia|exact Hq]. }
    destruct (_ >? _).
    + destruct (get_closest_pallete_color fuel pal r g b best (tree_root * 2))
        as [b1|] eqn:H1; [|discriminate].
      cbn [bind] in Hrun.
      apply Hchild in H1; [|auto]. destruct H1 as [H1 _]. specialize (H1 Hfar).
      destruct (_ >? _); [|injection Hrun as <-; exact H1].
      apply Hchild in Hrun; [|auto]. apply Hrun, H1.
    + destruct (get_closest_pallete_color fuel pal r g b best (tree_root * 2 + 1))
        as [b1|] eqn:H1; [|discriminate].
      cbn [bind] in Hrun.
      apply Hchild in H1; [|auto]. destruct H1 as [H1 _]. specialize (H1 Hfar).
      destruct (_ >? _); [|injection Hrun as <-; exact H1].
      apply Hchild in Hrun; [|auto]. apply Hrun, H1.
Qed.

(** A node on the leftmost path, [n] levels above the leaves: the patched
    node sends the query to palette entry 1 first. *)
Lemma closest_on_spine :
  forall (n fuel : nat) (best best' : Z * Z) (tree_root : Z),
    tree_root * 2 ^ Z.of_nat (S n) = 2 ^ D ->
    far < snd best ->
    get_closest_pallete_color fuel pal r g b best tree_root = Ok best' ->
    found pal r g b best'.
Proof.
  destruct pow_D as (HD1 & HD0 & HDh).
  induction n as [|n IH]; intros fuel best best' tree_root Hroot Hfar Hrun;
    (destruct fuel as [|fuel]; [discriminate|]).
  - change (2 ^ Z.of_nat 1) with 2 in Hroot.
    assert (Hr : tree_root = 2 ^ (D - 1)) by lia.
    rewrite closest_node in Hrun by lia.
    rewrite Hr, Hnode_elt, Hnode_split in Hrun. rewrite <- Hr in Hrun.
    cbn [comps Z.eqb bind] in Hrun.
    destruct (Z.gtb_spec 0 r) as [Hneg|_]; [lia|].
    destruct fuel as [|fuel]; [discriminate|].
    rewrite (closest_leaf pal r g b fuel best (tree_root * 2 + 1)) in Hrun
      by lia.
    
    destruct (Z.eqb_spec (tree_root * 2 + 1) (2 ^ D)); [lia|].
    replace (tree_root * 2 + 1 - 2 ^ D) with 1 in Hrun by lia.
    pose proof (leaf_diff_bound 1).
    destruct (Z.ltb_spec (leaf_diff pal r g b 1) (snd best)); [|lia].
    cbn [bind snd] in Hrun.
    assert (Hf : found pal r g b (1, leaf_diff pal r g b 1)) by (split; simpl; lia).
    destruct (_ >? _); [|injection Hrun as <-; exact Hf].
    apply (found_improves (1, leaf_diff pal r g b 1)); [exact Hf|].
    apply (closest_improves pal r g b (S fuel) _ best' (tree_root * 2));
      [lia|exact Hrun].
  - destruct (pow_nat (S n)) as [Hp Hs]. rewrite Hs in Hroot.
    destruct (pow_nat n) as [Hp' Hs'].
    assert (Hlt : tree_root * 2 < 2 ^ D) by nia.
    assert (Hpos : 1 <= tree_root) by nia.
    assert (Hsub : 2 ^ Z.of_nat (S n) <= tree_root * 2 ^ Z.of_nat (S n)) by nia.
    rewrite closest_node in Hrun by lia.
    destruct (comps r g b _) as [split_comp|]; [|discriminate].
    cbn [bind] in Hrun.
    assert (Hleft : forall fl bst bst',
               get_closest_pallete_color fl pal r g b bst (tree_root * 2) = Ok bst' ->
               (far < snd bst -> found pal r g b bst') /\ (found pal r g b bst -> found pal r g b bst')).
    { intros fl bst bst' Hq. split.
      - intros Hf. apply (IH fl bst bst' (tree_root * 2)); [lia|exact Hf|exact Hq].
      - intros Hf. apply (found_improves bst); [exact Hf|].
        apply (closest_improves pal r g b fl bst bst' (tree_root * 2));
          [lia|exact Hq]. }
    assert (Hright : forall fl bst bst',
               get_closest_pallete_color fl pal r g b bst (tree_root * 2 + 1)
               = Ok bst' ->
               (far < snd bst -> found pal r g b bst') /\ (found pal r g b bst -> found pal r g b bst')).
    { intros fl bst bst' Hq. split.
      - intros Hf.
        apply (closest_off_spine (S n) fl bst bst' (tree_root * 2 + 1));
          [nia|nia|exact Hf|exact Hq].
      - intros Hf. apply (found_improves bst); [exact Hf|].
        apply (closest_improves pal r g b fl bst bst' (tree_root * 2 + 1));
          [lia|exact Hq]. }
    destruct (_ >? _).
    + destruct (get_closest_pallete_color fuel pal r g b best (tree_root * 2))
        as [b1|] eqn:H1; [|discriminate].
      cbn [bind] in Hrun.
      apply Hleft in H1. destruct H1 as [H1 _]. specialize (H1 Hfar).
      destruct (_ >? _); [|injection Hrun as <-; exact H1].
      apply Hright in Hrun. apply Hrun, H1.
    + destruct (get_closest_pallete_color fuel pal r g b best (tree_root * 2 + 1))
        as [b1|] eqn:H1; [|discriminate].
      cbn [bind] in Hrun.
      apply Hright in H1. destruct H1 as [H1 _]. specialize (H1 Hfar).
      destruct (_ >? _); [|injection Hrun as <-; exact H1].
      apply Hleft in Hrun. apply Hrun, H1.
Qed.

Lemma closest_from_root_found (best_ind : Z) (best' : Z * Z) :
  far < 1000000 ->
  closest_from_root pal r g b best_ind = Ok best' ->
  1 <= fst best' <= 2 ^ D - 1.
Proof.
  intros Hfar Hrun. unfold closest_from_root in Hrun.
  assert (HS : exists n, Z.to_nat D = S n).
  { destruct (Z.to_nat D) eqn:E; [lia|eauto]. }
  destruct HS as [n Hn].
  apply (closest_on_spine n) in Hrun; [apply Hrun| |simpl; lia].
  rewrite <- Hn, Z2Nat.id by lia. lia.
Qed.
End QueryRange.

(** ** The palette constructor *)

Lemma set_color_wf (pal : Palette.t) (i : Z) (c : Z * Z * Z) :
  pal_wf pal -> pal_wf (set_color pal i c).
Proof.
  intros ((Hr1 & Hr2) & (Hg1 & Hg2) & (Hb1 & Hb2) & (He1 & He2) & (Hs1 & Hs2)).
  destruct c as [[cr cg] cb]. unfold set_color, pal_wf. simpl.
  repeat split; rewrite ?wr_length; auto using bytes_wr, u8_range.
Qed.

Lemma set_tree_split_elt_wf (pal : Palette.t) (n v : Z) :
  pal_wf pal -> pal_wf (set_tree_split_elt pal n v).
Proof.
  intros ((Hr1 & Hr2) & (Hg1 & Hg2) & (Hb1 & Hb2) & (He1 & He2) & (Hs1 & Hs2)).
  unfold pal_wf. simpl.
  repeat split; rewrite ?wr_length; auto using bytes_wr, u8_range.
Qed.

Lemma set_tree_split_wf (pal : Palette.t) (n v : Z) :
  pal_wf pal -> pal_wf (set_tree_split pal n v).
Proof.
  intros ((Hr1 & Hr2) & (Hg1 & Hg2) & (Hb1 & Hb2) & (He1 & He2) & (Hs1 & Hs2)).
  unfold pal_wf. simpl.
  repeat split; rewrite ?wr_length; auto using bytes_wr, u8_range.
Qed.

Lemma set_color_depth (pal : Palette.t) (i : Z) (c : Z * Z * Z) :
  Palette.bit_depth (set_color pal i c) = Palette.bit_depth pal.
Proof. destruct c as [[cr cg] cb]. reflexivity. Qed.

Lemma split_wf :
  forall (fuel : nat) (pal pal' : Palette.t) (image image' : list Z)
         (off num_pixels first_elt last_elt split_elt split_dist tree_node : Z)
         (build_for_dither : bool),
    split fuel pal image off num_pixels first_elt last_elt split_elt split_dist
      tree_node build_for_dither = Ok (pal', image') ->
    pal_wf pal ->
    pal_wf pal' /\ Palette.bit_depth pal' = Palette.bit_depth pal.
Proof.
  induction fuel as [|fuel IH]; intros pal pal' image image' off num_pixels
    first_elt last_elt split_elt split_dist tree_node build_for_dither Hrun Hwf;
    [discriminate|].
  cbn [split] in Hrun.
  destruct (_ || _); [injection Hrun as <- <-; auto|].
  destruct (last_elt =? first_elt + 1).
  - destruct (_ && _);
      [injection Hrun as <- <-; split; [apply set_color_wf, Hwf|apply set_color_depth]|].
    destruct (_ && _);
      injection Hrun as <- <-; split;
        [apply set_color_wf, Hwf|apply set_color_depth
        |apply set_color_wf, Hwf|apply set_color_depth].
  - destruct (find_largest_range image off num_pixels) as [[r_range g_range] b_range].
    destruct (partition_by_median _ _ _ _ _ _ _) as [image1|]; [|discriminate].
    cbn [bind] in Hrun.
    match type of Hrun with
    | bind (split fuel ?p ?im ?o ?np ?fe ?le ?se ?sd ?tn ?bd) _ = _ =>
      destruct (split fuel p im o np fe le se sd tn bd) as [[pal1 image2]|] eqn:H1;
        [|discriminate];
      apply IH in H1; [|apply set_tree_split_wf, set_tree_split_elt_wf, Hwf]
    end.
    cbn [bind] in Hrun. apply IH in Hrun; [|apply H1].
    destruct H1 as [_ H1]. simpl in H1. split; [apply Hrun|].
    destruct Hrun as [_ ->]. exact H1.
Qed.

Lemma partition_bounds (image : list Z) (off left right elt pivot_index : Z) :
  0 <= left < right -> right < 2 ^ 64 ->
  left <= snd (partition image off left right elt pivot_index) <= right - 1.
Proof.
  intros Hlr Hright. unfold partition.
  assert (Hu : usize (right - 1) = right - 1) by (unfold usize; apply Z.mod_small; lia).
  rewrite Hu.
  match goal with |- context [for_pure ?n left ?body ?init] =>
    pose proof (for_pure_inv (fun i st => left <= snd (fst st) <= i) body n left init)
      as Hinv
  end.
  destruct (for_pure _ _ _ _) as [[image1 store_index] split1].
  simpl in *. rewrite Z2Nat.id in Hinv by lia.
  replace (left + (right - 1 - left)) with (right - 1) in Hinv by lia.
  apply Hinv; [lia|].
  intros j [[im si] sp] Hj Hst. simpl in *. unfold partition_body.
  destruct (_ <? _); [simpl; lia|].
  destruct (_ =? _); [|simpl; lia].
  destruct sp; simpl; lia.
Qed.

Lemma partition_by_median_total :
  forall (fuel : nat) (image : list Z) (off left right com needed_center : Z),
    0 <= left -> 1 <= right < 2 ^ 64 -> 0 <= needed_center ->
    (1 <= fuel)%nat -> right - left <= Z.of_nat fuel ->
    exists image',
      partition_by_median fuel image off left right com needed_center = Ok image'.
Proof.
  induction fuel as [|fuel IH]; intros image off left right com needed_center
    Hleft Hright Hcenter Hfuel1 Hfuel; [lia|].
  simpl partition_by_median.
  assert (Hu : usize (right - 1) = right - 1) by (unfold usize; apply Z.mod_small; lia).
  rewrite Hu.
  destruct (Z.ltb_spec left (right - 1)) as [Hlt|Hge]; [|eauto].
  pose proof (partition_bounds image off left right com (left + (right - left) / 2))
    as Hb.
  destruct (partition image off left right com (left + (right - left) / 2))
    as [image1 pivot_index].
  simpl in Hb. specialize (Hb ltac:(lia) ltac:(lia)).
  assert (H1 : exists image2,
    (if pivot_index >? needed_center
     then partition_by_median fuel image1 off left pivot_index com needed_center
     else Ok image1) = Ok image2).
  { destruct (Z.gtb_spec pivot_index needed_center); [|eauto].
    apply IH; lia. }
  destruct H1 as [image2 ->]. cbn [bind].
  destruct (Z.ltb_spec pivot_index needed_center); [|eauto].
  apply IH; lia.
Qed.

Lemma half_pow (j : nat) :
  0 < 2 ^ Z.of_nat j
  /\ 2 ^ Z.of_nat (S j) = 2 * 2 ^ Z.of_nat j
  /\ 2 ^ Z.of_nat (S j) / 2 = 2 ^ Z.of_nat j.
Proof.
  assert (H : 2 ^ Z.of_nat (S j) = 2 * 2 ^ Z.of_nat j)
    by (rewrite Nat2Z.inj_succ; apply Z.pow_succ_r; lia).
  split; [apply Z.pow_pos_nonneg; lia|]. split; [exact H|].
  rewrite H, Z.mul_comm. apply Z.div_mul. lia.
Qed.

Lemma node_inv_children (j : nat) (first_elt last_elt split_elt split_dist : Z) :
  node_inv (S j) first_elt last_elt split_elt split_dist ->
  first_elt + 1 < last_elt ->
  node_inv j first_elt split_elt (usize (split_elt - split_dist)) (split_dist / 2)
  /\ node_inv j split_elt last_elt (usize (split_elt + split_dist)) (split_dist / 2).
Proof.
  intros (Hf & Hl & [Hsmall|(Hlast & Hfirst & Hdist)]) Hbig; [lia|].
  destruct j as [|i].
  - change (2 ^ Z.of_nat 0) with 1 in *. unfold node_inv. split; lia.
  - destruct (half_pow i) as (Hp & Hs & Hh). rewrite Hh in Hdist.
    assert (Hpow64 : 256 < 2 ^ 64) by reflexivity.
    rewrite !usize_small by lia. unfold node_inv.
    split; (split; [lia|]; split; [lia|]; right; rewrite Hdist; lia).
Qed.

Lemma split_total :
  forall (k fuel : nat) (pal : Palette.t) (image : list Z)
         (off num_pixels first_elt last_elt split_elt split_dist tree_node : Z)
         (build_for_dither : bool),
    (k < fuel)%nat ->
    node_inv k first_elt last_elt split_elt split_dist ->
    0 <= num_pixels < 2 ^ 64 ->
    exists res,
      split fuel pal image off num_pixels first_elt last_elt split_elt split_dist
        tree_node build_for_dither = Ok res.
Proof.
  induction k as [|j IH]; intros fuel pal image off num_pixels first_elt last_elt
    split_elt split_dist tree_node build_for_dither Hfuel Hinv Hnum;
    (destruct fuel as [|fuel]; [lia|]); cbn [split].
  - destruct Hinv as (Hf & Hl & [Hsmall|[]]).
    destruct (Z.leb_spec last_elt first_elt); [simpl; eauto|].
    destruct (num_pixels =? 0); [simpl; eauto|]. cbn [orb].
    destruct (Z.eqb_spec last_elt (first_elt + 1)); [|lia].
    destruct (_ && _); [eauto|]. destruct (_ && _); eauto.
  - destruct (Z.leb_spec last_elt first_elt); [simpl; eauto|].
    destruct (Z.eqb_spec num_pixels 0); [simpl; eauto|]. cbn [orb].
    destruct (Z.eqb_spec last_elt (first_elt + 1)).
    { destruct (_ && _); [eauto|]. destruct (_ && _); eauto. }
    destruct (node_inv_children j _ _ _ _ Hinv ltac:(lia)) as [Hleft Hright].
    destruct (find_largest_range image off num_pixels) as [[r_range g_range] b_range].
    set (sub_pixels_a := usize (num_pixels * usize (split_elt - first_elt))
                         / usize (last_elt - first_elt)).
    assert (Ha : 0 <= sub_pixels_a < 2 ^ 64).
    { pose proof (usize_range (num_pixels * usize (split_elt - first_elt))).
      pose proof (usize_range (last_elt - first_elt)).
      unfold sub_pixels_a.
      destruct (Z.eq_dec (usize (last_elt - first_elt)) 0) as [->|Hnz].
      - rewrite Z.div_0_r. lia.
      - split; [apply Z.div_pos; lia|].
        apply Z.le_lt_trans with (usize (num_pixels * usize (split_elt - first_elt)));
          [|lia].
        apply Z.div_le_upper_bound; [lia|]. nia. }
    match goal with |- context [partition_by_median ?fl ?im ?o ?l ?rr ?c ?nc] =>
      destruct (partition_by_median_total fl im o l rr c nc) as [image1 Hpm];
        [lia|lia|lia|lia|lia|]
    end.
    rewrite Hpm. cbn [bind].
    match goal with |- context [split fuel ?p ?im ?o ?np ?fe ?le ?se ?sd ?tn ?bd] =>
      destruct (IH fuel p im o np fe le se sd tn bd) as [[pal1 image2] H1];
        [lia|exact Hleft|exact Ha|]
    end.
    rewrite H1. cbn [bind].
    apply IH; [lia|exact Hright|apply usize_range].
Qed.

Lemma pick_changed_pixels_range (last_frame frame : list Z) (num_pixels : Z) :
  0 <= num_pixels ->
  0 <= snd (pick_changed_pixels last_frame frame num_pixels) <= num_pixels.
Proof.
  intros Hn. unfold pick_changed_pixels.
  match goal with |- context [for_pure ?n 0 ?body ?init] =>
    pose proof (for_pure_inv (fun i st => 0 <= snd st <= i) body n 0 init) as Hinv
  end.
  destruct (for_pure _ _ _ _) as [[frame1 wit] num_changed].
  simpl in *. rewrite Z2Nat.id in Hinv by lia. apply Hinv; [lia|].
  intros j [[fr w] nc] Hj Hst. simpl in *. unfold pick_changed_body.
  destruct (_ || _); simpl; lia.
Qed.

(** C2 (as amended).  For every bit depth in [1, 8] and all frames the
    constructor returns a palette whose entry 0 is (0, 0, 0) and whose node
    [2 ^ (bit_depth - 1)] has split axis 0 and split value 0.  Hence a query
    from the root for a colour with non-negative components whose sum is
    below 999235 (every byte colour, and every rounded dither colour up to
    that bound), started at best_diff = 1000000 with any best_ind, in
    particular 0 or 1, returns an index in [1, 2 ^ bit_depth - 1]; it
    returns whenever the split axes it meets are valid. *)
Theorem transparency_slot_excluded :
  forall (uninit : Palette.t) (last_frame : option (list Z)) (next_frame : list Z)
         (width height bit_depth : Z) (build_for_dither : bool),
    1 <= bit_depth <= 8 ->
    pal_wf uninit ->
    exists pal,
      Palette_new uninit last_frame next_frame width height bit_depth
        build_for_dither = Ok pal
      /\ Palette.bit_depth pal = bit_depth
      /\ (rd (Palette.r pal) 0, rd (Palette.g pal) 0, rd (Palette.b pal) 0)
         = (0, 0, 0)
      /\ rd (Palette.tree_split_elt pal) (2 ^ (bit_depth - 1)) = 0
      /\ rd (Palette.tree_split pal) (2 ^ (bit_depth - 1)) = 0
      /\ forall r g b best_ind,
           0 <= r -> 0 <= g -> 0 <= b -> r + g + b < 999235 ->
           (forall best,
              closest_from_root pal r g b best_ind = Ok best ->
              1 <= fst best <= 2 ^ bit_depth - 1)
           /\ (tree_ok pal ->
               exists best, closest_from_root pal r g b best_ind = Ok best).
Proof.
  intros uninit last_frame next_frame width height bit_depth build_for_dither
    Hdepth Hwf.
  unfold Palette_new. rewrite depth_guard by exact Hdepth.
  set (image_size := usize (width * height * 4)).
  set (pixels := match last_frame with
                 | Some l => pick_changed_pixels l (copy_image next_frame image_size)
                               (usize (width * height))
                 | None => (copy_image next_frame image_size, usize (width * height))
                 end).
  assert (Hpixels : 0 <= snd pixels < 2 ^ 64).
  { pose proof (usize_range (width * height)) as Hr. unfold pixels.
    destruct last_frame as [l|]; [|exact Hr].
    pose proof (pick_changed_pixels_range l (copy_image next_frame image_size)
                  (usize (width * height)) (proj1 Hr)).
    lia. }
  destruct pixels as [destroyable_image num_pixels]. simpl in Hpixels.
  assert (Hj : exists j, bit_depth = Z.of_nat (S j)).
  { exists (Z.to_nat (bit_depth - 1)). lia. }
  destruct Hj as [j Hj].
  destruct (half_pow j) as (Hp & Hs & Hh).
  assert (Hpow : 2 ^ bit_depth = 2 * 2 ^ Z.of_nat j) by (rewrite Hj; exact Hs).
  assert (Hhalf : 2 ^ (bit_depth - 1) = 2 ^ Z.of_nat j) by (f_equal; lia).
  assert (H256 : 2 ^ bit_depth <= 256).
  { change 256 with (2 ^ 8). apply Z.pow_le_mono_r; lia. }
  rewrite !Z.shiftl_1_l.
  assert (Hq1 : Z.quot (2 ^ bit_depth) 2 = 2 ^ Z.of_nat j).
  { rewrite Z.quot_div_nonneg by lia. rewrite Hpow, Z.mul_comm. apply Z.div_mul. lia. }
  rewrite Hq1. rewrite (Z.quot_div_nonneg (2 ^ Z.of_nat j) 2) by lia.
  match goal with |- context [split ?fl ?p ?im ?o ?np ?fe ?le ?se ?sd ?tn ?bd] =>
    destruct (split_total (S j) fl p im o np fe le se sd tn bd)
      as [[pal1 image1] Hsplit]; [lia| |exact Hpixels|]
  end.
  { unfold node_inv. split; [lia|]. split; [lia|]. right.
    split; [lia|]. split; [right; lia|reflexivity]. }
  rewrite Hsplit. cbn [bind].
  apply split_wf in Hsplit; [|exact Hwf].
  destruct Hsplit as [Hwf1 Hd1]. simpl in Hd1.
  set (node := 2 ^ (bit_depth - 1)).
  set (pal2 := set_color _ 0 (0, 0, 0)).
  assert (Hwf2 : pal_wf pal2)
    by (apply set_color_wf, set_tree_split_elt_wf, set_tree_split_wf, Hwf1).
  assert (Hnode : 1 <= node <= 128).
  { unfold node. rewrite Hhalf. lia. }
  destruct Hwf1 as ((Hr1 & Hr2) & (Hg1 & Hg2) & (Hb1 & Hb2) & (He1 & He2) & (Hs1 & Hs2)).
  assert (Hd2 : Palette.bit_depth pal2 = bit_depth) by exact Hd1.
  assert (Hzero : (rd (Palette.r pal2) 0, rd (Palette.g pal2) 0,
                   rd (Palette.b pal2) 0) = (0, 0, 0)).
  { unfold pal2. simpl. rewrite !rd_wr_same by lia. reflexivity. }
  assert (Helt : rd (Palette.tree_split_elt pal2) node = 0).
  { unfold pal2. simpl. rewrite rd_wr_same by lia. reflexivity. }
  assert (Hspl : rd (Palette.tree_split pal2) node = 0).
  { unfold pal2. simpl. rewrite rd_wr_same by lia. reflexivity. }
  exists pal2. split; [reflexivity|]. split; [exact Hd2|]. split; [exact Hzero|].
  split; [exact Helt|]. split; [exact Hspl|].
  intros r g b best_ind Hr Hg Hb Hsum. split.
  - intros best Hrun. rewrite <- Hd2.
    assert (Hpb : pal_bytes pal2).
    { destruct Hwf2 as ((_ & ?) & (_ & ?) & (_ & ?) & _).
      apply pal_bytes_intro; assumption. }
    assert (HD2 : 1 <= Palette.bit_depth pal2) by (rewrite Hd2; lia).
    unfold node in Helt, Hspl. rewrite <- Hd2 in Helt, Hspl.
    apply (closest_from_root_found pal2 r g b HD2 Hpb (conj Hr (conj Hg Hb))
             Helt Hspl best_ind best); [lia|exact Hrun].
  - intros Hok. apply closest_from_root_total; [rewrite Hd2; lia|exact Hok].
Qed.

Lemma demo_uninit_wf : pal_wf (uninit_pal demo_uninit).
Proof.
  unfold pal_wf, bytes, demo_uninit.
  cbn [uninit_pal Palette.r Palette.g Palette.b Palette.tree_split_elt
       Palette.tree_split].
  repeat split; first [apply length_replicate | apply Forall_replicate; lia].
Qed.

Lemma transparency_slot_excluded_witness :
  1 <= 2 <= 8
  /\ pal_wf (uninit_pal demo_uninit)
  /\ exists pal,
       Palette_new (uninit_pal demo_uninit) None [10; 20; 30; 255] 1 1 2 false = Ok pal
       /\ (rd (Palette.r pal) 0, rd (Palette.g pal) 0, rd (Palette.b pal) 0)
          = (0, 0, 0)
       /\ forall best,
            closest_from_root pal 10 20 30 0 = Ok best -> 1 <= fst best <= 2 ^ 2 - 1.
Proof.
  assert (H1 : 1 <= 2 <= 8) by lia.
  split; [exact H1|]. split; [exact demo_uninit_wf|].
  destruct (transparency_slot_excluded (uninit_pal demo_uninit) None
              [10; 20; 30; 255] 1 1 2 false H1 demo_uninit_wf)
    as (pal & Hnew & Hd & Hzero & _ & _ & Hquery).
  exists pal. split; [exact Hnew|]. split; [exact Hzero|].
  intros best Hbest.
  exact (proj1 (Hquery 10 20 30 0 ltac:(lia) ltac:(lia) ltac:(lia) ltac:(lia))
           best Hbest).
Defined.

(** A query farther than 1000000 from every palette entry keeps the index
    it started with: from the root of the palette built for the 1x1 frame
    (10, 20, 30) at bit depth 1, the query (1000000, 0, 0) started at
    best_ind = 0 returns 0, the transparency slot. *)
Lemma query_beyond_sentinel_keeps_initial_index :
  exists pal best,
    Palette_new (uninit_pal demo_uninit) None [10; 20; 30; 255] 1 1 1 true = Ok pal
    /\ closest_from_root pal 1000000 0 0 0 = Ok best
    /\ fst best = 0
    /\ ~ (1 <= fst best <= 2 ^ Palette.bit_depth pal - 1).
Proof.
  eexists _, _. split; [vm_compute; reflexivity|].
  split; [vm_compute; reflexivity|]. split; [reflexivity|].
  vm_compute. intros [H _]. apply H. reflexivity.
Qed.

(** *** The dither path issues such queries *)

Lemma wr_triple (q : list Z) (loc v0 : Z) :
  0 <= loc -> 4 * loc + 2 < Z.of_nat (length q) ->
  chan (wr (wr (wr q (4 * loc) v0) (4 * loc + 1) v0) (4 * loc + 2) v0) loc v0.
Proof.
  intros Hloc Hlen. unfold chan. split; [|split].
  - rewrite !(rd_wr_other _ (4 * loc + 2)), !(rd_wr_other _ (4 * loc + 1)) by lia.
    apply rd_wr_same; lia.
  - rewrite !(rd_wr_other _ (4 * loc + 2)) by lia.
    apply rd_wr_same; [lia|rewrite ?wr_length; lia].
  - apply rd_wr_same; [lia|rewrite ?wr_length; lia].
Qed.

(** One update with the same non-negative error in the three channels,
    where the sums stay within [i32]. *)
Lemma add_error_step (q : list Z) (num_pixels loc weight err v : Z) :
  0 <= loc ->
  (loc < num_pixels ->
   4 * loc + 2 < Z.of_nat (length q) /\ chan q loc v /\ 0 <= v
   /\ v + Z.quot (err * weight) 16 < 2 ^ 31) ->
  0 <= err -> 1 <= weight <= 7 -> 7 * err < 2 ^ 31 ->
  exists q',
    add_error q num_pixels loc weight err err err = Ok q'
    /\ length q' = length q
    /\ (forall j, 0 <= j -> j < 4 * loc \/ 4 * loc + 3 <= j -> rd q' j = rd q j)
    /\ (loc < num_pixels -> chan q' loc (v + Z.quot (err * weight) 16)).
Proof.
  intros Hloc Htarget Herr Hw H7.
  unfold add_error. destruct (Z.ltb_spec loc num_pixels) as [Hlt|Hge].
  - destruct (Htarget Hlt) as (Hlen & (C0 & C1 & C2) & Hv & Hsum).
    assert (Hinc : 0 <= Z.quot (err * weight) 16) by (apply Z.quot_pos; nia).
    assert (Hch : add_channel v err weight = Ok (v + Z.quot (err * weight) 16)).
    { rewrite add_channel_small; [f_equal; lia|lia|nia|lia]. }
    cbv zeta. rewrite C0, Hch. cbn [bind]. rewrite rd_wr_other by lia.
    rewrite C1, Hch. cbn [bind]. rewrite !rd_wr_other by lia.
    rewrite C2, Hch. cbn [bind].
    eexists. split; [reflexivity|]. split; [rewrite !wr_length; reflexivity|].
    split; [intros j Hj Hout; rewrite !rd_wr_other by lia; reflexivity|].
    intros _. apply wr_triple; lia.
  - exists q. split; [reflexivity|]. split; [reflexivity|].
    split; [reflexivity|]. intros Hlt. lia.
Qed.

Lemma frame_elsewhere (q q' : list Z) (loc j : Z) :
  (forall i, 0 <= i -> i < 4 * loc \/ 4 * loc + 3 <= i -> rd q' i = rd q i) ->
  0 <= j ->
  rd q' (4 * j + 3) = rd q (4 * j + 3)
  /\ (j <> loc -> forall v, chan q j v -> chan q' j v).
Proof.
  intros Hfr Hj. split; [apply Hfr; lia|].
  intros Hne v (H0 & H1 & H2). unfold chan. rewrite !Hfr by lia. auto.
Qed.

Lemma window_nonneg (k : nat) :
  0 <= fst (fst (window k)) /\ 0 <= snd (fst (window k)) /\ 0 <= snd (window k).
Proof.
  induction k as [|k IH]; [simpl; lia|].
  unfold window in *. simpl Nat.iter.
  destruct (Nat.iter k window_step (0, 65280, 65280)) as [[a b] c].
  simpl in *. destruct IH as (Ha & Hb & Hc).
  pose proof (Z.quot_pos (a * 7) 16). pose proof (Z.quot_pos (a * 3) 16).
  pose proof (Z.quot_pos (a * 5) 16). pose proof (Z.quot_pos a 16). lia.
Qed.

Lemma windows_small_spec (n : nat) :
  forall w, windows_small n w = true ->
  forall k, (k < n)%nat ->
    fst (fst (Nat.iter k window_step w)) < 300000000
    /\ snd (fst (Nat.iter k window_step w)) < 300000000
    /\ snd (Nat.iter k window_step w) < 300000000.
Proof.
  induction n as [|n IH]; intros w Hw k Hk; [lia|].
  destruct w as [[a b] c]. cbn [windows_small] in Hw.
  apply andb_true_iff in Hw as [Hw Hrest]. apply andb_true_iff in Hw as [Hw Hc].
  apply andb_true_iff in Hw as [Ha Hb].
  destruct k as [|k].
  - cbn [Nat.iter nat_rect fst snd]. lia.
  - rewrite Nat.iter_succ_r. apply IH; [exact Hrest|lia].
Qed.

Section Accumulation.
Variable pal : Palette.t.
Variable num_pixels : Z.

Hypothesis Hdepth : Palette.bit_depth pal = 1.
Hypothesis Hblack : forall i, i = 0 \/ i = 1 ->
  rd (Palette.r pal) i = 0 /\ rd (Palette.g pal) i = 0 /\ rd (Palette.b pal) i = 0.
Hypothesis Hroot_elt : rd (Palette.tree_split_elt pal) 1 = 0.
Hypothesis Hroot_split : rd (Palette.tree_split pal) 1 = 0.
Hypothesis Hnum : 0 <= num_pixels < 2 ^ 60.
(* the values stay far from the limits of [i32] *)
Hypothesis Hsmall : forall k, 0 <= k <= num_pixels ->
  fst (fst (window (Z.to_nat k))) < 300000000
  /\ snd (fst (window (Z.to_nat k))) < 300000000
  /\ snd (window (Z.to_nat k)) < 300000000.

Lemma black_query (rr : Z) :
  0 <= rr ->
  closest_from_root pal rr rr rr 0
  = Ok (if 3 * rr <? 1000000 then (1, 3 * rr) else (0, 1000000)).
Proof.
  intros Hrr. unfold closest_from_root. rewrite Hdepth.
  change (S (Z.to_nat 1)) with 2%nat.
  rewrite closest_node by (rewrite Hdepth; reflexivity).
  rewrite Hroot_elt, Hroot_split. cbn [comps Z.eqb bind].
  destruct (Z.gtb_spec 0 rr); [lia|].
  change (1 * 2 + 1) with 3. change (1 * 2) with 2.
  rewrite closest_leaf by (rewrite Hdepth; vm_compute; discriminate).
  rewrite Hdepth. change (3 =? 2 ^ 1) with false. change (3 - 2 ^ 1) with 1.
  cbn [snd bind].
  assert (Hdiff : leaf_diff pal rr rr rr 1 = 3 * rr).
  { unfold leaf_diff. destruct (Hblack 1) as (-> & -> & ->); [auto|]. lia. }
  rewrite Hdiff.
  assert (Hleft : forall best,
    get_closest_pallete_color 1 pal rr rr rr best 2 = Ok best).
  { intros best. rewrite closest_leaf by (rewrite Hdepth; vm_compute; discriminate).
    rewrite Hdepth. reflexivity. }
  destruct (3 * rr <? 1000000); cbn [bind snd];
    (destruct (_ >? _); [apply Hleft|reflexivity]).
Qed.

Lemma dither_pixel_window (last : list Z) (y x : Z) (q : list Z) :
  0 <= y -> 0 <= x <= 1 -> y * 2 + x < num_pixels ->
  window_inv num_pixels (y * 2 + x) q ->
  exists q',
    dither_pixel Null last pal num_pixels 2 y x q = Ok q'
    /\ window_inv num_pixels (y * 2 + x + 1) q'.
Proof.
  intros Hy Hx Hk. set (k := y * 2 + x) in *.
  intros (Hlen & Ha & Hb & Hc & Hrest & Hdone).
  pose proof (window_nonneg (Z.to_nat k)) as (Ha0 & Hb0 & Hc0).
  pose proof (Hsmall k ltac:(lia)) as (Sa & Sb & Sc).
  pose proof (Hsmall (k + 1) ltac:(lia)) as (Sa1 & Sb1 & Sc1).
  assert (Hnext : window (Z.to_nat (k + 1)) = window_step (window (Z.to_nat k))).
  { replace (Z.to_nat (k + 1)) with (S (Z.to_nat k)) by lia. reflexivity. }
  rewrite Hnext in Sa1, Sb1, Sc1.
  destruct (window (Z.to_nat k)) as [[a b] c] eqn:Hw.
  cbn [window_step fst snd] in *.
  assert (Hpow : 2 ^ 60 < 2 ^ 64) by reflexivity.
  assert (H31 : 2 ^ 31 = 2147483648) by reflexivity.
  specialize (Ha Hk). destruct Ha as (Hq0 & Hq1 & Hq2).
  set (i7 := Z.quot (a * 7) 16) in *. set (i3 := Z.quot (a * 3) 16) in *.
  set (i5 := Z.quot (a * 5) 16) in *. set (i1 := Z.quot a 16) in *.
  assert (0 <= i7 /\ 0 <= i3 /\ 0 <= i5 /\ 0 <= i1) as (H7 & H3 & H5 & H1).
  { unfold i7, i3, i5, i1. repeat split; apply Z.quot_pos; lia. }
  assert (E7 : quantloc_7 2 x y = k + 1).
  { unfold quantloc_7. replace (y * 2 + x + 1) with (k + 1) by (unfold k; lia).
    apply usize_small. lia. }
  assert (E3 : quantloc_3 2 x y = k + 1).
  { unfold quantloc_3. replace (y * 2 + 2 + x - 1) with (k + 1) by (unfold k; lia).
    apply usize_small. lia. }
  assert (E5 : quantloc_5 2 x y = k + 2).
  { unfold quantloc_5. replace (y * 2 + 2 + x) with (k + 2) by (unfold k; lia).
    apply usize_small. lia. }
  assert (E1 : quantloc_1 2 x y = k + 3).
  { unfold quantloc_1. replace (y * 2 + 2 + x + 1) with (k + 3) by (unfold k; lia).
    apply usize_small. lia. }
  unfold dither_pixel. cbn [is_null negb andb].
  fold k. rewrite (usize_small k) by lia. rewrite Hq0, Hq1, Hq2.
  rewrite !i32_small by lia. cbn [bind].
  rewrite black_query by (apply rounded_nonneg; exact Ha0).
  cbn [bind]. fold (window_index a).
  assert (Hind : fst (if 3 * rounded a <? 1000000
                      then (1, 3 * rounded a) else (0, 1000000))
                 = window_index a).
  { unfold window_index. destruct (_ <? _); reflexivity. }
  rewrite Hind.
  assert (Hcol : rd (Palette.r pal) (window_index a) = 0
                 /\ rd (Palette.g pal) (window_index a) = 0
                 /\ rd (Palette.b pal) (window_index a) = 0).
  { apply Hblack. unfold window_index. destruct (_ <? _); auto. }
  destruct Hcol as (-> & -> & ->). unfold pixel_error.
  rewrite Z.mul_0_l, Z.sub_0_r. rewrite !i32_small by lia. cbn [bind].
  (* the pixel itself *)
  destruct (wr_quad q k 0 0 0 (window_index a)) as (Hpix & Hlen0 & Hfr0);
    [lia|rewrite Hlen; lia|].
  set (q0 := wr (wr (wr (wr q (4 * k) 0) (4 * k + 1) 0) (4 * k + 2) 0) (4 * k + 3)
               (window_index a)) in *.
  assert (Hchan0 : forall j v, k < j -> chan q j v -> chan q0 j v).
  { intros j v Hj (H0 & H1' & H2). unfold chan. rewrite !Hfr0 by lia. auto. }
  (* the four updates *)
  destruct (add_error_step q0 num_pixels (k + 1) 7 a b)
    as (q1 & R1 & L1 & F1 & C1); [lia| |lia|lia|lia|].
  { intros Hk1. split; [rewrite Hlen0, Hlen; lia|].
    split; [apply Hchan0; [lia|apply Hb; lia]|]. fold i7. lia. }
  fold i7 in C1.
  destruct (add_error_step q1 num_pixels (k + 1) 3 a (b + i7))
    as (q2 & R2 & L2 & F2 & C2); [lia| |lia|lia|lia|].
  { intros Hk1. split; [rewrite L1, Hlen0, Hlen; lia|].
    split; [exact (C1 Hk1)|]. fold i3. lia. }
  fold i3 in C2.
  destruct (add_error_step q2 num_pixels (k + 2) 5 a c)
    as (q3 & R3 & L3 & F3 & C3); [lia| |lia|lia|lia|].
  { intros Hk2. split; [rewrite L2, L1, Hlen0, Hlen; lia|].
    split; [|fold i5; lia].
    apply (proj2 (frame_elsewhere q1 q2 (k + 1) (k + 2) F2 ltac:(lia))); [lia|].
    apply (proj2 (frame_elsewhere q0 q1 (k + 1) (k + 2) F1 ltac:(lia))); [lia|].
    apply Hchan0; [lia|]. apply Hc. lia. }
  fold i5 in C3.
  destruct (add_error_step q3 num_pixels (k + 3) 1 a 65280)
    as (q4 & R4 & L4 & F4 & C4); [lia| |lia|lia|lia|].
  { intros Hk3. split; [rewrite L3, L2, L1, Hlen0, Hlen; lia|].
    split; [|rewrite Z.mul_1_r; fold i1; lia].
    apply (proj2 (frame_elsewhere q2 q3 (k + 2) (k + 3) F3 ltac:(lia))); [lia|].
    apply (proj2 (frame_elsewhere q1 q2 (k + 1) (k + 3) F2 ltac:(lia))); [lia|].
    apply (proj2 (frame_elsewhere q0 q1 (k + 1) (k + 3) F1 ltac:(lia))); [lia|].
    apply Hchan0; [lia|]. apply Hrest. lia. }
  rewrite Z.mul_1_r in C4. fold i1 in C4.
  exists q4. split.
  { apply propagate_inv. exists q1, q2, q3. rewrite E7, E3, E5, E1. auto. }
  assert (Hlen4 : length q4 = Z.to_nat (4 * num_pixels)) by congruence.
  assert (Hkeep : forall j, 0 <= j -> j <> k + 1 -> j <> k + 2 -> j <> k + 3 ->
                  forall v, chan q0 j v -> chan q4 j v).
  { intros j Hj N1 N2 N3 v Hv.
    apply (proj2 (frame_elsewhere q3 q4 (k + 3) j F4 Hj)); [lia|].
    apply (proj2 (frame_elsewhere q2 q3 (k + 2) j F3 Hj)); [lia|].
    apply (proj2 (frame_elsewhere q1 q2 (k + 1) j F2 Hj)); [lia|].
    apply (proj2 (frame_elsewhere q0 q1 (k + 1) j F1 Hj)); [lia|].
    exact Hv. }
  assert (Halpha : forall j, 0 <= j -> rd q4 (4 * j + 3) = rd q0 (4 * j + 3)).
  { intros j Hj. rewrite F4, F3, F2, F1 by lia. reflexivity. }
  unfold window_inv. rewrite Hnext. unfold window_step. fold i7 i3 i5 i1.
  cbn [fst snd].
  replace (k + 1 + 1) with (k + 2) by lia.
  replace (k + 1 + 2) with (k + 3) by lia.
  split; [exact Hlen4|]. split; [|split; [|split; [|split]]].
  - intros Hk1.
    apply (proj2 (frame_elsewhere q3 q4 (k + 3) (k + 1) F4 ltac:(lia))); [lia|].
    apply (proj2 (frame_elsewhere q2 q3 (k + 2) (k + 1) F3 ltac:(lia))); [lia|].
    exact (C2 Hk1).
  - intros Hk2.
    apply (proj2 (frame_elsewhere q3 q4 (k + 3) (k + 2) F4 ltac:(lia))); [lia|].
    exact (C3 Hk2).
  - intros Hk3. exact (C4 Hk3).
  - intros j Hj. apply Hkeep; [lia|lia|lia|lia|].
    apply Hchan0; [lia|]. apply Hrest. lia.
  - intros j Hj.
    assert (Hpj : pixel q0 j = (0, 0, 0, window_index (fst (fst (window (Z.to_nat j)))))).
    { destruct (Z.eq_dec j k) as [->|Hne]; [rewrite Hw; exact Hpix|].
      unfold pixel. rewrite !Hfr0 by lia. apply Hdone. lia. }
    unfold pixel in Hpj |- *. injection Hpj as P0 P1 P2 P3.
    destruct (Hkeep j ltac:(lia) ltac:(lia) ltac:(lia) ltac:(lia) 0
                (conj P0 (conj P1 P2))) as (-> & -> & ->).
    rewrite Halpha by lia. rewrite P3. reflexivity.
Qed.

Lemma dither_rows_window (last : list Z) (rows : nat) (q : list Z) :
  2 * Z.of_nat rows <= num_pixels ->
  window_inv num_pixels 0 q ->
  exists q',
    dither_rows Null last pal num_pixels 2 rows q = Ok q'
    /\ window_inv num_pixels (2 * Z.of_nat rows) q'.
Proof.
  intros Hrows Hinit. unfold dither_rows.
  match goal with |- context [for_loop rows 0 ?body q] =>
    destruct (for_loop_total
                (fun y t => 0 <= y /\ window_inv num_pixels (y * 2) t)
                body rows 0 q) as (q' & Hrun & _ & Hq')
  end.
  - split; [lia|exact Hinit].
  - intros y t Hyr [Hy Ht].
    destruct (for_loop_total
                (fun x v => 0 <= x /\ window_inv num_pixels (y * 2 + x) v)
                (dither_pixel Null last pal num_pixels 2 y) (Z.to_nat 2) 0 t)
      as (t' & Hrow & _ & Ht').
    + split; [lia|]. rewrite Z.add_0_r. exact Ht.
    + intros x v Hxr [Hx Hv].
      destruct (dither_pixel_window last y x v) as (v' & Hstep & Hv');
        [lia|lia|lia|exact Hv|].
      exists v'. split; [exact Hstep|]. split; [lia|].
      replace (y * 2 + (x + 1)) with (y * 2 + x + 1) by lia. exact Hv'.
    + exists t'. split; [exact Hrow|]. split; [lia|].
      replace ((y + 1) * 2) with (y * 2 + (0 + Z.of_nat (Z.to_nat 2))) by lia.
      exact Ht'.
  - exists q'. split; [exact Hrun|].
    replace (2 * Z.of_nat rows) with ((0 + Z.of_nat rows) * 2) by lia. exact Hq'.
Qed.
End Accumulation.

Lemma copy_out (q out : list Z) (n : nat) :
  Z.of_nat n <= Z.of_nat (length out) ->
  forall i, 0 <= i < Z.of_nat n ->
    rd (for_pure n 0 (fun i out_frame => wr out_frame i (u8 (rd q i))) out) i
    = u8 (rd q i).
Proof.
  intros Hn.
  pose proof (for_pure_inv
    (fun k o => length o = length out
                /\ forall i, 0 <= i < k -> rd o i = u8 (rd q i))
    (fun i out_frame => wr out_frame i (u8 (rd q i))) n 0 out) as Hinv.
  rewrite Z.add_0_l in Hinv. apply Hinv.
  - split; [reflexivity|]. intros i Hi. lia.
  - intros j t Hj [Hl Ht]. split; [rewrite wr_length; exact Hl|].
    intros i Hi. destruct (Z.eq_dec i j) as [->|Hne].
    + apply rd_wr_same; [lia|rewrite Hl; lia].
    + rewrite rd_wr_other by lia. apply Ht. lia.
Qed.

Lemma white_length (n : nat) :
  length (concat (replicate n [255; 255; 255; 255])) = (4 * n)%nat.
Proof.
  induction n as [|m IH]; [reflexivity|].
  cbn [replicate concat]. rewrite length_app, IH. simpl. lia.
Qed.

Lemma black_then_white_rd (n : nat) (i : Z) :
  0 <= i < 4 + 4 * Z.of_nat n ->
  rd (black_then_white n) i
  = if i <? 3 then 0 else 255.
Proof.
  intros Hi. unfold black_then_white, rd.
  destruct (Z.ltb_spec i 3).
  - assert (Hc : Z.to_nat i = 0%nat \/ Z.to_nat i = 1%nat \/ Z.to_nat i = 2%nat) by lia.
    destruct Hc as [-> |[-> | ->]]; reflexivity.
  - destruct (Z.eq_dec i 3) as [->|Hne]; [reflexivity|].
    rewrite lookup_app_r by (simpl; lia).
    assert (Hall : Forall (fun v => v = 255) (concat (replicate n [255; 255; 255; 255]))).
    { apply Forall_concat, Forall_replicate. repeat constructor. }
    pose proof (white_length n) as Hlen.
    destruct (lookup_lt_is_Some_2 (concat (replicate n [255; 255; 255; 255]))
                (Z.to_nat i - length [0; 0; 0; 255])) as [v Hv];
      [simpl; lia|].
    rewrite Hv. simpl. exact (proj1 (Forall_lookup _ _) Hall _ _ Hv).
Qed.

(** The dither path does issue such queries.  First frame of a 2x940
    animation, one black pixel followed by white ones, bit depth 1, dither
    on: the only palette colour is the darkest one, black, every white pixel
    hands its whole value on, and at pixel 1879 the rounded colour (333371
    per channel) is farther than 1000000 from the palette: the pixel is
    emitted with index 0.  The values involved are far from the limits of
    [i32]. *)
Theorem dither_returns_transparency_index :
  exists out,
    Palette_new (uninit_pal demo_uninit) None (black_then_white 1879) 2 940 1 true
    = Ok black_pal
    /\ dither_image Null (black_then_white 1879) (replicate (Z.to_nat 7520) 0)
         2 940 black_pal = Ok out
    /\ pixel out 1879 = (0, 0, 0, 0)
    /\ fst (fst (window 1879)) = 85342897.
Proof.
  assert (Hpal : Palette_new (uninit_pal demo_uninit) None (black_then_white 1879)
                   2 940 1 true = Ok black_pal) by (vm_compute; reflexivity).
  assert (Hblack : forall i, i = 0 \/ i = 1 ->
            rd (Palette.r black_pal) i = 0 /\ rd (Palette.g black_pal) i = 0
            /\ rd (Palette.b black_pal) i = 0).
  { intros i [-> | ->]; repeat split; reflexivity. }
  assert (Hinit : window_inv 1880 0 (quant_init (black_then_white 1879) 1880)).
  { assert (Hq : forall j c, 0 <= j < 1880 -> 0 <= c <= 2 ->
              rd (quant_init (black_then_white 1879) 1880) (4 * j + c)
              = if j =? 0 then 0 else 65280).
    { intros j c Hj Hc. rewrite quant_init_value by (change (usize (1880 * 4)) with 7520; lia).
      rewrite black_then_white_rd by lia.
      destruct (Z.eqb_spec j 0); destruct (Z.ltb_spec (4 * j + c) 3); lia. }
    assert (Hchan : forall j, 0 <= j < 1880 ->
              chan (quant_init (black_then_white 1879) 1880) j
                (if j =? 0 then 0 else 65280)).
    { intros j Hj. unfold chan.
      rewrite <- (Z.add_0_r (4 * j)) at 1. rewrite !Hq by lia. auto. }
    unfold window_inv. split; [rewrite quant_init_length; reflexivity|].
    split; [intros _; exact (Hchan 0 ltac:(lia))|].
    split; [intros _; exact (Hchan 1 ltac:(lia))|].
    split; [intros _; exact (Hchan 2 ltac:(lia))|].
    split; [|intros j Hj; lia].
    intros j Hj. pose proof (Hchan j ltac:(lia)) as Hcj.
    destruct (Z.eqb_spec j 0); [lia|exact Hcj]. }
  assert (Hsmall : forall k, 0 <= k <= 1880 ->
            fst (fst (window (Z.to_nat k))) < 300000000
            /\ snd (fst (window (Z.to_nat k))) < 300000000
            /\ snd (window (Z.to_nat k)) < 300000000).
  { intros k Hk. apply (windows_small_spec 1881); [vm_compute; reflexivity|lia]. }
  destruct (dither_rows_window black_pal 1880 eq_refl Hblack eq_refl eq_refl
              ltac:(split; [lia|reflexivity]) Hsmall [] (Z.to_nat 940)
              (quant_init (black_then_white 1879) 1880) ltac:(lia) Hinit)
    as (q' & Hrun & Hq').
  eexists. split; [exact Hpal|]. split.
  - unfold dither_image. change (usize (2 * 940)) with 1880.
    cbn [deref]. rewrite Hrun. cbn [bind]. reflexivity.
  - assert (Hwin : fst (fst (window 1879)) = 85342897) by (vm_compute; reflexivity).
    split; [|exact Hwin].
    destruct Hq' as (Hlen & _ & _ & _ & _ & Hdone).
    specialize (Hdone 1879 ltac:(lia)).
    change (Z.to_nat 1879) with 1879%nat in Hdone. rewrite Hwin in Hdone.
    change (window_index 85342897) with 0 in Hdone.
    unfold pixel in Hdone |- *. injection Hdone as P0 P1 P2 P3.
    change (usize (1880 * 4)) with 7520.
    rewrite !copy_out by (rewrite ?length_replicate; lia).
    rewrite P0, P1, P2, P3. reflexivity.
Qed.

(** ** What the previous-frame buffer holds *)

(** On the threshold path the buffer does hold what the decoder shows:
    the previous colour under a transparent pixel, the palette entry of its
    index otherwise. *)
Lemma threshold_previous_frame :
  forall (last_frame : frame_ptr) (next_frame out_frame : list Z)
         (width height : Z) (pal : Palette.t) (out' : list Z),
    0 <= Palette.bit_depth pal <= 8 ->
    4 * usize (width * height) <= Z.of_nat (length out_frame) ->
    threshold_image last_frame next_frame out_frame width height pal = Ok out' ->
    forall i, 0 <= i < usize (width * height) ->
      buffered out' i = decoded pal (deref last_frame out_frame) out' i.
Proof.
  intros last_frame next_frame out_frame width height pal out' Hdepth Hlen Hrun i Hi.
  destruct (threshold_image_post last_frame next_frame out_frame width height
              pal out' Hdepth Hlen Hrun) as [_ Hpix].
  specialize (Hpix i Hi).
  unfold threshold_post in Hpix. unfold buffered, decoded.
  destruct (_ && _).
  - unfold pixel in Hpix. injection Hpix as -> -> -> ->. reflexivity.
  - destruct Hpix as (best_ind & best_diff & Hq & Hpix).
    unfold pixel in Hpix. injection Hpix as -> -> -> ->.
    apply closest_from_root_improves in Hq; [|lia].
    unfold transparency_index.
    destruct (Z.eqb_spec best_ind 0) as [H0|_]; [|reflexivity].
    destruct Hq as [[= -> _]|Hq]; simpl in *; lia.
Qed.

(** C4 fails on the dither path for a frame one pixel wide.  First frame of
    a 1x2 animation, black over white, bit depth 1, dither on: the second
    pixel is emitted with palette index 1, which the decoder shows as the
    palette's (0, 0, 0), but the buffer kept for the next delta holds
    (208, 208, 208): the pixel's own 3/16 error share was added to it after
    it had been quantized. *)
Theorem dither_previous_frame_width_one :
  exists w0 pal w1 buf,
    Writer_open true 1 2 0 1 true = Some w0
    /\ Palette_new (uninit_pal demo_uninit) None demo_frame2 1 2 1 true = Ok pal
    /\ write_frame demo_uninit w0 demo_frame2 1 2 0 1 true = Ok (true, w1)
    /\ Writer.old_image w1 = Some buf
    /\ lzw_input buf 1 1 0 = 1
    /\ decoded pal (replicate 8 0) buf 1 = (0, 0, 0)
    /\ buffered buf 1 = (208, 208, 208).
Proof.
  eexists _, _, _, _.
  split; [reflexivity|]. split; [vm_compute; reflexivity|].
  split; [vm_compute; reflexivity|]. split; [reflexivity|].
  split; [reflexivity|]. split; reflexivity.
Qed.

(** ** Determinism *)

(** C9 fails: the bytes written depend on the indeterminate contents of the
    palette arrays.  For the 1x1 frame (10, 20, 30) at bit depth 2 the
    constructor leaves the palette entries 1 and 2 unwritten ([split] returns
    early on an empty pixel set), and [Palette::write] copies them to the
    colour table: byte 40 of the file is 0 in one run and 77 in the other. *)
Theorem output_depends_on_uninitialised_palette :
  exists w0 w1 w2 f1 f2,
    Writer_open true 1 1 0 2 false = Some w0
    /\ write_frame demo_uninit w0 [10; 20; 30; 255] 1 1 0 2 false = Ok (true, w1)
    /\ write_frame demo_uninit_77 w0 [10; 20; 30; 255] 1 1 0 2 false = Ok (true, w2)
    /\ Writer.f w1 = Some f1 /\ Writer.f w2 = Some f2
    /\ rd f1 40 = 0 /\ rd f2 40 = 77 /\ f1 <> f2.
Proof.
  eexists _, _, _, _, _.
  split; [reflexivity|]. split; [vm_compute; reflexivity|].
  split; [vm_compute; reflexivity|]. split; [reflexivity|].
  split; [reflexivity|]. split; [reflexivity|]. split; [reflexivity|].
  intros Heq. apply (f_equal (fun f => rd f 40)) in Heq. vm_compute in Heq.
  discriminate.
Qed.

(** * Further properties of the encoder *)

(** ** More on buffers, loops and machine integers *)

Lemma for_pure_step {T : Type} (n : nat) (i : Z) (body : Z -> T -> T) (s : T) :
  for_pure (S n) i body s = for_pure n (i + 1) body (body i s).
Proof. reflexivity. Qed.

Lemma for_pure_last {T : Type} (body : Z -> T -> T) :
  forall (n : nat) (i : Z) (s : T),
    for_pure (S n) i body s = body (i + Z.of_nat n) (for_pure n i body s).
Proof.
  induction n as [|n IH]; intros i s.
  - simpl. f_equal. lia.
  - rewrite for_pure_step, IH. simpl for_pure.
    replace (i + 1 + Z.of_nat n) with (i + Z.of_nat (S n)) by lia. reflexivity.
Qed.

Lemma rd_app_l (l1 l2 : list Z) (i : Z) :
  0 <= i < Z.of_nat (length l1) -> rd (l1 ++ l2) i = rd l1 i.
Proof. intros Hi. unfold rd. rewrite lookup_app_l by lia. reflexivity. Qed.

Lemma rd_app_r (l1 l2 : list Z) (i : Z) :
  Z.of_nat (length l1) <= i -> rd (l1 ++ l2) i = rd l2 (i - Z.of_nat (length l1)).
Proof.
  intros Hi. unfold rd. rewrite lookup_app_r by lia.
  replace (Z.to_nat i - length l1)%nat with (Z.to_nat (i - Z.of_nat (length l1))) by lia.
  reflexivity.
Qed.

Lemma shiftl_1 (n : Z) : 0 <= n -> Z.shiftl 1 n = 2 ^ n.
Proof. intros Hn. rewrite Z.shiftl_mul_pow2 by lia. lia. Qed.

Lemma u8_byte (v : Z) : 0 <= v <= 255 -> u8 v = v.
Proof. intros Hv. unfold u8. apply Z.mod_small. lia. Qed.

Lemma rd_wr (buf : list Z) (i v j : Z) :
  0 <= i -> 0 <= j -> i < Z.of_nat (length buf) ->
  rd (wr buf i v) j = if i =? j then v else rd buf j.
Proof.
  intros Hi Hj Hlen. destruct (Z.eqb_spec i j) as [->|Hne].
  - apply rd_wr_same; lia.
  - apply rd_wr_other; lia.
Qed.

Lemma list_eq_rd (l1 l2 : list Z) :
  length l1 = length l2 ->
  (forall k, 0 <= k < Z.of_nat (length l1) -> rd l1 k = rd l2 k) ->
  l1 = l2.
Proof.
  intros Hlen Hrd. apply list_eq_same_length with (length l1); [auto|reflexivity|].
  intros i x y Hi Hx Hy. specialize (Hrd (Z.of_nat i) ltac:(lia)).
  unfold rd in Hrd. rewrite Nat2Z.id, Hx, Hy in Hrd. exact Hrd.
Qed.

(** The darkest colour is computed channel by channel. *)
Lemma find_darkest_color_channels (image : list Z) (off : Z) (n : nat) :
  for_pure n 0
    (fun i acc =>
       let '(r, g, b) := acc in
       (Z.min r (pixat image off i RED),
        Z.min g (pixat image off i GREEN),
        Z.min b (pixat image off i BLUE)))
    (255, 255, 255)
  = (for_pure n 0 (fun i m => Z.min m (pixat image off i RED)) 255,
     for_pure n 0 (fun i m => Z.min m (pixat image off i GREEN)) 255,
     for_pure n 0 (fun i m => Z.min m (pixat image off i BLUE)) 255).
Proof.
  induction n as [|n IH]; [reflexivity|].
  rewrite !for_pure_last, IH. reflexivity.
Qed.

Lemma find_lightest_color_channels (image : list Z) (off : Z) (n : nat) :
  for_pure n 0
    (fun i acc =>
       let '(r, g, b) := acc in
       (Z.max r (pixat image off i RED),
        Z.max g (pixat image off i GREEN),
        Z.max b (pixat image off i BLUE)))
    (0, 0, 0)
  = (for_pure n 0 (fun i m => Z.max m (pixat image off i RED)) 0,
     for_pure n 0 (fun i m => Z.max m (pixat image off i GREEN)) 0,
     for_pure n 0 (fun i m => Z.max m (pixat image off i BLUE)) 0).
Proof.
  induction n as [|n IH]; [reflexivity|].
  rewrite !for_pure_last, IH. reflexivity.
Qed.

Lemma running_min (v : Z -> Z) (m0 : Z) (n : nat) :
  let m := for_pure n 0 (fun i m => Z.min m (v i)) m0 in
  m <= m0
  /\ (forall i, 0 <= i < Z.of_nat n -> m <= v i)
  /\ (m = m0 \/ exists i, 0 <= i < Z.of_nat n /\ m = v i).
Proof.
  induction n as [|n IH]; cbv zeta.
  - simpl. split; [lia|]. split; [intros; lia|left; reflexivity].
  - rewrite for_pure_last. cbv zeta in IH. destruct IH as (H1 & H2 & H3).
    replace (0 + Z.of_nat n) with (Z.of_nat n) by lia.
    set (m := for_pure n 0 _ m0) in *.
    split; [lia|]. split.
    + intros i Hi. destruct (decide (i = Z.of_nat n)) as [->|Hne]; [lia|].
      specialize (H2 i). lia.
    + destruct (Z.min_spec m (v (Z.of_nat n))) as [[_ ->]|[_ ->]].
      * destruct H3 as [?|(i & Hi & ?)]; [left; assumption|].
        right. exists i. split; [lia|assumption].
      * right. exists (Z.of_nat n). split; [lia|reflexivity].
Qed.

Lemma running_max (v : Z -> Z) (m0 : Z) (n : nat) :
  let m := for_pure n 0 (fun i m => Z.max m (v i)) m0 in
  m0 <= m
  /\ (forall i, 0 <= i < Z.of_nat n -> v i <= m)
  /\ (m = m0 \/ exists i, 0 <= i < Z.of_nat n /\ m = v i).
Proof.
  induction n as [|n IH]; cbv zeta.
  - simpl. split; [lia|]. split; [intros; lia|left; reflexivity].
  - rewrite for_pure_last. cbv zeta in IH. destruct IH as (H1 & H2 & H3).
    replace (0 + Z.of_nat n) with (Z.of_nat n) by lia.
    set (m := for_pure n 0 _ m0) in *.
    split; [lia|]. split.
    + intros i Hi. destruct (decide (i = Z.of_nat n)) as [->|Hne]; [lia|].
      specialize (H2 i). lia.
    + destruct (Z.max_spec m (v (Z.of_nat n))) as [[_ ->]|[_ ->]].
      * right. exists (Z.of_nat n). split; [lia|reflexivity].
      * destruct H3 as [?|(i & Hi & ?)]; [left; assumption|].
        right. exists i. split; [lia|assumption].
Qed.

(** X1. [find_darkest_color] returns, channel by channel, the smallest value
    among 255 and the pixels: a lower bound of every pixel, attained by a
    pixel of the buffer unless it is 255.  The three channels may come from
    three different pixels. *)
Theorem darkest_color_is_channelwise_minimum :
  forall (image : list Z) (off num_pixels : Z),
    0 <= num_pixels ->
    let '(r, g, b) := find_darkest_color image off num_pixels in
    (r <= 255 /\ g <= 255 /\ b <= 255)
    /\ (forall i, 0 <= i < num_pixels ->
          r <= pixat image off i RED /\ g <= pixat image off i GREEN
          /\ b <= pixat image off i BLUE)
    /\ (r = 255 \/ exists i, 0 <= i < num_pixels /\ r = pixat image off i RED)
    /\ (g = 255 \/ exists i, 0 <= i < num_pixels /\ g = pixat image off i GREEN)
    /\ (b = 255 \/ exists i, 0 <= i < num_pixels /\ b = pixat image off i BLUE).
Proof.
  intros image off num_pixels Hn. unfold find_darkest_color.
  rewrite find_darkest_color_channels.
  pose proof (running_min (fun i => pixat image off i RED) 255 (Z.to_nat num_pixels)) as Hr.
  pose proof (running_min (fun i => pixat image off i GREEN) 255 (Z.to_nat num_pixels)) as Hg.
  pose proof (running_min (fun i => pixat image off i BLUE) 255 (Z.to_nat num_pixels)) as Hb.
  cbv zeta in Hr, Hg, Hb. rewrite Z2Nat.id in Hr, Hg, Hb by lia.
  destruct Hr as (Hr1 & Hr2 & Hr3), Hg as (Hg1 & Hg2 & Hg3), Hb as (Hb1 & Hb2 & Hb3).
  split; [auto|]. split; [intros i Hi; auto|]. auto.
Qed.

Lemma darkest_color_is_channelwise_minimum_witness :
  0 <= 2
  /\ let '(r, g, b) := find_darkest_color [9; 1; 5; 255; 2; 8; 5; 255] 0 2 in
     (r <= 255 /\ g <= 255 /\ b <= 255)
     /\ (forall i, 0 <= i < 2 ->
           r <= pixat [9; 1; 5; 255; 2; 8; 5; 255] 0 i RED
           /\ g <= pixat [9; 1; 5; 255; 2; 8; 5; 255] 0 i GREEN
           /\ b <= pixat [9; 1; 5; 255; 2; 8; 5; 255] 0 i BLUE)
     /\ (r = 255 \/ exists i, 0 <= i < 2
                              /\ r = pixat [9; 1; 5; 255; 2; 8; 5; 255] 0 i RED)
     /\ (g = 255 \/ exists i, 0 <= i < 2
                              /\ g = pixat [9; 1; 5; 255; 2; 8; 5; 255] 0 i GREEN)
     /\ (b = 255 \/ exists i, 0 <= i < 2
                              /\ b = pixat [9; 1; 5; 255; 2; 8; 5; 255] 0 i BLUE).
Proof.
  split; [lia|].
  apply (darkest_color_is_channelwise_minimum [9; 1; 5; 255; 2; 8; 5; 255] 0 2). lia.
Defined.

(** X2. [find_lightest_color], likewise, returns the largest value among 0
    and the pixels, channel by channel. *)
Theorem lightest_color_is_channelwise_maximum :
  forall (image : list Z) (off num_pixels : Z),
    0 <= num_pixels ->
    let '(r, g, b) := find_lightest_color image off num_pixels in
    (0 <= r /\ 0 <= g /\ 0 <= b)
    /\ (forall i, 0 <= i < num_pixels ->
          pixat image off i RED <= r /\ pixat image off i GREEN <= g
          /\ pixat image off i BLUE <= b)
    /\ (r = 0 \/ exists i, 0 <= i < num_pixels /\ r = pixat image off i RED)
    /\ (g = 0 \/ exists i, 0 <= i < num_pixels /\ g = pixat image off i GREEN)
    /\ (b = 0 \/ exists i, 0 <= i < num_pixels /\ b = pixat image off i BLUE).
Proof.
  intros image off num_pixels Hn. unfold find_lightest_color.
  rewrite find_lightest_color_channels.
  pose proof (running_max (fun i => pixat image off i RED) 0 (Z.to_nat num_pixels)) as Hr.
  pose proof (running_max (fun i => pixat image off i GREEN) 0 (Z.to_nat num_pixels)) as Hg.
  pose proof (running_max (fun i => pixat image off i BLUE) 0 (Z.to_nat num_pixels)) as Hb.
  cbv zeta in Hr, Hg, Hb. rewrite Z2Nat.id in Hr, Hg, Hb by lia.
  destruct Hr as (Hr1 & Hr2 & Hr3), Hg as (Hg1 & Hg2 & Hg3), Hb as (Hb1 & Hb2 & Hb3).
  split; [auto|]. split; [intros i Hi; auto|]. auto.
Qed.

Lemma lightest_color_is_channelwise_maximum_witness :
  0 <= 2
  /\ let '(r, g, b) := find_lightest_color [9; 1; 5; 255; 2; 8; 5; 255] 0 2 in
     (0 <= r /\ 0 <= g /\ 0 <= b)
     /\ (forall i, 0 <= i < 2 ->
           pixat [9; 1; 5; 255; 2; 8; 5; 255] 0 i RED <= r
           /\ pixat [9; 1; 5; 255; 2; 8; 5; 255] 0 i GREEN <= g
           /\ pixat [9; 1; 5; 255; 2; 8; 5; 255] 0 i BLUE <= b)
     /\ (r = 0 \/ exists i, 0 <= i < 2
                            /\ r = pixat [9; 1; 5; 255; 2; 8; 5; 255] 0 i RED)
     /\ (g = 0 \/ exists i, 0 <= i < 2
                            /\ g = pixat [9; 1; 5; 255; 2; 8; 5; 255] 0 i GREEN)
     /\ (b = 0 \/ exists i, 0 <= i < 2
                            /\ b = pixat [9; 1; 5; 255; 2; 8; 5; 255] 0 i BLUE).
Proof.
  split; [lia|].
  apply (lightest_color_is_channelwise_maximum [9; 1; 5; 255; 2; 8; 5; 255] 0 2). lia.
Defined.

(** The six running extremes of [find_largest_range] are those of the two
    colour searches. *)
Lemma find_largest_range_channels (image : list Z) (off : Z) (n : nat) :
  for_pure n 0
    (fun i acc =>
       let '(min_r, max_r, min_g, max_g, min_b, max_b) := acc in
       let r := pixat image off i RED in
       let g := pixat image off i GREEN in
       let b := pixat image off i BLUE in
       let max_r := if r >? max_r then r else max_r in
       let min_r := if r <? min_r then r else min_r in
       let max_g := if g >? max_g then g else max_g in
       let min_g := if g <? min_g then g else min_g in
       let max_b := if b >? max_b then b else max_b in
       let min_b := if b <? min_b then b else min_b in
       (min_r, max_r, min_g, max_g, min_b, max_b))
    (255, 0, 255, 0, 255, 0)
  = (for_pure n 0 (fun i m => Z.min m (pixat image off i RED)) 255,
     for_pure n 0 (fun i m => Z.max m (pixat image off i RED)) 0,
     for_pure n 0 (fun i m => Z.min m (pixat image off i GREEN)) 255,
     for_pure n 0 (fun i m => Z.max m (pixat image off i GREEN)) 0,
     for_pure n 0 (fun i m => Z.min m (pixat image off i BLUE)) 255,
     for_pure n 0 (fun i m => Z.max m (pixat image off i BLUE)) 0).
Proof.
  induction n as [|n IH]; [reflexivity|].
  rewrite !for_pure_last, IH. cbv zeta.
  repeat match goal with
         | |- context [if ?a >? ?b then _ else _] =>
           replace (if a >? b then a else b) with (Z.max b a)
             by (destruct (Z.gtb_spec a b); lia)
         | |- context [if ?a <? ?b then _ else _] =>
           replace (if a <? b then a else b) with (Z.min b a)
             by (destruct (Z.ltb_spec a b); lia)
         end.
  reflexivity.
Qed.

(** X3. the range [find_largest_range] returns is, channel by channel, the
    lightest colour minus the darkest colour of the same buffer; on an empty
    buffer it is (-255, -255, -255). *)
Theorem largest_range_is_lightest_minus_darkest :
  forall (image : list Z) (off num_pixels : Z),
    let '(dr, dg, db) := find_darkest_color image off num_pixels in
    let '(lr, lg, lb) := find_lightest_color image off num_pixels in
    find_largest_range image off num_pixels = (lr - dr, lg - dg, lb - db)
    /\ (num_pixels <= 0 ->
        find_largest_range image off num_pixels = (-255, -255, -255)).
Proof.
  intros image off num_pixels.
  unfold find_darkest_color, find_lightest_color, find_largest_range.
  rewrite find_darkest_color_channels, find_lightest_color_channels,
    find_largest_range_channels.
  split; [reflexivity|].
  intros Hn. replace (Z.to_nat num_pixels) with O by lia. reflexivity.
Qed.

Lemma running_sum (v : Z -> Z) (lo hi : Z) (n : nat) :
  (forall i, 0 <= i < Z.of_nat n -> lo <= v i <= hi) ->
  Z.of_nat n * lo <= for_pure n 0 (fun i s => s + v i) 0 <= Z.of_nat n * hi.
Proof.
  induction n as [|n IH]; intros Hv.
  - simpl. lia.
  - rewrite for_pure_last. replace (0 + Z.of_nat n) with (Z.of_nat n) by lia.
    assert (Hn : Z.of_nat n * lo <= for_pure n 0 (fun i s => s + v i) 0
                 <= Z.of_nat n * hi) by (apply IH; intros i Hi; apply Hv; lia).
    specialize (Hv (Z.of_nat n)). lia.
Qed.

Lemma find_subcube_average_channels (image : list Z) (off : Z) (n : nat) :
  for_pure n 0
    (fun i acc =>
       let '(r, g, b) := acc in
       (r + pixat image off i RED,
        g + pixat image off i GREEN,
        b + pixat image off i BLUE))
    (0, 0, 0)
  = (for_pure n 0 (fun i s => s + pixat image off i RED) 0,
     for_pure n 0 (fun i s => s + pixat image off i GREEN) 0,
     for_pure n 0 (fun i s => s + pixat image off i BLUE) 0).
Proof.
  induction n as [|n IH]; [reflexivity|].
  rewrite !for_pure_last, IH. reflexivity.
Qed.

(** The mean rounded to nearest of values between [lo] and [hi] lies between
    them. *)
Lemma rounded_mean_between (s n lo hi : Z) :
  0 < n -> n * lo <= s <= n * hi -> lo <= (s + n / 2) / n <= hi.
Proof.
  intros Hn Hs.
  assert (H2 : 0 <= n / 2 < n).
  { split; [apply Z.div_pos; lia|apply Z.div_lt_upper_bound; lia]. }
  split.
  - apply Z.div_le_lower_bound; lia.
  - apply Z.lt_succ_r. apply Z.div_lt_upper_bound; lia.
Qed.

(** X4. on a non-empty buffer of byte pixels [find_subcube_average] returns
    a colour between the darkest and the lightest colour of the buffer,
    channel by channel: sums and quotient fit their types, nothing is
    truncated; a buffer of one colour averages to that colour. *)
Theorem subcube_average_between_extremes :
  forall (image : list Z) (off num_pixels : Z),
    0 < num_pixels < 2 ^ 32 ->
    rgb_bytes image off num_pixels ->
    let '(r, g, b) := find_subcube_average image off num_pixels in
    let '(dr, dg, db) := find_darkest_color image off num_pixels in
    let '(lr, lg, lb) := find_lightest_color image off num_pixels in
    (dr <= r <= lr /\ dg <= g <= lg /\ db <= b <= lb)
    /\ (0 <= dr /\ lr <= 255 /\ 0 <= dg /\ lg <= 255 /\ 0 <= db /\ lb <= 255)
    /\ forall cr cg cb,
         (forall i, 0 <= i < num_pixels ->
            pixat image off i RED = cr /\ pixat image off i GREEN = cg
            /\ pixat image off i BLUE = cb) ->
         (r, g, b) = (cr, cg, cb).
Proof.
  intros image off num_pixels Hn Hbytes.
  unfold find_subcube_average, find_darkest_color, find_lightest_color.
  rewrite find_subcube_average_channels, find_darkest_color_channels,
    find_lightest_color_channels.
  assert (Hnn : Z.of_nat (Z.to_nat num_pixels) = num_pixels) by lia.
  assert (Hchan : forall c, 0 <= c <= 2 ->
            let d := for_pure (Z.to_nat num_pixels) 0
                       (fun i m => Z.min m (pixat image off i c)) 255 in
            let l := for_pure (Z.to_nat num_pixels) 0
                       (fun i m => Z.max m (pixat image off i c)) 0 in
            let s := for_pure (Z.to_nat num_pixels) 0
                       (fun i s => s + pixat image off i c) 0 in
            0 <= d /\ l <= 255
            /\ d <= u32 ((s + num_pixels / 2) / num_pixels) <= l
            /\ forall cc, (forall i, 0 <= i < num_pixels -> pixat image off i c = cc) ->
                          u32 ((s + num_pixels / 2) / num_pixels) = cc).
  { intros c Hc d l s.
    destruct (running_min (fun i => pixat image off i c) 255 (Z.to_nat num_pixels))
      as (Hd1 & Hd2 & Hd3).
    destruct (running_max (fun i => pixat image off i c) 0 (Z.to_nat num_pixels))
      as (Hl1 & Hl2 & Hl3).
    fold d in Hd1, Hd2, Hd3. fold l in Hl1, Hl2, Hl3. rewrite Hnn in *.
    assert (Hd0 : 0 <= d).
    { destruct Hd3 as [->|(i & Hi & ->)]; [lia|]. apply (Hbytes i c); lia. }
    assert (Hl255 : l <= 255).
    { destruct Hl3 as [->|(i & Hi & ->)]; [lia|]. apply (Hbytes i c); lia. }
    assert (Hs : num_pixels * d <= s <= num_pixels * l).
    { pose proof (running_sum (fun i => pixat image off i c) d l (Z.to_nat num_pixels)) as Hs.
      rewrite Hnn in Hs. apply Hs. intros i Hi. split; [apply Hd2|apply Hl2]; lia. }
    pose proof (rounded_mean_between s num_pixels d l ltac:(lia) Hs) as Hm.
    assert (Hu : u32 ((s + num_pixels / 2) / num_pixels)
                 = (s + num_pixels / 2) / num_pixels).
    { unfold u32. apply Z.mod_small. lia. }
    rewrite Hu. split; [exact Hd0|]. split; [exact Hl255|]. split; [exact Hm|].
    intros cc Hcc.
    assert (Hs' : num_pixels * cc <= s <= num_pixels * cc).
    { pose proof (running_sum (fun i => pixat image off i c) cc cc (Z.to_nat num_pixels))
        as Hs'.
      rewrite Hnn in Hs'. apply Hs'. intros i Hi. rewrite (Hcc i) by lia. lia. }
    pose proof (rounded_mean_between s num_pixels cc cc ltac:(lia) Hs'). lia. }
  cbv zeta in Hchan.
  destruct (Hchan RED ltac:(unfold RED; lia)) as (Hr1 & Hr2 & Hr3 & Hr4).
  destruct (Hchan GREEN ltac:(unfold GREEN; lia)) as (Hg1 & Hg2 & Hg3 & Hg4).
  destruct (Hchan BLUE ltac:(unfold BLUE; lia)) as (Hb1 & Hb2 & Hb3 & Hb4).
  split; [auto|]. split; [repeat split; assumption|].
  intros cr cg cb Hc.
  rewrite (Hr4 cr), (Hg4 cg), (Hb4 cb); [reflexivity|intros i Hi; apply Hc; lia..].
Qed.

Lemma rgb_bytes_of_bytes (image : list Z) (off n : Z) :
  bytes image -> rgb_bytes image off n.
Proof. intros Hb i c _ _. unfold pixat. apply bytes_rd. exact Hb. Qed.

Lemma subcube_average_between_extremes_witness :
  0 < 2 < 2 ^ 32
  /\ rgb_bytes [9; 1; 5; 255; 2; 8; 5; 255] 0 2
  /\ let '(r, g, b) := find_subcube_average [9; 1; 5; 255; 2; 8; 5; 255] 0 2 in
     let '(dr, dg, db) := find_darkest_color [9; 1; 5; 255; 2; 8; 5; 255] 0 2 in
     let '(lr, lg, lb) := find_lightest_color [9; 1; 5; 255; 2; 8; 5; 255] 0 2 in
     (dr <= r <= lr /\ dg <= g <= lg /\ db <= b <= lb)
     /\ (0 <= dr /\ lr <= 255 /\ 0 <= dg /\ lg <= 255 /\ 0 <= db /\ lb <= 255)
     /\ forall cr cg cb,
          (forall i, 0 <= i < 2 ->
             pixat [9; 1; 5; 255; 2; 8; 5; 255] 0 i RED = cr
             /\ pixat [9; 1; 5; 255; 2; 8; 5; 255] 0 i GREEN = cg
             /\ pixat [9; 1; 5; 255; 2; 8; 5; 255] 0 i BLUE = cb) ->
          (r, g, b) = (cr, cg, cb).
Proof.
  assert (H1 : 0 < 2 < 2 ^ 32) by (split; [lia|reflexivity]).
  assert (H2 : rgb_bytes [9; 1; 5; 255; 2; 8; 5; 255] 0 2).
  { apply rgb_bytes_of_bytes. repeat constructor; lia. }
  split; [exact H1|]. split; [exact H2|].
  exact (subcube_average_between_extremes [9; 1; 5; 255; 2; 8; 5; 255] 0 2 H1 H2).
Defined.

Lemma le16_split (v : Z) :
  0 <= v ->
  u8 (Z.land v 0xff) + 256 * u8 (Z.land (Z.shiftr v 8) 0xff) = v mod 65536.
Proof.
  intros Hv. change 0xff with (Z.ones 8). rewrite !Z.land_ones by lia.
  rewrite Z.shiftr_div_pow2 by lia. unfold u8.
  change (2 ^ 8) with 256.
  rewrite !Z.mod_mod by lia.
  change 65536 with (256 * 256).
  rewrite Z.rem_mul_r by lia. lia.
Qed.

Lemma color_triples_length (pal : Palette.t) (n : nat) (i : Z) :
  length (concat ((fun i => [u8 (rd (Palette.r pal) i); u8 (rd (Palette.g pal) i);
                             u8 (rd (Palette.b pal) i)]) <$> seqZ i (Z.of_nat n)))
  = (3 * n)%nat.
Proof.
  revert i. induction n as [|n IH]; intros i; [reflexivity|].
  rewrite Nat2Z.inj_succ, seqZ_cons by lia.
  replace (Z.pred (Z.succ (Z.of_nat n))) with (Z.of_nat n) by lia.
  cbn [fmap list_fmap concat].
  change (list_fmap Z (list Z)) with (@fmap list _ Z (list Z)).
  rewrite length_app, IH. cbn [length]. lia.
Qed.

Lemma color_table_length (pal : Palette.t) (n : nat) :
  length (color_table pal n) = (3 + 3 * n)%nat.
Proof.
  unfold color_table. rewrite length_app, color_triples_length. reflexivity.
Qed.

Lemma Palette_write_loop (pal : Palette.t) :
  forall (n : nat) (i : Z) (f : list Z),
    for_pure n i
      (fun i f =>
         fputc (rd (Palette.b pal) i)
           (fputc (rd (Palette.g pal) i) (fputc (rd (Palette.r pal) i) f)))
      f
    = f ++ concat ((fun i => [u8 (rd (Palette.r pal) i); u8 (rd (Palette.g pal) i);
                              u8 (rd (Palette.b pal) i)]) <$> seqZ i (Z.of_nat n)).
Proof.
  induction n as [|n IH]; intros i f.
  - simpl. rewrite app_nil_r. reflexivity.
  - cbn [for_pure]. rewrite IH. rewrite Nat2Z.inj_succ, (seqZ_cons i) by lia.
    replace (Z.pred (Z.succ (Z.of_nat n))) with (Z.of_nat n) by lia.
    replace (Z.succ i) with (i + 1) by lia.
    cbn [fmap list_fmap concat]. unfold fputc. rewrite <- !app_assoc. reflexivity.
Qed.

Lemma Palette_write_table (pal : Palette.t) (f : list Z) :
  Palette_write pal f
  = f ++ color_table pal (Z.to_nat (Z.shiftl 1 (Palette.bit_depth pal) - 1)).
Proof.
  unfold Palette_write. rewrite Palette_write_loop. unfold fputc, color_table.
  rewrite <- !app_assoc. reflexivity.
Qed.

Lemma color_table_rd (pal : Palette.t) (n : nat) (i : Z) :
  1 <= i <= Z.of_nat n ->
  rd (color_table pal n) (3 * i) = u8 (rd (Palette.r pal) i)
  /\ rd (color_table pal n) (3 * i + 1) = u8 (rd (Palette.g pal) i)
  /\ rd (color_table pal n) (3 * i + 2) = u8 (rd (Palette.b pal) i).
Proof.
  intros Hi. unfold color_table.
  assert (Hgen : forall (m : nat) (s k : Z),
             0 <= k < Z.of_nat m ->
             let l := concat ((fun i => [u8 (rd (Palette.r pal) i);
                                         u8 (rd (Palette.g pal) i);
                                         u8 (rd (Palette.b pal) i)])
                                <$> seqZ s (Z.of_nat m)) in
             rd l (3 * k) = u8 (rd (Palette.r pal) (s + k))
             /\ rd l (3 * k + 1) = u8 (rd (Palette.g pal) (s + k))
             /\ rd l (3 * k + 2) = u8 (rd (Palette.b pal) (s + k))).
  { induction m as [|m IH]; intros s k Hk; [lia|].
    cbv zeta. rewrite Nat2Z.inj_succ, seqZ_cons by lia.
    replace (Z.pred (Z.succ (Z.of_nat m))) with (Z.of_nat m) by lia.
    cbn [fmap list_fmap concat].
    change (list_fmap Z (list Z)) with (@fmap list _ Z (list Z)).
    destruct (decide (k = 0)) as [->|Hk0].
    - rewrite Z.add_0_r. repeat split; reflexivity.
    - specialize (IH (Z.succ s) (k - 1) ltac:(lia)). cbv zeta in IH.
      replace (Z.succ s + (k - 1)) with (s + k) in IH by lia.
      destruct IH as (I1 & I2 & I3).
      rewrite !rd_app_r by (cbn [length]; lia). cbn [length].
      replace (3 * k - Z.of_nat 3) with (3 * (k - 1)) by lia.
      replace (3 * k + 1 - Z.of_nat 3) with (3 * (k - 1) + 1) by lia.
      replace (3 * k + 2 - Z.of_nat 3) with (3 * (k - 1) + 2) by lia.
      auto. }
  specialize (Hgen n 1 (i - 1) ltac:(lia)). cbv zeta in Hgen.
  replace (1 + (i - 1)) with i in Hgen by lia.
  destruct Hgen as (I1 & I2 & I3).
  rewrite !rd_app_r by (cbn [length]; lia). cbn [length].
  replace (3 * i - Z.of_nat 3) with (3 * (i - 1)) by lia.
  replace (3 * i + 1 - Z.of_nat 3) with (3 * (i - 1) + 1) by lia.
  replace (3 * i + 2 - Z.of_nat 3) with (3 * (i - 1) + 2) by lia.
  auto.
Qed.

(** X5. [Palette::write] appends a colour table of exactly 2^bit_depth
    entries, three bytes each: entry 0 is written as (0, 0, 0) whatever the
    arrays hold, entry i >= 1 as (r[i], g[i], b[i]); what was in the file
    before is kept. *)
Theorem palette_write_layout :
  forall (pal : Palette.t) (f : list Z),
    0 <= Palette.bit_depth pal ->
    let f' := Palette_write pal f in
    let n := 2 ^ Palette.bit_depth pal in
    take (length f) f' = f
    /\ Z.of_nat (length f') = Z.of_nat (length f) + 3 * n
    /\ (forall c, 0 <= c <= 2 -> rd f' (Z.of_nat (length f) + c) = 0)
    /\ forall i, 1 <= i < n ->
         rd f' (Z.of_nat (length f) + 3 * i) = u8 (rd (Palette.r pal) i)
         /\ rd f' (Z.of_nat (length f) + 3 * i + 1) = u8 (rd (Palette.g pal) i)
         /\ rd f' (Z.of_nat (length f) + 3 * i + 2) = u8 (rd (Palette.b pal) i).
Proof.
  intros pal f Hd f' n. subst f'. rewrite Palette_write_table.
  rewrite shiftl_1 by lia. fold n.
  assert (Hn : 0 < n) by (apply Z.pow_pos_nonneg; lia).
  split; [rewrite take_app_length; reflexivity|].
  split; [rewrite length_app, color_table_length; lia|].
  split.
  - intros c Hc. rewrite rd_app_r by lia.
    replace (Z.of_nat (length f) + c - Z.of_nat (length f)) with c by lia.
    unfold color_table. rewrite rd_app_l by (cbn [length]; lia).
    assert (Hc' : c = 0 \/ c = 1 \/ c = 2) by lia.
    destruct Hc' as [->|[->| ->]]; reflexivity.
  - intros i Hi.
    destruct (color_table_rd pal (Z.to_nat (n - 1)) i ltac:(lia)) as (I1 & I2 & I3).
    rewrite !rd_app_r by lia.
    replace (Z.of_nat (length f) + 3 * i - Z.of_nat (length f)) with (3 * i) by lia.
    replace (Z.of_nat (length f) + 3 * i + 1 - Z.of_nat (length f)) with (3 * i + 1) by lia.
    replace (Z.of_nat (length f) + 3 * i + 2 - Z.of_nat (length f)) with (3 * i + 2) by lia.
    auto.
Qed.

Lemma palette_write_layout_witness :
  0 <= Palette.bit_depth demo_pal
  /\ Z.of_nat (length (Palette_write demo_pal [7]))
     = Z.of_nat (length [7]) + 3 * 2 ^ Palette.bit_depth demo_pal.
Proof.
  assert (H : 0 <= Palette.bit_depth demo_pal) by (simpl; lia).
  split; [exact H|]. exact (proj1 (proj2 (palette_write_layout demo_pal [7] H))).
Defined.

(** X6. [Writer::open] starts the file with the signature and a screen
    descriptor whose width and height fields hold the arguments modulo
    65536 (nothing checks that a dimension fits 16 bits); the header is 19
    bytes long, 38 with the looping extension written when delay is not 0.
    The bit depth and the dither flag do not matter to [open], and a failed
    [fopen] gives no writer. *)
Theorem open_writes_header :
  forall (width height delay bit_depth : Z) (dither : bool),
    0 <= width -> 0 <= height ->
    Writer_open false width height delay bit_depth dither = None
    /\ exists f,
        Writer_open true width height delay bit_depth dither
        = Some (Writer.mk (Some f)
                  (Some (replicate (Z.to_nat (usize (width * height * 4))) 0)) true)
        /\ take 6 f = GIF89a
        /\ le16 f 6 = width mod 65536
        /\ le16 f 8 = height mod 65536
        /\ Z.of_nat (length f) = (if delay =? 0 then 19 else 38)
        /\ (delay <> 0 -> drop 19 f = [0x21; 0xff; 11] ++ NETSCAPE2_0 ++ [3; 1; 0; 0; 0])
        /\ forall bit_depth' dither',
            Writer_open true width height delay bit_depth' dither'
            = Writer_open true width height delay bit_depth dither.
Proof.
  intros width height delay bit_depth dither Hw Hh.
  split; [reflexivity|].
  unfold Writer_open. cbn [negb]. unfold fputs, fputc, GIF89a, NETSCAPE2_0.
  eexists. split; [reflexivity|].
  split; [destruct (delay =? 0); reflexivity|].
  split; [destruct (delay =? 0); cbn; apply le16_split; exact Hw|].
  split; [destruct (delay =? 0); cbn; apply le16_split; exact Hh|].
  split; [destruct (delay =? 0); reflexivity|].
  split; [|reflexivity].
  intros Hd. destruct (Z.eqb_spec delay 0) as [|_]; [contradiction|]. reflexivity.
Qed.

Lemma open_writes_header_witness :
  0 <= 70000 /\ 0 <= 3
  /\ exists f,
       Writer_open true 70000 3 2 8 false
       = Some (Writer.mk (Some f)
                 (Some (replicate (Z.to_nat (usize (70000 * 3 * 4))) 0)) true)
       /\ le16 f 6 = 4464.
Proof.
  assert (H1 : 0 <= 70000) by lia. assert (H2 : 0 <= 3) by lia.
  split; [exact H1|]. split; [exact H2|].
  destruct (open_writes_header 70000 3 2 8 false H1 H2) as (_ & f & Hf & _ & Hw & _).
  exists f. split; [exact Hf|]. exact Hw.
Defined.

Lemma low_bits_S (v : Z) (n : nat) :
  low_bits v (S n) = low_bits v n ++ [Z.testbit v (Z.of_nat n)].
Proof. unfold low_bits. rewrite seq_S, fmap_app. reflexivity. Qed.

Lemma low_bits_ext (v v' : Z) (n : nat) :
  (forall i, 0 <= i < Z.of_nat n -> Z.testbit v i = Z.testbit v' i) ->
  low_bits v n = low_bits v' n.
Proof.
  induction n as [|n IH]; intros H; [reflexivity|].
  rewrite !low_bits_S, IH by (intros i Hi; apply H; lia).
  rewrite (H (Z.of_nat n)) by lia. reflexivity.
Qed.

Lemma low_bits_length (v : Z) (n : nat) : length (low_bits v n) = n.
Proof. unfold low_bits. rewrite length_fmap, length_seq. reflexivity. Qed.

Lemma bits_of_bytes_app (l1 l2 : list Z) :
  bits_of_bytes (l1 ++ l2) = bits_of_bytes l1 ++ bits_of_bytes l2.
Proof. unfold bits_of_bytes. rewrite fmap_app, concat_app. reflexivity. Qed.

Lemma bits_of_bytes_length (l : list Z) :
  length (bits_of_bytes l) = (8 * length l)%nat.
Proof.
  induction l as [|v l IH]; [reflexivity|].
  change (bits_of_bytes (v :: l)) with (low_bits v 8 ++ bits_of_bytes l).
  rewrite length_app, low_bits_length, IH. cbn [length]. lia.
Qed.

(** Setting bit [k] of a byte that has no bit at or above [k]. *)
Lemma set_bit_testbit (byte bit k i : Z) :
  0 <= k <= 7 -> 0 <= byte < 2 ^ k -> 0 <= i ->
  Z.testbit (u8 (Z.lor byte (u32 (Z.shiftl (Z.land bit 1) k)))) i
  = if i =? k then Z.testbit bit 0 else Z.testbit byte i.
Proof.
  intros Hk Hb Hi.
  assert (Hhigh : forall j, k <= j -> Z.testbit byte j = false).
  { intros j Hj. destruct (decide (byte = 0)) as [->|Hne]; [apply Z.bits_0|].
    apply Z.bits_above_log2; [lia|].
    apply Z.log2_lt_pow2; [lia|]. 
    apply Z.lt_le_trans with (2 ^ k); [lia|]. apply Z.pow_le_mono_r; lia. }
  unfold u8, u32. change 256 with (2 ^ 8).
  destruct (Z.ltb_spec i 8) as [Hi8|Hi8].
  - rewrite Z.mod_pow2_bits_low by lia. rewrite Z.lor_spec.
    rewrite Z.mod_pow2_bits_low by lia.
    rewrite Z.shiftl_spec by lia.
    destruct (Z.eqb_spec i k) as [->|Hne].
    + rewrite Z.sub_diag, Z.land_spec. rewrite Hhigh by lia.
      change (Z.testbit 1 0) with true. rewrite andb_true_r. reflexivity.
    + destruct (Z.ltb_spec i k) as [Hlt|Hge].
      * rewrite (Z.testbit_neg_r _ (i - k)) by lia. apply orb_false_r.
      * rewrite Z.land_spec.
        replace (Z.testbit 1 (i - k)) with false.
        -- rewrite andb_false_r, orb_false_r. reflexivity.
        -- symmetry. apply Z.bits_above_log2; [lia|]. simpl. lia.
  - rewrite Z.mod_pow2_bits_high by lia.
    destruct (Z.eqb_spec i k) as [->|Hne]; [lia|]. symmetry. apply Hhigh. lia.
Qed.

Lemma set_bit_range (byte bit k : Z) :
  0 <= k <= 7 -> 0 <= byte < 2 ^ k ->
  0 <= u8 (Z.lor byte (u32 (Z.shiftl (Z.land bit 1) k))) < 2 ^ (k + 1).
Proof.
  intros Hk Hb.
  set (v := u8 _).
  assert (Hv : 0 <= v) by (unfold v, u8; apply Z.mod_pos_bound; lia).
  split; [exact Hv|].
  destruct (decide (v = 0)) as [->|Hne]; [apply Z.pow_pos_nonneg; lia|].
  apply Z.log2_lt_pow2; [lia|].
  destruct (Z.ltb_spec (Z.log2 v) (k + 1)) as [|Hge]; [assumption|exfalso].
  assert (Hbit : Z.testbit v (Z.log2 v) = true) by (apply Z.bit_log2; lia).
  unfold v in Hbit at 1. rewrite set_bit_testbit in Hbit by lia.
  destruct (Z.eqb_spec (Z.log2 v) k) as [|_]; [lia|].
  destruct (decide (byte = 0)) as [->|Hb0]; [rewrite Z.bits_0 in Hbit; discriminate|].
  rewrite Z.bits_above_log2 in Hbit; [discriminate|lia|].
  apply Z.lt_le_trans with k; [apply Z.log2_lt_pow2; lia|lia].
Qed.

Lemma take_S_insert (l : list Z) (i : nat) (v : Z) :
  (i < length l)%nat -> take (S i) (<[i := v]> l) = take i l ++ [v].
Proof.
  intros Hi.
  rewrite (take_S_r _ _ v) by (apply list_lookup_insert_eq; exact Hi).
  rewrite take_insert_ge by lia. reflexivity.
Qed.

(** One bit goes into the buffer and nothing else changes. *)
Lemma write_bit_bits (stat : BitStatus.t) (bit : Z) :
  bit_inv 255 stat ->
  exists stat',
    write_bit stat bit = Ok stat'
    /\ buffered_bits stat' = buffered_bits stat ++ [Z.testbit bit 0]
    /\ bit_inv (BitStatus.chunk_index stat + 1) stat'
    /\ (if BitStatus.bit_index stat =? 7
        then BitStatus.chunk_index stat' = BitStatus.chunk_index stat + 1
             /\ BitStatus.bit_index stat' = 0 /\ BitStatus.byte stat' = 0
        else BitStatus.chunk_index stat' = BitStatus.chunk_index stat
             /\ BitStatus.bit_index stat' = BitStatus.bit_index stat + 1).
Proof.
  intros (Hbi & Hci & Hlen & Hbyte).
  destruct stat as [bi byte ci chunk]. cbn [BitStatus.bit_index BitStatus.byte
    BitStatus.chunk_index BitStatus.chunk] in *.
  unfold write_bit. cbn [BitStatus.bit_index BitStatus.byte
    BitStatus.chunk_index BitStatus.chunk].
  set (byte' := u8 (Z.lor byte (u32 (Z.shiftl (Z.land bit 1) bi)))).
  assert (Hbits : low_bits byte' (S (Z.to_nat bi))
                  = low_bits byte (Z.to_nat bi) ++ [Z.testbit bit 0]).
  { rewrite low_bits_S. f_equal.
    - apply low_bits_ext. intros i Hi. unfold byte'.
      rewrite set_bit_testbit by lia.
      destruct (Z.eqb_spec i bi); [lia|reflexivity].
    - unfold byte'. rewrite set_bit_testbit by lia.
      rewrite Z2Nat.id by lia. rewrite Z.eqb_refl. reflexivity. }
  pose proof (set_bit_range byte bit bi Hbi Hbyte) as Hrange. fold byte' in Hrange.
  assert (Hu : u8 (bi + 1) = bi + 1) by (unfold u8; apply Z.mod_small; lia).
  rewrite Hu.
  destruct (Z.gtb_spec (bi + 1) 7) as [Hfull|Hpart].
  - assert (bi = 7) by lia. subst bi.
    destruct (Z.ltb_spec ci 256) as [_|]; [|lia].
    eexists. split; [reflexivity|].
    assert (Hu32 : u32 (ci + 1) = ci + 1) by (unfold u32; apply Z.mod_small; lia).
    rewrite Hu32.
    split.
    + unfold buffered_bits. cbn [BitStatus.bit_index BitStatus.byte
        BitStatus.chunk_index BitStatus.chunk].
      unfold wr. replace (Z.to_nat (ci + 1)) with (S (Z.to_nat ci)) by lia.
      rewrite take_S_insert by lia.
      rewrite bits_of_bytes_app. rewrite <- !app_assoc. f_equal.
      change (bits_of_bytes [byte']) with (low_bits byte' 8 ++ []).
      change (low_bits 0 (Z.to_nat 0)) with (@nil bool).
      rewrite !app_nil_r. exact Hbits.
    + split.
      * unfold bit_inv. cbn [BitStatus.bit_index BitStatus.byte
          BitStatus.chunk_index BitStatus.chunk].
        rewrite wr_length. split; [lia|]. split; [lia|]. split; [exact Hlen|]. simpl; lia.
      * cbn. auto.
  - eexists. split; [reflexivity|].
    split.
    + unfold buffered_bits. cbn [BitStatus.bit_index BitStatus.byte
        BitStatus.chunk_index BitStatus.chunk].
      replace (Z.to_nat (bi + 1)) with (S (Z.to_nat bi)) by lia.
      rewrite Hbits, app_assoc. reflexivity.
    + split.
      * unfold bit_inv. cbn [BitStatus.bit_index BitStatus.byte
          BitStatus.chunk_index BitStatus.chunk].
        split; [lia|]. split; [lia|]. split; [exact Hlen|exact Hrange].
      * destruct (Z.eqb_spec bi 7) as [|_]; [lia|]. cbn. auto.
Qed.

Lemma low_bits_cons (v : Z) (n : nat) :
  low_bits v (S n) = Z.testbit v 0 :: low_bits (Z.shiftr v 1) n.
Proof.
  unfold low_bits. cbn [seq fmap list_fmap]. f_equal.
  rewrite <- fmap_S_seq, <- list_fmap_compose.
  apply list_fmap_ext. intros _ i _. cbn.
  rewrite Z.shiftr_spec by lia. f_equal. lia.
Qed.

Lemma sub_block_255 (b : list Z) : length b = 255%nat -> sub_block b = 255 :: b.
Proof. intros Hb. unfold sub_block. rewrite Hb. reflexivity. Qed.

(** One iteration of [write_code]: the bit is buffered, and a chunk that
    has reached 255 bytes goes to the file as one sub-block; the partial
    byte [write_chunk] clears is empty then. *)
Lemma write_code_bit_bits (stat : BitStatus.t) (f : list Z) (code : Z) :
  bit_inv 254 stat ->
  exists stat' blocks,
    write_code_bit (stat, f, code)
    = Ok (stat', f ++ concat (sub_block <$> blocks), Z.shiftr code 1)
    /\ bit_inv 254 stat'
    /\ Forall (fun b => length b = 255%nat) blocks
    /\ bits_of_bytes (concat blocks) ++ buffered_bits stat'
       = buffered_bits stat ++ [Z.testbit code 0].
Proof.
  intros Hinv.
  assert (Hinv' : bit_inv 255 stat).
  { destruct Hinv as (H1 & H2 & H3 & H4). repeat split; try assumption; lia. }
  destruct (write_bit_bits stat code Hinv') as (stat1 & Hw & Hbits & Hinv1 & Hch).
  unfold write_code_bit. rewrite Hw. cbn [bind].
  destruct Hinv as (_ & Hci & _ & _).
  destruct Hinv1 as (Hbi1 & Hci1 & Hlen1 & Hbyte1).
  destruct (Z.eqb_spec (BitStatus.chunk_index stat1) 255) as [Hfull|Hnot].
  - destruct (Z.eqb_spec (BitStatus.bit_index stat) 7) as [_|_]; [|lia].
    destruct Hch as (_ & Hbi0 & Hb0).
    exists (BitStatus.mk 0 0 0 (BitStatus.chunk stat1)),
      [take 255 (BitStatus.chunk stat1)].
    assert (Hblk : length (take 255 (BitStatus.chunk stat1)) = 255%nat).
    { rewrite length_take. lia. }
    split.
    + unfold write_chunk. rewrite Hfull. unfold fputc.
      cbn [fmap list_fmap concat]. rewrite sub_block_255 by exact Hblk.
      rewrite app_nil_r. rewrite <- app_assoc. reflexivity.
    + split; [repeat split; cbn; try lia; exact Hlen1|].
      split; [repeat constructor; exact Hblk|].
      rewrite <- Hbits. unfold buffered_bits at 2. rewrite Hfull, Hbi0, Hb0.
      cbn [concat]. rewrite app_nil_r.
      unfold buffered_bits. cbn [BitStatus.bit_index BitStatus.byte
        BitStatus.chunk_index BitStatus.chunk].
      change (Z.to_nat 0) with O. change (Z.to_nat 255) with 255%nat.
      cbn [take low_bits seq fmap list_fmap bits_of_bytes concat].
      rewrite !app_nil_r. reflexivity.
  - exists stat1, []. split; [cbn; rewrite app_nil_r; reflexivity|].
    split; [repeat split; try assumption; lia|].
    split; [constructor|].
    cbn [concat bits_of_bytes fmap list_fmap]. exact Hbits.
Qed.

Lemma write_code_loop_bits :
  forall (n : nat) (i : Z) (stat : BitStatus.t) (f : list Z) (code : Z),
    bit_inv 254 stat ->
    exists stat' blocks,
      for_loop n i (fun _ => write_code_bit) (stat, f, code)
      = Ok (stat', f ++ concat (sub_block <$> blocks), Z.shiftr code (Z.of_nat n))
      /\ bit_inv 254 stat'
      /\ Forall (fun b => length b = 255%nat) blocks
      /\ bits_of_bytes (concat blocks) ++ buffered_bits stat'
         = buffered_bits stat ++ low_bits code n.
Proof.
  induction n as [|n IH]; intros i stat f code Hinv.
  - exists stat, []. cbn. rewrite !app_nil_r.
    repeat split; try apply Hinv. constructor.
  - destruct (write_code_bit_bits stat f code Hinv)
      as (stat1 & blocks1 & Hstep & Hinv1 & Hall1 & Hbits1).
    destruct (IH (i + 1) stat1 (f ++ concat (sub_block <$> blocks1))
                (Z.shiftr code 1) Hinv1)
      as (stat2 & blocks2 & Hrest & Hinv2 & Hall2 & Hbits2).
    exists stat2, (blocks1 ++ blocks2).
    cbn [for_loop]. rewrite Hstep. cbn [bind]. rewrite Hrest.
    split.
    + rewrite fmap_app, concat_app, app_assoc.
      rewrite Z.shiftr_shiftr by lia.
      replace (1 + Z.of_nat n) with (Z.of_nat (S n)) by lia. reflexivity.
    + split; [exact Hinv2|]. split; [apply Forall_app; auto|].
      rewrite concat_app, bits_of_bytes_app, <- app_assoc, Hbits2.
      rewrite app_assoc, Hbits1, <- app_assoc. rewrite low_bits_cons. reflexivity.
Qed.

(** X7. [write_code] puts the [length] low bits of the code into the bit
    stream, least significant first, and loses none: what reaches the file
    is a run of complete sub-blocks (the length byte 255, then 255 data
    bytes), and the bits of those blocks followed by the bits still held
    back are the bits held back before followed by the bits of the code.
    At most 254 finished bytes are held back between codes. *)
Theorem write_code_appends_bits :
  forall (stat : BitStatus.t) (f : list Z) (code length : Z),
    bit_inv 254 stat -> 0 <= length ->
    exists stat' blocks,
      write_code stat f code length = Ok (stat', f ++ concat (sub_block <$> blocks))
      /\ bit_inv 254 stat'
      /\ Forall (fun b => List.length b = 255%nat) blocks
      /\ bits_of_bytes (concat blocks) ++ buffered_bits stat'
         = buffered_bits stat ++ low_bits code (Z.to_nat length).
Proof.
  intros stat f code length Hinv Hlen.
  destruct (write_code_loop_bits (Z.to_nat length) 0 stat f code Hinv)
    as (stat' & blocks & Hloop & Hinv' & Hall & Hbits).
  exists stat', blocks. unfold write_code. rewrite Hloop. cbn [bind fst].
  auto.
Qed.

Lemma write_code_appends_bits_witness :
  bit_inv 254 (BitStatus.mk 6 0x2a 254 (replicate 256 0)) /\ 0 <= 3
  /\ exists stat' blocks,
       write_code (BitStatus.mk 6 0x2a 254 (replicate 256 0)) [9] 5 3
       = Ok (stat', [9] ++ concat (sub_block <$> blocks))
       /\ bit_inv 254 stat'
       /\ Forall (fun b => List.length b = 255%nat) blocks
       /\ bits_of_bytes (concat blocks) ++ buffered_bits stat'
          = buffered_bits (BitStatus.mk 6 0x2a 254 (replicate 256 0))
            ++ low_bits 5 (Z.to_nat 3).
Proof.
  assert (H1 : bit_inv 254 (BitStatus.mk 6 0x2a 254 (replicate 256 0))).
  { unfold bit_inv. cbn. repeat split; lia. }
  assert (H2 : 0 <= 3) by lia.
  split; [exact H1|]. split; [exact H2|].
  exact (write_code_appends_bits _ [9] 5 3 H1 H2).
Defined.

(** *** Composition of emissions *)

Lemma code_bits_app (c1 c2 : list (Z * Z)) :
  code_bits (c1 ++ c2) = code_bits c1 ++ code_bits c2.
Proof. unfold code_bits. rewrite fmap_app, concat_app. reflexivity. Qed.

Lemma emits_refl (stat : BitStatus.t) (f : list Z) :
  bit_inv 254 stat -> emits stat f [] stat f.
Proof.
  intros Hinv. exists []. cbn. rewrite !app_nil_r. repeat split; try apply Hinv.
  constructor.
Qed.

Lemma emits_trans (s1 s2 s3 : BitStatus.t) (f1 f2 f3 : list Z) (b1 b2 : list bool) :
  emits s1 f1 b1 s2 f2 -> emits s2 f2 b2 s3 f3 -> emits s1 f1 (b1 ++ b2) s3 f3.
Proof.
  intros (k1 & -> & Hall1 & Hinv2 & Hb1) (k2 & -> & Hall2 & Hinv3 & Hb2).
  exists (k1 ++ k2). split; [rewrite fmap_app, concat_app, app_assoc; reflexivity|].
  split; [apply Forall_app; auto|]. split; [exact Hinv3|].
  rewrite concat_app, bits_of_bytes_app, <- app_assoc, Hb2.
  rewrite !app_assoc, Hb1. reflexivity.
Qed.

Lemma write_code_emits (stat : BitStatus.t) (f : list Z) (code length : Z) :
  bit_inv 254 stat ->
  exists stat' f',
    write_code stat f code length = Ok (stat', f')
    /\ emits stat f (code_bits [(code, length)]) stat' f'.
Proof.
  intros Hinv.
  destruct (write_code_loop_bits (Z.to_nat length) 0 stat f code Hinv)
    as (stat' & blocks & Hloop & Hinv' & Hall & Hbits).
  exists stat', (f ++ concat (sub_block <$> blocks)).
  unfold write_code. rewrite Hloop. split; [reflexivity|].
  exists blocks. unfold code_bits. cbn [fmap list_fmap concat fst snd].
  rewrite app_nil_r. auto.
Qed.

Lemma emits_inv (s1 s2 : BitStatus.t) (f1 f2 : list Z) (b : list bool) :
  emits s1 f1 b s2 f2 -> bit_inv 254 s2.
Proof. intros (k & _ & _ & H & _). exact H. Qed.

(** ** LZW dictionary growth *)

Lemma write_code_low_bits (stat : BitStatus.t) (f : list Z) (code length : Z) :
  bit_inv 254 stat ->
  exists stat' f',
    write_code stat f code length = Ok (stat', f')
    /\ emits stat f (low_bits code (Z.to_nat length)) stat' f'.
Proof.
  intros Hinv.
  destruct (write_code_emits stat f code length Hinv) as (stat' & f' & Hw & He).
  exists stat', f'. split; [exact Hw|].
  unfold code_bits in He. cbn [fmap list_fmap concat fst snd] in He.
  rewrite app_nil_r in He. exact He.
Qed.

(** C3.  When the current run cannot be extended, [curr_code] is written at
    the current [code_size]: its [code_size] low bits go into the bit
    stream, behind the bits written before.  The new run is recorded under
    the incremented [max_code], and only then [code_size] grows by one, iff
    the new [max_code] reached [2 ^ code_size].  When the new [max_code] is
    4095, the bits of the clear code follow in the stream, at the width just
    computed, and the dictionary, [code_size] and [max_code] are reset. *)
Theorem lzw_growth_sequencing :
  forall (min_code_size clear_code next_value : Z) (s : lzw_state),
    bit_inv 254 (stat s) ->
    0 <= curr_code s < 4096 ->
    codetree_next (codetree s) (curr_code s) next_value = 0 ->
    0 <= max_code s < 4095 ->
    0 <= code_size s <= 12 ->
    0 <= min_code_size <= 8 ->
    0 <= clear_code <= 256 ->
    let new_max := max_code s + 1 in
    let grown :=
      if 2 ^ code_size s <=? new_max then code_size s + 1 else code_size s in
    exists stat1 f1,
      write_code (stat s) (file s) (curr_code s) (code_size s) = Ok (stat1, f1)
      /\ emits (stat s) (file s)
           (low_bits (curr_code s) (Z.to_nat (code_size s))) stat1 f1
      /\ if new_max =? 4095 then
           exists stat2 f2,
             write_code stat1 f1 clear_code grown = Ok (stat2, f2)
             /\ emits stat1 f1 (low_bits clear_code (Z.to_nat grown)) stat2 f2
             /\ lzw_pixel min_code_size clear_code next_value s
                = Ok (mk_lzw ∅ next_value (min_code_size + 1) (clear_code + 1)
                        stat2 f2)
         else
           lzw_pixel min_code_size clear_code next_value s
           = Ok (mk_lzw (<[(curr_code s, next_value) := new_max]> (codetree s))
                   next_value grown new_max stat1 f1).
Proof.
  intros min_code_size clear_code next_value s Hinv Hcurr Hnext Hmax Hsize Hmin
    Hclear new_max grown.
  destruct (write_code_low_bits (stat s) (file s) (curr_code s) (code_size s) Hinv)
    as (stat1 & f1 & Hw1 & He1).
  exists stat1, f1. split; [exact Hw1|]. split; [exact He1|].
  assert (Hu_curr : u32 (curr_code s) = curr_code s)
    by (unfold u32; apply Z.mod_small; lia).
  assert (Hu_max : u32 (max_code s + 1) = new_max)
    by (unfold u32, new_max; apply Z.mod_small; lia).
  assert (Hu_size : u32 (code_size s + 1) = code_size s + 1)
    by (unfold u32; apply Z.mod_small; lia).
  assert (Hgrown :
    (if u32 (max_code s + 1) >=? Z.shiftl 1 (code_size s)
     then u32 (code_size s + 1) else code_size s) = grown).
  { rewrite Hu_max, Hu_size, Z.shiftl_1_l. unfold grown.
    destruct (Z.geb_spec new_max (2 ^ code_size s));
      destruct (Z.leb_spec (2 ^ code_size s) new_max); lia. }
  unfold lzw_pixel.
  destruct (Z.ltb_spec (curr_code s) 0); [lia|].
  rewrite Hnext. cbn [Z.eqb negb]. rewrite Hu_curr, Hw1. cbn [bind].
  rewrite Hgrown, Hu_max.
  destruct (Z.eqb_spec new_max 4095) as [H4095|H4095].
  - destruct (write_code_low_bits stat1 f1 clear_code grown
                (emits_inv _ _ _ _ _ He1)) as (stat2 & f2 & Hw2 & He2).
    exists stat2, f2. split; [exact Hw2|]. split; [exact He2|].
    rewrite Hw2. cbn [bind].
    unfold u32. rewrite !Z.mod_small by lia. reflexivity.
  - rewrite (Z.mod_small new_max 65536) by (unfold new_max; lia). reflexivity.
Qed.

Lemma lzw_growth_sequencing_witness :
  let s := mk_lzw ∅ 1 2 3 (BitStatus.mk 0 0 0 (replicate 256 0)) [] in
  let t := mk_lzw ∅ 5 12 4094 (BitStatus.mk 0 0 0 (replicate 256 0)) [] in
  bit_inv 254 (stat s)
  /\ (exists stat1 f1,
        write_code (stat s) (file s) 1 2 = Ok (stat1, f1)
        /\ emits (stat s) (file s) (low_bits 1 2) stat1 f1
        /\ lzw_pixel 1 2 1 s = Ok (mk_lzw (<[(1, 1) := 4]> ∅) 1 3 4 stat1 f1))
  /\ (exists stat1 f1 stat2 f2,
        write_code (stat t) (file t) 5 12 = Ok (stat1, f1)
        /\ emits (stat t) (file t) (low_bits 5 12) stat1 f1
        /\ write_code stat1 f1 2 12 = Ok (stat2, f2)
        /\ emits stat1 f1 (low_bits 2 12) stat2 f2
        /\ lzw_pixel 1 2 1 t = Ok (mk_lzw ∅ 1 2 3 stat2 f2)).
Proof.
  intros s t.
  assert (H : bit_inv 254 (BitStatus.mk 0 0 0 (replicate 256 0))).
  { unfold bit_inv. cbn. repeat split; lia. }
  split; [exact H|]. split.
  - destruct (lzw_growth_sequencing 1 2 1 s H ltac:(simpl; lia) eq_refl
                ltac:(simpl; lia) ltac:(simpl; lia) ltac:(lia) ltac:(lia))
      as (stat1 & f1 & Hw & He & Hstep).
    exists stat1, f1. split; [exact Hw|]. split; [exact He|exact Hstep].
  - destruct (lzw_growth_sequencing 1 2 1 t H ltac:(simpl; lia) eq_refl
                ltac:(simpl; lia) ltac:(simpl; lia) ltac:(lia) ltac:(lia))
      as (stat1 & f1 & Hw & He & stat2 & f2 & Hw2 & He2 & Hstep).
    exists stat1, f1, stat2, f2. split; [exact Hw|]. split; [exact He|].
    split; [exact Hw2|]. split; [exact He2|exact Hstep].
Defined.

(** The pixel loop writes the codes of [lzw_step]. *)
Lemma lzw_pixel_emits (min_code_size clear_code next_value : Z) (s : lzw_state) :
  bit_inv 254 (stat s) ->
  let '(codetree', curr', size', max', new) :=
    lzw_step min_code_size clear_code next_value
      (codetree s, curr_code s, code_size s, max_code s) in
  exists stat' f',
    lzw_pixel min_code_size clear_code next_value s
    = Ok (mk_lzw codetree' curr' size' max' stat' f')
    /\ emits (stat s) (file s) (code_bits new) stat' f'.
Proof.
  intros Hinv. unfold lzw_step, lzw_pixel.
  destruct (curr_code s <? 0).
  { exists (stat s), (file s). split; [reflexivity|apply emits_refl; exact Hinv]. }
  destruct (negb (codetree_next (codetree s) (curr_code s) next_value =? 0)).
  { exists (stat s), (file s). split; [reflexivity|apply emits_refl; exact Hinv]. }
  destruct (write_code_emits (stat s) (file s) (u32 (curr_code s)) (code_size s) Hinv)
    as (stat1 & f1 & Hw1 & He1).
  rewrite Hw1. cbn [bind].
  destruct (u32 (max_code s + 1) =? 4095).
  - destruct (write_code_emits stat1 f1 clear_code
                (if u32 (max_code s + 1) >=? Z.shiftl 1 (code_size s)
                 then u32 (code_size s + 1) else code_size s) (emits_inv _ _ _ _ _ He1))
      as (stat2 & f2 & Hw2 & He2).
    rewrite Hw2. cbn [bind]. exists stat2, f2. split; [reflexivity|].
    change (code_bits [(u32 (curr_code s), code_size s); ?c])
      with (code_bits ([(u32 (curr_code s), code_size s)] ++ [c])).
    rewrite code_bits_app. eapply emits_trans; eassumption.
  - exists stat1, f1. split; [reflexivity|exact He1].
Qed.

Lemma for_loop_sim {T U : Type} (R : T -> U -> Prop)
    (body : Z -> T -> result T) (gbody : Z -> U -> U) :
  (forall j s t, R s t -> exists s', body j s = Ok s' /\ R s' (gbody j t)) ->
  forall (n : nat) (i : Z) (s : T) (t : U),
    R s t ->
    exists s', for_loop n i body s = Ok s' /\ R s' (for_pure n i gbody t).
Proof.
  intros Hstep. induction n as [|n IH]; intros i s t HR.
  - exists s. split; [reflexivity|exact HR].
  - destruct (Hstep i s t HR) as (s1 & Hb & HR1).
    destruct (IH (i + 1) s1 (gbody i t) HR1) as (s2 & Hl & HR2).
    exists s2. cbn [for_loop for_pure]. rewrite Hb. cbn [bind]. auto.
Qed.

(** The padding of the last byte: fewer than 8 zero bits. *)
Lemma pad_bits_emits :
  forall (fuel : nat) (stat : BitStatus.t),
    bit_inv 254 stat ->
    9 - BitStatus.bit_index stat <= Z.of_nat fuel
    \/ (BitStatus.bit_index stat = 0 /\ 1 <= Z.of_nat fuel) ->
    exists stat' pad,
      pad_bits fuel stat = Ok stat'
      /\ BitStatus.bit_index stat' = 0
      /\ bit_inv 255 stat'
      /\ (pad < 8)%nat
      /\ buffered_bits stat' = buffered_bits stat ++ replicate pad false.
Proof.
  induction fuel as [|fuel IH]; intros stat Hinv Hfuel.
  - destruct Hinv as (Hbi & _). lia.
  - cbn [pad_bits]. destruct (Z.eqb_spec (BitStatus.bit_index stat) 0) as [H0|Hn0].
    + exists stat, O. cbn [replicate]. rewrite app_nil_r.
      destruct Hinv as (H1 & H2 & H3 & H4).
      repeat split; try assumption; lia.
    + assert (Hinv' : bit_inv 255 stat).
      { destruct Hinv as (H1 & H2 & H3 & H4). repeat split; try assumption; lia. }
      destruct (write_bit_bits stat 0 Hinv') as (stat1 & Hw & Hbits & Hinv1 & Hcase).
      rewrite Hw. cbn [bind].
      destruct Hinv as (Hbi & Hci & Hlen & Hbyte).
      destruct (Z.eqb_spec (BitStatus.bit_index stat) 7) as [H7|Hn7].
      * destruct Hcase as (Hc1 & Hb1 & Hy1).
        destruct fuel as [|fuel]; [lia|]. cbn [pad_bits]. rewrite Hb1. cbn.
        exists stat1, 1%nat. split; [reflexivity|]. split; [exact Hb1|].
        split; [|split; [lia|exact Hbits]].
        destruct Hinv1 as (I1 & I2 & I3 & I4). repeat split; try assumption; lia.
      * destruct Hcase as (Hc1 & Hb1).
        destruct (IH stat1) as (stat2 & pad & Hp & Hb2 & Hinv2 & Hpad & Hbits2).
        { destruct Hinv1 as (I1 & I2 & I3 & I4). repeat split; try assumption; lia. }
        { left. lia. }
        exists stat2, (S pad). split; [exact Hp|]. split; [exact Hb2|].
        split; [exact Hinv2|].
        assert (Hbound : (Z.of_nat pad + BitStatus.bit_index stat1 <= 8)).
        { assert (Hl := f_equal length Hbits2).
          rewrite length_app, length_replicate in Hl.
          unfold buffered_bits in Hl. rewrite !length_app, !bits_of_bytes_length,
            !low_bits_length in Hl. rewrite Hb2 in Hl.
          destruct Hinv2 as (_ & J2 & J3 & _). destruct Hinv1 as (_ & I2 & I3 & _).
          rewrite !length_take in Hl. lia. }
        split; [lia|].
        rewrite Hbits2, Hbits. rewrite <- app_assoc. reflexivity.
Qed.

(** The pixel loops write the codes of the loops of [lzw_codes]. *)
Lemma lzw_loops_emit (stat0 : BitStatus.t) (f0 : list Z) (image : list Z)
    (width : Z) (height : nat) (min_code_size clear_code : Z)
    (s : lzw_state) (codes : list (Z * Z)) :
  emits stat0 f0 (code_bits codes) (stat s) (file s) ->
  exists s',
    for_loop height 0
      (fun y s =>
         for_loop (Z.to_nat width) 0
           (fun x s => lzw_pixel min_code_size clear_code (lzw_input image width y x) s)
           s)
      s = Ok s'
    /\ let '(t, codes') :=
         for_pure height 0
           (fun y acc =>
              for_pure (Z.to_nat width) 0
                (fun x acc =>
                   let '(t, codes) := acc in
                   let '(t, new) :=
                     lzw_step min_code_size clear_code (lzw_input image width y x) t in
                   (t, codes ++ new))
                acc)
           (codetree s, curr_code s, code_size s, max_code s, codes) in
       t = (codetree s', curr_code s', code_size s', max_code s')
       /\ emits stat0 f0 (code_bits codes') (stat s') (file s').
Proof.
  intros Hem.
  set (R := fun (s : lzw_state) (acc : gmap (Z * Z) Z * Z * Z * Z * list (Z * Z)) =>
              fst acc = (codetree s, curr_code s, code_size s, max_code s)
              /\ emits stat0 f0 (code_bits (snd acc)) (stat s) (file s)).
  assert (Hpix : forall y x s acc, R s acc ->
            exists s',
              lzw_pixel min_code_size clear_code (lzw_input image width y x) s = Ok s'
              /\ R s' (let '(t, codes) := acc in
                       let '(t, new) :=
                         lzw_step min_code_size clear_code (lzw_input image width y x) t in
                       (t, codes ++ new))).
  { intros y x s1 [t codes1] [Ht He]. cbn [fst snd] in Ht, He. subst t.
    pose proof (lzw_pixel_emits min_code_size clear_code (lzw_input image width y x) s1
                  (emits_inv _ _ _ _ _ He)) as Hp.
    destruct (lzw_step min_code_size clear_code (lzw_input image width y x)
                (codetree s1, curr_code s1, code_size s1, max_code s1))
      as [[[[ct cc] cs] cm] new].
    destruct Hp as (stat' & f' & Hp & He').
    eexists. split; [exact Hp|]. split; [reflexivity|].
    cbn [snd stat file]. rewrite code_bits_app. eapply emits_trans; eassumption. }
  destruct (for_loop_sim R
              (fun y s =>
                 for_loop (Z.to_nat width) 0
                   (fun x s => lzw_pixel min_code_size clear_code
                                 (lzw_input image width y x) s) s)
              (fun y acc =>
                 for_pure (Z.to_nat width) 0
                   (fun x acc =>
                      let '(t, codes) := acc in
                      let '(t, new) :=
                        lzw_step min_code_size clear_code (lzw_input image width y x) t in
                      (t, codes ++ new))
                   acc))
    with (n := height) (i := 0) (s := s)
         (t := (codetree s, curr_code s, code_size s, max_code s, codes))
    as (s' & Hl & HR).
  - intros y s1 acc HR. apply (for_loop_sim R); [|exact HR].
    intros x s2 acc2 HR2. apply Hpix. exact HR2.
  - split; [reflexivity|exact Hem].
  - exists s'. split; [exact Hl|].
    destruct (for_pure height 0 _ _) as [t codes']. destruct HR as [Ht He].
    cbn [fst snd] in Ht, He. auto.
Qed.

(** The bytes [write_lzw_image] appends. *)
Lemma write_lzw_image_framed :
  forall (chunk0 f image : list Z) (left top width height delay : Z)
         (pal : Palette.t),
    length chunk0 = 256%nat ->
    exists (full last : list (list Z)) (pad : nat),
      write_lzw_image chunk0 f image left top width height delay pal
      = Ok (write_frame_header f left top width height delay pal
            ++ [u8 (Palette.bit_depth pal)]
            ++ concat (sub_block <$> full ++ last) ++ [0])
      /\ Forall (fun b => length b = 255%nat) full
      /\ (last = [] \/ exists b, last = [b] /\ (1 <= length b <= 255)%nat)
      /\ (pad < 8)%nat
      /\ bits_of_bytes (concat (full ++ last))
         = code_bits (lzw_codes image width height pal) ++ replicate pad false.
Proof.
  intros chunk0 f image left top width height delay pal Hchunk.
  unfold write_lzw_image, lzw_codes.
  set (hdr := write_frame_header f left top width height delay pal).
  set (mcs := Palette.bit_depth pal).
  set (clear := u32 (Z.shiftl 1 mcs)).
  set (f0 := fputc mcs hdr).
  set (stat0 := BitStatus.mk 0 0 0 chunk0).
  assert (Hinv0 : bit_inv 254 stat0).
  { unfold bit_inv, stat0. cbn. repeat split; try lia; exact Hchunk. }
  assert (Hbuf0 : buffered_bits stat0 = []) by reflexivity.
  destruct (write_code_emits stat0 f0 clear (u32 (mcs + 1)) Hinv0)
    as (stat1 & f1 & Hw1 & He1).
  rewrite Hw1. cbn [bind].
  destruct (lzw_loops_emit stat0 f0 image width (Z.to_nat height) mcs clear
              (mk_lzw ∅ (-1) (u32 (mcs + 1)) (u32 (clear + 1)) stat1 f1)
              [(clear, u32 (mcs + 1))] He1) as (s & Hloop & Hghost).
  rewrite Hloop. cbn [bind]. cbn [codetree curr_code code_size max_code] in Hghost.
  destruct (for_pure (Z.to_nat height) 0 _ _) as [[[[ct cc] cs] cm] codes].
  destruct Hghost as [Ht He]. injection Ht as -> -> -> ->.
  destruct (write_code_emits (stat s) (file s) (u32 (curr_code s)) (code_size s)
              (emits_inv _ _ _ _ _ He)) as (stat2 & f2 & Hw2 & He2).
  rewrite Hw2. cbn [bind].
  destruct (write_code_emits stat2 f2 clear (code_size s) (emits_inv _ _ _ _ _ He2))
    as (stat3 & f3 & Hw3 & He3).
  rewrite Hw3. cbn [bind].
  destruct (write_code_emits stat3 f3 (u32 (clear + 1)) (u32 (mcs + 1))
              (emits_inv _ _ _ _ _ He3)) as (stat4 & f4 & Hw4 & He4).
  rewrite Hw4. cbn [bind].
  pose proof (emits_trans _ _ _ _ _ _ _ _ He (emits_trans _ _ _ _ _ _ _ _ He2
                (emits_trans _ _ _ _ _ _ _ _ He3 He4))) as Hall.
  rewrite <- !code_bits_app in Hall. cbn [app] in Hall.
  destruct Hall as (full & -> & Hfull & Hinv4 & Hbits).
  destruct (pad_bits_emits 8 stat4 Hinv4) as (stat5 & pad & Hp & Hbi5 & Hinv5 & Hpad & Hbits5).
  { destruct Hinv4 as (H1 & _).
    destruct (decide (BitStatus.bit_index stat4 = 0)); [right|left]; lia. }
  rewrite Hp. cbn [bind].
  rewrite Hbuf0 in Hbits. cbn [app] in Hbits.
  destruct Hinv5 as (_ & Hci5 & Hlen5 & Hbyte5).
  assert (Hbuf5 : buffered_bits stat5
                  = bits_of_bytes (take (Z.to_nat (BitStatus.chunk_index stat5))
                                     (BitStatus.chunk stat5))).
  { unfold buffered_bits. rewrite Hbi5. cbn. apply app_nil_r. }
  assert (Htotal : bits_of_bytes (concat full)
                   ++ bits_of_bytes (take (Z.to_nat (BitStatus.chunk_index stat5))
                                       (BitStatus.chunk stat5))
                   = code_bits
                       (codes ++ [(u32 (curr_code s), code_size s);
                                  (clear, code_size s);
                                  (u32 (clear + 1), u32 (mcs + 1))])
                     ++ replicate pad false).
  { rewrite <- Hbuf5, Hbits5, app_assoc, Hbits. reflexivity. }
  destruct (Z.eqb_spec (BitStatus.chunk_index stat5) 0) as [Hc0|Hcn].
  - exists full, [], pad. cbn [negb]. rewrite app_nil_r.
    split; [unfold f0, fputc; rewrite <- !app_assoc; reflexivity|].
    split; [exact Hfull|]. split; [left; reflexivity|]. split; [exact Hpad|].
    rewrite <- Htotal, Hc0. cbn. rewrite app_nil_r. reflexivity.
  - exists full, [take (Z.to_nat (BitStatus.chunk_index stat5)) (BitStatus.chunk stat5)],
      pad.
    assert (Hlast : length (take (Z.to_nat (BitStatus.chunk_index stat5))
                              (BitStatus.chunk stat5))
                    = Z.to_nat (BitStatus.chunk_index stat5)).
    { rewrite length_take. lia. }
    cbn [negb]. unfold write_chunk, f0, fputc.
    split.
    + rewrite fmap_app, concat_app. cbn [fmap list_fmap concat].
      replace (sub_block (take (Z.to_nat (BitStatus.chunk_index stat5))
                            (BitStatus.chunk stat5)))
        with (BitStatus.chunk_index stat5
              :: take (Z.to_nat (BitStatus.chunk_index stat5)) (BitStatus.chunk stat5))
        by (unfold sub_block; rewrite Hlast, Z2Nat.id by lia; reflexivity).
      rewrite (u8_byte (BitStatus.chunk_index stat5)) by lia.
      rewrite app_nil_r. rewrite <- !app_assoc. reflexivity.
    + split; [exact Hfull|]. split; [right; eexists; split; [reflexivity|lia]|].
      split; [exact Hpad|].
      rewrite concat_app, bits_of_bytes_app. cbn [concat]. rewrite app_nil_r.
      exact Htotal.
Qed.

(** X8. the image data of a frame is well framed and carries the LZW codes.
    After the frame header and the minimum code size, [write_lzw_image]
    writes sub-blocks of 255 data bytes, then at most one shorter sub-block
    of 1 to 255 bytes, then the terminator 0.  Read least significant bit
    first, the data bytes are the codes of the LZW loop, each in its width,
    followed by fewer than 8 zero bits. *)
Theorem frame_data_carries_codes :
  forall (chunk0 f image : list Z) (left top width height delay : Z)
         (pal : Palette.t),
    length chunk0 = 256%nat ->
    exists (full last : list (list Z)) (pad : nat),
      write_lzw_image chunk0 f image left top width height delay pal
      = Ok (write_frame_header f left top width height delay pal
            ++ [u8 (Palette.bit_depth pal)]
            ++ concat (sub_block <$> full ++ last) ++ [0])
      /\ Forall (fun b => length b = 255%nat) full
      /\ (last = [] \/ exists b, last = [b] /\ (1 <= length b <= 255)%nat)
      /\ (pad < 8)%nat
      /\ bits_of_bytes (concat (full ++ last))
         = code_bits (lzw_codes image width height pal) ++ replicate pad false.
Proof.
  intros chunk0 f image left top width height delay pal Hchunk.
  exact (write_lzw_image_framed chunk0 f image left top width height delay pal Hchunk).
Qed.

Lemma frame_data_carries_codes_witness :
  length (replicate 256 7) = 256%nat
  /\ exists (full last : list (list Z)) (pad : nat),
       write_lzw_image (replicate 256 7) [] [0; 0; 0; 1] 0 0 1 1 0 demo_pal
       = Ok (write_frame_header [] 0 0 1 1 0 demo_pal
             ++ [u8 (Palette.bit_depth demo_pal)]
             ++ concat (sub_block <$> full ++ last) ++ [0])
       /\ Forall (fun b => length b = 255%nat) full
       /\ (last = [] \/ exists b, last = [b] /\ (1 <= length b <= 255)%nat)
       /\ (pad < 8)%nat
       /\ bits_of_bytes (concat (full ++ last))
          = code_bits (lzw_codes [0; 0; 0; 1] 1 1 demo_pal) ++ replicate pad false.
Proof.
  assert (H : length (replicate 256 7) = 256%nat) by reflexivity.
  split; [exact H|].
  exact (frame_data_carries_codes (replicate 256 7) [] [0; 0; 0; 1] 0 0 1 1 0 demo_pal H).
Defined.

Lemma pixat_channel (image : list Z) (off j c : Z) :
  0 <= c <= 3 -> pixat image off j c = channel (quad image off j) c.
Proof.
  intros Hc. unfold channel, quad.
  assert (Hc' : c = 0 \/ c = 1 \/ c = 2 \/ c = 3) by lia.
  destruct Hc' as [->|[->|[->| ->]]]; reflexivity.
Qed.

Ltac unfold_pix :=
  unfold swap_pixels, setpix, pixat, pixidx, RED, GREEN, BLUE, ALPHA in *.

Ltac split_eqb :=
  repeat match goal with
         | |- context [?x =? ?y] => destruct (Z.eqb_spec x y); try lia
         end.

(** What [swap_pixels] does to every byte of the buffer. *)
Lemma swap_pixels_rd (image : list Z) (off a b k : Z) :
  0 <= off -> 0 <= a -> 0 <= b ->
  off + 4 * a + 3 < Z.of_nat (length image) ->
  off + 4 * b + 3 < Z.of_nat (length image) ->
  0 <= k ->
  rd (swap_pixels image off a b) k
  = if (off + 4 * b <=? k) && (k <? off + 4 * b + 4) then rd image (k - 4 * b + 4 * a)
    else if (off + 4 * a <=? k) && (k <? off + 4 * a + 4) then rd image (k - 4 * a + 4 * b)
    else rd image k.
Proof.
  intros Hoff Ha Hb Hla Hlb Hk. unfold_pix.
  rewrite !rd_wr by (rewrite ?wr_length; lia).
  destruct (Z.leb_spec (off + 4 * b) k), (Z.ltb_spec k (off + 4 * b + 4));
    destruct (Z.leb_spec (off + 4 * a) k), (Z.ltb_spec k (off + 4 * a + 4));
    cbn [andb]; split_eqb; f_equal; lia.
Qed.

Lemma swap_pixels_length (image : list Z) (off a b : Z) :
  length (swap_pixels image off a b) = length image.
Proof. unfold_pix. rewrite !wr_length. reflexivity. Qed.

Lemma swap_pixels_pixat (image : list Z) (off a b j c : Z) :
  0 <= off -> 0 <= a -> 0 <= b ->
  off + 4 * a + 3 < Z.of_nat (length image) ->
  off + 4 * b + 3 < Z.of_nat (length image) ->
  0 <= j -> 0 <= c <= 3 ->
  pixat (swap_pixels image off a b) off j c = pixat image off (transpose a b j) c.
Proof.
  intros Hoff Ha Hb Hla Hlb Hj Hc. unfold pixat, pixidx.
  rewrite swap_pixels_rd by lia. unfold transpose.
  destruct (Z.eqb_spec j b) as [->|Hjb]; [|destruct (Z.eqb_spec j a) as [->|Hja]];
    repeat match goal with
           | |- context [?x <=? ?y] => destruct (Z.leb_spec x y); try lia
           | |- context [?x <? ?y] => destruct (Z.ltb_spec x y); try lia
           end;
    cbn [andb]; f_equal; lia.
Qed.

Lemma swap_pixels_quad (image : list Z) (off a b j : Z) :
  0 <= off -> 0 <= a -> 0 <= b ->
  off + 4 * a + 3 < Z.of_nat (length image) ->
  off + 4 * b + 3 < Z.of_nat (length image) ->
  0 <= j ->
  quad (swap_pixels image off a b) off j = quad image off (transpose a b j).
Proof.
  intros Hoff Ha Hb Hla Hlb Hj. unfold quad.
  rewrite !(swap_pixels_pixat image off a b) by (unfold RED, GREEN, BLUE, ALPHA; lia).
  reflexivity.
Qed.

Lemma swap_pixels_frame (image : list Z) (off a b k : Z) :
  0 <= off -> 0 <= a -> 0 <= b ->
  off + 4 * a + 3 < Z.of_nat (length image) ->
  off + 4 * b + 3 < Z.of_nat (length image) ->
  0 <= k ->
  k < off + 4 * a \/ off + 4 * a + 4 <= k ->
  k < off + 4 * b \/ off + 4 * b + 4 <= k ->
  rd (swap_pixels image off a b) k = rd image k.
Proof.
  intros Hoff Ha Hb Hla Hlb Hk Hka Hkb. rewrite swap_pixels_rd by lia.
  destruct (Z.leb_spec (off + 4 * b) k), (Z.ltb_spec k (off + 4 * b + 4));
    destruct (Z.leb_spec (off + 4 * a) k), (Z.ltb_spec k (off + 4 * a + 4));
    cbn [andb]; try lia; reflexivity.
Qed.

Lemma transpose_involutive (a b j : Z) : transpose a b (transpose a b j) = j.
Proof.
  unfold transpose.
  destruct (Z.eqb_spec j b) as [->|Hb]; [|destruct (Z.eqb_spec j a) as [->|Ha]];
    split_eqb; lia.
Qed.

#[local] Instance transpose_inj (a b : Z) : Inj (=) (=) (transpose a b).
Proof.
  intros x y H. rewrite <- (transpose_involutive a b x), H.
  apply transpose_involutive.
Qed.

Lemma transpose_range (a b l n j : Z) :
  l <= a < l + n -> l <= b < l + n -> l <= j < l + n ->
  l <= transpose a b j < l + n.
Proof. intros Ha Hb Hj. unfold transpose. split_eqb; lia. Qed.

Lemma transpose_seqZ (a b l n : Z) :
  l <= a < l + n -> l <= b < l + n ->
  transpose a b <$> seqZ l n ≡ₚ seqZ l n.
Proof.
  intros Ha Hb. apply NoDup_Permutation.
  - apply (NoDup_fmap_2 _). apply NoDup_seqZ.
  - apply NoDup_seqZ.
  - intros x. rewrite list_elem_of_fmap. setoid_rewrite elem_of_seqZ. split.
    + intros (y & -> & Hy). apply transpose_range; assumption.
    + intros Hx. exists (transpose a b x).
      split; [symmetry; apply transpose_involutive|apply transpose_range; assumption].
Qed.

Lemma quads_swap (image : list Z) (off a b left right : Z) :
  0 <= off -> 0 <= left ->
  left <= a < right -> left <= b < right ->
  off + 4 * right <= Z.of_nat (length image) ->
  quads (swap_pixels image off a b) off left right ≡ₚ quads image off left right.
Proof.
  intros Hoff Hl Ha Hb Hlen. unfold quads.
  assert (E : quad (swap_pixels image off a b) off <$> seqZ left (right - left)
              = quad image off <$> (transpose a b <$> seqZ left (right - left))).
  { rewrite <- list_fmap_compose. apply list_fmap_ext. intros i0 j Hj.
    apply list_elem_of_lookup_2, elem_of_seqZ in Hj. cbn.
    apply swap_pixels_quad; lia. }
  rewrite E, transpose_seqZ by lia. reflexivity.
Qed.

Lemma quads_ext (image image' : list Z) (off left right : Z) :
  0 <= off -> 0 <= left ->
  (forall k, off + 4 * left <= k < off + 4 * right -> rd image' k = rd image k) ->
  quads image' off left right = quads image off left right.
Proof.
  intros Hoff Hl Hrd. unfold quads. apply list_fmap_ext. intros i0 j Hj.
  apply list_elem_of_lookup_2, elem_of_seqZ in Hj.
  unfold quad, pixat, pixidx, RED, GREEN, BLUE, ALPHA.
  rewrite !Hrd by lia. reflexivity.
Qed.

Lemma quads_app (image : list Z) (off left mid right : Z) :
  left <= mid <= right ->
  quads image off left right = quads image off left mid ++ quads image off mid right.
Proof.
  intros Hm. unfold quads.
  replace (right - left) with ((mid - left) + (right - mid)) by lia.
  rewrite seqZ_app, fmap_app by lia.
  replace (left + (mid - left)) with mid by lia.
  replace (mid - left + (right - mid) - (mid - left)) with (right - mid) by lia.
  reflexivity.
Qed.

Lemma elem_of_quads (image : list Z) (off left right : Z) (q : Z * Z * Z * Z) :
  q ∈ quads image off left right <-> exists j, left <= j < right /\ q = quad image off j.
Proof.
  unfold quads. rewrite list_elem_of_fmap. setoid_rewrite elem_of_seqZ.
  split; intros (j & H1 & H2); exists j; (split; [lia|assumption]) || (split; [assumption|lia]).
Qed.

(** A bound on one channel of every pixel of a range is a property of the
    multiset of its quads. *)
Lemma bound_perm (image image' : list Z) (off left right c : Z) (P : Z -> Prop) :
  0 <= c <= 3 ->
  quads image' off left right ≡ₚ quads image off left right ->
  (forall j, left <= j < right -> P (pixat image off j c)) ->
  forall j, left <= j < right -> P (pixat image' off j c).
Proof.
  intros Hc Hperm HP j Hj.
  assert (Hin : quad image' off j ∈ quads image off left right).
  { rewrite <- Hperm. apply elem_of_quads. exists j. auto. }
  apply elem_of_quads in Hin. destruct Hin as (j' & Hj' & Heq).
  rewrite pixat_channel, Heq, <- pixat_channel by lia. apply HP. exact Hj'.
Qed.

Lemma partition_body_inv (image0 : list Z) (off left right elt pivot_value i : Z)
    (st : list Z * Z * bool) :
  0 <= off -> 0 <= left -> 0 <= elt <= 3 ->
  off + 4 * right <= Z.of_nat (length image0) ->
  left <= i < right - 1 ->
  partition_inv image0 off left right elt pivot_value i st ->
  partition_inv image0 off left right elt pivot_value (i + 1)
    (partition_body off elt pivot_value i st).
Proof.
  intros Hoff Hl Helt Hlen Hi. destruct st as [[image store] sp].
  intros (Hlen' & Hst & Hlow & Hhigh & Hpiv & Hperm & Hframe).
  unfold partition_body.
  change (rd image (off + (i * 4 + elt))) with (pixat image off i elt).
  assert (Hswap : partition_inv image0 off left right elt pivot_value (i + 1)
                    (swap_pixels image off i store, store + 1, sp)
                  /\ partition_inv image0 off left right elt pivot_value (i + 1)
                       (swap_pixels image off i store, store + 1, negb sp)
                  \/ ~ pixat image off i elt <= pivot_value).
  { destruct (Z.le_gt_cases (pixat image off i elt) pivot_value) as [Hle|Hgt]; [left|right; lia].
    assert (Hgoal : forall sp', partition_inv image0 off left right elt pivot_value (i + 1)
                                  (swap_pixels image off i store, store + 1, sp')).
    { intros sp'. unfold partition_inv.
      assert (Hpx : forall j, 0 <= j ->
                pixat (swap_pixels image off i store) off j elt
                = pixat image off (transpose i store j) elt).
      { intros j Hj. apply swap_pixels_pixat; lia. }
      split; [rewrite swap_pixels_length; exact Hlen'|].
      split; [lia|]. split.
      - intros j Hj. rewrite Hpx by lia. unfold transpose.
        destruct (Z.eqb_spec j store) as [->|Hjs]; [exact Hle|].
        destruct (Z.eqb_spec j i) as [->|Hji]; [lia|]. apply Hlow. lia.
      - split.
        + intros j Hj. rewrite Hpx by lia. unfold transpose.
          destruct (Z.eqb_spec j store) as [->|Hjs]; [lia|].
          destruct (Z.eqb_spec j i) as [->|Hji]; apply Hhigh; lia.
        + split.
          * rewrite Hpx by lia. unfold transpose.
            destruct (Z.eqb_spec (right - 1) store) as [|_]; [lia|].
            destruct (Z.eqb_spec (right - 1) i) as [|_]; [lia|]. exact Hpiv.
          * split.
            -- rewrite quads_swap by lia. exact Hperm.
            -- intros k Hk Hout. rewrite swap_pixels_frame by lia. apply Hframe; lia. }
    split; apply Hgoal. }
  assert (Hkeep : forall sp', pivot_value <= pixat image off i elt ->
            partition_inv image0 off left right elt pivot_value (i + 1) (image, store, sp')).
  { intros sp' Hge. unfold partition_inv.
    split; [exact Hlen'|]. split; [lia|]. split; [exact Hlow|].
    split; [|auto].
    intros j Hj. destruct (decide (j = i)) as [->|Hne]; [exact Hge|apply Hhigh; lia]. }
  destruct (Z.ltb_spec (pixat image off i elt) pivot_value) as [Hlt|Hge].
  - destruct Hswap as [[H _]|H]; [exact H|lia].
  - destruct (Z.eqb_spec (pixat image off i elt) pivot_value) as [Heq|Hne].
    + destruct sp.
      * destruct Hswap as [[_ H]|H]; [exact H|lia].
      * apply Hkeep. lia.
    + apply Hkeep. lia.
Qed.

Lemma partition_spec (image : list Z) (off left right elt pivot_index : Z) :
  0 <= off -> 0 <= left < right -> right < 2 ^ 64 ->
  left <= pivot_index < right -> 0 <= elt <= 3 ->
  off + 4 * right <= Z.of_nat (length image) ->
  let image' := fst (partition image off left right elt pivot_index) in
  let p := snd (partition image off left right elt pivot_index) in
  let pivot_value := pixat image off pivot_index elt in
  left <= p < right
  /\ length image' = length image
  /\ pixat image' off p elt = pivot_value
  /\ (forall j, left <= j < p -> pixat image' off j elt <= pivot_value)
  /\ (forall j, p < j < right -> pivot_value <= pixat image' off j elt)
  /\ quads image' off left right ≡ₚ quads image off left right
  /\ (forall k, 0 <= k -> k < off + 4 * left \/ off + 4 * right <= k ->
        rd image' k = rd image k).
Proof.
  intros Hoff Hl Hr Hp Helt Hlen. cbv zeta. unfold partition.
  rewrite usize_small by lia.
  change (rd image (off + (pivot_index * 4 + elt))) with (pixat image off pivot_index elt).
  set (pv := pixat image off pivot_index elt).
  set (image1 := swap_pixels image off pivot_index (right - 1)).
  pose proof (for_pure_inv (partition_inv image off left right elt pv)
                (partition_body off elt pv) (Z.to_nat (right - 1 - left)) left
                (image1, left, false)) as Hloop.
  replace (left + Z.of_nat (Z.to_nat (right - 1 - left))) with (right - 1) in Hloop by lia.
  destruct (for_pure (Z.to_nat (right - 1 - left)) left (partition_body off elt pv)
              (image1, left, false)) as [[image2 store] sp].
  cbn [fst snd].
  destruct Hloop as (Hlen2 & Hst & Hlow & Hhigh & Hpiv & Hperm & Hframe).
  - unfold partition_inv, image1.
    split; [apply swap_pixels_length|]. split; [lia|].
    split; [intros; lia|]. split; [intros; lia|]. split.
    + rewrite swap_pixels_pixat by lia. unfold transpose.
      rewrite Z.eqb_refl. reflexivity.
    + split; [apply quads_swap; lia|].
      intros k Hk Hout. apply swap_pixels_frame; lia.
  - intros j t Hj Hinv. apply partition_body_inv; try assumption; lia.
  - assert (Hpx : forall j, 0 <= j ->
              pixat (swap_pixels image2 off store (right - 1)) off j elt
              = pixat image2 off (transpose store (right - 1) j) elt).
    { intros j Hj. apply swap_pixels_pixat; lia. }
    split; [lia|]. split; [rewrite swap_pixels_length; exact Hlen2|].
    split.
    { rewrite Hpx by lia. unfold transpose.
      destruct (Z.eqb_spec store (right - 1)) as [->|_]; [exact Hpiv|].
      rewrite Z.eqb_refl. exact Hpiv. }
    split.
    { intros j Hj. rewrite Hpx by lia. unfold transpose.
      destruct (Z.eqb_spec j (right - 1)) as [|_]; [lia|].
      destruct (Z.eqb_spec j store) as [|_]; [lia|]. apply Hlow. lia. }
    split.
    { intros j Hj. rewrite Hpx by lia. unfold transpose.
      destruct (Z.eqb_spec j (right - 1)) as [->|Hne]; [apply Hhigh; lia|].
      destruct (Z.eqb_spec j store) as [|_]; [lia|]. apply Hhigh. lia. }
    split.
    { rewrite quads_swap by lia. exact Hperm. }
    intros k Hk Hout. rewrite swap_pixels_frame by lia. apply Hframe; lia.
Qed.

Lemma partition_by_median_spec :
  forall (fuel : nat) (image : list Z) (off left right com needed_center : Z),
    0 <= off -> 0 <= left -> left <= needed_center < right -> right < 2 ^ 64 ->
    0 <= com <= 3 ->
    off + 4 * right <= Z.of_nat (length image) ->
    right - left <= Z.of_nat fuel ->
    exists image',
      partition_by_median fuel image off left right com needed_center = Ok image'
      /\ selected image image' off left right com needed_center.
Proof.
  induction fuel as [|fuel IH];
    intros image off left right com nc Hoff Hl Hnc Hr Hcom Hlen Hfuel; [lia|].
  cbn [partition_by_median]. rewrite usize_small by lia.
  destruct (Z.ltb_spec left (right - 1)) as [Hlt|Hge].
  - set (pivot_index := left + (right - left) / 2).
    assert (Hpi : left <= pivot_index < right).
    { unfold pivot_index. split.
      - pose proof (Z.div_pos (right - left) 2). lia.
      - assert ((right - left) / 2 < right - left)
          by (apply Z.div_lt_upper_bound; lia). lia. }
    pose proof (partition_spec image off left right com pivot_index Hoff
                  ltac:(lia) Hr Hpi Hcom Hlen) as Hpart.
    cbv zeta in Hpart.
    destruct (partition image off left right com pivot_index) as [image1 p].
    cbn [fst snd] in Hpart.
    set (pv := pixat image off pivot_index com) in *.
    destruct Hpart as (Hp & Hlen1 & Hpiv & Hlow & Hhigh & Hperm & Hframe).
    destruct (Z.gtb_spec p nc) as [Hgt|Hle].
    + (* the wanted pixel is left of the pivot *)
      destruct (IH image1 off left p com nc) as (image2 & Hrec & Hsel); try lia.
      rewrite Hrec. cbn [bind].
      destruct (Z.ltb_spec p nc) as [|_]; [lia|].
      exists image2. split; [reflexivity|].
      destruct Hsel as (Hlen2 & Hlow2 & Hhigh2 & Hperm2 & Hframe2).
      assert (Hsame : forall j, p <= j < right ->
                pixat image2 off j com = pixat image1 off j com).
      { intros j Hj. unfold pixat, pixidx. apply Hframe2; lia. }
      assert (Hbound : forall j, left <= j < p -> pixat image2 off j com <= pv).
      { apply (bound_perm image1 image2 off left p com (fun v => v <= pv));
          assumption. }
      split; [lia|]. split; [exact Hlow2|]. split.
      * intros j Hj. destruct (Z.lt_ge_cases j p) as [Hjp|Hjp]; [apply Hhigh2; lia|].
        rewrite (Hsame j) by lia. specialize (Hbound nc ltac:(lia)).
        destruct (decide (j = p)) as [->|Hne]; [lia|].
        specialize (Hhigh j ltac:(lia)). lia.
      * split.
        -- rewrite (quads_app image2 off left p right) by lia.
           rewrite Hperm2.
           rewrite (quads_ext image1 image2 off p right) by
             (try lia; intros k Hk; apply Hframe2; lia).
           rewrite <- quads_app by lia. exact Hperm.
        -- intros k Hk Hout. rewrite Hframe2 by lia. apply Hframe; lia.
    + cbn [bind]. destruct (Z.ltb_spec p nc) as [Hlt'|Heq].
      * (* the wanted pixel is right of the pivot *)
        destruct (IH image1 off (p + 1) right com nc) as (image2 & Hrec & Hsel);
          try lia.
        rewrite Hrec. exists image2. split; [reflexivity|].
        destruct Hsel as (Hlen2 & Hlow2 & Hhigh2 & Hperm2 & Hframe2).
        assert (Hsame : forall j, left <= j <= p ->
                  pixat image2 off j com = pixat image1 off j com).
        { intros j Hj. unfold pixat, pixidx. apply Hframe2; lia. }
        assert (Hbound : forall j, p + 1 <= j < right -> pv <= pixat image2 off j com).
        { apply (bound_perm image1 image2 off (p + 1) right com (fun v => pv <= v));
            try assumption. intros j Hj. apply Hhigh. lia. }
        split; [lia|]. split.
        -- intros j Hj. destruct (Z.le_gt_cases j p) as [Hjp|Hjp]; [|apply Hlow2; lia].
           rewrite (Hsame j) by lia. specialize (Hbound nc ltac:(lia)).
           destruct (decide (j = p)) as [->|Hne]; [lia|].
           specialize (Hlow j ltac:(lia)). lia.
        -- split; [exact Hhigh2|]. split.
           ++ rewrite (quads_app image2 off left (p + 1) right) by lia.
              rewrite Hperm2.
              rewrite (quads_ext image1 image2 off left (p + 1)) by
                (try lia; intros k Hk; apply Hframe2; lia).
              rewrite <- quads_app by lia. exact Hperm.
           ++ intros k Hk Hout. rewrite Hframe2 by lia. apply Hframe; lia.
      * (* the pivot is the wanted pixel *)
        assert (p = nc) by lia. subst p. exists image1. split; [reflexivity|].
        split; [exact Hlen1|]. split; [intros j Hj; rewrite Hpiv; apply Hlow; lia|].
        split; [intros j Hj; rewrite Hpiv; apply Hhigh; lia|]. auto.
  - exists image. split; [reflexivity|].
    split; [reflexivity|]. split; [intros; lia|]. split; [intros; lia|].
    split; [reflexivity|auto].
Qed.

(** X9. [swap_pixels] exchanges the quads of the two pixels and changes no
    other byte; doing it twice gives the buffer back. *)
Theorem swap_pixels_exchanges :
  forall (image : list Z) (off a b : Z),
    0 <= off -> 0 <= a -> 0 <= b ->
    off + 4 * a + 3 < Z.of_nat (length image) ->
    off + 4 * b + 3 < Z.of_nat (length image) ->
    let image' := swap_pixels image off a b in
    length image' = length image
    /\ quad image' off a = quad image off b
    /\ quad image' off b = quad image off a
    /\ (forall k, 0 <= k ->
          k < off + 4 * a \/ off + 4 * a + 4 <= k ->
          k < off + 4 * b \/ off + 4 * b + 4 <= k ->
          rd image' k = rd image k)
    /\ swap_pixels image' off a b = image.
Proof.
  intros image off a b Hoff Ha Hb Hla Hlb image'. subst image'.
  split; [apply swap_pixels_length|].
  split.
  { rewrite swap_pixels_quad by lia. unfold transpose.
    destruct (Z.eqb_spec a b) as [->|_]; [reflexivity|].
    rewrite Z.eqb_refl. reflexivity. }
  split.
  { rewrite swap_pixels_quad by lia. unfold transpose.
    rewrite Z.eqb_refl. reflexivity. }
  split; [intros k Hk H1 H2; apply swap_pixels_frame; lia|].
  apply list_eq_rd; [rewrite !swap_pixels_length; reflexivity|].
  intros k Hk.
  rewrite swap_pixels_rd by (rewrite ?swap_pixels_length; lia).
  destruct (Z.leb_spec (off + 4 * b) k), (Z.ltb_spec k (off + 4 * b + 4));
    destruct (Z.leb_spec (off + 4 * a) k), (Z.ltb_spec k (off + 4 * a + 4));
    cbn [andb]; rewrite swap_pixels_rd by lia;
    repeat match goal with
           | |- context [?x <=? ?y] => destruct (Z.leb_spec x y); try lia
           | |- context [?x <? ?y] => destruct (Z.ltb_spec x y); try lia
           end;
    cbn [andb]; f_equal; lia.
Qed.

Lemma swap_pixels_exchanges_witness :
  0 <= 0 /\ 0 <= 0 /\ 0 <= 2
  /\ 0 + 4 * 0 + 3 < Z.of_nat (length demo_three)
  /\ 0 + 4 * 2 + 3 < Z.of_nat (length demo_three)
  /\ swap_pixels (swap_pixels demo_three 0 0 2) 0 0 2 = demo_three.
Proof.
  assert (H0 : 0 <= 0) by lia. assert (H2 : 0 <= 2) by lia.
  assert (Ha : 0 + 4 * 0 + 3 < Z.of_nat (length demo_three)) by (simpl; lia).
  assert (Hb : 0 + 4 * 2 + 3 < Z.of_nat (length demo_three)) by (simpl; lia).
  repeat (split; [assumption|]).
  exact (proj2 (proj2 (proj2 (proj2
           (swap_pixels_exchanges demo_three 0 0 2 H0 H0 H2 Ha Hb))))).
Defined.

(** X10. [partition] is the partition step of quicksort on one colour
    channel.  It returns an index p of the range with the pivot pixel's
    value at p, no larger value before p and no smaller value after p, in
    that channel; the pixels of the range are permuted as whole quads and
    nothing outside the range changes. *)
Theorem partition_splits_at_pivot :
  forall (image : list Z) (off left right elt pivot_index : Z),
    0 <= off -> 0 <= left < right -> right < 2 ^ 64 ->
    left <= pivot_index < right -> 0 <= elt <= 3 ->
    off + 4 * right <= Z.of_nat (length image) ->
    let '(image', p) := partition image off left right elt pivot_index in
    let pivot_value := pixat image off pivot_index elt in
    left <= p < right
    /\ length image' = length image
    /\ pixat image' off p elt = pivot_value
    /\ (forall j, left <= j < p -> pixat image' off j elt <= pivot_value)
    /\ (forall j, p < j < right -> pivot_value <= pixat image' off j elt)
    /\ quads image' off left right ≡ₚ quads image off left right
    /\ (forall k, 0 <= k -> k < off + 4 * left \/ off + 4 * right <= k ->
          rd image' k = rd image k).
Proof.
  intros image off left right elt pivot_index Hoff Hl Hr Hp Helt Hlen.
  pose proof (partition_spec image off left right elt pivot_index Hoff Hl Hr Hp Helt Hlen)
    as H.
  destruct (partition image off left right elt pivot_index) as [image' p].
  exact H.
Qed.

Lemma partition_splits_at_pivot_witness :
  0 <= 0 /\ 0 <= 0 < 3 /\ 3 < 2 ^ 64 /\ 0 <= 2 < 3 /\ 0 <= 0 <= 3
  /\ 0 + 4 * 3 <= Z.of_nat (length demo_three)
  /\ partition demo_three 0 0 3 0 2
     = ([1; 0; 0; 255; 2; 0; 0; 255; 3; 0; 0; 255], 1).
Proof.
  assert (H0 : 0 <= 0) by lia. assert (H1 : 0 <= 0 < 3) by lia.
  assert (H2 : 3 < 2 ^ 64) by reflexivity. assert (H3 : 0 <= 2 < 3) by lia.
  assert (H4 : 0 <= 0 <= 3) by lia.
  assert (H5 : 0 + 4 * 3 <= Z.of_nat (length demo_three)) by (simpl; lia).
  repeat (split; [assumption|]).
  pose proof (partition_splits_at_pivot demo_three 0 0 3 0 2 H0 H1 H2 H3 H4 H5) as H.
  destruct (partition demo_three 0 0 3 0 2) as [image' p] eqn:E.
  destruct H as (_ & _). vm_compute in E. exact (eq_sym E).
Defined.

(** X11. [partition_by_median] is a quickselect.  On a range that contains
    [needed_center] it returns with that pixel in its sorted place for the
    channel: no pixel before it in the range has a larger value, none after
    it a smaller one.  The pixels of the range are permuted as whole quads,
    nothing outside the range changes, and the recursion is at most as deep
    as the range is long. *)
Theorem partition_by_median_selects :
  forall (fuel : nat) (image : list Z) (off left right com needed_center : Z),
    0 <= off -> 0 <= left -> left <= needed_center < right -> right < 2 ^ 64 ->
    0 <= com <= 3 ->
    off + 4 * right <= Z.of_nat (length image) ->
    right - left <= Z.of_nat fuel ->
    exists image',
      partition_by_median fuel image off left right com needed_center = Ok image'
      /\ length image' = length image
      /\ (forall j, left <= j < needed_center ->
            pixat image' off j com <= pixat image' off needed_center com)
      /\ (forall j, needed_center < j < right ->
            pixat image' off needed_center com <= pixat image' off j com)
      /\ quads image' off left right ≡ₚ quads image off left right
      /\ (forall k, 0 <= k -> k < off + 4 * left \/ off + 4 * right <= k ->
            rd image' k = rd image k).
Proof.
  intros fuel image off left right com nc Hoff Hl Hnc Hr Hcom Hlen Hfuel.
  destruct (partition_by_median_spec fuel image off left right com nc
              Hoff Hl Hnc Hr Hcom Hlen Hfuel) as (image' & Hrun & Hsel).
  exists image'. split; [exact Hrun|exact Hsel].
Qed.

Lemma partition_by_median_selects_witness :
  0 <= 0 /\ 0 <= 0 /\ 0 <= 1 < 3 /\ 3 < 2 ^ 64 /\ 0 <= 0 <= 3
  /\ 0 + 4 * 3 <= Z.of_nat (length demo_three)
  /\ 3 - 0 <= Z.of_nat 4
  /\ exists image',
       partition_by_median 4 demo_three 0 0 3 0 1 = Ok image'
       /\ pixat image' 0 1 0 = 2.
Proof.
  assert (H0 : 0 <= 0) by lia. assert (H1 : 0 <= 1 < 3) by lia.
  assert (H2 : 3 < 2 ^ 64) by reflexivity.
  assert (H4 : 0 <= 0 <= 3) by lia.
  assert (H5 : 0 + 4 * 3 <= Z.of_nat (length demo_three)) by (simpl; lia).
  assert (H6 : 3 - 0 <= Z.of_nat 4) by lia.
  repeat (split; [assumption|]).
  destruct (partition_by_median_selects 4 demo_three 0 0 3 0 1 H0 H0 H1 H2 H4 H5 H6)
    as (image' & Hrun & _).
  exists image'. split; [exact Hrun|].
  vm_compute in Hrun. injection Hrun as <-. reflexivity.
Defined.

Lemma changed_pixels_S (last_frame frame : list Z) (i : Z) :
  0 <= i ->
  changed_pixels last_frame frame (i + 1)
  = changed_pixels last_frame frame i
    ++ (if same_rgb last_frame frame i then [] else [i]).
Proof.
  intros Hi. unfold changed_pixels.
  rewrite seqZ_app by lia. rewrite filter_app. f_equal.
  rewrite seqZ_cons by lia. rewrite (seqZ_nil _ (Z.pred 1)) by lia.
  replace (0 + i) with i by lia.
  rewrite filter_cons. rewrite filter_nil.
  destruct (same_rgb last_frame frame i) eqn:E.
  - rewrite decide_False by discriminate. reflexivity.
  - rewrite decide_True by reflexivity. reflexivity.
Qed.

Lemma buffered_ext (f1 f2 : list Z) (n : Z) :
  (forall k, 0 <= k < 4 * n -> rd f1 k = rd f2 k) ->
  buffered f1 <$> seqZ 0 n = buffered f2 <$> seqZ 0 n.
Proof.
  intros H. apply list_fmap_ext. intros i0 j Hj.
  apply list_elem_of_lookup_2, elem_of_seqZ in Hj. unfold buffered.
  rewrite !H by lia. reflexivity.
Qed.

Lemma pick_changed_body_inv (last_frame frame0 : list Z) (n i : Z)
    (st : list Z * Z * Z) :
  4 * n <= Z.of_nat (length frame0) -> 0 <= i < n ->
  pick_changed_inv last_frame frame0 i st ->
  pick_changed_inv last_frame frame0 (i + 1) (pick_changed_body last_frame i st).
Proof.
  intros Hlen Hi. destruct st as [[frame wit] nc].
  intros (Hl & Hwit & Hnc & Hcount & Hfront & Hrest & Halpha).
  unfold pick_changed_body.
  rewrite !Hrest by lia.
  replace (negb (rd last_frame (i * 4) =? rd frame0 (i * 4))
           || negb (rd last_frame (i * 4 + 1) =? rd frame0 (i * 4 + 1))
           || negb (rd last_frame (i * 4 + 2) =? rd frame0 (i * 4 + 2)))
    with (negb (same_rgb last_frame frame0 i)).
  2:{ unfold same_rgb. replace (4 * i) with (i * 4) by lia.
      rewrite !negb_andb. reflexivity. }
  pose proof (changed_pixels_S last_frame frame0 i ltac:(lia)) as HS.
  destruct (same_rgb last_frame frame0 i) eqn:E; cbn [negb].
  - rewrite app_nil_r in HS. unfold pick_changed_inv. rewrite HS.
    repeat split; try assumption; lia.
  - subst wit.
    set (f1 := wr frame (4 * nc) (rd frame0 (i * 4))).
    assert (Hr1 : rd f1 (i * 4 + 1) = rd frame0 (i * 4 + 1)).
    { unfold f1. rewrite rd_wr_other by lia. apply Hrest. lia. }
    rewrite Hr1.
    set (f2 := wr f1 (4 * nc + 1) (rd frame0 (i * 4 + 1))).
    assert (Hr2 : rd f2 (i * 4 + 2) = rd frame0 (i * 4 + 2)).
    { unfold f2, f1. rewrite !rd_wr_other by lia. apply Hrest. lia. }
    rewrite Hr2.
    set (f3 := wr f2 (4 * nc + 2) (rd frame0 (i * 4 + 2))).
    assert (Hl3 : length f3 = length frame0).
    { unfold f3, f2, f1. rewrite !wr_length. exact Hl. }
    assert (Hpix : buffered f3 nc = buffered frame0 i).
    { unfold buffered, f3, f2, f1.
      rewrite (rd_wr_other _ _ _ (4 * nc)) by lia.
      rewrite (rd_wr_other _ _ _ (4 * nc)) by lia.
      rewrite (rd_wr_same _ (4 * nc)) by lia.
      rewrite (rd_wr_other _ _ _ (4 * nc + 1)) by lia.
      rewrite (rd_wr_same _ (4 * nc + 1)) by (rewrite ?wr_length; lia).
      rewrite (rd_wr_same _ (4 * nc + 2)) by (rewrite ?wr_length; lia).
      replace (i * 4) with (4 * i) by lia. reflexivity. }
    assert (Hother : forall k, 0 <= k -> k < 4 * nc \/ 4 * nc + 3 <= k ->
              rd f3 k = rd frame k).
    { intros k Hk Hout. unfold f3, f2, f1. rewrite !rd_wr_other by lia. reflexivity. }
    unfold pick_changed_inv. rewrite HS.
    split; [exact Hl3|]. split; [lia|]. split; [lia|]. split.
    { rewrite length_app, Nat2Z.inj_add, <- Hcount. reflexivity. }
    split.
    { rewrite seqZ_app by lia. rewrite !fmap_app.
      rewrite (seqZ_cons (0 + nc) 1) by lia. rewrite (seqZ_nil _ (Z.pred 1)) by lia.
      cbn [fmap list_fmap]. replace (0 + nc) with nc by lia. rewrite Hpix.
      f_equal. rewrite <- Hfront. apply buffered_ext.
      intros k Hk. apply Hother; lia. }
    split.
    { intros k Hk. rewrite Hother by lia. apply Hrest. lia. }
    intros j Hj. rewrite Hother by lia. apply Halpha. exact Hj.
Qed.

Lemma filter_none (P : Z -> Prop) `{forall x, Decision (P x)} (l : list Z) :
  Forall (fun x => ~ P x) l -> filter P l = [].
Proof.
  induction 1 as [|x l Hx Hl IH]; [reflexivity|].
  rewrite filter_cons, decide_False by exact Hx. exact IH.
Qed.

Lemma pick_changed_pixels_spec (last_frame frame : list Z) (num_pixels : Z) :
  0 <= num_pixels -> 4 * num_pixels <= Z.of_nat (length frame) ->
  pick_changed_inv last_frame frame num_pixels
    (for_pure (Z.to_nat num_pixels) 0 (pick_changed_body last_frame) (frame, 0, 0)).
Proof.
  intros Hn Hlen.
  pose proof (for_pure_inv (pick_changed_inv last_frame frame)
                (pick_changed_body last_frame) (Z.to_nat num_pixels) 0 (frame, 0, 0))
    as Hloop.
  replace (0 + Z.of_nat (Z.to_nat num_pixels)) with num_pixels in Hloop by lia.
  apply Hloop.
  - unfold pick_changed_inv, changed_pixels. cbn. repeat split; auto; lia.
  - intros j t Hj Hinv. apply (pick_changed_body_inv last_frame frame num_pixels);
      [exact Hlen|lia|exact Hinv].
Qed.

(** X12. [pick_changed_pixels] compacts the colours of the changed pixels to
    the front of the buffer.  It returns the number of pixels whose (R, G, B)
    differs from the previous frame; the first that many pixels of the
    buffer then hold the colours of those pixels, in raster order.  Alpha
    bytes are never written and the buffer beyond the compacted pixels is
    as it was; no changed pixel gives 0. *)
Theorem pick_changed_pixels_compacts :
  forall (last_frame frame : list Z) (num_pixels : Z),
    0 <= num_pixels -> 4 * num_pixels <= Z.of_nat (length frame) ->
    let '(frame', num_changed) := pick_changed_pixels last_frame frame num_pixels in
    let changed := changed_pixels last_frame frame num_pixels in
    num_changed = Z.of_nat (length changed)
    /\ 0 <= num_changed <= num_pixels
    /\ length frame' = length frame
    /\ buffered frame' <$> seqZ 0 num_changed = buffered frame <$> changed
    /\ (forall k, 4 * num_changed <= k -> rd frame' k = rd frame k)
    /\ (forall j, 0 <= j -> rd frame' (4 * j + 3) = rd frame (4 * j + 3))
    /\ ((forall i, 0 <= i < num_pixels -> same_rgb last_frame frame i = true) ->
        num_changed = 0).
Proof.
  intros last_frame frame num_pixels Hn Hlen.
  pose proof (pick_changed_pixels_spec last_frame frame num_pixels Hn Hlen) as H.
  unfold pick_changed_pixels.
  destruct (for_pure (Z.to_nat num_pixels) 0 (pick_changed_body last_frame) (frame, 0, 0))
    as [[frame' wit] nc].
  destruct H as (Hl & Hwit & Hnc & Hcount & Hfront & Hrest & Halpha).
  repeat (split; [assumption|]).
  intros Hsame. rewrite Hcount. unfold changed_pixels.
  rewrite filter_none; [reflexivity|].
  apply Forall_seqZ. intros i Hi. rewrite Hsame by lia. discriminate.
Qed.

Lemma pick_changed_pixels_compacts_witness :
  0 <= 3 /\ 4 * 3 <= Z.of_nat (length [1; 1; 1; 9; 2; 2; 2; 9; 3; 3; 3; 9])
  /\ pick_changed_pixels [1; 1; 1; 0; 0; 0; 0; 0; 7; 3; 3; 0]
       [1; 1; 1; 9; 2; 2; 2; 9; 3; 3; 3; 9] 3
     = ([2; 2; 2; 9; 3; 3; 3; 9; 3; 3; 3; 9], 2).
Proof.
  assert (H0 : 0 <= 3) by lia.
  assert (H1 : 4 * 3 <= Z.of_nat (length [1; 1; 1; 9; 2; 2; 2; 9; 3; 3; 3; 9]))
    by (simpl; lia).
  split; [exact H0|]. split; [exact H1|].
  pose proof (pick_changed_pixels_compacts [1; 1; 1; 0; 0; 0; 0; 0; 7; 3; 3; 0]
                [1; 1; 1; 9; 2; 2; 2; 9; 3; 3; 3; 9] 3 H0 H1) as H.
  destruct (pick_changed_pixels _ _ 3) as [frame' nc] eqn:E.
  destruct H as (_ & _). vm_compute in E. exact (eq_sym E).
Defined.

Lemma propagate_frame (q q' : list Z) (num_pixels width x y r_err g_err b_err : Z) :
  propagate q num_pixels width x y r_err g_err b_err = Ok q' ->
  length q' = length q
  /\ (forall j, 0 <= j -> rd q' (4 * j + 3) = rd q (4 * j + 3))
  /\ (2 <= width -> 0 <= y -> 0 <= x -> y * width + width + x + 1 < 2 ^ 64 ->
      forall i, 0 <= i < 4 * (y * width + x + 1) -> rd q' i = rd q i).
Proof.
  intros Hrun. apply propagate_inv in Hrun as (q1 & q2 & q3 & R7 & R3 & R5 & R1).
  destruct (quantloc_nonneg width x y) as (H7 & H3 & H5 & H1).
  apply add_error_frame in R7 as [Hl Hf]; [|exact H7].
  apply add_error_frame in R3 as [Hl0 Hf0]; [|exact H3].
  apply add_error_frame in R5 as [Hl1 Hf1]; [|exact H5].
  apply add_error_frame in R1 as [Hl2 Hf2]; [|exact H1].
  split; [congruence|]. split.
  - intros j Hj. rewrite Hf2, Hf1, Hf0, Hf by lia. reflexivity.
  - intros Hw Hy Hx Hfit i Hi.
    assert (E7 : quantloc_7 width x y = y * width + x + 1)
      by (apply usize_small; nia).
    assert (E3 : quantloc_3 width x y = y * width + width + x - 1)
      by (apply usize_small; nia).
    assert (E5 : quantloc_5 width x y = y * width + width + x)
      by (apply usize_small; nia).
    assert (E1 : quantloc_1 width x y = y * width + width + x + 1)
      by (apply usize_small; nia).
    rewrite Hf2, Hf1, Hf0, Hf by lia. reflexivity.
Qed.

(** The two ways [dither_pixel] leaves pixel [k]: the four bytes of the
    pixel are written, then the error may be propagated. *)
Lemma dither_pixel_shape (last_frame : frame_ptr) (last : list Z) (pal : Palette.t)
    (num_pixels width y x : Z) (q q' : list Z) :
  0 <= Palette.bit_depth pal ->
  0 <= y * width + x < 2 ^ 64 ->
  dither_pixel last_frame last pal num_pixels width y x q = Ok q' ->
  let k := y * width + x in
  exists a b c d,
    let q1 := wr (wr (wr (wr q (4 * k) a) (4 * k + 1) b) (4 * k + 2) c) (4 * k + 3) d in
    ((is_null last_frame = false
      /\ (a, b, c, d) = (rd last (4 * k), rd last (4 * k + 1), rd last (4 * k + 2),
                         transparency_index)
      /\ q' = q1)
     \/ (0 <= d < 2 ^ Palette.bit_depth pal
         /\ (a, b, c) = (rd (Palette.r pal) d, rd (Palette.g pal) d,
                         rd (Palette.b pal) d)
         /\ exists r_err g_err b_err,
             propagate q1 num_pixels width x y r_err g_err b_err = Ok q')).
Proof.
  intros HD Hk Hstep k.
  pose proof (dither_pixel_cases _ _ _ _ _ _ _ _ _ Hstep) as Hc. cbv zeta in Hc.
  rewrite usize_small in Hc by lia. fold k in Hc.
  destruct Hc as [(Hnull & E & ->)|(_ & bi & bd & Hq & _ & Hprop)].
  - exists (rounded (rd q (4 * k))), (rounded (rd q (4 * k + 1))),
      (rounded (rd q (4 * k + 2))), transparency_index.
    left. split; [exact Hnull|]. split; [congruence|reflexivity].
  - apply closest_from_root_improves in Hq; [|exact HD].
    exists (rd (Palette.r pal) bi), (rd (Palette.g pal) bi),
      (rd (Palette.b pal) bi), bi.
    right. split; [|split; [reflexivity|eauto]].
    assert (0 < 2 ^ Palette.bit_depth pal) by (apply Z.pow_pos_nonneg; lia).
    destruct Hq as [[= -> _]|Hq]; [unfold transparency_index; lia|simpl in Hq; lia].
Qed.

Lemma dither_pixel_index_inv (last_frame : frame_ptr) (last : list Z)
    (pal : Palette.t) (num_pixels width y x : Z) (q q' : list Z) :
  0 <= Palette.bit_depth pal ->
  0 <= y * width + x < num_pixels -> num_pixels < 2 ^ 62 ->
  dither_index_inv pal num_pixels (y * width + x) q ->
  dither_pixel last_frame last pal num_pixels width y x q = Ok q' ->
  dither_index_inv pal num_pixels (y * width + x + 1) q'.
Proof.
  intros HD Hk Hn [Hlen Hdone] Hstep.
  assert (H62 : 2 ^ 62 < 2 ^ 64) by reflexivity.
  destruct (dither_pixel_shape last_frame last pal num_pixels width y x q q' HD
              ltac:(lia) Hstep) as (a & b & c & d & Hshape).
  cbv zeta in Hshape. set (k := y * width + x) in *.
  destruct (wr_quad q k a b c d ltac:(lia) ltac:(lia)) as (Hpix & Hlen1 & Hfr1).
  set (q1 := wr (wr (wr (wr q (4 * k) a) (4 * k + 1) b) (4 * k + 2) c) (4 * k + 3) d) in *.
  assert (Hd : 0 <= d < 2 ^ Palette.bit_depth pal).
  { destruct Hshape as [(_ & E & _)|(Hd & _)]; [|exact Hd].
    injection E as _ _ _ ->. unfold transparency_index.
    split; [lia|apply Z.pow_pos_nonneg; lia]. }
  assert (Halpha : rd q' (4 * k + 3) = d
                   /\ length q' = length q
                   /\ forall j, 0 <= j < k -> rd q' (4 * j + 3) = rd q (4 * j + 3)).
  { assert (H1 : rd q1 (4 * k + 3) = d) by (unfold pixel in Hpix; congruence).
    destruct Hshape as [(_ & _ & ->)|(_ & _ & re & ge & be & Hp)].
    - split; [exact H1|]. split; [exact Hlen1|]. intros j Hj. apply Hfr1; lia.
    - destruct (propagate_frame q1 q' num_pixels width x y re ge be Hp)
        as (Hl & Ha & _).
      split; [rewrite Ha by lia; exact H1|]. split; [congruence|].
      intros j Hj. rewrite Ha by lia. apply Hfr1; lia. }
  destruct Halpha as (Ha & Hl & Hf).
  split; [congruence|].
  intros j Hj. destruct (decide (j = k)) as [->|Hne]; [rewrite Ha; exact Hd|].
  rewrite Hf by lia. apply Hdone. lia.
Qed.

Lemma dither_pixel_inv (last_frame : frame_ptr) (last : list Z)
    (pal : Palette.t) (num_pixels width y x : Z) (q q' : list Z) :
  0 <= Palette.bit_depth pal -> 2 <= width -> 0 <= y -> 0 <= x ->
  y * width + x < num_pixels -> num_pixels < 2 ^ 62 -> width < 2 ^ 62 ->
  dither_inv last_frame last pal num_pixels (y * width + x) q ->
  dither_pixel last_frame last pal num_pixels width y x q = Ok q' ->
  dither_inv last_frame last pal num_pixels (y * width + x + 1) q'.
Proof.
  intros HD Hw Hy Hx Hk Hn Hw62 [Hlen Hdone] Hstep.
  assert (H62 : 2 * 2 ^ 62 + 1 < 2 ^ 64) by reflexivity.
  assert (Hk0 : 0 <= y * width + x) by nia.
  destruct (dither_pixel_shape last_frame last pal num_pixels width y x q q' HD
              ltac:(lia) Hstep) as (a & b & c & d & Hshape).
  cbv zeta in Hshape. set (k := y * width + x) in *.
  destruct (wr_quad q k a b c d ltac:(lia) ltac:(lia)) as (Hpix & Hlen1 & Hfr1).
  set (q1 := wr (wr (wr (wr q (4 * k) a) (4 * k + 1) b) (4 * k + 2) c) (4 * k + 3) d) in *.
  assert (Hq' : length q' = length q
                /\ forall j, 0 <= j <= k -> pixel q' j = pixel q1 j).
  { destruct Hshape as [(_ & _ & ->)|(_ & _ & re & ge & be & Hp)]; [auto|].
    destruct (propagate_frame q1 q' num_pixels width x y re ge be Hp)
      as (Hl & _ & Hf).
    split; [congruence|]. intros j Hj. unfold pixel.
    rewrite !Hf by (fold k; lia). reflexivity. }
  destruct Hq' as [Hl Hf].
  split; [congruence|].
  intros j Hj. unfold dither_done. rewrite Hf by lia.
  destruct (decide (j = k)) as [->|Hne].
  - rewrite Hpix.
    destruct Hshape as [(Hnull & E & _)|(Hd & E & _)].
    + left. split; [exact Hnull|exact E].
    + right. exists d. split; [exact Hd|]. injection E as -> -> ->. reflexivity.
  - assert (Hsame : pixel q1 j = pixel q j).
    { unfold pixel. rewrite !Hfr1 by lia. reflexivity. }
    rewrite Hsame. apply Hdone. lia.
Qed.

Lemma dither_rows_index_inv (last_frame : frame_ptr) (last : list Z)
    (pal : Palette.t) (width height : Z) (q q' : list Z) :
  0 <= Palette.bit_depth pal -> 0 <= width -> 0 <= height ->
  width * height < 2 ^ 62 ->
  dither_index_inv pal (width * height) 0 q ->
  dither_rows last_frame last pal (width * height) width (Z.to_nat height) q = Ok q' ->
  dither_index_inv pal (width * height) (width * height) q'.
Proof.
  intros HD Hw Hh Hn Hinv Hrun. unfold dither_rows in Hrun.
  apply (for_loop_inv (fun y q => dither_index_inv pal (width * height) (y * width) q))
    in Hrun.
  - replace ((0 + Z.of_nat (Z.to_nat height)) * width) with (width * height) in Hrun by lia.
    exact Hrun.
  - exact Hinv.
  - intros y t t' Hy Ht Hrow.
    apply (for_loop_inv
             (fun x q => dither_index_inv pal (width * height) (y * width + x) q))
      in Hrow.
    + replace (y * width + (0 + Z.of_nat (Z.to_nat width))) with ((y + 1) * width)
        in Hrow by lia.
      exact Hrow.
    + rewrite Z.add_0_r. exact Ht.
    + intros x v v' Hx Hv Hpix.
      replace (y * width + (x + 1)) with (y * width + x + 1) by lia.
      eapply dither_pixel_index_inv; eauto; nia.
Qed.

Lemma dither_rows_inv (last_frame : frame_ptr) (last : list Z)
    (pal : Palette.t) (width height : Z) (q q' : list Z) :
  0 <= Palette.bit_depth pal -> 2 <= width -> 0 <= height ->
  width * height < 2 ^ 62 -> width < 2 ^ 62 ->
  dither_inv last_frame last pal (width * height) 0 q ->
  dither_rows last_frame last pal (width * height) width (Z.to_nat height) q = Ok q' ->
  dither_inv last_frame last pal (width * height) (width * height) q'.
Proof.
  intros HD Hw Hh Hn Hw62 Hinv Hrun. unfold dither_rows in Hrun.
  apply (for_loop_inv
           (fun y q => dither_inv last_frame last pal (width * height) (y * width) q))
    in Hrun.
  - replace ((0 + Z.of_nat (Z.to_nat height)) * width) with (width * height) in Hrun by lia.
    exact Hrun.
  - exact Hinv.
  - intros y t t' Hy Ht Hrow.
    apply (for_loop_inv
             (fun x q => dither_inv last_frame last pal (width * height)
                           (y * width + x) q))
      in Hrow.
    + replace (y * width + (0 + Z.of_nat (Z.to_nat width))) with ((y + 1) * width)
        in Hrow by lia.
      exact Hrow.
    + rewrite Z.add_0_r. exact Ht.
    + intros x v v' Hx Hv Hpix.
      replace (y * width + (x + 1)) with (y * width + x + 1) by lia.
      eapply dither_pixel_inv; eauto; nia.
Qed.

Lemma dither_image_unfold (last_frame : frame_ptr) (next_frame out_frame : list Z)
    (width height : Z) (pal : Palette.t) (out' : list Z) :
  0 <= width -> 0 <= height -> width * height < 2 ^ 62 ->
  4 * (width * height) <= Z.of_nat (length out_frame) ->
  dither_image last_frame next_frame out_frame width height pal = Ok out' ->
  exists q,
    dither_rows last_frame (deref last_frame out_frame) pal (width * height) width
      (Z.to_nat height) (quant_init next_frame (width * height)) = Ok q
    /\ forall i, 0 <= i < 4 * (width * height) -> rd out' i = u8 (rd q i).
Proof.
  intros Hw Hh Hn Hlen Hrun. unfold dither_image in Hrun.
  assert (H62 : 4 * 2 ^ 62 = 2 ^ 64) by reflexivity.
  assert (Hwh : 0 <= width * height) by nia.
  rewrite (usize_small (width * height)) in Hrun by lia.
  rewrite (usize_small (width * height * 4)) in Hrun by lia.
  destruct (dither_rows _ _ _ _ _ _ _) as [q|] eqn:Hrows; [|discriminate].
  cbn [bind] in Hrun. injection Hrun as <-.
  exists q. split; [reflexivity|].
  intros i Hi. apply copy_out; lia.
Qed.

(** X13. with a frame at least two pixels wide, the buffer the dither pass
    leaves when it returns (no [i32] overflow) holds, at every pixel, either the colour of the previous frame
    with the transparency index (only when there is a previous frame), or a
    palette index with the colour the palette gives it: the error of a
    pixel only goes to pixels visited later. *)
Theorem dither_buffer_holds_palette_colors :
  forall (last_frame : frame_ptr) (next_frame out_frame : list Z)
         (width height : Z) (pal : Palette.t) (out' : list Z),
    0 <= Palette.bit_depth pal <= 8 -> pal_bytes pal ->
    bytes (deref last_frame out_frame) ->
    2 <= width < 2 ^ 62 -> 0 <= height -> width * height < 2 ^ 62 ->
    4 * (width * height) <= Z.of_nat (length out_frame) ->
    dither_image last_frame next_frame out_frame width height pal = Ok out' ->
    forall i, 0 <= i < width * height ->
      dither_done last_frame (deref last_frame out_frame) pal out' i.
Proof.
  intros last_frame next_frame out_frame width height pal out'
    HD Hpal Hlast Hw Hh Hn Hlen Hrun i Hi.
  destruct (dither_image_unfold last_frame next_frame out_frame width height pal out'
              ltac:(lia) Hh Hn Hlen Hrun) as (q & Hrows & Hout).
  apply dither_rows_inv in Hrows; try lia.
  2:{ split; [|intros j Hj; lia]. rewrite quant_init_length.
      assert (H62 : 4 * 2 ^ 62 = 2 ^ 64) by reflexivity.
      rewrite usize_small by nia. f_equal. lia. }
  destruct Hrows as [_ Hdone]. specialize (Hdone i Hi).
  assert (H256 : 2 ^ Palette.bit_depth pal <= 256).
  { change 256 with (2 ^ 8). apply Z.pow_le_mono_r; lia. }
  assert (Hpix : pixel out' i
                 = (u8 (rd q (4 * i)), u8 (rd q (4 * i + 1)), u8 (rd q (4 * i + 2)),
                    u8 (rd q (4 * i + 3)))).
  { unfold pixel. rewrite !Hout by lia. reflexivity. }
  unfold dither_done. rewrite Hpix.
  destruct Hdone as [(Hnull & E)|(ind & Hind & E)]; unfold pixel in E.
  - left. split; [exact Hnull|].
    injection E as -> -> -> ->.
    rewrite !u8_byte by (apply bytes_rd; exact Hlast). reflexivity.
  - right. exists ind. split; [exact Hind|].
    injection E as -> -> -> ->.
    rewrite (u8_byte ind) by lia.
    destruct (Hpal ind) as (Hr & Hg & Hb).
    rewrite !u8_byte by assumption. reflexivity.
Qed.

Lemma dither_buffer_holds_palette_colors_witness :
  0 <= Palette.bit_depth demo_dither_pal <= 8
  /\ pal_bytes demo_dither_pal
  /\ bytes (deref Null (replicate 8 0))
  /\ 2 <= 2 < 2 ^ 62 /\ 0 <= 1 /\ 2 * 1 < 2 ^ 62
  /\ 4 * (2 * 1) <= Z.of_nat (length (replicate 8 0))
  /\ dither_image Null [255; 0; 0; 255; 0; 0; 0; 255] (replicate 8 0) 2 1
       demo_dither_pal = Ok [0; 0; 0; 1; 0; 0; 0; 1]
  /\ forall i, 0 <= i < 2 * 1 ->
       dither_done Null (deref Null (replicate 8 0)) demo_dither_pal
         [0; 0; 0; 1; 0; 0; 0; 1] i.
Proof.
  assert (H1 : 0 <= Palette.bit_depth demo_dither_pal <= 8) by (simpl; lia).
  assert (H2 : bytes (deref Null (replicate 8 0))) by constructor.
  assert (H3 : 2 <= 2 < 2 ^ 62) by (split; [lia|reflexivity]).
  assert (H4 : 0 <= 1) by lia.
  assert (H5 : 2 * 1 < 2 ^ 62) by reflexivity.
  assert (H6 : 4 * (2 * 1) <= Z.of_nat (length (replicate 8 0))) by (simpl; lia).
  assert (H7 : dither_image Null [255; 0; 0; 255; 0; 0; 0; 255] (replicate 8 0) 2 1
                 demo_dither_pal = Ok [0; 0; 0; 1; 0; 0; 0; 1])
    by (vm_compute; reflexivity).
  split; [exact H1|]. split; [exact demo_dither_pal_bytes|].
  repeat (split; [assumption|]).
  exact (dither_buffer_holds_palette_colors Null _ _ 2 1 demo_dither_pal _
           H1 demo_dither_pal_bytes H2 H3 H4 H5 H6 H7).
Defined.

(** X14. every symbol the quantizers hand to the LZW encoder is a palette
    index below 2^bit_depth, the clear code: the fourth byte of every pixel
    of the buffer, after the threshold pass as after the dither pass
    (whenever the pass returns), for any palette and any width. *)
Theorem quantizer_symbols_below_clear_code :
  forall (last_frame : frame_ptr) (next_frame out_frame : list Z)
         (width height : Z) (pal : Palette.t) (dither : bool) (out' : list Z),
    1 <= Palette.bit_depth pal <= 8 ->
    0 <= width -> 0 <= height -> width * height < 2 ^ 62 ->
    4 * (width * height) <= Z.of_nat (length out_frame) ->
    (if dither then dither_image last_frame next_frame out_frame width height pal
     else threshold_image last_frame next_frame out_frame width height pal) = Ok out' ->
    forall y x, 0 <= y < height -> 0 <= x < width ->
      0 <= lzw_input out' width y x < 2 ^ Palette.bit_depth pal.
Proof.
  intros last_frame next_frame out_frame width height pal dither out'
    HD Hw Hh Hn Hlen Hrun y x Hy Hx.
  assert (H62 : 4 * 2 ^ 62 = 2 ^ 64) by reflexivity.
  assert (Hk : 0 <= y * width + x < width * height) by nia.
  unfold lzw_input. rewrite usize_small by lia.
  replace ((y * width + x) * 4 + 3) with (4 * (y * width + x) + 3) by lia.
  set (k := y * width + x) in *.
  assert (Hpow : 2 <= 2 ^ Palette.bit_depth pal).
  { change 2 with (2 ^ 1) at 1. apply Z.pow_le_mono_r; lia. }
  assert (H256 : 2 ^ Palette.bit_depth pal <= 256).
  { change 256 with (2 ^ 8). apply Z.pow_le_mono_r; lia. }
  destruct dither.
  - destruct (dither_image_unfold last_frame next_frame out_frame width height pal out'
                Hw Hh Hn Hlen Hrun) as (q & Hrows & Hout).
    apply dither_rows_index_inv in Hrows; try lia.
    2:{ split; [|intros j Hj; lia]. rewrite quant_init_length.
        rewrite usize_small by nia. f_equal. lia. }
    destruct Hrows as [_ Hdone]. specialize (Hdone k Hk).
    rewrite Hout by lia. rewrite u8_byte by lia. exact Hdone.
  - apply threshold_image_post in Hrun; [|lia|rewrite usize_small by lia; exact Hlen].
    destruct Hrun as [_ Hpost]. specialize (Hpost k).
    rewrite usize_small in Hpost by lia. specialize (Hpost Hk).
    unfold threshold_post in Hpost.
    destruct (negb (is_null last_frame) && same_rgb _ _ _).
    + unfold pixel in Hpost. injection Hpost as _ _ _ ->. lia.
    + destruct Hpost as (best_ind & best_diff & Hq & Hpix).
      unfold pixel in Hpix. injection Hpix as _ _ _ ->.
      apply closest_from_root_improves in Hq; [|lia].
      destruct Hq as [E|Hq]; [injection E as -> _; lia|cbn [fst] in Hq; lia].
Qed.

Lemma quantizer_symbols_below_clear_code_witness :
  1 <= Palette.bit_depth demo_dither_pal <= 8
  /\ 0 <= 1 /\ 0 <= 2 /\ 1 * 2 < 2 ^ 62
  /\ 4 * (1 * 2) <= Z.of_nat (length (replicate 8 0))
  /\ dither_image Null demo_frame2 (replicate 8 0) 1 2 demo_dither_pal
     = Ok [0; 0; 0; 1; 208; 208; 208; 1]
  /\ forall y x, 0 <= y < 2 -> 0 <= x < 1 ->
       0 <= lzw_input [0; 0; 0; 1; 208; 208; 208; 1] 1 y x
       < 2 ^ Palette.bit_depth demo_dither_pal.
Proof.
  assert (H1 : 1 <= Palette.bit_depth demo_dither_pal <= 8) by (simpl; lia).
  assert (H2 : 0 <= 1) by lia. assert (H3 : 0 <= 2) by lia.
  assert (H4 : 1 * 2 < 2 ^ 62) by reflexivity.
  assert (H5 : 4 * (1 * 2) <= Z.of_nat (length (replicate 8 0))) by (simpl; lia).
  assert (H6 : dither_image Null demo_frame2 (replicate 8 0) 1 2 demo_dither_pal
               = Ok [0; 0; 0; 1; 208; 208; 208; 1]) by (vm_compute; reflexivity).
  repeat (split; [assumption|]).
  exact (quantizer_symbols_below_clear_code Null demo_frame2 (replicate 8 0) 1 2
           demo_dither_pal true _ H1 H2 H3 H4 H5 H6).
Defined.

(** *** Arithmetic of the heap *)

Lemma pow2_pos (n : Z) : 0 <= n -> 0 < 2 ^ n.
Proof. intros Hn. apply Z.pow_pos_nonneg; lia. Qed.

Lemma pow2_S (j : nat) : 2 ^ Z.of_nat (S j) = 2 * 2 ^ Z.of_nat j.
Proof. rewrite Nat2Z.inj_succ. apply Z.pow_succ_r. lia. Qed.

Lemma pow2_level (D : Z) (h : nat) :
  Z.of_nat h <= D -> 2 ^ (D - Z.of_nat h) * 2 ^ Z.of_nat h = 2 ^ D.
Proof.
  intros Hh. rewrite <- Z.pow_add_r by lia. f_equal. lia.
Qed.

Lemma at_level_children (D : Z) (j : nat) (m : Z) :
  at_level D (S j) m ->
  1 <= m /\ at_level D j (m * 2) /\ at_level D j (m * 2 + 1).
Proof.
  intros [Hh Hm].
  assert (Hq : 0 < 2 ^ (D - Z.of_nat (S j))) by (apply pow2_pos; lia).
  assert (E : 2 ^ (D - Z.of_nat j) = 2 * 2 ^ (D - Z.of_nat (S j))).
  { replace (D - Z.of_nat j) with (Z.succ (D - Z.of_nat (S j))) by lia.
    apply Z.pow_succ_r. lia. }
  unfold at_level. rewrite E. lia.
Qed.

Lemma node_lo_nonneg (D : Z) (h : nat) (m : Z) :
  at_level D h m -> 0 <= node_lo D h m /\ node_last D h m <= 2 ^ D.
Proof.
  intros [Hh Hm]. unfold node_last, node_lo.
  pose proof (pow2_level D h Hh) as E.
  pose proof (pow2_pos (Z.of_nat h) ltac:(lia)) as Hp. nia.
Qed.

Lemma node_children (D : Z) (j : nat) (m : Z) :
  at_level D (S j) m ->
  let mid := node_last D (S j) m - 2 ^ Z.of_nat j in
  node_first D j (m * 2) = node_first D (S j) m
  /\ node_last D j (m * 2) = mid
  /\ node_first D j (m * 2 + 1) = mid
  /\ node_last D j (m * 2 + 1) = node_last D (S j) m
  /\ node_first D (S j) m <= mid - 2 ^ Z.of_nat j + 1
  /\ mid - 2 ^ Z.of_nat j <= node_first D (S j) m
  /\ 1 <= mid.
Proof.
  intros Hlev. destruct (node_lo_nonneg D (S j) m Hlev) as [Hlo _].
  cbv zeta. unfold node_first, node_last, node_lo in *.
  rewrite pow2_S in *. pose proof (pow2_pos (Z.of_nat j) ltac:(lia)) as Hp.
  repeat split; lia.
Qed.

(** *** The colour of a leaf *)

Lemma entry_set_color (pal : Palette.t) (i : Z) (col : Z * Z * Z) (c e : Z) :
  pal_wf pal -> 0 <= i < 256 -> 0 <= e ->
  entry (set_color pal i col) c e
  = if e =? i then u8 (comp3 col c) else entry pal c e.
Proof.
  intros ((Hr & _) & (Hg & _) & (Hb & _) & _) Hi He.
  destruct col as [[r g] b]. unfold entry, set_color, comp3.
  cbn [Palette.r Palette.g Palette.b].
  rewrite !rd_wr by lia. rewrite (Z.eqb_sym i e).
  destruct (e =? i), (c =? 0), (c =? 1); reflexivity.
Qed.

Lemma darkest_bounds (image : list Z) (off n c lo hi : Z) :
  1 <= n -> 0 <= c <= 2 -> hi <= 255 ->
  (forall j, 0 <= j < n -> lo <= pixat image off j c <= hi) ->
  lo <= comp3 (find_darkest_color image off n) c <= hi.
Proof.
  intros Hn Hc Hhi Hb. unfold find_darkest_color.
  rewrite find_darkest_color_channels.
  assert (Hm : lo <= for_pure (Z.to_nat n) 0 (fun i m => Z.min m (pixat image off i c)) 255
               <= hi).
  { destruct (running_min (fun i => pixat image off i c) 255 (Z.to_nat n))
      as (H1 & H2 & H3).
    rewrite Z2Nat.id in H2, H3 by lia.
    specialize (H2 0 ltac:(lia)). specialize (Hb 0 ltac:(lia)) as Hb0.
    destruct H3 as [E|(i & Hi & E)]; [lia|]. specialize (Hb i Hi). lia. }
  unfold comp3, RED, GREEN, BLUE in *.
  assert (Hc' : c = 0 \/ c = 1 \/ c = 2) by lia.
  destruct Hc' as [->|[->| ->]]; exact Hm.
Qed.

Lemma lightest_bounds (image : list Z) (off n c lo hi : Z) :
  1 <= n -> 0 <= c <= 2 -> 0 <= lo ->
  (forall j, 0 <= j < n -> lo <= pixat image off j c <= hi) ->
  lo <= comp3 (find_lightest_color image off n) c <= hi.
Proof.
  intros Hn Hc Hlo Hb. unfold find_lightest_color.
  rewrite find_lightest_color_channels.
  assert (Hm : lo <= for_pure (Z.to_nat n) 0 (fun i m => Z.max m (pixat image off i c)) 0
               <= hi).
  { destruct (running_max (fun i => pixat image off i c) 0 (Z.to_nat n))
      as (H1 & H2 & H3).
    rewrite Z2Nat.id in H2, H3 by lia.
    specialize (H2 0 ltac:(lia)). specialize (Hb 0 ltac:(lia)) as Hb0.
    destruct H3 as [E|(i & Hi & E)]; [lia|]. specialize (Hb i Hi). lia. }
  unfold comp3, RED, GREEN, BLUE in *.
  assert (Hc' : c = 0 \/ c = 1 \/ c = 2) by lia.
  destruct Hc' as [->|[->| ->]]; exact Hm.
Qed.

Lemma average_bounds (image : list Z) (off n c lo hi : Z) :
  1 <= n -> 0 <= c <= 2 -> 0 <= lo -> hi <= 255 ->
  (forall j, 0 <= j < n -> lo <= pixat image off j c <= hi) ->
  lo <= comp3 (find_subcube_average image off n) c <= hi.
Proof.
  intros Hn Hc Hlo Hhi Hb. unfold find_subcube_average.
  rewrite find_subcube_average_channels.
  assert (Hm : lo <= u32 ((for_pure (Z.to_nat n) 0
                             (fun i s => s + pixat image off i c) 0 + n / 2) / n)
               <= hi).
  { pose proof (running_sum (fun i => pixat image off i c) lo hi (Z.to_nat n)) as Hs.
    rewrite Z2Nat.id in Hs by lia. specialize (Hs Hb).
    pose proof (rounded_mean_between _ n lo hi ltac:(lia) Hs) as Hmean.
    unfold u32. rewrite Z.mod_small; [exact Hmean|].
    assert (2 ^ 32 > 255) by reflexivity. lia. }
  unfold comp3, RED, GREEN, BLUE in *.
  assert (Hc' : c = 0 \/ c = 1 \/ c = 2) by lia.
  destruct Hc' as [->|[->| ->]]; exact Hm.
Qed.

(** *** The inner nodes below a node *)

Lemma below_range :
  forall (h : nat) (m x : Z),
    1 <= m -> below h m x ->
    exists d : nat, (d < h)%nat
      /\ m * 2 ^ Z.of_nat d <= x < (m + 1) * 2 ^ Z.of_nat d.
Proof.
  induction h as [|h IH]; intros m x Hm Hb; [destruct Hb|].
  cbn [below] in Hb. destruct Hb as [->|[Hb|Hb]].
  - exists O. split; [lia|]. simpl. lia.
  - destruct (IH (m * 2) x ltac:(lia) Hb) as (d & Hd & Hx).
    exists (S d). split; [lia|]. rewrite pow2_S. lia.
  - destruct (IH (m * 2 + 1) x ltac:(lia) Hb) as (d & Hd & Hx).
    exists (S d). split; [lia|]. rewrite pow2_S.
    pose proof (pow2_pos (Z.of_nat d) ltac:(lia)). lia.
Qed.

Lemma pow2_mono (a b : nat) : (a <= b)%nat -> 2 ^ Z.of_nat a <= 2 ^ Z.of_nat b.
Proof. intros H. apply Z.pow_le_mono_r; lia. Qed.

(** A node is not below its children, and the subtrees of two siblings
    share no node. *)
Lemma below_disjoint (h : nat) (m x : Z) :
  1 <= m ->
  (below h (m * 2) x -> x <> m /\ ~ below h (m * 2 + 1) x)
  /\ (below h (m * 2 + 1) x -> x <> m).
Proof.
  intros Hm. split.
  - intros Hl. destruct (below_range h (m * 2) x ltac:(lia) Hl) as (d & Hd & Hx).
    pose proof (pow2_pos (Z.of_nat d) ltac:(lia)) as Hp.
    split; [nia|].
    intros Hr. destruct (below_range h (m * 2 + 1) x ltac:(lia) Hr) as (d' & Hd' & Hx').
    pose proof (pow2_pos (Z.of_nat d') ltac:(lia)) as Hp'.
    destruct (Nat.lt_trichotomy d d') as [Hlt|[->|Hgt]].
    + pose proof (pow2_mono (S d) d' ltac:(lia)) as Hmono. rewrite pow2_S in Hmono. nia.
    + nia.
    + pose proof (pow2_mono (S d') d ltac:(lia)) as Hmono. rewrite pow2_S in Hmono. nia.
  - intros Hr. destruct (below_range h (m * 2 + 1) x ltac:(lia) Hr) as (d & Hd & Hx).
    pose proof (pow2_pos (Z.of_nat d) ltac:(lia)) as Hp. nia.
Qed.

Lemma kd_frame :
  forall (h : nat) (m : Z) (pal pal' : Palette.t),
    at_level (Palette.bit_depth pal) h m ->
    Palette.bit_depth pal' = Palette.bit_depth pal ->
    (forall c e, node_first (Palette.bit_depth pal) h m <= e
                 < node_last (Palette.bit_depth pal) h m ->
                 entry pal' c e = entry pal c e) ->
    (forall x, below h m x ->
               rd (Palette.tree_split_elt pal') x = rd (Palette.tree_split_elt pal) x
               /\ rd (Palette.tree_split pal') x = rd (Palette.tree_split pal) x) ->
    kd pal h m -> kd pal' h m.
Proof.
  induction h as [|j IH]; intros m pal pal' Hlev HD Hent Htree Hkd; [exact I|].
  cbn [kd] in *. rewrite HD.
  destruct (node_children _ j m Hlev) as (C1 & C2 & C3 & C4 & C5 & C6 & C7).
  destruct (at_level_children _ j m Hlev) as (Hm & Hl & Hr).
  cbv zeta in C1, C2, C3, C4, C5, C6.
  pose proof (pow2_pos (Z.of_nat j) ltac:(lia)) as Hp.
  destruct Hkd as (Hnode & Hkl & Hkr).
  split; [|split].
  - destruct Hnode as [Hsmall|(Hc & Hle & Hge)]; [left; exact Hsmall|right].
    cbv zeta in *.
    destruct (Htree m) as [-> ->]; [cbn [below]; auto|].
    split; [exact Hc|]. split.
    + intros e He. rewrite Hent by lia. apply Hle. exact He.
    + intros e He. rewrite Hent by lia. apply Hge. exact He.
  - apply (IH (m * 2) pal pal' Hl HD); [| |exact Hkl].
    + intros c e He. apply Hent. rewrite C1, C2 in He. lia.
    + intros x Hx. apply Htree. cbn [below]. auto.
  - apply (IH (m * 2 + 1) pal pal' Hr HD); [| |exact Hkr].
    + intros c e He. apply Hent. rewrite C3, C4 in He. lia.
    + intros x Hx. apply Htree. cbn [below]. auto.
Qed.

Lemma split_axis_range (image : list Z) (off n : Z) : 0 <= split_axis image off n <= 2.
Proof.
  unfold split_axis. destruct (find_largest_range image off n) as [[r g] b].
  destruct (_ && _); [lia|]. destruct (_ >? _); lia.
Qed.

Lemma sub_pixels_bounds (n L Ll : Z) :
  1 <= Ll < L -> L <= n ->
  Ll <= n * Ll / L < n /\ L - Ll <= n - n * Ll / L.
Proof.
  intros HL Hn. set (a := n * Ll / L).
  assert (H1 : Ll <= a).
  { unfold a. apply Z.div_le_lower_bound; nia. }
  assert (H2 : a < n).
  { unfold a. apply Z.div_lt_upper_bound; nia. }
  assert (H3 : L * a <= n * Ll).
  { unfold a. apply Z.mul_div_le. lia. }
  split; [lia|]. nia.
Qed.

Lemma pixat_shift (image : list Z) (off a j c : Z) :
  pixat image (off + a * 4) j c = pixat image off (a + j) c.
Proof. unfold pixat, pixidx. f_equal. lia. Qed.

Lemma quads_shift (image : list Z) (off a b : Z) :
  quads image (off + a * 4) 0 b = quads image off a (a + b).
Proof.
  unfold quads. replace (a + b - a) with (b - 0) by lia.
  transitivity (quad image off <$> (Z.add a <$> seqZ 0 (b - 0))).
  - rewrite <- list_fmap_compose. apply list_fmap_ext. intros i j _. cbn.
    unfold quad. rewrite !pixat_shift. reflexivity.
  - rewrite fmap_add_seqZ. replace (a + 0) with a by lia. reflexivity.
Qed.

Lemma split_unfold (fuel : nat) (pal : Palette.t) (image : list Z)
    (off n first last selt dist m : Z) (dither : bool) :
  first + 1 < last -> n <> 0 ->
  split (S fuel) pal image off n first last selt dist m dither
  = let com := split_axis image off n in
    let a := usize (n * usize (selt - first)) / usize (last - first) in
    let* image1 := partition_by_median (S (Z.to_nat n)) image off 0 n com a in
    let pal2 := set_tree_split (set_tree_split_elt pal m com) m
                  (rd image1 (off + (a * 4 + com))) in
    let* (pal3, image2) :=
      split fuel pal2 image1 off a first selt (usize (selt - dist)) (dist / 2)
        (m * 2) dither in
    split fuel pal3 image2 (off + a * 4) (usize (n - a)) selt last
      (usize (selt + dist)) (dist / 2) (m * 2 + 1) dither.
Proof.
  intros Hrange Hn. cbn [split].
  destruct (Z.leb_spec last first) as [|_]; [lia|].
  destruct (Z.eqb_spec n 0) as [|_]; [lia|]. cbn [orb].
  destruct (Z.eqb_spec last (first + 1)) as [|_]; [lia|].
  unfold split_axis. destruct (find_largest_range image off n) as [[r g] b].
  cbv zeta.
  destruct ((r >? b) && (r >? g)), (b >? g); reflexivity.
Qed.

(** *** One call of [split] *)

Lemma split_leaf (fuel : nat) (pal : Palette.t) (image : list Z)
    (off n first selt dist m : Z) (dither : bool) :
  1 <= n ->
  exists col,
    split (S fuel) pal image off n first (first + 1) selt dist m dither
    = Ok (set_color pal first col, image)
    /\ forall c lo hi, 0 <= c <= 2 -> 0 <= lo -> hi <= 255 ->
         (forall j, 0 <= j < n -> lo <= pixat image off j c <= hi) ->
         lo <= comp3 col c <= hi.
Proof.
  intros Hn. cbn [split].
  destruct (Z.leb_spec (first + 1) first) as [|_]; [lia|].
  destruct (Z.eqb_spec n 0) as [|_]; [lia|]. cbn [orb].
  rewrite Z.eqb_refl.
  destruct (dither && (first =? 1)).
  { eexists. split; [reflexivity|]. intros c lo hi Hc Hlo Hhi Hb.
    apply darkest_bounds; assumption. }
  destruct (dither && (first =? Z.shiftl 1 (Palette.bit_depth pal) - 1)).
  { eexists. split; [reflexivity|]. intros c lo hi Hc Hlo Hhi Hb.
    apply lightest_bounds; assumption. }
  eexists. split; [reflexivity|]. intros c lo hi Hc Hlo Hhi Hb.
  apply average_bounds; assumption.
Qed.

Lemma split_leaf_post (h : nat) (fuel : nat) (pal : Palette.t) (image : list Z)
    (off n first selt dist m : Z) (dither : bool) :
  1 <= n -> 1 <= first < 256 -> pal_wf pal -> rgb_bytes image off n ->
  (forall pal', Palette.bit_depth pal' = Palette.bit_depth pal -> kd pal' h m) ->
  exists pal' image',
    split (S fuel) pal image off n first (first + 1) selt dist m dither
    = Ok (pal', image')
    /\ split_post h m pal image off n first (first + 1) pal' image'.
Proof.
  intros Hn Hfirst Hwf Hbytes Hkd.
  destruct (split_leaf fuel pal image off n first selt dist m dither Hn)
    as (col & Hrun & Hcol).
  exists (set_color pal first col), image. split; [exact Hrun|].
  unfold split_post.
  split; [reflexivity|]. split; [reflexivity|]. split; [auto|].
  split; [apply set_color_wf; exact Hwf|].
  split; [apply set_color_depth|].
  split.
  { intros c e He Hout. rewrite entry_set_color by (assumption || lia).
    destruct (Z.eqb_spec e first); [lia|reflexivity]. }
  split.
  { intros x Hx _. destruct col as [[cr cg] cb]. split; reflexivity. }
  split; [|apply Hkd, set_color_depth].
  intros c lo hi Hc Hb e He. assert (e = first) by lia. subst e.
  rewrite entry_set_color by (assumption || lia). rewrite Z.eqb_refl.
  assert (Hin : Z.max lo 0 <= comp3 col c <= Z.min hi 255).
  { apply Hcol; [exact Hc|lia|lia|].
    intros j Hj. specialize (Hb j Hj). specialize (Hbytes j c Hj Hc). lia. }
  rewrite u8_byte by lia. lia.
Qed.

Lemma set_tree_entry (pal : Palette.t) (m com v c e : Z) :
  entry (set_tree_split (set_tree_split_elt pal m com) m v) c e = entry pal c e.
Proof. reflexivity. Qed.

Lemma set_tree_rd (pal : Palette.t) (m com v x : Z) :
  pal_wf pal -> 0 <= m < 256 -> 0 <= x ->
  let pal2 := set_tree_split (set_tree_split_elt pal m com) m v in
  rd (Palette.tree_split_elt pal2) x
  = (if x =? m then u8 com else rd (Palette.tree_split_elt pal) x)
  /\ rd (Palette.tree_split pal2) x
     = (if x =? m then u8 v else rd (Palette.tree_split pal) x).
Proof.
  intros (_ & _ & _ & (He & _) & (Hs & _)) Hm Hx. cbv zeta.
  unfold set_tree_split, set_tree_split_elt.
  cbn [Palette.tree_split_elt Palette.tree_split].
  rewrite !rd_wr by lia. rewrite (Z.eqb_sym m x). split; reflexivity.
Qed.

Lemma rgb_bytes_perm (image image' : list Z) (off n : Z) :
  quads image' off 0 n ≡ₚ quads image off 0 n ->
  rgb_bytes image off n -> rgb_bytes image' off n.
Proof.
  intros Hperm Hb i c Hi Hc.
  apply (bound_perm image image' off 0 n c (fun v => 0 <= v <= 255));
    [lia|exact Hperm| |exact Hi].
  intros j Hj. apply Hb; assumption.
Qed.

Lemma split_spec :
  forall (h fuel : nat) (pal : Palette.t) (image : list Z)
         (off n first last selt dist m : Z) (dither : bool),
    (h < fuel)%nat ->
    1 <= Palette.bit_depth pal <= 8 -> pal_wf pal ->
    at_level (Palette.bit_depth pal) h m ->
    first = node_first (Palette.bit_depth pal) h m ->
    last = node_last (Palette.bit_depth pal) h m ->
    (forall j, h = S j -> selt = last - 2 ^ Z.of_nat j /\ dist = 2 ^ Z.of_nat j / 2) ->
    0 <= off -> last - first <= n -> 0 <= n < 2 ^ 48 ->
    off + 4 * n <= Z.of_nat (length image) ->
    rgb_bytes image off n ->
    exists pal' image',
      split fuel pal image off n first last selt dist m dither = Ok (pal', image')
      /\ split_post h m pal image off n first last pal' image'.
Proof.
  induction h as [|j IH];
    intros fuel pal image off n first last selt dist m dither
      Hfuel HD Hwf Hlev Hfirst Hlast Hargs Hoff Hn Hn48 Hlen Hbytes;
    (destruct fuel as [|fuel]; [lia|]).
  - (* a leaf of the heap *)
    destruct (node_lo_nonneg _ 0 m Hlev) as [Hlo Hhi].
    assert (H256 : 2 ^ Palette.bit_depth pal <= 256).
    { change 256 with (2 ^ 8). apply Z.pow_le_mono_r; lia. }
    unfold node_first, node_last in *. change (2 ^ Z.of_nat 0) with 1 in *.
    destruct (decide (node_lo (Palette.bit_depth pal) 0 m = 0)) as [E0|N0].
    + (* the transparency slot: no entry *)
      exists pal, image. subst first last. rewrite E0. cbn [split].
      split; [reflexivity|]. unfold split_post.
      split; [reflexivity|]. split; [reflexivity|]. split; [auto|].
      split; [exact Hwf|]. split; [reflexivity|]. split; [auto|]. split; [auto|].
      split; [intros; lia|exact I].
    + replace last with (first + 1) in * by lia.
      apply split_leaf_post; try assumption; try lia. intros; exact I.
  - destruct (node_lo_nonneg _ (S j) m Hlev) as [Hlo Hhi].
    assert (H256 : 2 ^ Palette.bit_depth pal <= 256).
    { change 256 with (2 ^ 8). apply Z.pow_le_mono_r; lia. }
    destruct (node_children _ j m Hlev) as (C1 & C2 & C3 & C4 & C5 & C6 & C7).
    destruct (at_level_children _ j m Hlev) as (Hm & Hl & Hr).
    cbv zeta in C1, C2, C3, C4, C5, C6, C7.
    pose proof (pow2_pos (Z.of_nat j) ltac:(lia)) as Hp.
    destruct (Hargs j eq_refl) as [Hselt Hdist].
    set (D := Palette.bit_depth pal) in *.
    assert (Hm256 : m < 256).
    { destruct Hlev as [Hh Hm2]. fold D in Hm2, Hh.
      assert (2 * 2 ^ (D - Z.of_nat (S j)) <= 2 ^ D); [|lia].
      replace (2 * 2 ^ (D - Z.of_nat (S j))) with (2 ^ (D - Z.of_nat j)).
      - apply Z.pow_le_mono_r; lia.
      - replace (D - Z.of_nat j) with (Z.succ (D - Z.of_nat (S j))) by lia.
        apply Z.pow_succ_r. lia. }
    destruct (decide (last = first + 1)) as [Eleaf|Ninner].
    + (* the node above the transparency slot is a leaf for [split] *)
      rewrite Eleaf. apply split_leaf_post; try assumption; try lia.
      intros pal' HD'.
      assert (Hj0 : j = O).
      { destruct j as [|j']; [reflexivity|exfalso].
        rewrite pow2_S in *. pose proof (pow2_pos (Z.of_nat j') ltac:(lia)).
        unfold node_first, node_last in *. lia. }
      subst j. cbn [kd]. rewrite HD'. fold D. split; [|auto].
      left. lia.
    + (* an inner node *)
      assert (Hrange : first + 1 < last).
      { unfold node_first, node_last in *. rewrite pow2_S in *. lia. }
      rewrite split_unfold by lia.
      set (com := split_axis image off n).
      pose proof (split_axis_range image off n) as Hcom. fold com in Hcom.
      assert (Hu1 : usize (selt - first) = selt - first) by (apply usize_small; lia).
      assert (Hu2 : usize (last - first) = last - first) by (apply usize_small; lia).
      assert (H48 : 2 ^ 48 * 256 < 2 ^ 64) by reflexivity.
      assert (Hu3 : usize (n * (selt - first)) = n * (selt - first))
        by (apply usize_small; nia).
      cbv zeta. rewrite Hu1, Hu2, Hu3.
      destruct (sub_pixels_bounds n (last - first) (selt - first) ltac:(lia) ltac:(lia))
        as [Ha Hb].
      set (a := n * (selt - first) / (last - first)) in *.
      assert (Hu4 : usize (n - a) = n - a) by (apply usize_small; lia).
      rewrite Hu4.
      (* the pixels are cut at the median *)
      destruct (partition_by_median_spec (S (Z.to_nat n)) image off 0 n com a)
        as (image1 & Hpbm & Hsel); try lia.
      rewrite Hpbm. cbn [bind].
      destruct Hsel as (Hlen1 & Hlow1 & Hhigh1 & Hperm1 & Hframe1).
      assert (Hbytes1 : rgb_bytes image1 off n)
        by (apply (rgb_bytes_perm image); assumption).
      change (rd image1 (off + (a * 4 + com))) with (pixat image1 off a com).
      set (v := pixat image1 off a com).
      assert (Hv : 0 <= v <= 255) by (apply Hbytes1; lia).
      set (pal2 := set_tree_split (set_tree_split_elt pal m com) m v).
      assert (Hwf2 : pal_wf pal2)
        by (apply set_tree_split_wf, set_tree_split_elt_wf, Hwf).
      assert (HD2 : Palette.bit_depth pal2 = D) by reflexivity.
      assert (Hmid : selt = last - 2 ^ Z.of_nat j) by exact Hselt.
      assert (Hargs' : forall j', j = S j' ->
                2 ^ Z.of_nat j' <= selt /\ dist = 2 ^ Z.of_nat j'
                /\ dist / 2 = 2 ^ Z.of_nat j' / 2
                /\ selt + dist = last - 2 ^ Z.of_nat j').
      { intros j' ->. rewrite pow2_S in *.
        pose proof (pow2_pos (Z.of_nat j') ltac:(lia)) as Hp'.
        assert (dist = 2 ^ Z.of_nat j').
        { rewrite Hdist. rewrite Z.mul_comm. apply Z.div_mul. lia. }
        unfold node_first, node_last in *. repeat split; try lia. congruence. }
      (* the left half *)
      destruct (IH fuel pal2 image1 off a first selt (usize (selt - dist)) (dist / 2)
                  (m * 2) dither) as (pal3 & image2 & Hleft & Hpost2).
      { lia. } { rewrite HD2. lia. } { exact Hwf2. } { rewrite HD2. exact Hl. }
      { rewrite HD2, C1. exact Hfirst. }
      { rewrite HD2, C2. lia. }
      { intros j' Ej. destruct (Hargs' j' Ej) as (H1 & H2 & H3 & H4).
        rewrite usize_small by lia. split; [lia|exact H3]. }
      { exact Hoff. } { lia. } { lia. } { lia. }
      { intros i c Hi Hc. apply Hbytes1; lia. }
      rewrite Hleft. cbn [bind].
      destruct Hpost2 as (Hlen2 & Hperm2 & Hframe2 & Hwf3 & HD3 & Hent3 & Htree3
                          & Hbnd3 & Hkd3).
      rewrite HD2 in HD3.
      assert (Hpix2 : forall i c, a <= i < n -> 0 <= c <= 3 ->
                pixat image2 off i c = pixat image1 off i c).
      { intros i c Hi Hc. unfold pixat, pixidx. apply Hframe2; lia. }
      (* the right half *)
      destruct (IH fuel pal3 image2 (off + a * 4) (n - a) selt last
                  (usize (selt + dist)) (dist / 2) (m * 2 + 1) dither)
        as (pal4 & image3 & Hright & Hpost3).
      { lia. } { rewrite HD3. lia. } { exact Hwf3. } { rewrite HD3. exact Hr. }
      { rewrite HD3, C3. lia. }
      { rewrite HD3, C4. exact Hlast. }
      { intros j' Ej. destruct (Hargs' j' Ej) as (H1 & H2 & H3 & H4).
        rewrite usize_small by lia. split; [lia|exact H3]. }
      { lia. } { lia. } { lia. } { lia. }
      { intros i c Hi Hc. rewrite pixat_shift, Hpix2 by lia. apply Hbytes1; lia. }
      rewrite Hright. exists pal4, image3. split; [reflexivity|].
      destruct Hpost3 as (Hlen3 & Hperm3 & Hframe3 & Hwf4 & HD4 & Hent4 & Htree4
                          & Hbnd4 & Hkd4).
      rewrite HD3 in HD4.
      assert (Hpix3 : forall i c, 0 <= i < a -> 0 <= c <= 3 ->
                pixat image3 off i c = pixat image2 off i c).
      { intros i c Hi Hc. unfold pixat, pixidx. apply Hframe3; lia. }
      assert (Hf1 : 1 <= first) by (rewrite Hfirst; unfold node_first; lia).
      assert (Hnot_m : forall x, below j (m * 2) x \/ below j (m * 2 + 1) x -> x <> m).
      { intros x [Hx|Hx].
        - exact (proj1 (proj1 (below_disjoint j m x Hm) Hx)).
        - exact (proj2 (below_disjoint j m x Hm) Hx). }
      assert (Hnode : rd (Palette.tree_split_elt pal4) m = com
                      /\ rd (Palette.tree_split pal4) m = v).
      { destruct (Htree4 m ltac:(lia)) as [-> ->].
        { intros Hx. apply (Hnot_m m); auto. }
        destruct (Htree3 m ltac:(lia)) as [-> ->].
        { intros Hx. apply (Hnot_m m); auto. }
        destruct (set_tree_rd pal m com v m Hwf ltac:(lia) ltac:(lia)) as [E1 E2].
        fold pal2 in E1, E2. rewrite E1, E2, Z.eqb_refl, !u8_byte by lia. auto. }
      assert (Hbnd : forall c lo hi, 0 <= c <= 2 ->
                (forall i, 0 <= i < n -> lo <= pixat image1 off i c <= hi) ->
                forall e, first <= e < last -> lo <= entry pal4 c e <= hi).
      { intros c lo hi Hc Hb1 e He.
        destruct (Z.lt_ge_cases e selt) as [Hes|Hes].
        - rewrite Hent4 by lia. apply (Hbnd3 c lo hi Hc); [|lia].
          intros i Hi. apply Hb1. lia.
        - apply (Hbnd4 c lo hi Hc); [|lia].
          intros i Hi. rewrite pixat_shift, Hpix2 by lia. apply Hb1. lia. }
      unfold split_post.
      split; [congruence|]. split.
      { rewrite <- Hperm1.
        rewrite (quads_app image3 off 0 a n), (quads_app image1 off 0 a n) by lia.
        apply Permutation_app.
        - rewrite <- Hperm2. apply Permutation_refl'.
          apply quads_ext; [lia|lia|]. intros k Hk. apply Hframe3; lia.
        - replace n with (a + (n - a)) at 1 2 by lia.
          rewrite <- !quads_shift. rewrite Hperm3. apply Permutation_refl'.
          apply quads_ext; [lia|lia|]. intros k Hk. apply Hframe2; lia. }
      split.
      { intros k Hk Hout. rewrite Hframe3, Hframe2 by lia. apply Hframe1; lia. }
      split; [exact Hwf4|]. split; [exact HD4|]. split.
      { intros c e He Hout. rewrite Hent4, Hent3 by lia. apply set_tree_entry. }
      split.
      { intros x Hx Hnb. cbn [below] in Hnb.
        destruct (Htree4 x Hx) as [-> ->]; [tauto|].
        destruct (Htree3 x Hx) as [-> ->]; [tauto|].
        destruct (set_tree_rd pal m com v x Hwf ltac:(lia) Hx) as [E1 E2].
        fold pal2 in E1, E2. rewrite E1, E2.
        destruct (Z.eqb_spec x m) as [->|_]; [tauto|auto]. }
      split.
      { intros c lo hi Hc Hb0. apply Hbnd; [exact Hc|].
        apply (bound_perm image image1 off 0 n c (fun v => lo <= v <= hi));
          [lia|exact Hperm1|exact Hb0]. }
      cbn [kd]. rewrite HD4. fold D. rewrite <- Hfirst, <- Hlast, <- Hmid.
      destruct Hnode as [-> ->].
      split; [|split].
      * right. cbv zeta. split; [exact Hcom|]. split.
        -- intros e He. rewrite Hent4 by lia.
           apply (Hbnd3 com 0 v Hcom); [|lia].
           intros i Hi. split; [apply Hbytes1; lia|apply Hlow1; lia].
        -- intros e He. apply (Hbnd4 com v 255 Hcom); [|lia].
           intros i Hi. rewrite pixat_shift, Hpix2 by lia.
           split; [|apply Hbytes1; lia].
           destruct (Z.eq_dec i 0) as [->|Hi0].
           ++ rewrite Z.add_0_r. fold v. lia.
           ++ apply Hhigh1. lia.
      * apply (kd_frame j (m * 2) pal3 pal4).
        -- rewrite HD3. exact Hl.
        -- congruence.
        -- intros c e He. rewrite HD3, C1, C2 in He. apply Hent4; lia.
        -- intros x Hx.
           destruct (below_range j (m * 2) x ltac:(lia) Hx) as (d & Hd & Hxr).
           pose proof (pow2_pos (Z.of_nat d) ltac:(lia)) as Hpd.
           apply Htree4; [nia|].
           exact (proj2 (proj1 (below_disjoint j m x Hm) Hx)).
        -- exact Hkd3.
      * exact Hkd4.
Qed.

(** *** The query on a search tree *)

Section Nearest.
Variable pal : Palette.t.
Variables r g b : Z.

Local Abbreviation D := (Palette.bit_depth pal).

Lemma improves_le (b1 b2 : Z * Z) : improves pal r g b b1 b2 -> snd b2 <= snd b1.
Proof. intros [->|H]; lia. Qed.

Lemma leaf_diff_channel (c q e : Z) :
  comps r g b c = Ok q -> Z.abs (q - entry pal c e) <= leaf_diff pal r g b e.
Proof.
  unfold comps, entry, leaf_diff.
  destruct (c =? 0); [intros [= <-]; lia|].
  destruct (c =? 1); [intros [= <-]; lia|].
  destruct (c =? 2); [intros [= <-]; lia|discriminate].
Qed.

Lemma closest_exact :
  forall (h fuel : nat) (m : Z) (best : Z * Z),
    (h < fuel)%nat -> at_level D h m -> search_tree pal h m ->
    exists best',
      get_closest_pallete_color fuel pal r g b best m = Ok best'
      /\ improves pal r g b best best'
      /\ forall e, node_first D h m <= e < node_last D h m ->
                   snd best' <= leaf_diff pal r g b e.
Proof.
  induction h as [|j IH]; intros fuel m best Hfuel Hlev Htree.
  - destruct fuel as [|fuel]; [lia|].
    destruct Hlev as [HD Hm]. rewrite Z.sub_0_r in Hm.
    rewrite closest_leaf by lia.
    unfold node_first, node_last, node_lo. rewrite Z.pow_0_r, Z.mul_1_r.
    destruct (Z.eqb_spec m (2 ^ D)) as [->|Hne].
    { exists best. split; [reflexivity|]. split; [left; reflexivity|]. intros e He. lia. }
    destruct (Z.ltb_spec (leaf_diff pal r g b (m - 2 ^ D)) (snd best)) as [Hlt|Hge].
    + eexists. split; [reflexivity|]. split.
      * right. cbn [fst snd]. lia.
      * intros e He. replace e with (m - 2 ^ D) by lia. cbn [snd]. lia.
    + exists best. split; [reflexivity|]. split; [left; reflexivity|].
      intros e He. replace e with (m - 2 ^ D) by lia. lia.
  - destruct fuel as [|fuel]; [lia|].
    destruct (node_children D j m Hlev) as (C1 & C2 & C3 & C4 & C5 & C6 & C7).
    destruct (at_level_children D j m Hlev) as (Hm1 & Hl & Hr).
    pose proof (pow2_level D (S j) (proj1 Hlev)) as Hpow.
    pose proof (pow2_pos (Z.of_nat j) ltac:(lia)) as Hp.
    cbn [search_tree] in Htree. cbv zeta in Htree.
    destruct Htree as (Hc & Hleft & Hright & Hkl & Hkr).
    assert (Hnode : m < 2 ^ D).
    { destruct Hlev as [HD Hm]. rewrite pow2_S in Hpow.
      pose proof (pow2_pos (D - Z.of_nat (S j)) ltac:(lia)). nia. }
    rewrite closest_node by exact Hnode.
    destruct (comps_ok r g b _ Hc) as [q Hq]. rewrite Hq. cbn [bind]. cbv zeta.
    set (v := rd (Palette.tree_split pal) m) in *.
    set (c := rd (Palette.tree_split_elt pal) m) in *.
    destruct (Z.gtb_spec v q) as [Hgt|Hle].
    + destruct (IH fuel (m * 2) best ltac:(lia) Hl Hkl) as (b1 & H1 & I1 & M1).
      rewrite H1. cbn [bind].
      destruct (Z.gtb_spec (snd b1) (v - q)) as [Hfar|Hnear].
      * destruct (IH fuel (m * 2 + 1) b1 ltac:(lia) Hr Hkr) as (b2 & H2 & I2 & M2).
        exists b2. split; [exact H2|]. split; [eapply improves_trans; eassumption|].
        intros e He. destruct (Z.lt_ge_cases e (node_last D (S j) m - 2 ^ Z.of_nat j)).
        -- pose proof (improves_le _ _ I2). specialize (M1 e ltac:(lia)). lia.
        -- apply M2. lia.
      * exists b1. split; [reflexivity|]. split; [exact I1|].
        intros e He. destruct (Z.lt_ge_cases e (node_last D (S j) m - 2 ^ Z.of_nat j)).
        -- apply M1. lia.
        -- pose proof (leaf_diff_channel c q e Hq). specialize (Hright e ltac:(lia)). lia.
    + destruct (IH fuel (m * 2 + 1) best ltac:(lia) Hr Hkr) as (b1 & H1 & I1 & M1).
      rewrite H1. cbn [bind].
      destruct (Z.gtb_spec (snd b1) (q - v)) as [Hfar|Hnear].
      * destruct (IH fuel (m * 2) b1 ltac:(lia) Hl Hkl) as (b2 & H2 & I2 & M2).
        exists b2. split; [exact H2|]. split; [eapply improves_trans; eassumption|].
        intros e He. destruct (Z.lt_ge_cases e (node_last D (S j) m - 2 ^ Z.of_nat j)).
        -- apply M2. lia.
        -- pose proof (improves_le _ _ I2). specialize (M1 e ltac:(lia)). lia.
      * exists b1. split; [reflexivity|]. split; [exact I1|].
        intros e He. destruct (Z.lt_ge_cases e (node_last D (S j) m - 2 ^ Z.of_nat j)).
        -- pose proof (leaf_diff_channel c q e Hq). specialize (Hleft e ltac:(lia)). lia.
        -- apply M1. lia.
Qed.

Lemma closest_from_root_exact (best_ind : Z) :
  1 <= D -> search_tree pal (Z.to_nat D) 1 ->
  (exists e, 1 <= e < 2 ^ D /\ leaf_diff pal r g b e < 1000000) ->
  exists ind diff,
    closest_from_root pal r g b best_ind = Ok (ind, diff)
    /\ 1 <= ind < 2 ^ D
    /\ diff = leaf_diff pal r g b ind
    /\ forall e, 1 <= e < 2 ^ D -> diff <= leaf_diff pal r g b e.
Proof.
  intros HD Htree (e0 & He0 & Hnear).
  assert (Hlev : at_level D (Z.to_nat D) 1).
  { unfold at_level. rewrite Z2Nat.id by lia. rewrite Z.sub_diag. simpl. lia. }
  destruct (closest_exact (Z.to_nat D) (S (Z.to_nat D)) 1 (best_ind, 1000000)
              ltac:(lia) Hlev Htree) as ([ind diff] & Hrun & Himp & Hmin).
  assert (Hrange : node_first D (Z.to_nat D) 1 = 1 /\ node_last D (Z.to_nat D) 1 = 2 ^ D).
  { unfold node_first, node_last, node_lo. rewrite Z2Nat.id by lia. lia. }
  destruct Hrange as [Hf Hl]. rewrite Hf, Hl in Hmin.
  exists ind, diff. split; [exact Hrun|].
  pose proof (Hmin e0 He0) as Hd0. cbn [snd] in Hd0.
  destruct Himp as [E|(Hi & Hs & Hd)].
  - injection E as -> ->. lia.
  - cbn [fst snd] in *. split; [lia|]. split; [exact Hd|].
    intros e He. exact (Hmin e He).
Qed.
End Nearest.

(** *** The constructor *)

Lemma rd_take (l : list Z) (k i : Z) :
  0 <= i < k -> rd (take (Z.to_nat k) l) i = rd l i.
Proof. intros Hi. unfold rd. rewrite lookup_take_lt by lia. reflexivity. Qed.

Lemma changed_pixels_ext (last_frame f1 f2 : list Z) (n : Z) :
  (forall k, 0 <= k < 4 * n -> rd f1 k = rd f2 k) ->
  changed_pixels last_frame f1 n = changed_pixels last_frame f2 n.
Proof.
  intros Hext. unfold changed_pixels.
  assert (H : Forall (fun i => same_rgb last_frame f1 i = same_rgb last_frame f2 i)
                (seqZ 0 n)).
  { apply Forall_seqZ. intros i Hi. unfold same_rgb. rewrite !Hext by lia. reflexivity. }
  induction H as [|i l Hi _ IH]; [reflexivity|].
  rewrite !filter_cons, IH, Hi. reflexivity.
Qed.

Lemma elem_of_changed_pixels (last_frame frame : list Z) (n i : Z) :
  i ∈ changed_pixels last_frame frame n -> 0 <= i < n.
Proof.
  unfold changed_pixels. intros H. apply list_elem_of_filter in H as [_ H].
  apply elem_of_seqZ in H. lia.
Qed.

(** The buffer [split] works on holds the colours of the input pixels. *)
Lemma palette_input_pixels (last_frame : option (list Z)) (next_frame : list Z) (n : Z) :
  0 <= n -> 4 * n <= Z.of_nat (length next_frame) ->
  let image := copy_image next_frame (4 * n) in
  let '(image', n') :=
    match last_frame with
    | Some last_frame => pick_changed_pixels last_frame image n
    | None => (image, n)
    end in
  n' = Z.of_nat (length (palette_input last_frame next_frame n))
  /\ 0 <= n' <= n
  /\ 4 * n <= Z.of_nat (length image')
  /\ forall i, 0 <= i < n' ->
       exists k, k ∈ palette_input last_frame next_frame n
                 /\ forall c, 0 <= c <= 2 -> pixat image' 0 i c = pixat next_frame 0 k c.
Proof.
  intros Hn Hlen. cbv zeta. unfold copy_image.
  set (image := take (Z.to_nat (4 * n)) next_frame).
  assert (Hli : Z.of_nat (length image) = 4 * n).
  { unfold image. rewrite length_take. lia. }
  assert (Hrd : forall k, 0 <= k < 4 * n -> rd image k = rd next_frame k).
  { intros k Hk. apply rd_take. exact Hk. }
  destruct last_frame as [last_frame|]; cbn [palette_input].
  - pose proof (pick_changed_pixels_spec last_frame image n Hn ltac:(lia)) as H.
    unfold pick_changed_pixels.
    destruct (for_pure (Z.to_nat n) 0 (pick_changed_body last_frame) (image, 0, 0))
      as [[image' wit] nc].
    destruct H as (Hl & Hwit & Hnc & Hcount & Hfront & Hrest & Halpha).
    rewrite (changed_pixels_ext last_frame image next_frame n Hrd) in Hcount, Hfront.
    split; [exact Hcount|]. split; [lia|]. split; [lia|].
    intros i Hi.
    assert (Hlk : (buffered image' <$> seqZ 0 nc) !! Z.to_nat i
                  = Some (buffered image' i)).
    { rewrite list_lookup_fmap, lookup_seqZ_lt by lia. cbn. f_equal. f_equal. lia. }
    rewrite Hfront, list_lookup_fmap in Hlk.
    destruct (changed_pixels last_frame next_frame n !! Z.to_nat i) as [k|] eqn:Ek;
      [|discriminate].
    cbn in Hlk. injection Hlk as H0 H1 H2.
    exists k. split; [eapply list_elem_of_lookup_2; exact Ek|].
    apply list_elem_of_lookup_2, elem_of_changed_pixels in Ek.
    intros c Hc. unfold pixat, pixidx.
    assert (Hcc : c = 0 \/ c = 1 \/ c = 2) by lia.
    destruct Hcc as [-> | [-> | ->]].
    + replace (0 + (i * 4 + 0)) with (4 * i) by lia.
      replace (0 + (k * 4 + 0)) with (4 * k) by lia.
      rewrite <- H0. apply Hrd. lia.
    + replace (0 + (i * 4 + 1)) with (4 * i + 1) by lia.
      replace (0 + (k * 4 + 1)) with (4 * k + 1) by lia.
      rewrite <- H1. apply Hrd. lia.
    + replace (0 + (i * 4 + 2)) with (4 * i + 2) by lia.
      replace (0 + (k * 4 + 2)) with (4 * k + 2) by lia.
      rewrite <- H2. apply Hrd. lia.
  - rewrite length_seqZ. split; [lia|]. split; [lia|]. split; [lia|].
    intros i Hi. exists i. split; [apply elem_of_seqZ; lia|].
    intros c Hc. unfold pixat, pixidx. apply Hrd. lia.
Qed.

Lemma finish_depth (pal : Palette.t) : Palette.bit_depth (finish pal) = Palette.bit_depth pal.
Proof. reflexivity. Qed.

Lemma finish_wf (pal : Palette.t) : pal_wf pal -> pal_wf (finish pal).
Proof.
  intros Hwf. unfold finish.
  apply set_color_wf, set_tree_split_elt_wf, set_tree_split_wf, Hwf.
Qed.

Lemma finish_entry (pal : Palette.t) (c e : Z) :
  pal_wf pal -> 1 <= e -> entry (finish pal) c e = entry pal c e.
Proof.
  intros Hwf He. unfold finish.
  rewrite entry_set_color
    by (try apply set_tree_split_elt_wf, set_tree_split_wf, Hwf; lia).
  destruct (Z.eqb_spec e 0); [lia|]. reflexivity.
Qed.

Lemma finish_tree (pal : Palette.t) (x : Z) :
  pal_wf pal -> 1 <= Palette.bit_depth pal <= 8 -> 0 <= x ->
  let p := 2 ^ (Palette.bit_depth pal - 1) in
  rd (Palette.tree_split_elt (finish pal)) x
  = (if x =? p then 0 else rd (Palette.tree_split_elt pal) x)
  /\ rd (Palette.tree_split (finish pal)) x
     = (if x =? p then 0 else rd (Palette.tree_split pal) x).
Proof.
  intros (_ & _ & _ & (He & _) & (Hs & _)) HD Hx. cbv zeta.
  unfold finish, set_color, set_tree_split, set_tree_split_elt.
  cbn [Palette.tree_split_elt Palette.tree_split Palette.bit_depth].
  rewrite Z.shiftl_1_l.
  assert (Hp : 0 < 2 ^ (Palette.bit_depth pal - 1) < 256).
  { split; [apply pow2_pos; lia|].
    apply (Z.lt_le_trans _ (2 ^ 8)); [|reflexivity].
    apply Z.pow_lt_mono_r; lia. }
  rewrite !rd_wr by lia. rewrite (Z.eqb_sym _ x).
  destruct (x =? _); split; reflexivity.
Qed.

Lemma kd_finish :
  forall (h : nat) (m : Z) (pal : Palette.t),
    pal_wf pal -> 1 <= Palette.bit_depth pal <= 8 ->
    at_level (Palette.bit_depth pal) h m ->
    kd pal h m -> search_tree (finish pal) h m.
Proof.
  induction h as [|j IH]; intros m pal Hwf HD Hlev Hkd; [exact I|].
  cbn [kd] in Hkd. cbv zeta in Hkd. destruct Hkd as (Hnode & Hkl & Hkr).
  cbn [search_tree]. cbv zeta. rewrite finish_depth.
  set (D := Palette.bit_depth pal) in *.
  destruct (node_children D j m Hlev) as (C1 & C2 & C3 & C4 & C5 & C6 & C7).
  destruct (at_level_children D j m Hlev) as (Hm1 & Hl & Hr).
  pose proof (pow2_pos (Z.of_nat j) ltac:(lia)) as Hp.
  assert (Hf1 : 1 <= node_first D (S j) m) by (unfold node_first; lia).
  destruct (finish_tree pal m Hwf HD ltac:(lia)) as [-> ->]. fold D.
  assert (Hsub : search_tree (finish pal) j (m * 2)
                 /\ search_tree (finish pal) j (m * 2 + 1)).
  { split; apply IH; assumption. }
  destruct (Z.eqb_spec m (2 ^ (D - 1))) as [Em|Nm].
  - (* the bottom node above the transparency slot *)
    assert (Ej : j = O).
    { destruct Hlev as [Hh [Hlo Hhi]].
      destruct j as [|j']; [reflexivity|]. exfalso.
      assert (2 * 2 ^ (D - Z.of_nat (S (S j'))) <= 2 ^ (D - 1)); [|lia].
      rewrite <- Z.pow_succ_r by lia. apply Z.pow_le_mono_r; lia. }
    subst j. 
    assert (Hlo : node_lo D 1 m = 0).
    { unfold node_lo. rewrite Em. change (2 ^ Z.of_nat 1) with 2.
      replace D with (Z.succ (D - 1)) at 2 by lia.
      rewrite Z.pow_succ_r by lia. lia. }
    unfold node_first, node_last in *. rewrite Hlo in *.
    change (2 ^ Z.of_nat 1) with 2 in *. change (2 ^ Z.of_nat 0) with 1 in *.
    split; [lia|]. split; [intros e He; lia|]. split; [|exact Hsub].
    intros e He. unfold entry.
    destruct (finish_wf pal Hwf) as ((_ & Br) & (_ & Bg) & (_ & Bb) & _).
    cbn [Z.eqb]. apply bytes_rd. exact Br.
  - assert (Hbig : node_first D (S j) m + 1 < node_last D (S j) m).
    { destruct Hlev as [Hh [Hlo Hhi]].
      pose proof (pow2_level D (S j) Hh) as Hpow. rewrite pow2_S in *.
      pose proof (pow2_pos (D - Z.of_nat (S j)) ltac:(lia)) as Hq.
      unfold node_first, node_last, node_lo. rewrite pow2_S.
      destruct (Z.eq_dec m (2 ^ (D - Z.of_nat (S j)))) as [E|N].
      - destruct j as [|j']; [exfalso; apply Nm; rewrite E; f_equal; lia|].
        rewrite pow2_S in *. nia.
      - nia. }
    destruct Hnode as [Hleaf|(Hc & Hleft & Hright)]; [lia|].
    split; [exact Hc|]. split; [|split; [|exact Hsub]].
    + intros e He. rewrite finish_entry by (assumption || lia). apply Hleft, He.
    + intros e He. rewrite finish_entry by (assumption || lia). apply Hright, He.
Qed.

Lemma Palette_new_spec (uninit : Palette.t) (last_frame : option (list Z))
    (next_frame : list Z) (width height bit_depth : Z) (dither : bool) :
  1 <= bit_depth <= 8 -> pal_wf uninit ->
  0 <= width * height < 2 ^ 48 ->
  4 * (width * height) <= Z.of_nat (length next_frame) ->
  bytes next_frame ->
  2 ^ bit_depth - 1
  <= Z.of_nat (length (palette_input last_frame next_frame (width * height))) ->
  exists pal,
    Palette_new uninit last_frame next_frame width height bit_depth dither = Ok pal
    /\ Palette.bit_depth pal = bit_depth
    /\ pal_wf pal
    /\ search_tree pal (Z.to_nat bit_depth) 1
    /\ forall c lo hi, 0 <= c <= 2 ->
         (forall k, k ∈ palette_input last_frame next_frame (width * height) ->
                    lo <= pixat next_frame 0 k c <= hi) ->
         forall e, 1 <= e < 2 ^ bit_depth -> lo <= entry pal c e <= hi.
Proof.
  intros HD Hwf Hn Hlen Hbytes Henough.
  set (n := width * height) in *.
  unfold Palette_new. rewrite depth_guard by exact HD. fold n.
  replace (n * 4) with (4 * n) by lia.
  assert (H64 : 2 ^ 48 * 4 < 2 ^ 64) by reflexivity.
  rewrite !usize_small by lia.
  pose proof (palette_input_pixels last_frame next_frame n ltac:(lia) Hlen) as Hin.
  cbv zeta in Hin.
  destruct (match last_frame with
            | Some last_frame0 =>
                pick_changed_pixels last_frame0 (copy_image next_frame (4 * n)) n
            | None => (copy_image next_frame (4 * n), n)
            end) as [image n'].
  destruct Hin as (Hn' & Hle & Hlen' & Hpix).
  set (pal0 := set_bit_depth uninit bit_depth).
  assert (Hwf0 : pal_wf pal0) by exact Hwf.
  assert (Hp : 0 < 2 ^ bit_depth) by (apply pow2_pos; lia).
  assert (Hbytes' : rgb_bytes image 0 n').
  { intros i c Hi Hc. destruct (Hpix i Hi) as (k & _ & Ek).
    rewrite (Ek c Hc). apply bytes_rd, Hbytes. }
  destruct (split_spec (Z.to_nat bit_depth) (S (Z.to_nat bit_depth)) pal0 image 0 n'
              1 (Z.shiftl 1 bit_depth) (Z.quot (Z.shiftl 1 bit_depth) 2)
              (Z.quot (Z.quot (Z.shiftl 1 bit_depth) 2) 2) 1 dither)
    as (pal1 & image1 & Hrun & Hpost).
  { lia. } { exact HD. } { exact Hwf0. }
  { unfold at_level. cbn [Palette.bit_depth pal0 set_bit_depth].
    rewrite Z2Nat.id, Z.sub_diag by lia. simpl. lia. }
  { unfold node_first, node_lo. cbn [Palette.bit_depth pal0 set_bit_depth].
    rewrite Z2Nat.id by lia. lia. }
  { unfold node_last, node_lo. cbn [Palette.bit_depth pal0 set_bit_depth].
    rewrite Z2Nat.id, Z.shiftl_1_l by lia. lia. }
  { intros j Ej. rewrite Z.shiftl_1_l.
    assert (Eb : bit_depth = Z.succ (Z.of_nat j)) by lia.
    pose proof (pow2_pos (Z.of_nat j) ltac:(lia)) as Hpj.
    rewrite Eb, Z.pow_succ_r by lia.
    rewrite Z.quot_div_nonneg by lia.
    replace (2 * 2 ^ Z.of_nat j) with (2 ^ Z.of_nat j * 2) by lia.
    rewrite Z.div_mul by lia.
    rewrite Z.quot_div_nonneg by lia. lia. }
  { lia. } { rewrite Z.shiftl_1_l. lia. } { lia. } { lia. } { exact Hbytes'. }
  rewrite Hrun. cbn [bind].
  destruct Hpost as (_ & Hperm & _ & Hwf1 & HD1 & _ & _ & Hbnd & Hkd).
  change (Palette.bit_depth pal0) with bit_depth in HD1.
  change (Palette.bit_depth pal0) with bit_depth in Hbnd.
  exists (finish pal1). unfold finish at 1. rewrite HD1.
  split; [reflexivity|].
  split; [exact HD1|]. split; [apply finish_wf, Hwf1|].
  split.
  - apply kd_finish; [exact Hwf1|lia| |exact Hkd].
    rewrite HD1. unfold at_level. rewrite Z2Nat.id, Z.sub_diag by lia. simpl. lia.
  - intros c lo hi Hc Hb e He. rewrite finish_entry by (assumption || lia).
    apply (Hbnd c lo hi Hc).
    + intros i Hi. destruct (Hpix i Hi) as (k & Hk & Ek).
      rewrite (Ek c Hc). apply Hb, Hk.
    + rewrite Z.shiftl_1_l. lia.
Qed.

Lemma demo_frame_rgb_bytes : bytes demo_frame_rgb.
Proof. unfold bytes, demo_frame_rgb. repeat (constructor; [lia|]). constructor. Qed.

Lemma demo_tree_pal_search : search_tree demo_tree_pal 2 1.
Proof.
  cbn [search_tree]. cbv zeta.
  unfold node_first, node_last, node_lo.
  change (Palette.bit_depth demo_tree_pal) with 2.
  change (rd (Palette.tree_split_elt demo_tree_pal) 1) with 0.
  change (rd (Palette.tree_split demo_tree_pal) 1) with 90.
  change (rd (Palette.tree_split_elt demo_tree_pal) (1 * 2)) with 0.
  change (rd (Palette.tree_split demo_tree_pal) (1 * 2)) with 0.
  change (rd (Palette.tree_split_elt demo_tree_pal) (1 * 2 + 1)) with 0.
  change (rd (Palette.tree_split demo_tree_pal) (1 * 2 + 1)) with 200.
  assert (E1 : entry demo_tree_pal 0 1 = 20) by reflexivity.
  assert (E2 : entry demo_tree_pal 0 2 = 90) by reflexivity.
  assert (E3 : entry demo_tree_pal 0 3 = 200) by reflexivity.
  assert (Hcase : forall (P : Z -> Prop) a b, 1 <= a -> b <= 4 ->
            (a <= 1 < b -> P 1) -> (a <= 2 < b -> P 2) -> (a <= 3 < b -> P 3) ->
            forall e, a <= e < b -> P e).
  { intros P a b Ha Hb H1 H2 H3 e He.
    assert (Hc : e = 1 \/ e = 2 \/ e = 3) by lia.
    destruct Hc as [-> | [-> | ->]]; auto. }
  change (2 ^ Z.of_nat 1) with 2. change (2 ^ Z.of_nat 0) with 1.
  change (2 ^ Z.of_nat 2) with 4. change (2 ^ 2) with 4.
  repeat split; try lia; apply Hcase; rewrite ?E1, ?E2, ?E3; lia.
Qed.

(** X15. every colour of a palette lies within the range of the pixels it was
    built from.  When the frame has at least 2^bit_depth - 1 pixels to build
    from (all pixels of a first frame, the changed ones of a later frame), the
    constructor returns, and whatever bounds hold for a channel of all those
    pixels hold for that channel of every palette entry from 1 on. *)
Theorem palette_colors_within_pixel_range :
  forall (uninit : Palette.t) (last_frame : option (list Z)) (next_frame : list Z)
         (width height bit_depth : Z) (dither : bool),
    1 <= bit_depth <= 8 -> pal_wf uninit ->
    0 <= width * height < 2 ^ 48 ->
    4 * (width * height) <= Z.of_nat (length next_frame) ->
    bytes next_frame ->
    2 ^ bit_depth - 1
    <= Z.of_nat (length (palette_input last_frame next_frame (width * height))) ->
    exists pal,
      Palette_new uninit last_frame next_frame width height bit_depth dither = Ok pal
      /\ forall c lo hi, 0 <= c <= 2 ->
           (forall k, k ∈ palette_input last_frame next_frame (width * height) ->
                      lo <= pixat next_frame 0 k c <= hi) ->
           forall e, 1 <= e < 2 ^ bit_depth -> lo <= entry pal c e <= hi.
Proof.
  intros uninit last_frame next_frame width height bit_depth dither
    HD Hwf Hn Hlen Hbytes Henough.
  destruct (Palette_new_spec uninit last_frame next_frame width height bit_depth dither
              HD Hwf Hn Hlen Hbytes Henough) as (pal & Hrun & _ & _ & _ & Hbnd).
  exists pal. split; [exact Hrun|exact Hbnd].
Qed.

Lemma palette_colors_within_pixel_range_witness :
  1 <= 2 <= 8 /\ pal_wf (uninit_pal demo_uninit)
  /\ 0 <= 3 * 1 < 2 ^ 48
  /\ 4 * (3 * 1) <= Z.of_nat (length demo_frame_rgb)
  /\ bytes demo_frame_rgb
  /\ 2 ^ 2 - 1 <= Z.of_nat (length (palette_input None demo_frame_rgb (3 * 1)))
  /\ exists pal,
      Palette_new (uninit_pal demo_uninit) None demo_frame_rgb 3 1 2 true = Ok pal
      /\ forall c lo hi, 0 <= c <= 2 ->
           (forall k, k ∈ palette_input None demo_frame_rgb (3 * 1) ->
                      lo <= pixat demo_frame_rgb 0 k c <= hi) ->
           forall e, 1 <= e < 2 ^ 2 -> lo <= entry pal c e <= hi.
Proof.
  assert (H1 : 1 <= 2 <= 8) by lia.
  assert (H2 : 0 <= 3 * 1 < 2 ^ 48) by (split; [lia|reflexivity]).
  assert (H3 : 4 * (3 * 1) <= Z.of_nat (length demo_frame_rgb)) by (simpl; lia).
  assert (H4 : 2 ^ 2 - 1
               <= Z.of_nat (length (palette_input None demo_frame_rgb (3 * 1))))
    by (vm_compute; discriminate).
  split; [exact H1|]. split; [exact demo_uninit_wf|]. split; [exact H2|].
  split; [exact H3|]. split; [exact demo_frame_rgb_bytes|].
  split; [exact H4|].
  exact (palette_colors_within_pixel_range (uninit_pal demo_uninit) None
           demo_frame_rgb 3 1 2 true H1 demo_uninit_wf H2 H3 demo_frame_rgb_bytes H4).
Defined.

(** X16. the constructor builds a search tree.  When the frame has at least
    2^bit_depth - 1 pixels to build from, the palette of [Palette::Palette]
    has, at every inner node of its tree, a channel as split axis and a split
    value that no colour of the node's left half exceeds and no colour of
    its right half is below, in that channel. *)
Theorem palette_is_search_tree :
  forall (uninit : Palette.t) (last_frame : option (list Z)) (next_frame : list Z)
         (width height bit_depth : Z) (dither : bool),
    1 <= bit_depth <= 8 -> pal_wf uninit ->
    0 <= width * height < 2 ^ 48 ->
    4 * (width * height) <= Z.of_nat (length next_frame) ->
    bytes next_frame ->
    2 ^ bit_depth - 1
    <= Z.of_nat (length (palette_input last_frame next_frame (width * height))) ->
    exists pal,
      Palette_new uninit last_frame next_frame width height bit_depth dither = Ok pal
      /\ Palette.bit_depth pal = bit_depth
      /\ search_tree pal (Z.to_nat bit_depth) 1.
Proof.
  intros uninit last_frame next_frame width height bit_depth dither
    HD Hwf Hn Hlen Hbytes Henough.
  destruct (Palette_new_spec uninit last_frame next_frame width height bit_depth dither
              HD Hwf Hn Hlen Hbytes Henough) as (pal & Hrun & Hd & _ & Htree & _).
  exists pal. split; [exact Hrun|]. split; [exact Hd|exact Htree].
Qed.

Lemma palette_is_search_tree_witness :
  1 <= 1 <= 8 /\ pal_wf (uninit_pal demo_uninit)
  /\ 0 <= 3 * 1 < 2 ^ 48
  /\ 4 * (3 * 1) <= Z.of_nat (length demo_frame_rgb)
  /\ bytes demo_frame_rgb
  /\ 2 ^ 1 - 1
     <= Z.of_nat (length (palette_input
                            (Some [200; 10; 30; 0; 20; 60; 70; 0; 0; 0; 0; 0])
                            demo_frame_rgb (3 * 1)))
  /\ exists pal,
      Palette_new (uninit_pal demo_uninit)
        (Some [200; 10; 30; 0; 20; 60; 70; 0; 0; 0; 0; 0]) demo_frame_rgb 3 1 1 false
      = Ok pal
      /\ Palette.bit_depth pal = 1
      /\ search_tree pal (Z.to_nat 1) 1.
Proof.
  assert (H1 : 1 <= 1 <= 8) by lia.
  assert (H2 : 0 <= 3 * 1 < 2 ^ 48) by (split; [lia|reflexivity]).
  assert (H3 : 4 * (3 * 1) <= Z.of_nat (length demo_frame_rgb)) by (simpl; lia).
  assert (H4 : 2 ^ 1 - 1
               <= Z.of_nat (length (palette_input
                                      (Some [200; 10; 30; 0; 20; 60; 70; 0; 0; 0; 0; 0])
                                      demo_frame_rgb (3 * 1))))
    by (vm_compute; discriminate).
  split; [exact H1|]. split; [exact demo_uninit_wf|]. split; [exact H2|].
  split; [exact H3|]. split; [exact demo_frame_rgb_bytes|].
  split; [exact H4|].
  exact (palette_is_search_tree (uninit_pal demo_uninit)
           (Some [200; 10; 30; 0; 20; 60; 70; 0; 0; 0; 0; 0])
           demo_frame_rgb 3 1 1 false H1 demo_uninit_wf H2 H3 demo_frame_rgb_bytes H4).
Defined.

(** X17. on a search tree the query finds a nearest colour.  Started at the
    root, [get_closest_pallete_color] returns a palette entry other than the
    transparency slot whose distance |dr| + |dg| + |db| to the queried
    colour is the least among the entries 1 .. 2^bit_depth - 1, provided
    some entry is nearer than the initial distance 1000000: the subtrees it
    skips hold no nearer colour. *)
Theorem closest_color_is_nearest :
  forall (pal : Palette.t) (r g b best_ind : Z),
    1 <= Palette.bit_depth pal ->
    search_tree pal (Z.to_nat (Palette.bit_depth pal)) 1 ->
    (exists e, 1 <= e < 2 ^ Palette.bit_depth pal /\ leaf_diff pal r g b e < 1000000) ->
    exists ind diff,
      closest_from_root pal r g b best_ind = Ok (ind, diff)
      /\ 1 <= ind < 2 ^ Palette.bit_depth pal
      /\ diff = leaf_diff pal r g b ind
      /\ forall e, 1 <= e < 2 ^ Palette.bit_depth pal -> diff <= leaf_diff pal r g b e.
Proof.
  intros pal r g b best_ind HD Htree Hnear.
  exact (closest_from_root_exact pal r g b best_ind HD Htree Hnear).
Qed.

Lemma closest_color_is_nearest_witness :
  1 <= Palette.bit_depth demo_tree_pal
  /\ search_tree demo_tree_pal (Z.to_nat (Palette.bit_depth demo_tree_pal)) 1
  /\ (exists e, 1 <= e < 2 ^ Palette.bit_depth demo_tree_pal
                /\ leaf_diff demo_tree_pal 150 50 60 e < 1000000)
  /\ exists ind diff,
      closest_from_root demo_tree_pal 150 50 60 0 = Ok (ind, diff)
      /\ 1 <= ind < 2 ^ Palette.bit_depth demo_tree_pal
      /\ diff = leaf_diff demo_tree_pal 150 50 60 ind
      /\ forall e, 1 <= e < 2 ^ Palette.bit_depth demo_tree_pal ->
                   diff <= leaf_diff demo_tree_pal 150 50 60 e.
Proof.
  assert (H1 : 1 <= Palette.bit_depth demo_tree_pal) by (simpl; lia).
  assert (H2 : exists e, 1 <= e < 2 ^ Palette.bit_depth demo_tree_pal
                         /\ leaf_diff demo_tree_pal 150 50 60 e < 1000000).
  { exists 1. split; [simpl; lia|reflexivity]. }
  split; [exact H1|]. split; [exact demo_tree_pal_search|]. split; [exact H2|].
  exact (closest_color_is_nearest demo_tree_pal 150 50 60 0 H1 demo_tree_pal_search H2).
Defined.

(** X18. the threshold quantizer gives every pixel it palettizes a nearest
    palette colour.  With a palette that is a search tree, each pixel of the
    frame that is not carried over from the previous frame gets in its
    fourth byte a palette index from 1 on, in its first three bytes the
    colour of that entry, and no entry from 1 on is nearer to the pixel's
    input colour in the distance |dr| + |dg| + |db|. *)
Theorem threshold_picks_nearest_color :
  forall (last_frame : frame_ptr) (next_frame out_frame : list Z)
         (width height : Z) (pal : Palette.t) (out' : list Z),
    1 <= Palette.bit_depth pal <= 8 -> pal_bytes pal ->
    search_tree pal (Z.to_nat (Palette.bit_depth pal)) 1 ->
    bytes next_frame ->
    4 * usize (width * height) <= Z.of_nat (length out_frame) ->
    threshold_image last_frame next_frame out_frame width height pal = Ok out' ->
    forall i, 0 <= i < usize (width * height) ->
      negb (is_null last_frame)
      && same_rgb (deref last_frame out_frame) next_frame i = false ->
      let '(r, g, b) := buffered next_frame i in
      let ind := rd out' (4 * i + 3) in
      1 <= ind < 2 ^ Palette.bit_depth pal
      /\ buffered out' i
         = (rd (Palette.r pal) ind, rd (Palette.g pal) ind, rd (Palette.b pal) ind)
      /\ forall e, 1 <= e < 2 ^ Palette.bit_depth pal ->
           leaf_diff pal r g b ind <= leaf_diff pal r g b e.
Proof.
  intros last_frame next_frame out_frame width height pal out'
    HD Hpal Htree Hbytes Hlen Hrun i Hi Hchanged.
  destruct (threshold_image_post last_frame next_frame out_frame width height pal out'
              ltac:(lia) Hlen Hrun) as [_ Hpost].
  specialize (Hpost i Hi). unfold threshold_post in Hpost.
  rewrite Hchanged in Hpost.
  destruct Hpost as (bi & bd & Hq & Hpix).
  unfold buffered at 1.
  set (r := rd next_frame (4 * i)) in *.
  set (g := rd next_frame (4 * i + 1)) in *.
  set (b := rd next_frame (4 * i + 2)) in *.
  assert (Hnear : exists e, 1 <= e < 2 ^ Palette.bit_depth pal
                            /\ leaf_diff pal r g b e < 1000000).
  { exists 1. split.
    - split; [lia|]. apply Z.pow_gt_1; lia.
    - unfold leaf_diff. destruct (Hpal 1) as (Hr & Hg & Hb).
      pose proof (bytes_rd next_frame (4 * i) Hbytes).
      pose proof (bytes_rd next_frame (4 * i + 1) Hbytes).
      pose proof (bytes_rd next_frame (4 * i + 2) Hbytes).
      fold r g b in H, H0, H1. lia. }
  destruct (closest_from_root_exact pal r g b 1 ltac:(lia) Htree Hnear)
    as (ind & diff & Hq' & Hind & Hdiff & Hmin).
  rewrite Hq in Hq'. injection Hq' as -> ->.
  unfold pixel in Hpix. injection Hpix as P0 P1 P2 P3.
  cbv zeta. rewrite P3. split; [exact Hind|]. split.
  - unfold buffered. rewrite P0, P1, P2. reflexivity.
  - intros e He. rewrite <- Hdiff. apply Hmin, He.
Qed.

Lemma demo_tree_pal_bytes : pal_bytes demo_tree_pal.
Proof.
  apply pal_bytes_intro; unfold bytes; simpl;
    repeat (constructor; [lia|]); constructor.
Qed.

Lemma threshold_picks_nearest_color_witness :
  1 <= Palette.bit_depth demo_tree_pal <= 8
  /\ pal_bytes demo_tree_pal
  /\ search_tree demo_tree_pal (Z.to_nat (Palette.bit_depth demo_tree_pal)) 1
  /\ bytes [150; 50; 60; 255; 200; 10; 30; 255]
  /\ 4 * usize (2 * 1) <= Z.of_nat (length [0; 0; 0; 0; 200; 10; 30; 3])
  /\ threshold_image SameAsOut [150; 50; 60; 255; 200; 10; 30; 255]
       [0; 0; 0; 0; 200; 10; 30; 3] 2 1 demo_tree_pal
     = Ok [200; 10; 30; 3; 200; 10; 30; 0]
  /\ 0 <= 0 < usize (2 * 1)
  /\ negb (is_null SameAsOut)
     && same_rgb (deref SameAsOut [0; 0; 0; 0; 200; 10; 30; 3])
          [150; 50; 60; 255; 200; 10; 30; 255] 0 = false
  /\ 1 <= 3 < 2 ^ Palette.bit_depth demo_tree_pal
  /\ buffered [200; 10; 30; 3; 200; 10; 30; 0] 0
     = (rd (Palette.r demo_tree_pal) 3, rd (Palette.g demo_tree_pal) 3,
        rd (Palette.b demo_tree_pal) 3)
  /\ forall e, 1 <= e < 2 ^ Palette.bit_depth demo_tree_pal ->
       leaf_diff demo_tree_pal 150 50 60 3 <= leaf_diff demo_tree_pal 150 50 60 e.
Proof.
  assert (H1 : 1 <= Palette.bit_depth demo_tree_pal <= 8) by (simpl; lia).
  assert (H2 : bytes [150; 50; 60; 255; 200; 10; 30; 255])
    by (unfold bytes; repeat (constructor; [lia|]); constructor).
  assert (H3 : 4 * usize (2 * 1) <= Z.of_nat (length [0; 0; 0; 0; 200; 10; 30; 3]))
    by (vm_compute; discriminate).
  assert (H4 : threshold_image SameAsOut [150; 50; 60; 255; 200; 10; 30; 255]
                 [0; 0; 0; 0; 200; 10; 30; 3] 2 1 demo_tree_pal
               = Ok [200; 10; 30; 3; 200; 10; 30; 0]) by (vm_compute; reflexivity).
  assert (H5 : 0 <= 0 < usize (2 * 1)) by (split; [lia|reflexivity]).
  assert (H6 : negb (is_null SameAsOut)
               && same_rgb (deref SameAsOut [0; 0; 0; 0; 200; 10; 30; 3])
                    [150; 50; 60; 255; 200; 10; 30; 255] 0 = false) by reflexivity.
  split; [exact H1|]. split; [exact demo_tree_pal_bytes|].
  split; [exact demo_tree_pal_search|].
  repeat (split; [assumption|]).
  exact (threshold_picks_nearest_color SameAsOut _ _ 2 1 demo_tree_pal _
           H1 demo_tree_pal_bytes demo_tree_pal_search H2 H3 H4 0 H5 H6).
Defined.

(** *** Every inner node of a search tree has a valid axis *)

Lemma below_of_range :
  forall (h : nat) (m x : Z) (d : nat),
    1 <= m -> (d < h)%nat ->
    m * 2 ^ Z.of_nat d <= x < (m + 1) * 2 ^ Z.of_nat d ->
    below h m x.
Proof.
  induction h as [|j IH]; intros m x d Hm Hd Hx; [lia|].
  cbn [below]. destruct d as [|d'].
  - left. change (2 ^ Z.of_nat 0) with 1 in Hx. lia.
  - right. rewrite pow2_S in Hx.
    pose proof (pow2_pos (Z.of_nat d') ltac:(lia)) as Hp.
    destruct (Z.lt_ge_cases x ((m * 2 + 1) * 2 ^ Z.of_nat d')) as [Hlt|Hge].
    + left. apply (IH (m * 2) x d'); [lia|lia|nia].
    + right. apply (IH (m * 2 + 1) x d'); [lia|lia|nia].
Qed.

Lemma search_tree_axes :
  forall (h : nat) (m : Z) (pal : Palette.t),
    search_tree pal h m ->
    forall x, below h m x -> 0 <= rd (Palette.tree_split_elt pal) x <= 2.
Proof.
  induction h as [|j IH]; intros m pal Htree x Hx; [destruct Hx|].
  cbn [search_tree] in Htree. cbv zeta in Htree.
  destruct Htree as (Hc & _ & _ & Hl & Hr).
  destruct Hx as [-> | [Hx | Hx]];
    [exact Hc|exact (IH _ pal Hl x Hx)|exact (IH _ pal Hr x Hx)].
Qed.

Lemma search_tree_ok (pal : Palette.t) :
  1 <= Palette.bit_depth pal ->
  search_tree pal (Z.to_nat (Palette.bit_depth pal)) 1 -> tree_ok pal.
Proof.
  intros HD Htree n Hn.
  apply (search_tree_axes _ 1 pal Htree).
  pose proof (Z.log2_spec n ltac:(lia)) as Hlog.
  pose proof (Z.log2_nonneg n) as Hnn.
  assert (Hlt : Z.log2 n < Palette.bit_depth pal).
  { apply Z.log2_lt_pow2; lia. }
  apply (below_of_range _ 1 n (Z.to_nat (Z.log2 n))); [lia|lia|].
  rewrite Z2Nat.id by lia. rewrite Z.pow_succ_r in Hlog by lia. lia.
Qed.

(** *** One frame *)

Lemma write_frame_header_app (f : list Z) (left top width height delay : Z)
    (pal : Palette.t) :
  exists hdr, write_frame_header f left top width height delay pal = f ++ hdr.
Proof.
  unfold write_frame_header. rewrite Palette_write_table. unfold fputc.
  rewrite <- !app_assoc. eexists. reflexivity.
Qed.

Lemma write_frame_spec (u : uninit) (w : Writer.t) (f buf image : list Z)
    (width height delay bit_depth : Z) :
  Writer.f w = Some f -> Writer.old_image w = Some buf ->
  4 * (width * height) <= Z.of_nat (length buf) ->
  1 <= bit_depth <= 8 -> pal_wf (uninit_pal u) ->
  length (uninit_chunk u) = 256%nat ->
  0 <= width * height < 2 ^ 48 ->
  4 * (width * height) <= Z.of_nat (length image) ->
  bytes image ->
  2 ^ bit_depth - 1
  <= Z.of_nat (length (palette_input
                         (if Writer.first_frame w then None else Some buf)
                         image (width * height))) ->
  exists data buf',
    write_frame u w image width height delay bit_depth false
    = Ok (true, Writer.mk (Some (f ++ data)) (Some buf') false)
    /\ length buf' = length buf.
Proof.
  intros Hf Hold Hfit HD Hwf Hchunk Hn Hlen Hbytes Henough.
  assert (H48 : 2 ^ 48 < 2 ^ 64) by reflexivity.
  unfold write_frame. rewrite Hf, Hold.
  change (default [] (Some buf)) with buf. cbn [orb].
  rewrite (usize_small (width * height)) by lia.
  destruct (Z.ltb_spec (Z.of_nat (length buf)) (4 * (width * height))); [lia|].
  destruct (Palette_new_spec (uninit_pal u)
              (if Writer.first_frame w then None else Some buf)
              image width height bit_depth false HD Hwf Hn Hlen Hbytes Henough)
    as (pal & Hpal & Hd & Hwfp & Htree & _).
  rewrite Hpal. cbn [bind].
  assert (Hok : tree_ok pal) by (apply search_tree_ok; rewrite Hd; [lia|exact Htree]).
  destruct (threshold_image_total (if Writer.first_frame w then Null else SameAsOut)
              image buf width height pal ltac:(lia) Hok) as [buf' Hbuf].
  rewrite Hbuf. cbn [bind].
  destruct (threshold_image_post (if Writer.first_frame w then Null else SameAsOut)
              image buf width height pal buf' ltac:(lia)
              ltac:(rewrite usize_small by lia; exact Hfit) Hbuf) as [Hlen' _].
  destruct (write_lzw_image_framed (uninit_chunk u) f buf' 0 0 width height delay pal
              Hchunk) as (full & last & pad & Hrun & _).
  rewrite Hrun. cbn [bind].
  destruct (write_frame_header_app f 0 0 width height delay pal) as [hdr ->].
  rewrite <- !app_assoc. eexists. exists buf'. split; [reflexivity|exact Hlen'].
Qed.

(** X19. a frame with enough pixels is written.  On an open writer whose
    buffer holds the frame, with dither off, when the frame offers at least
    2^bit_depth - 1 pixels to build the palette from (all its pixels for a
    first frame, the pixels changed against the previous frame otherwise),
    [write_frame] returns true: the palette query only meets split axes 0, 1
    and 2, the chunk buffer is never overrun, the file keeps what it held,
    followed by the data of the frame, and the buffer keeps its size. *)
Theorem write_frame_succeeds :
  forall (u : uninit) (w : Writer.t) (f buf image : list Z)
         (width height delay bit_depth : Z),
    Writer.f w = Some f -> Writer.old_image w = Some buf ->
    4 * (width * height) <= Z.of_nat (length buf) ->
    1 <= bit_depth <= 8 -> pal_wf (uninit_pal u) ->
    length (uninit_chunk u) = 256%nat ->
    0 <= width * height < 2 ^ 48 ->
    4 * (width * height) <= Z.of_nat (length image) ->
    bytes image ->
    2 ^ bit_depth - 1
    <= Z.of_nat (length (palette_input
                           (if Writer.first_frame w then None else Some buf)
                           image (width * height))) ->
    exists data buf',
      write_frame u w image width height delay bit_depth false
      = Ok (true, Writer.mk (Some (f ++ data)) (Some buf') false)
      /\ length buf' = length buf.
Proof.
  intros u w f buf image width height delay bit_depth
    Hf Hold Hfit HD Hwf Hchunk Hn Hlen Hbytes Henough.
  exact (write_frame_spec u w f buf image width height delay bit_depth
           Hf Hold Hfit HD Hwf Hchunk Hn Hlen Hbytes Henough).
Qed.

Lemma write_frame_succeeds_witness :
  let w := Writer.mk (Some [71; 73; 70]) (Some (replicate 12 0)) true in
  Writer.f w = Some [71; 73; 70]
  /\ Writer.old_image w = Some (replicate 12 0)
  /\ 4 * (3 * 1) <= Z.of_nat (length (replicate 12 0))
  /\ 1 <= 2 <= 8 /\ pal_wf (uninit_pal demo_uninit)
  /\ length (uninit_chunk demo_uninit) = 256%nat
  /\ 0 <= 3 * 1 < 2 ^ 48
  /\ 4 * (3 * 1) <= Z.of_nat (length demo_frame_rgb)
  /\ bytes demo_frame_rgb
  /\ 2 ^ 2 - 1
     <= Z.of_nat (length (palette_input
                            (if Writer.first_frame w then None
                             else Some (replicate 12 0))
                            demo_frame_rgb (3 * 1)))
  /\ exists data buf',
      write_frame demo_uninit w demo_frame_rgb 3 1 0 2 false
      = Ok (true, Writer.mk (Some ([71; 73; 70] ++ data)) (Some buf') false)
      /\ length buf' = length (replicate 12 0).
Proof.
  intros w.
  assert (H0 : 4 * (3 * 1) <= Z.of_nat (length (replicate 12 0))) by (simpl; lia).
  assert (H1 : 1 <= 2 <= 8) by lia.
  assert (H2 : length (uninit_chunk demo_uninit) = 256%nat) by reflexivity.
  assert (H3 : 0 <= 3 * 1 < 2 ^ 48) by (split; [lia|reflexivity]).
  assert (H4 : 4 * (3 * 1) <= Z.of_nat (length demo_frame_rgb)) by (simpl; lia).
  assert (H5 : 2 ^ 2 - 1
               <= Z.of_nat (length (palette_input
                      (if Writer.first_frame w then None
                       else Some (replicate 12 0))
                      demo_frame_rgb (3 * 1))))
    by (vm_compute; discriminate).
  split; [reflexivity|]. split; [reflexivity|]. split; [exact H0|].
  split; [exact H1|]. split; [exact demo_uninit_wf|].
  split; [exact H2|]. split; [exact H3|]. split; [exact H4|].
  split; [exact demo_frame_rgb_bytes|]. split; [exact H5|].
  exact (write_frame_succeeds demo_uninit w
           [71; 73; 70] (replicate 12 0) demo_frame_rgb 3 1 0 2
           eq_refl eq_refl H0 H1 demo_uninit_wf H2 H3 H4 demo_frame_rgb_bytes H5).
Defined.

Lemma rel_result_bind {T U : Type} (R : T -> T -> Prop) (Q : U -> U -> Prop)
    (r r' : result T) (k k' : T -> result U) :
  rel_result R r r' ->
  (forall a b, R a b -> rel_result Q (k a) (k' b)) ->
  rel_result Q (bind r k) (bind r' k').
Proof.
  intros Hr Hk. destruct r as [a|e], r' as [b|e']; cbn in *; try contradiction.
  - apply Hk, Hr.
  - exact Hr.
Qed.

Lemma rel_result_eq {T : Type} (r r' : result T) :
  rel_result (fun a b => b = a) r r' -> r' = r.
Proof.
  destruct r as [a|e], r' as [b|e']; cbn; intros H; try contradiction; congruence.
Qed.

Lemma for_loop_rel {T : Type} (R : T -> T -> Prop) (body body' : Z -> T -> result T) :
  (forall j s s', R s s' -> rel_result R (body j s) (body' j s')) ->
  forall (n : nat) (i : Z) (s s' : T),
    R s s' -> rel_result R (for_loop n i body s) (for_loop n i body' s').
Proof.
  intros Hstep. induction n as [|n IH]; intros i s s' HR; [exact HR|].
  cbn [for_loop]. apply (rel_result_bind R R); [apply Hstep, HR|].
  intros a b Hab. apply IH, Hab.
Qed.

Lemma write_bit_rel (s s' : BitStatus.t) (bit : Z) :
  same_stream s s' -> rel_result same_stream (write_bit s bit) (write_bit s' bit).
Proof.
  intros (Hbi & Hby & Hci & Hc0 & Hl & Hl' & Htake).
  unfold write_bit. rewrite Hbi, Hby, Hci. cbv zeta.
  destruct (_ >? 7); [|cbn; repeat split; assumption].
  destruct (Z.ltb_spec (BitStatus.chunk_index s) 256) as [Hlt|Hge]; [|reflexivity].
  cbn. unfold same_stream. cbn [BitStatus.bit_index BitStatus.byte
                                 BitStatus.chunk_index BitStatus.chunk].
  assert (Hu : u32 (BitStatus.chunk_index s + 1) = BitStatus.chunk_index s + 1).
  { unfold u32. apply Z.mod_small. split; [lia|].
    apply (Z.lt_trans _ 257); [lia|reflexivity]. }
  rewrite Hu. unfold wr. rewrite !length_insert.
  repeat split; try assumption; try lia.
  replace (Z.to_nat (BitStatus.chunk_index s + 1))
    with (S (Z.to_nat (BitStatus.chunk_index s))) by lia.
  rewrite !(take_S_r _ _ (u8 (Z.lor (BitStatus.byte s)
                                (u32 (Z.shiftl (Z.land bit 1) (BitStatus.bit_index s))))))
    by (apply list_lookup_insert_eq; lia).
  rewrite !take_insert_ge by lia. rewrite Htake. reflexivity.
Qed.

Lemma write_chunk_rel (s s' : BitStatus.t) (f : list Z) :
  same_stream s s' ->
  same_stream (fst (write_chunk s f)) (fst (write_chunk s' f))
  /\ snd (write_chunk s' f) = snd (write_chunk s f).
Proof.
  intros (Hbi & Hby & Hci & Hc0 & Hl & Hl' & Htake).
  unfold write_chunk. cbn [fst snd]. rewrite Hci, Htake.
  split; [|reflexivity].
  unfold same_stream. cbn. repeat split; try assumption; try lia.
Qed.

Lemma write_code_bit_rel (s s' : BitStatus.t) (f : list Z) (code : Z) :
  same_stream s s' ->
  rel_result (fun a b => same_stream (fst (fst a)) (fst (fst b))
                         /\ snd (fst b) = snd (fst a) /\ snd b = snd a)
    (write_code_bit (s, f, code)) (write_code_bit (s', f, code)).
Proof.
  intros HR. unfold write_code_bit.
  apply (rel_result_bind same_stream); [apply write_bit_rel, HR|].
  intros a b Hab. rewrite (proj1 (proj2 (proj2 Hab))).
  destruct (_ =? 255).
  - destruct (write_chunk_rel a b f Hab) as [H1 H2].
    destruct (write_chunk a f) as [a1 f1], (write_chunk b f) as [b1 f1'].
    cbn in *. auto.
  - cbn. auto.
Qed.

Lemma write_code_rel (s s' : BitStatus.t) (f : list Z) (code length : Z) :
  same_stream s s' ->
  rel_result (fun a b => same_stream (fst a) (fst b) /\ snd b = snd a)
    (write_code s f code length) (write_code s' f code length).
Proof.
  intros HR. unfold write_code.
  apply (rel_result_bind
           (fun a b => same_stream (fst (fst a)) (fst (fst b))
                       /\ snd (fst b) = snd (fst a) /\ snd b = snd a)).
  - apply for_loop_rel; [|cbn; auto].
    intros j [[a fa] ca] [[b fb] cb] (Hab & Hf & Hc). cbn in Hab, Hf, Hc. subst fb cb.
    apply write_code_bit_rel, Hab.
  - intros [[a fa] ca] [[b fb] cb] (Hab & Hf & Hc). cbn in *. auto.
Qed.

Lemma lzw_pixel_rel (min_code_size clear_code next_value : Z) (s s' : lzw_state) :
  same_lzw s s' ->
  rel_result same_lzw (lzw_pixel min_code_size clear_code next_value s)
    (lzw_pixel min_code_size clear_code next_value s').
Proof.
  intros (Hct & Hcc & Hcs & Hmc & Hf & Hst). unfold lzw_pixel.
  rewrite Hct, Hcc, Hcs, Hmc, Hf.
  assert (Hmk : forall ct cc cs mc st st' fl,
             same_stream st st' ->
             same_lzw (mk_lzw ct cc cs mc st fl) (mk_lzw ct cc cs mc st' fl)).
  { intros. unfold same_lzw. cbn. auto 10. }
  destruct (_ <? 0); [apply Hmk, Hst|].
  destruct (negb _); [apply Hmk, Hst|].
  apply (rel_result_bind (fun a b => same_stream (fst a) (fst b) /\ snd b = snd a));
    [apply write_code_rel, Hst|].
  intros [a fa] [b fb] [Hab E]. cbn in Hab, E. subst fb. cbv zeta.
  destruct (_ =? 4095).
  - apply (rel_result_bind (fun a b => same_stream (fst a) (fst b) /\ snd b = snd a));
      [apply write_code_rel, Hab|].
    intros [a2 fa2] [b2 fb2] [Hab2 E2]. cbn in Hab2, E2. subst fb2.
    apply Hmk, Hab2.
  - apply Hmk, Hab.
Qed.

Lemma pad_bits_rel :
  forall (fuel : nat) (s s' : BitStatus.t),
    same_stream s s' -> rel_result same_stream (pad_bits fuel s) (pad_bits fuel s').
Proof.
  induction fuel as [|fuel IH]; intros s s' HR; [reflexivity|].
  cbn [pad_bits]. rewrite (proj1 HR).
  destruct (_ =? 0); [exact HR|].
  apply (rel_result_bind same_stream); [apply write_bit_rel, HR|].
  intros a b Hab. apply IH, Hab.
Qed.

(** The image data does not depend on what the chunk buffer held. *)
Lemma write_lzw_image_chunk (chunk0 chunk0' f image : list Z)
    (left top width height delay : Z) (pal : Palette.t) :
  length chunk0 = 256%nat -> length chunk0' = 256%nat ->
  write_lzw_image chunk0' f image left top width height delay pal
  = write_lzw_image chunk0 f image left top width height delay pal.
Proof.
  intros Hl Hl'. apply rel_result_eq. unfold write_lzw_image. cbv zeta.
  assert (H0 : same_stream (BitStatus.mk 0 0 0 chunk0) (BitStatus.mk 0 0 0 chunk0')).
  { unfold same_stream. cbn. repeat split; try assumption; lia. }
  apply (rel_result_bind (fun a b => same_stream (fst a) (fst b) /\ snd b = snd a));
    [apply write_code_rel, H0|].
  intros [a fa] [b fb] [Hab E]. cbn in Hab, E. subst fb.
  apply (rel_result_bind same_lzw).
  { apply for_loop_rel; [|unfold same_lzw; cbn; auto 10].
    intros y s s' Hs. apply for_loop_rel; [|exact Hs].
    intros x t t' Ht. apply lzw_pixel_rel, Ht. }
  intros s s' (Hct & Hcc & Hcs & Hmc & Hf & Hst). rewrite Hcc, Hcs, Hf.
  apply (rel_result_bind (fun a b => same_stream (fst a) (fst b) /\ snd b = snd a));
    [apply write_code_rel, Hst|].
  intros [a1 fa1] [b1 fb1] [Hab1 E1]. cbn in Hab1, E1. subst fb1.
  apply (rel_result_bind (fun a b => same_stream (fst a) (fst b) /\ snd b = snd a));
    [apply write_code_rel, Hab1|].
  intros [a2 fa2] [b2 fb2] [Hab2 E2]. cbn in Hab2, E2. subst fb2.
  apply (rel_result_bind (fun a b => same_stream (fst a) (fst b) /\ snd b = snd a));
    [apply write_code_rel, Hab2|].
  intros [a3 fa3] [b3 fb3] [Hab3 E3]. cbn in Hab3, E3. subst fb3.
  apply (rel_result_bind same_stream); [apply pad_bits_rel, Hab3|].
  intros a4 b4 Hab4. rewrite (proj1 (proj2 (proj2 Hab4))).
  destruct (negb _).
  - destruct (write_chunk_rel a4 b4 fa3 Hab4) as [H1 H2].
    destruct (write_chunk a4 fa3) as [a5 f5], (write_chunk b4 fa3) as [b5 f5'].
    cbn in *. congruence.
  - reflexivity.
Qed.

Lemma split_spec_pre (h fuel : nat) (pal : Palette.t) (image : list Z)
    (off n first last selt dist m : Z) (dither : bool) :
  (h < fuel)%nat -> pal_wf pal ->
  split_pre (Palette.bit_depth pal) h image off n first last selt dist m ->
  exists pal' image',
    split fuel pal image off n first last selt dist m dither = Ok (pal', image')
    /\ split_post h m pal image off n first last pal' image'.
Proof.
  intros Hfuel Hwf (HD & Hlev & Hfirst & Hlast & Hargs & Hoff & Hn & Hn48 & Hlen & Hb).
  apply split_spec; assumption.
Qed.

Lemma split_leaf_eq (fuel : nat) (pal : Palette.t) (image : list Z)
    (off n first selt dist m : Z) (dither : bool) :
  1 <= n ->
  split (S fuel) pal image off n first (first + 1) selt dist m dither
  = Ok (set_color pal first
          (leaf_color (Palette.bit_depth pal) image off n first dither), image).
Proof.
  intros Hn. cbn [split]. unfold leaf_color.
  destruct (Z.leb_spec (first + 1) first) as [|_]; [lia|].
  destruct (Z.eqb_spec n 0) as [|_]; [lia|]. cbn [orb].
  rewrite Z.eqb_refl.
  destruct (dither && (first =? 1)); [reflexivity|].
  destruct (dither && (first =? Z.shiftl 1 (Palette.bit_depth pal) - 1)); reflexivity.
Qed.

(** The calls an inner node makes. *)
Lemma split_pre_inner (D : Z) (j : nat) (image : list Z)
    (off n first last selt dist m : Z) :
  split_pre D (S j) image off n first last selt dist m ->
  first + 1 < last ->
  let com := split_axis image off n in
  let a := n * (selt - first) / (last - first) in
  usize (n * usize (selt - first)) / usize (last - first) = a
  /\ usize (n - a) = n - a
  /\ 1 <= m < 256 /\ 0 <= com <= 2 /\ n <> 0
  /\ first < selt < last
  /\ exists image1,
      partition_by_median (S (Z.to_nat n)) image off 0 n com a = Ok image1
      /\ 0 <= rd image1 (off + (a * 4 + com)) <= 255
      /\ split_pre D j image1 off a first selt (usize (selt - dist)) (dist / 2) (m * 2)
      /\ forall image2,
           length image2 = length image1 ->
           (forall k, 0 <= k -> k < off \/ off + 4 * a <= k ->
                      rd image2 k = rd image1 k) ->
           split_pre D j image2 (off + a * 4) (n - a) selt last
             (usize (selt + dist)) (dist / 2) (m * 2 + 1).
Proof.
  intros (HD & Hlev & Hfirst & Hlast & Hargs & Hoff & Hn & Hn48 & Hlen & Hbytes) Hrange.
  cbv zeta.
  destruct (node_lo_nonneg _ (S j) m Hlev) as [Hlo Hhi].
  assert (H256 : 2 ^ D <= 256).
  { change 256 with (2 ^ 8). apply Z.pow_le_mono_r; lia. }
  destruct (node_children _ j m Hlev) as (C1 & C2 & C3 & C4 & C5 & C6 & C7).
  destruct (at_level_children _ j m Hlev) as (Hm & Hl & Hr).
  cbv zeta in C1, C2, C3, C4, C5, C6, C7.
  pose proof (pow2_pos (Z.of_nat j) ltac:(lia)) as Hp.
  destruct (Hargs j eq_refl) as [Hselt Hdist].
  assert (Hm256 : m < 256).
  { destruct Hlev as [Hh Hm2].
    assert (2 * 2 ^ (D - Z.of_nat (S j)) <= 2 ^ D); [|lia].
    replace (2 * 2 ^ (D - Z.of_nat (S j))) with (2 ^ (D - Z.of_nat j)).
    - apply Z.pow_le_mono_r; lia.
    - replace (D - Z.of_nat j) with (Z.succ (D - Z.of_nat (S j))) by lia.
      apply Z.pow_succ_r. lia. }
  set (com := split_axis image off n).
  pose proof (split_axis_range image off n) as Hcom. fold com in Hcom.
  assert (Hu1 : usize (selt - first) = selt - first) by (apply usize_small; lia).
  assert (Hu2 : usize (last - first) = last - first) by (apply usize_small; lia).
  assert (H48 : 2 ^ 48 * 256 < 2 ^ 64) by reflexivity.
  assert (Hu3 : usize (n * (selt - first)) = n * (selt - first))
    by (apply usize_small; nia).
  rewrite Hu1, Hu2, Hu3.
  destruct (sub_pixels_bounds n (last - first) (selt - first) ltac:(lia) ltac:(lia))
    as [Ha Hb].
  set (a := n * (selt - first) / (last - first)) in *.
  assert (Hu4 : usize (n - a) = n - a) by (apply usize_small; lia).
  split; [reflexivity|]. split; [exact Hu4|]. split; [lia|]. split; [exact Hcom|].
  split; [lia|]. split; [lia|].
  destruct (partition_by_median_spec (S (Z.to_nat n)) image off 0 n com a)
    as (image1 & Hpbm & Hsel); try lia.
  destruct Hsel as (Hlen1 & Hlow1 & Hhigh1 & Hperm1 & Hframe1).
  assert (Hbytes1 : rgb_bytes image1 off n)
    by (apply (rgb_bytes_perm image); assumption).
  exists image1. split; [exact Hpbm|].
  split; [apply (Hbytes1 a com); lia|].
  assert (Hargs' : forall j', j = S j' ->
            2 ^ Z.of_nat j' <= selt /\ dist = 2 ^ Z.of_nat j'
            /\ dist / 2 = 2 ^ Z.of_nat j' / 2
            /\ selt + dist = last - 2 ^ Z.of_nat j').
  { intros j' ->. rewrite pow2_S in *.
    pose proof (pow2_pos (Z.of_nat j') ltac:(lia)) as Hp'.
    assert (dist = 2 ^ Z.of_nat j').
    { rewrite Hdist. rewrite Z.mul_comm. apply Z.div_mul. lia. }
    unfold node_first, node_last in *. repeat split; try lia. congruence. }
  split.
  - unfold split_pre. split; [exact HD|]. split; [exact Hl|].
    split; [rewrite C1; exact Hfirst|]. split; [rewrite C2; lia|].
    split.
    { intros j' Ej. destruct (Hargs' j' Ej) as (H1 & H2 & H3 & H4).
      rewrite usize_small by lia. split; [lia|exact H3]. }
    split; [exact Hoff|]. split; [lia|]. split; [lia|]. split; [lia|].
    intros i c Hi Hc. apply Hbytes1; lia.
  - intros image2 Hlen2 Hframe2.
    unfold split_pre. split; [exact HD|]. split; [exact Hr|].
    split; [rewrite C3; lia|]. split; [rewrite C4; exact Hlast|].
    split.
    { intros j' Ej. destruct (Hargs' j' Ej) as (H1 & H2 & H3 & H4).
      rewrite usize_small by lia. split; [lia|exact H3]. }
    split; [lia|]. split; [lia|]. split; [lia|]. split; [lia|].
    intros i c Hi Hc. rewrite pixat_shift.
    unfold pixat, pixidx. rewrite Hframe2 by lia. apply (Hbytes1 (a + i) c); lia.
Qed.

(** Two runs of [split] that differ in the palette they start from write
    the same colours and the same tree. *)
Lemma split_rel :
  forall (h fuel : nat) (pal pal' : Palette.t) (image : list Z)
         (off n first last selt dist m : Z) (dither : bool)
         (p1 p1' : Palette.t) (i1 i1' : list Z),
    (h < fuel)%nat -> pal_wf pal -> pal_wf pal' ->
    Palette.bit_depth pal' = Palette.bit_depth pal ->
    split_pre (Palette.bit_depth pal) h image off n first last selt dist m ->
    split fuel pal image off n first last selt dist m dither = Ok (p1, i1) ->
    split fuel pal' image off n first last selt dist m dither = Ok (p1', i1') ->
    i1' = i1
    /\ (forall c e, first <= e < last -> entry p1' c e = entry p1 c e)
    /\ (forall x, below h m x -> x <> 2 ^ (Palette.bit_depth pal - 1) ->
          rd (Palette.tree_split_elt p1') x = rd (Palette.tree_split_elt p1) x
          /\ rd (Palette.tree_split p1') x = rd (Palette.tree_split p1) x).
Proof.
  induction h as [|j IH];
    intros fuel pal pal' image off n first last selt dist m dither p1 p1' i1 i1'
      Hfuel Hwf Hwf' HD' Hpre Hrun Hrun';
    (destruct fuel as [|fuel]; [lia|]).
  - destruct Hpre as (HD & Hlev & Hfirst & Hlast & _ & _ & Hn & _).
    destruct (node_lo_nonneg _ 0 m Hlev) as [Hlo Hhi].
    assert (H256 : 2 ^ Palette.bit_depth pal <= 256).
    { change 256 with (2 ^ 8). apply Z.pow_le_mono_r; lia. }
    unfold node_first, node_last in *. change (2 ^ Z.of_nat 0) with 1 in *.
    split; [|split; [|intros x []]].
    + destruct (decide (node_lo (Palette.bit_depth pal) 0 m = 0)) as [E0|N0].
      * subst first last. rewrite E0 in Hrun, Hrun'.
        change (split (S fuel) pal image off n (Z.max 1 0) (0 + 1) selt dist m dither)
          with (Ok (pal, image)) in Hrun.
        change (split (S fuel) pal' image off n (Z.max 1 0) (0 + 1) selt dist m dither)
          with (Ok (pal', image)) in Hrun'.
        congruence.
      * replace last with (first + 1) in * by lia.
        rewrite split_leaf_eq in Hrun, Hrun' by lia. congruence.
    + intros c e He.
      destruct (decide (node_lo (Palette.bit_depth pal) 0 m = 0)) as [E0|N0]; [lia|].
      replace last with (first + 1) in * by lia.
      rewrite split_leaf_eq in Hrun, Hrun' by lia.
      injection Hrun as <- <-. injection Hrun' as <- <-.
      rewrite !entry_set_color by (assumption || lia). rewrite HD'.
      destruct (e =? first) eqn:E; [reflexivity|]. apply Z.eqb_neq in E. lia.
  - pose proof Hpre as (HD & Hlev & Hfirst & Hlast & Hargs & Hoff & Hn & Hn48 & Hlen & Hb).
    destruct (node_lo_nonneg _ (S j) m Hlev) as [Hlo Hhi].
    assert (H256 : 2 ^ Palette.bit_depth pal <= 256).
    { change 256 with (2 ^ 8). apply Z.pow_le_mono_r; lia. }
    pose proof (pow2_pos (Z.of_nat j) ltac:(lia)) as Hp.
    set (D := Palette.bit_depth pal) in *.
    destruct (decide (last = first + 1)) as [Eleaf|Ninner].
    + (* the node above the transparency slot *)
      assert (Hj0 : j = O).
      { destruct j as [|j']; [reflexivity|exfalso].
        pose proof (pow2_pos (Z.of_nat j') ltac:(lia)).
        unfold node_first, node_last in *. rewrite !pow2_S in Hlast. lia. }
      subst j.
      assert (Em : m = 2 ^ (D - 1)).
      { unfold node_first, node_last, node_lo in *.
        change (2 ^ Z.of_nat 1) with 2 in *.
        assert (E2 : 2 ^ D = 2 * 2 ^ (D - 1)).
        { replace D with (Z.succ (D - 1)) at 1 by lia. apply Z.pow_succ_r. lia. }
        lia. }
      rewrite Eleaf in *.
      assert (Hf1 : 1 <= first < 256) by (unfold node_first in *; lia).
      rewrite split_leaf_eq in Hrun, Hrun' by lia.
      injection Hrun as <- <-. injection Hrun' as <- <-.
      split; [reflexivity|]. split.
      * intros c e He.
        rewrite !entry_set_color by (assumption || lia). rewrite HD'.
        destruct (e =? first) eqn:E; [reflexivity|]. apply Z.eqb_neq in E. lia.
      * intros x Hx Hne. cbn [below] in Hx. destruct Hx as [->|[[]|[]]]. lia.
    + (* an inner node *)
      assert (Hrange : first + 1 < last).
      { unfold node_first, node_last in *. rewrite pow2_S in *. lia. }
      destruct (split_pre_inner D j image off n first last selt dist m Hpre Hrange)
        as (Ha & Hb' & Hm & Hcom & Hn0 & Hsel & image1 & Hpbm & Hv & HpreL & HpreR).
      rewrite split_unfold in Hrun, Hrun' by lia.
      cbv zeta in Hrun, Hrun'. rewrite Ha, Hb', Hpbm in Hrun, Hrun'.
      cbn [bind] in Hrun, Hrun'.
      set (com := split_axis image off n) in *.
      set (a := n * (selt - first) / (last - first)) in *.
      set (v := rd image1 (off + (a * 4 + com))) in *.
      set (pal2 := set_tree_split (set_tree_split_elt pal m com) m v) in *.
      set (pal2' := set_tree_split (set_tree_split_elt pal' m com) m v) in *.
      assert (Hwf2 : pal_wf pal2)
        by (apply set_tree_split_wf, set_tree_split_elt_wf, Hwf).
      assert (Hwf2' : pal_wf pal2')
        by (apply set_tree_split_wf, set_tree_split_elt_wf, Hwf').
      (* the left half *)
      destruct (split_spec_pre j fuel pal2 image1 off a first selt
                  (usize (selt - dist)) (dist / 2) (m * 2) dither
                  ltac:(lia) Hwf2 HpreL) as (pal3 & image2 & Hleft & Hpost2).
      destruct (split_spec_pre j fuel pal2' image1 off a first selt
                  (usize (selt - dist)) (dist / 2) (m * 2) dither
                  ltac:(lia) Hwf2')
        as (pal3' & image2' & Hleft' & Hpost2').
      { change (Palette.bit_depth pal2') with (Palette.bit_depth pal').
        rewrite HD'. exact HpreL. }
      destruct (IH fuel pal2 pal2' image1 off a first selt (usize (selt - dist))
                  (dist / 2) (m * 2) dither pal3 pal3' image2 image2'
                  ltac:(lia) Hwf2 Hwf2' HD' HpreL Hleft Hleft')
        as (Ei2 & HentL & HtreeL).
      subst image2'.
      rewrite Hleft in Hrun. rewrite Hleft' in Hrun'. cbn [bind] in Hrun, Hrun'.
      destruct Hpost2 as (Hlen2 & _ & Hframe2 & Hwf3 & HD3 & Hent3 & Htree3 & _ & _).
      destruct Hpost2' as (_ & _ & _ & Hwf3' & HD3' & Hent3' & Htree3' & _ & _).
      change (Palette.bit_depth pal2) with D in HD3.
      change (Palette.bit_depth pal2') with (Palette.bit_depth pal') in HD3'.
      (* the right half *)
      specialize (HpreR image2 Hlen2 Hframe2).
      destruct (split_spec_pre j fuel pal3 image2 (off + a * 4) (n - a) selt last
                  (usize (selt + dist)) (dist / 2) (m * 2 + 1) dither
                  ltac:(lia) Hwf3) as (pal4 & image3 & Hright & Hpost3).
      { rewrite HD3. exact HpreR. }
      destruct (split_spec_pre j fuel pal3' image2 (off + a * 4) (n - a) selt last
                  (usize (selt + dist)) (dist / 2) (m * 2 + 1) dither
                  ltac:(lia) Hwf3') as (pal4' & image3' & Hright' & Hpost3').
      { rewrite HD3', HD'. exact HpreR. }
      destruct (IH fuel pal3 pal3' image2 (off + a * 4) (n - a) selt last
                  (usize (selt + dist)) (dist / 2) (m * 2 + 1) dither
                  pal4 pal4' image3 image3' ltac:(lia) Hwf3 Hwf3')
        as (Ei3 & HentR & HtreeR);
        [congruence|rewrite HD3; exact HpreR|exact Hright|exact Hright'|].
      rewrite Hright in Hrun. rewrite Hright' in Hrun'.
      injection Hrun as <- <-. injection Hrun' as <- <-.
      destruct Hpost3 as (_ & _ & _ & _ & _ & Hent4 & Htree4 & _ & _).
      destruct Hpost3' as (_ & _ & _ & _ & _ & Hent4' & Htree4' & _ & _).
      assert (Hf1 : 1 <= first) by (rewrite Hfirst; unfold node_first; lia).
      rewrite HD3 in HtreeR.
      change (Palette.bit_depth pal2) with D in HtreeL.
      split; [exact Ei3|]. split.
      * intros c e He. destruct (Z.lt_ge_cases e selt) as [Hes|Hes].
        -- rewrite Hent4, Hent4' by lia. apply HentL. lia.
        -- apply HentR. lia.
      * intros x Hx Hne. cbn [below] in Hx.
        assert (Hx0 : 0 <= x).
        { destruct (below_range (S j) m x ltac:(lia) Hx) as (d & Hd & Hxr).
          pose proof (pow2_pos (Z.of_nat d) ltac:(lia)). nia. }
        destruct Hx as [->|[Hx|Hx]].
        -- destruct (below_disjoint j m m ltac:(lia)) as [N1 N2].
           destruct (Htree4 m Hx0) as [-> ->]; [intros B; apply (N2 B); reflexivity|].
           destruct (Htree4' m Hx0) as [-> ->]; [intros B; apply (N2 B); reflexivity|].
           destruct (Htree3 m Hx0) as [-> ->];
             [intros B; apply (proj1 (N1 B)); reflexivity|].
           destruct (Htree3' m Hx0) as [-> ->];
             [intros B; apply (proj1 (N1 B)); reflexivity|].
           destruct (set_tree_rd pal m com v m Hwf ltac:(lia) Hx0) as [E1 E2].
           destruct (set_tree_rd pal' m com v m Hwf' ltac:(lia) Hx0) as [E1' E2'].
           fold pal2 in E1, E2. fold pal2' in E1', E2'.
           rewrite E1, E2, E1', E2', Z.eqb_refl. split; reflexivity.
        -- destruct (proj1 (below_disjoint j m x ltac:(lia)) Hx) as [_ Nr].
           destruct (Htree4 x Hx0 Nr) as [-> ->].
           destruct (Htree4' x Hx0 Nr) as [-> ->].
           apply HtreeL; assumption.
        -- apply HtreeR; assumption.
Qed.

Lemma below_root (D x : Z) : 1 <= x < 2 ^ D -> below (Z.to_nat D) 1 x.
Proof.
  intros Hx.
  assert (HD : 0 <= D).
  { destruct (Z.lt_ge_cases D 0) as [Hneg|]; [|assumption].
    rewrite Z.pow_neg_r in Hx by lia. lia. }
  pose proof (Z.log2_spec x ltac:(lia)) as Hlog.
  pose proof (Z.log2_nonneg x) as Hnn.
  assert (Hlt : Z.log2 x < D) by (apply Z.log2_lt_pow2; lia).
  apply (below_of_range _ 1 x (Z.to_nat (Z.log2 x))); [lia|lia|].
  rewrite Z2Nat.id by lia. rewrite Z.pow_succ_r in Hlog by lia. lia.
Qed.

(** The constructor is [split] at the root, then [finish]. *)
Lemma Palette_new_unfold (last_frame : option (list Z)) (next_frame : list Z)
    (width height bit_depth : Z) (dither : bool) :
  1 <= bit_depth <= 8 ->
  0 <= width * height < 2 ^ 48 ->
  4 * (width * height) <= Z.of_nat (length next_frame) ->
  bytes next_frame ->
  2 ^ bit_depth - 1
  <= Z.of_nat (length (palette_input last_frame next_frame (width * height))) ->
  exists image n selt dist,
    split_pre bit_depth (Z.to_nat bit_depth) image 0 n 1 (2 ^ bit_depth) selt dist 1
    /\ forall uninit,
         Palette_new uninit last_frame next_frame width height bit_depth dither
         = let* (pal, _) :=
             split (S (Z.to_nat bit_depth)) (set_bit_depth uninit bit_depth) image 0 n
               1 (2 ^ bit_depth) selt dist 1 dither in
           Ok (set_color
                 (set_tree_split_elt
                    (set_tree_split pal (Z.shiftl 1 (bit_depth - 1)) 0)
                    (Z.shiftl 1 (bit_depth - 1)) 0) 0 (0, 0, 0)).
Proof.
  intros HD Hn Hlen Hbytes Henough.
  set (n := width * height) in *.
  pose proof (palette_input_pixels last_frame next_frame n ltac:(lia) Hlen) as Hin.
  cbv zeta in Hin.
  assert (H64 : 2 ^ 48 * 4 < 2 ^ 64) by reflexivity.
  assert (Hp : 0 < 2 ^ bit_depth) by (apply pow2_pos; lia).
  destruct (match last_frame with
            | Some last_frame0 =>
                pick_changed_pixels last_frame0 (copy_image next_frame (4 * n)) n
            | None => (copy_image next_frame (4 * n), n)
            end) as [image n'] eqn:Ein.
  destruct Hin as (Hn' & Hle & Hlen' & Hpix).
  exists image, n', (Z.quot (Z.shiftl 1 bit_depth) 2),
    (Z.quot (Z.quot (Z.shiftl 1 bit_depth) 2) 2).
  split.
  - unfold split_pre. split; [exact HD|]. split.
    { unfold at_level. rewrite Z2Nat.id, Z.sub_diag by lia. simpl. lia. }
    split. { unfold node_first, node_lo. rewrite Z2Nat.id by lia. lia. }
    split. { unfold node_last, node_lo. rewrite Z2Nat.id by lia. lia. }
    split.
    { intros j Ej. rewrite Z.shiftl_1_l.
      assert (Eb : bit_depth = Z.succ (Z.of_nat j)) by lia.
      pose proof (pow2_pos (Z.of_nat j) ltac:(lia)) as Hpj.
      rewrite Eb, Z.pow_succ_r by lia.
      rewrite Z.quot_div_nonneg by lia.
      replace (2 * 2 ^ Z.of_nat j) with (2 ^ Z.of_nat j * 2) by lia.
      rewrite Z.div_mul by lia.
      rewrite Z.quot_div_nonneg by lia. lia. }
    split; [lia|]. split; [lia|]. split; [lia|]. split; [lia|].
    intros i c Hi Hc. destruct (Hpix i Hi) as (k & _ & Ek).
    rewrite (Ek c Hc). apply bytes_rd, Hbytes.
  - intros uninit. unfold Palette_new. rewrite depth_guard by exact HD. fold n.
    replace (n * 4) with (4 * n) by lia.
    rewrite !usize_small by lia. rewrite Ein, Z.shiftl_1_l. reflexivity.
Qed.

Lemma Palette_new_rel (uninit uninit' : Palette.t) (last_frame : option (list Z))
    (next_frame : list Z) (width height bit_depth : Z) (dither : bool) :
  1 <= bit_depth <= 8 -> pal_wf uninit -> pal_wf uninit' ->
  0 <= width * height < 2 ^ 48 ->
  4 * (width * height) <= Z.of_nat (length next_frame) ->
  bytes next_frame ->
  2 ^ bit_depth - 1
  <= Z.of_nat (length (palette_input last_frame next_frame (width * height))) ->
  exists pal pal',
    Palette_new uninit last_frame next_frame width height bit_depth dither = Ok pal
    /\ Palette_new uninit' last_frame next_frame width height bit_depth dither = Ok pal'
    /\ Palette.bit_depth pal = bit_depth
    /\ region_eq pal pal'.
Proof.
  intros HD Hwf Hwf' Hn Hlen Hbytes Henough.
  destruct (Palette_new_unfold last_frame next_frame width height bit_depth dither
              HD Hn Hlen Hbytes Henough) as (image & n & selt & dist & Hpre & Hnew).
  rewrite !Hnew.
  set (pal0 := set_bit_depth uninit bit_depth).
  set (pal0' := set_bit_depth uninit' bit_depth).
  assert (Hwf0 : pal_wf pal0) by exact Hwf.
  assert (Hwf0' : pal_wf pal0') by exact Hwf'.
  destruct (split_spec_pre (Z.to_nat bit_depth) (S (Z.to_nat bit_depth)) pal0 image 0 n
              1 (2 ^ bit_depth) selt dist 1 dither ltac:(lia) Hwf0 Hpre)
    as (pal1 & image1 & Hrun & Hpost).
  destruct (split_spec_pre (Z.to_nat bit_depth) (S (Z.to_nat bit_depth)) pal0' image 0 n
              1 (2 ^ bit_depth) selt dist 1 dither ltac:(lia) Hwf0' Hpre)
    as (pal1' & image1' & Hrun' & Hpost').
  destruct (split_rel (Z.to_nat bit_depth) (S (Z.to_nat bit_depth)) pal0 pal0' image 0 n
              1 (2 ^ bit_depth) selt dist 1 dither pal1 pal1' image1 image1'
              ltac:(lia) Hwf0 Hwf0' eq_refl Hpre Hrun Hrun') as (_ & Hent & Htree).
  rewrite Hrun, Hrun'. cbn [bind].
  destruct Hpost as (_ & _ & _ & Hwf1 & HD1 & _).
  destruct Hpost' as (_ & _ & _ & Hwf1' & HD1' & _).
  change (Palette.bit_depth pal0) with bit_depth in HD1, Htree.
  change (Palette.bit_depth pal0') with bit_depth in HD1'.
  exists (finish pal1), (finish pal1').
  split; [unfold finish; rewrite HD1; reflexivity|].
  split; [unfold finish; rewrite HD1'; reflexivity|].
  split; [exact HD1|].
  unfold region_eq. rewrite !finish_depth, HD1, HD1'.
  split; [reflexivity|]. split.
  - intros c e He. destruct (Z.eq_dec e 0) as [->|Hne].
    + unfold finish. rewrite !entry_set_color
        by (try apply set_tree_split_elt_wf, set_tree_split_wf; assumption || lia).
      reflexivity.
    + rewrite !finish_entry by (assumption || lia). apply Hent. lia.
  - intros x Hx.
    destruct (finish_tree pal1 x Hwf1 ltac:(lia) ltac:(lia)) as [-> ->].
    destruct (finish_tree pal1' x Hwf1' ltac:(lia) ltac:(lia)) as [-> ->].
    rewrite HD1, HD1'.
    destruct (Z.eqb_spec x (2 ^ (bit_depth - 1))) as [_|Hne]; [split; reflexivity|].
    apply Htree; [apply below_root; exact Hx|exact Hne].
Qed.

(** *** A frame reads the palette only inside the region *)

Lemma region_rgb (pal pal' : Palette.t) (e : Z) :
  region_eq pal pal' -> 0 <= e < 2 ^ Palette.bit_depth pal ->
  rd (Palette.r pal') e = rd (Palette.r pal) e
  /\ rd (Palette.g pal') e = rd (Palette.g pal) e
  /\ rd (Palette.b pal') e = rd (Palette.b pal) e.
Proof.
  intros (_ & Hent & _) He.
  split; [exact (Hent 0 e He)|]. split; [exact (Hent 1 e He)|exact (Hent 2 e He)].
Qed.

Lemma closest_rel (pal pal' : Palette.t) (r g b : Z) :
  region_eq pal pal' -> 0 <= Palette.bit_depth pal ->
  forall (fuel : nat) (best : Z * Z) (m : Z),
    1 <= m < 2 * 2 ^ Palette.bit_depth pal ->
    get_closest_pallete_color fuel pal' r g b best m
    = get_closest_pallete_color fuel pal r g b best m.
Proof.
  intros Hreg HD. pose proof Hreg as (HD' & Hent & Htree).
  pose proof (pow2_pos _ HD) as Hp.
  induction fuel as [|fuel IH]; intros best m Hm; [reflexivity|].
  destruct (Z_lt_le_dec m (2 ^ Palette.bit_depth pal)) as [Hnode|Hleaf].
  - rewrite (closest_node pal) by exact Hnode.
    rewrite (closest_node pal') by (rewrite HD'; exact Hnode).
    destruct (Htree m ltac:(lia)) as [-> ->].
    destruct (comps r g b _) as [q|]; [|reflexivity]. cbn [bind]. cbv zeta.
    rewrite !IH by lia.
    destruct (_ >? _).
    + destruct (get_closest_pallete_color fuel pal r g b best (m * 2)) as [b1|];
        [|reflexivity].
      cbn [bind]. rewrite IH by lia. reflexivity.
    + destruct (get_closest_pallete_color fuel pal r g b best (m * 2 + 1)) as [b1|];
        [|reflexivity].
      cbn [bind]. rewrite IH by lia. reflexivity.
  - rewrite (closest_leaf pal) by exact Hleaf.
    rewrite (closest_leaf pal') by (rewrite HD'; exact Hleaf).
    rewrite HD'.
    destruct (Z.eqb_spec m (2 ^ Palette.bit_depth pal)); [reflexivity|].
    assert (E : leaf_diff pal' r g b (m - 2 ^ Palette.bit_depth pal)
                = leaf_diff pal r g b (m - 2 ^ Palette.bit_depth pal)).
    { unfold leaf_diff.
      destruct (region_rgb pal pal' (m - 2 ^ Palette.bit_depth pal) Hreg ltac:(lia))
        as (-> & -> & ->). reflexivity. }
    rewrite E. reflexivity.
Qed.

Lemma closest_from_root_rel (pal pal' : Palette.t) (r g b best_ind : Z) :
  region_eq pal pal' -> 1 <= Palette.bit_depth pal ->
  closest_from_root pal' r g b best_ind = closest_from_root pal r g b best_ind.
Proof.
  intros Hreg HD. unfold closest_from_root. rewrite (proj1 Hreg).
  apply closest_rel; [exact Hreg|lia|].
  pose proof (pow2_pos (Palette.bit_depth pal) ltac:(lia)). lia.
Qed.

(** The index a query returns, started with index 0 or 1, lies in the
    region. *)
Lemma closest_from_root_index (pal : Palette.t) (r g b best_ind : Z) (best : Z * Z) :
  1 <= Palette.bit_depth pal -> 0 <= best_ind <= 1 ->
  closest_from_root pal r g b best_ind = Ok best ->
  0 <= fst best < 2 ^ Palette.bit_depth pal.
Proof.
  intros HD Hbi Hq.
  apply closest_from_root_improves in Hq; [|lia].
  assert (2 ^ 1 <= 2 ^ Palette.bit_depth pal) by (apply Z.pow_le_mono_r; lia).
  destruct Hq as [->|Hq]; cbn [fst] in *; lia.
Qed.

Lemma threshold_pixel_rel (last_frame : frame_ptr) (next_frame : list Z)
    (pal pal' : Palette.t) (i : Z) (out : list Z) :
  region_eq pal pal' -> 1 <= Palette.bit_depth pal ->
  threshold_pixel last_frame next_frame pal' i out
  = threshold_pixel last_frame next_frame pal i out.
Proof.
  intros Hreg HD. unfold threshold_pixel.
  destruct (_ && _); [reflexivity|].
  rewrite (closest_from_root_rel pal pal') by assumption.
  destruct (closest_from_root pal _ _ _ 1) as [best|] eqn:Hq; [|reflexivity].
  cbn [bind]. cbv zeta.
  pose proof (closest_from_root_index pal _ _ _ 1 best HD ltac:(lia) Hq) as Hind.
  destruct (region_rgb pal pal' (fst best) Hreg Hind) as (-> & -> & ->).
  reflexivity.
Qed.

Lemma dither_pixel_rel (last_frame : frame_ptr) (last : list Z)
    (pal pal' : Palette.t) (num_pixels width y x : Z) (q : list Z) :
  region_eq pal pal' -> 1 <= Palette.bit_depth pal ->
  dither_pixel last_frame last pal' num_pixels width y x q
  = dither_pixel last_frame last pal num_pixels width y x q.
Proof.
  intros Hreg HD. unfold dither_pixel. cbv zeta.
  destruct (_ && _); [reflexivity|].
  rewrite (closest_from_root_rel pal pal') by assumption.
  destruct (closest_from_root pal _ _ _ transparency_index) as [best|] eqn:Hq;
    [|reflexivity].
  cbn [bind].
  pose proof (closest_from_root_index pal _ _ _ transparency_index best HD
                ltac:(unfold transparency_index; lia) Hq) as Hind.
  destruct (region_rgb pal pal' (fst best) Hreg Hind) as (-> & -> & ->).
  reflexivity.
Qed.

Lemma for_loop_ext {T : Type} (body body' : Z -> T -> result T) :
  (forall j t, body' j t = body j t) ->
  forall (n : nat) (i : Z) (s : T), for_loop n i body' s = for_loop n i body s.
Proof.
  intros Hext. induction n as [|n IH]; intros i s; [reflexivity|].
  cbn [for_loop]. rewrite Hext. destruct (body i s) as [t|]; [|reflexivity].
  cbn [bind]. apply IH.
Qed.

Lemma quantize_rel (dither : bool) (last_frame : frame_ptr)
    (next_frame out_frame : list Z) (width height : Z) (pal pal' : Palette.t) :
  region_eq pal pal' -> 1 <= Palette.bit_depth pal ->
  (if dither then dither_image last_frame next_frame out_frame width height pal'
   else threshold_image last_frame next_frame out_frame width height pal')
  = (if dither then dither_image last_frame next_frame out_frame width height pal
     else threshold_image last_frame next_frame out_frame width height pal).
Proof.
  intros Hreg HD. destruct dither.
  - unfold dither_image, dither_rows.
    rewrite (for_loop_ext
               (fun y q => for_loop (Z.to_nat width) 0
                             (dither_pixel last_frame (deref last_frame out_frame) pal
                                (usize (width * height)) width y) q)); [reflexivity|].
    intros y q. apply for_loop_ext. intros x t.
    apply dither_pixel_rel; assumption.
  - unfold threshold_image. apply for_loop_ext. intros i t.
    apply threshold_pixel_rel; assumption.
Qed.

Lemma color_table_rel (pal pal' : Palette.t) :
  region_eq pal pal' -> 0 <= Palette.bit_depth pal ->
  color_table pal' (Z.to_nat (2 ^ Palette.bit_depth pal - 1))
  = color_table pal (Z.to_nat (2 ^ Palette.bit_depth pal - 1)).
Proof.
  intros Hreg HD. unfold color_table. f_equal. f_equal.
  apply list_fmap_ext. intros k i Hi.
  apply list_elem_of_lookup_2, elem_of_seqZ in Hi.
  pose proof (pow2_pos _ HD).
  destruct (region_rgb pal pal' i Hreg ltac:(lia)) as (-> & -> & ->). reflexivity.
Qed.

Lemma write_lzw_image_rel (chunk0 f image : list Z)
    (left top width height delay : Z) (pal pal' : Palette.t) :
  region_eq pal pal' -> 0 <= Palette.bit_depth pal ->
  write_lzw_image chunk0 f image left top width height delay pal'
  = write_lzw_image chunk0 f image left top width height delay pal.
Proof.
  intros Hreg HD. unfold write_lzw_image, write_frame_header.
  rewrite !Palette_write_table, (proj1 Hreg), Z.shiftl_1_l.
  rewrite (color_table_rel pal pal' Hreg HD). reflexivity.
Qed.

Lemma write_frame_rel (u u' : uninit) (w : Writer.t)
    (image : list Z) (width height delay bit_depth : Z) (dither : bool) :
  1 <= bit_depth <= 8 ->
  pal_wf (uninit_pal u) -> pal_wf (uninit_pal u') ->
  length (uninit_chunk u) = 256%nat -> length (uninit_chunk u') = 256%nat ->
  0 <= width * height < 2 ^ 48 ->
  4 * (width * height) <= Z.of_nat (length image) ->
  bytes image ->
  2 ^ bit_depth - 1
  <= Z.of_nat (length (palette_input
                         (if dither || Writer.first_frame w then None
                          else Some (default [] (Writer.old_image w)))
                         image (width * height))) ->
  write_frame u' w image width height delay bit_depth dither
  = write_frame u w image width height delay bit_depth dither.
Proof.
  intros HD Hwf Hwf' Hc Hc' Hn Hlen Hbytes Henough.
  unfold write_frame. destruct (Writer.f w) as [f|]; [|reflexivity].
  destruct (Palette_new_rel (uninit_pal u) (uninit_pal u')
              (if dither || Writer.first_frame w then None
               else Some (default [] (Writer.old_image w)))
              image width height bit_depth dither HD Hwf Hwf' Hn Hlen Hbytes Henough)
    as (pal & pal' & Hpal & Hpal' & Hd & Hreg).
  rewrite Hpal, Hpal'. cbn [bind].
  rewrite (quantize_rel dither _ image _ width height pal pal' Hreg ltac:(lia)).
  destruct (if dither then _ else _) as [buf|]; [|reflexivity].
  cbn [bind].
  rewrite (write_lzw_image_rel _ f buf 0 0 width height delay pal pal' Hreg ltac:(lia)).
  rewrite (write_lzw_image_chunk (uninit_chunk u) (uninit_chunk u') f buf 0 0
             width height delay pal Hc Hc').
  reflexivity.
Qed.

Lemma demo_uninit_99_wf : pal_wf (uninit_pal demo_uninit_99).
Proof.
  unfold pal_wf, bytes, demo_uninit_99.
  cbn [uninit_pal Palette.r Palette.g Palette.b Palette.tree_split_elt
       Palette.tree_split].
  repeat split; first [apply length_replicate | apply Forall_replicate; lia].
Qed.

(** X20. with enough pixels the output does not depend on uninitialised
    memory.  The constructor leaves the five arrays of a palette
    uninitialised, and [write_lzw_image] its chunk buffer; when the frame
    offers at least 2^bit_depth - 1 pixels to build the palette from,
    [split] and the constructor write every entry below 2^bit_depth and
    every tree node from 1 below 2^bit_depth, which is all the quantizers,
    the colour table and the encoder read, and only written cells of the
    chunk buffer reach the file: a call that is defined (the frame fits
    the buffer of the writer, no [i32] overflows) returns the same flag,
    the same file and the same previous-frame buffer whatever the arrays
    held before. *)
Theorem write_frame_ignores_uninitialised_memory :
  forall (u u' : uninit) (w : Writer.t)
         (image : list Z) (width height delay bit_depth : Z) (dither : bool)
         (r : bool * Writer.t),
    1 <= bit_depth <= 8 ->
    pal_wf (uninit_pal u) -> pal_wf (uninit_pal u') ->
    length (uninit_chunk u) = 256%nat -> length (uninit_chunk u') = 256%nat ->
    0 <= width * height < 2 ^ 48 ->
    4 * (width * height) <= Z.of_nat (length image) ->
    bytes image ->
    2 ^ bit_depth - 1
    <= Z.of_nat (length (palette_input
                           (if dither || Writer.first_frame w then None
                            else Some (default [] (Writer.old_image w)))
                           image (width * height))) ->
    write_frame u w image width height delay bit_depth dither = Ok r ->
    write_frame u' w image width height delay bit_depth dither = Ok r.
Proof.
  intros u u' w image width height delay bit_depth dither r
    HD Hwf Hwf' Hc Hc' Hn Hlen Hbytes Henough Hrun.
  rewrite (write_frame_rel u u' w image width height delay bit_depth dither
             HD Hwf Hwf' Hc Hc' Hn Hlen Hbytes Henough).
  exact Hrun.
Qed.

Lemma write_frame_ignores_uninitialised_memory_witness :
  let w := Writer.mk (Some []) (Some (replicate 12 0)) false in
  1 <= 2 <= 8 /\ pal_wf (uninit_pal demo_uninit) /\ pal_wf (uninit_pal demo_uninit_99)
  /\ length (uninit_chunk demo_uninit) = 256%nat
  /\ length (uninit_chunk demo_uninit_99) = 256%nat
  /\ 0 <= 3 * 1 < 2 ^ 48
  /\ 4 * (3 * 1) <= Z.of_nat (length demo_frame_rgb)
  /\ bytes demo_frame_rgb
  /\ 2 ^ 2 - 1
     <= Z.of_nat (length (palette_input
                            (if true || Writer.first_frame w then None
                             else Some (default [] (Writer.old_image w)))
                            demo_frame_rgb (3 * 1)))
  /\ exists r,
       write_frame demo_uninit w demo_frame_rgb 3 1 0 2 true = Ok r
       /\ write_frame demo_uninit_99 w demo_frame_rgb 3 1 0 2 true = Ok r.
Proof.
  intros w.
  assert (H1 : 1 <= 2 <= 8) by lia.
  assert (H2 : length (uninit_chunk demo_uninit) = 256%nat) by reflexivity.
  assert (H2' : length (uninit_chunk demo_uninit_99) = 256%nat) by reflexivity.
  assert (H3 : 0 <= 3 * 1 < 2 ^ 48) by (split; [lia|reflexivity]).
  assert (H4 : 4 * (3 * 1) <= Z.of_nat (length demo_frame_rgb)) by (simpl; lia).
  assert (H5 : 2 ^ 2 - 1
               <= Z.of_nat (length (palette_input
                      (if true || Writer.first_frame w then None
                       else Some (default [] (Writer.old_image w)))
                      demo_frame_rgb (3 * 1))))
    by (vm_compute; discriminate).
  split; [exact H1|]. split; [exact demo_uninit_wf|]. split; [exact demo_uninit_99_wf|].
  split; [exact H2|]. split; [exact H2'|].
  split; [exact H3|]. split; [exact H4|].
  split; [exact demo_frame_rgb_bytes|]. split; [exact H5|].
  destruct (write_frame demo_uninit w demo_frame_rgb 3 1 0 2 true) as [r|] eqn:Hrun;
    [|vm_compute in Hrun; discriminate].
  exists r. split; [reflexivity|].
  exact (write_frame_ignores_uninitialised_memory demo_uninit demo_uninit_99 w
           demo_frame_rgb 3 1 0 2 true r
           H1 demo_uninit_wf demo_uninit_99_wf H2 H2' H3 H4 demo_frame_rgb_bytes H5
           Hrun).
Defined.

Lemma u32_small (v : Z) : 0 <= v < 2 ^ 32 -> u32 v = v.
Proof. intros Hv. unfold u32. apply Z.mod_small. exact Hv. Qed.

Lemma codetree_next_insert (ct : gmap (Z * Z) Z) (c v c' v' x : Z) :
  codetree_next (<[(c, v) := x]> ct) c' v'
  = if decide ((c, v) = (c', v')) then x else codetree_next ct c' v'.
Proof.
  unfold codetree_next. destruct (decide ((c, v) = (c', v'))) as [->|Hne].
  - rewrite lookup_insert_eq. reflexivity.
  - rewrite lookup_insert_ne by exact Hne. reflexivity.
Qed.

Lemma lzw_step_codes (D next_value : Z) (t : gmap (Z * Z) Z * Z * Z * Z) :
  1 <= D <= 8 -> 0 <= next_value < 2 ^ D -> codes_inv D t ->
  let '(t', new) := lzw_step D (u32 (Z.shiftl 1 D)) next_value t in
  codes_inv D t' /\ 0 <= snd (fst (fst t')) /\ Forall (code_ok D) new.
Proof.
  intros HD Hv. destruct t as [[[ct curr] size] mx].
  intros (Hcurr & Hmax & Hsize & Hfit & Hct).
  assert (Hp : 2 <= 2 ^ D <= 256).
  { split.
    - change 2 with (2 ^ 1) at 1. apply Z.pow_le_mono_r; lia.
    - change 256 with (2 ^ 8). apply Z.pow_le_mono_r; lia. }
  assert (Hclear : u32 (Z.shiftl 1 D) = 2 ^ D).
  { rewrite shiftl_1 by lia. apply u32_small.
    split; [lia|]. apply (Z.le_lt_trans _ 256); [lia|reflexivity]. }
  assert (Hsz : 2 ^ (D + 1) <= 2 ^ size) by (apply Z.pow_le_mono_r; lia).
  assert (HpS : 2 ^ (D + 1) = 2 * 2 ^ D) by (apply Z.pow_succ_r; lia).
  unfold lzw_step. rewrite Hclear.
  destruct (Z.ltb_spec curr 0) as [Hneg|Hpos].
  { cbn [fst snd]. split; [|split; [lia|constructor]].
    unfold codes_inv. split; [lia|]. split; [lia|]. split; [lia|]. split; [lia|].
    exact Hct. }
  destruct (Z.eqb_spec (codetree_next ct curr next_value) 0) as [Habs|Hin]; cbn [negb].
  2:{ cbn [fst snd]. pose proof (Hct curr next_value) as Hn.
      split; [|split; [lia|constructor]].
      unfold codes_inv. split; [lia|]. split; [lia|]. split; [lia|]. split; [lia|].
      exact Hct. }
  assert (Hm1 : u32 (mx + 1) = mx + 1).
  { apply u32_small. split; [lia|]. apply (Z.lt_trans _ 4096); [lia|reflexivity]. }
  assert (Hcu : u32 curr = curr).
  { apply u32_small. split; [lia|]. apply (Z.lt_trans _ 4096); [lia|reflexivity]. }
  rewrite Hm1, Hcu.
  assert (Hsize1 :
    let size1 := if mx + 1 >=? Z.shiftl 1 size then u32 (size + 1) else size in
    D + 1 <= size1 <= 12 /\ size <= size1 /\ (mx + 1 < 4095 -> mx + 1 < 2 ^ size1)).
  { cbv zeta. rewrite shiftl_1 by lia.
    destruct (Z.geb_spec (mx + 1) (2 ^ size)) as [Hbump|Hkeep].
    - rewrite u32_small by (split; [lia|]; apply (Z.lt_trans _ 14); [lia|reflexivity]).
      assert (size < 12).
      { destruct (Z.eq_dec size 12) as [->|]; [|lia].
        change (2 ^ 12) with 4096 in *. lia. }
      replace (size + 1) with (Z.succ size) by lia.
      rewrite Z.pow_succ_r by lia. lia.
    - lia. }
  cbv zeta in Hsize1.
  set (size1 := if mx + 1 >=? Z.shiftl 1 size then u32 (size + 1) else size) in *.
  destruct Hsize1 as (Hs1 & Hs2 & Hs3).
  assert (Hcode : code_ok D (curr, size)).
  { unfold code_ok. cbn [fst snd]. lia. }
  destruct (Z.eqb_spec (mx + 1) 4095) as [Hfull|Hroom].
  - cbn [fst snd].
    rewrite !u32_small
      by (split; [lia|]; apply (Z.lt_trans _ 4096); [lia|reflexivity]).
    split; [|split; [lia|]].
    + unfold codes_inv. split; [lia|]. split; [lia|]. split; [lia|]. split; [lia|].
      intros c v. unfold codetree_next. rewrite lookup_empty. cbn. lia.
    + constructor; [exact Hcode|]. constructor; [|constructor].
      unfold code_ok. cbn [fst snd].
      assert (2 ^ (D + 1) <= 2 ^ size1) by (apply Z.pow_le_mono_r; lia). lia.
  - cbn [fst snd]. split; [|split; [lia|]].
    + unfold codes_inv. split; [lia|]. split; [lia|]. split; [lia|]. split; [lia|].
      intros c v. rewrite codetree_next_insert.
      destruct (decide _); [|pose proof (Hct c v); lia].
      rewrite Z.mod_small by lia. lia.
    + constructor; [exact Hcode|constructor].
Qed.

Lemma for_pure_id {T : Type} (body : Z -> T -> T) :
  (forall j t, body j t = t) ->
  forall (n : nat) (i : Z) (s : T), for_pure n i body s = s.
Proof.
  intros Hid. induction n as [|n IH]; intros i s; [reflexivity|].
  cbn [for_pure]. rewrite Hid. apply IH.
Qed.

(** The loops of [lzw_codes], with the codes gathered so far. *)
Lemma lzw_loops_codes (image : list Z) (width : Z) (height : nat) (D : Z) :
  1 <= D <= 8 ->
  (forall x y, 0 <= x < width -> 0 <= y < Z.of_nat height ->
               0 <= lzw_input image width y x < 2 ^ D) ->
  let '(t, codes) :=
    for_pure height 0
      (fun y acc =>
         for_pure (Z.to_nat width) 0
           (fun x acc =>
              let '(t, codes) := acc in
              let '(t, new) :=
                lzw_step D (u32 (Z.shiftl 1 D)) (lzw_input image width y x) t in
              (t, codes ++ new))
           acc)
      (∅, -1, u32 (D + 1), u32 (u32 (Z.shiftl 1 D) + 1),
       [(u32 (Z.shiftl 1 D), u32 (D + 1))]) in
  codes_inv D t /\ Forall (code_ok D) codes
  /\ (0 < Z.of_nat height -> 0 < width -> 0 <= snd (fst (fst t))).
Proof.
  intros HD Hsym.
  assert (Hp : 2 <= 2 ^ D <= 256).
  { split.
    - change 2 with (2 ^ 1) at 1. apply Z.pow_le_mono_r; lia.
    - change 256 with (2 ^ 8). apply Z.pow_le_mono_r; lia. }
  assert (Hclear : u32 (Z.shiftl 1 D) = 2 ^ D).
  { rewrite shiftl_1 by lia. apply u32_small.
    split; [lia|]. apply (Z.le_lt_trans _ 256); [lia|reflexivity]. }
  assert (HpS : 2 ^ (D + 1) = 2 * 2 ^ D) by (apply Z.pow_succ_r; lia).
  assert (Hsz : u32 (D + 1) = D + 1).
  { apply u32_small. split; [lia|]. apply (Z.lt_trans _ 10); [lia|reflexivity]. }
  assert (Hmx : u32 (2 ^ D + 1) = 2 ^ D + 1).
  { apply u32_small. split; [lia|]. apply (Z.lt_trans _ 258); [lia|reflexivity]. }
  set (Q := fun (y : Z) (acc : gmap (Z * Z) Z * Z * Z * Z * list (Z * Z)) =>
              codes_inv D (fst acc) /\ Forall (code_ok D) (snd acc)
              /\ (0 < y -> 0 < width -> 0 <= snd (fst (fst (fst acc))))).
  match goal with |- context [for_pure height 0 ?body ?s] =>
    pose proof (for_pure_inv Q body height 0 s) as Hloop
  end.
  rewrite Z.add_0_l in Hloop.
  match type of Hloop with _ -> _ -> Q _ ?r => destruct r as [t codes] end.
  apply Hloop; clear Hloop.
  - unfold Q. cbn [fst snd]. rewrite Hclear, Hsz, Hmx.
    split; [|split; [|lia]].
    + unfold codes_inv. split; [lia|]. split; [lia|]. split; [lia|]. split; [lia|].
      intros c v. unfold codetree_next. rewrite lookup_empty. cbn. lia.
    + constructor; [|constructor]. unfold code_ok. cbn [fst snd]. lia.
  - intros y acc Hy HQ.
    set (R := fun (x : Z) (acc : gmap (Z * Z) Z * Z * Z * Z * list (Z * Z)) =>
                codes_inv D (fst acc) /\ Forall (code_ok D) (snd acc)
                /\ ((0 < y /\ 0 < width) \/ 0 < x -> 0 <= snd (fst (fst (fst acc))))).
    match goal with |- Q _ (for_pure ?n 0 ?body acc) =>
      pose proof (for_pure_inv R body n 0 acc) as Hrow
    end.
    rewrite Z.add_0_l in Hrow.
    assert (HR : R (Z.of_nat (Z.to_nat width))
                   (for_pure (Z.to_nat width) 0
                      (fun x acc0 =>
                         let '(t0, codes0) := acc0 in
                         let '(t1, new) :=
                           lzw_step D (u32 (Z.shiftl 1 D))
                             (lzw_input image width y x) t0 in
                         (t1, codes0 ++ new)) acc)).
    { apply Hrow.
      - destruct HQ as (H1 & H2 & H3). unfold R. split; [exact H1|].
        split; [exact H2|]. intros [[Hy0 Hw]|Hx]; [apply H3; assumption|lia].
      - intros x [t0 codes0] Hx (H1 & H2 & H3). cbn [fst snd] in H1, H2, H3.
        pose proof (lzw_step_codes D (lzw_input image width y x) t0 HD
                      ltac:(apply Hsym; lia) H1) as Hstep.
        destruct (lzw_step D (u32 (Z.shiftl 1 D)) (lzw_input image width y x) t0)
          as [t1 new].
        destruct Hstep as (S1 & S2 & S3).
        unfold R. cbn [fst snd]. split; [exact S1|].
        split; [apply Forall_app; split; assumption|]. intros _. exact S2. }
    destruct HR as (H1 & H2 & H3). unfold Q. split; [exact H1|]. split; [exact H2|].
    intros _ Hw. apply H3. right. lia.
Qed.

Lemma lzw_codes_spec (image : list Z) (width height : Z) (pal : Palette.t) :
  1 <= Palette.bit_depth pal <= 8 ->
  (forall x y, 0 <= x < width -> 0 <= y < height ->
               0 <= lzw_input image width y x < 2 ^ Palette.bit_depth pal) ->
  (1 <= width -> 1 <= height ->
   Forall (code_ok (Palette.bit_depth pal)) (lzw_codes image width height pal))
  /\ (width <= 0 \/ height <= 0 ->
      lzw_codes image width height pal
      = [(2 ^ Palette.bit_depth pal, Palette.bit_depth pal + 1);
         (2 ^ 32 - 1, Palette.bit_depth pal + 1);
         (2 ^ Palette.bit_depth pal, Palette.bit_depth pal + 1);
         (2 ^ Palette.bit_depth pal + 1, Palette.bit_depth pal + 1)]).
Proof.
  intros HD Hsym. set (D := Palette.bit_depth pal) in *.
  assert (Hp : 2 <= 2 ^ D <= 256).
  { split.
    - change 2 with (2 ^ 1) at 1. apply Z.pow_le_mono_r; lia.
    - change 256 with (2 ^ 8). apply Z.pow_le_mono_r; lia. }
  assert (Hclear : u32 (Z.shiftl 1 D) = 2 ^ D).
  { rewrite shiftl_1 by lia. apply u32_small.
    split; [lia|]. apply (Z.le_lt_trans _ 256); [lia|reflexivity]. }
  assert (Hsz : u32 (D + 1) = D + 1).
  { apply u32_small. split; [lia|]. apply (Z.lt_trans _ 10); [lia|reflexivity]. }
  assert (Hmx : u32 (2 ^ D + 1) = 2 ^ D + 1).
  { apply u32_small. split; [lia|]. apply (Z.lt_trans _ 258); [lia|reflexivity]. }
  split.
  - intros Hw Hh.
    pose proof (lzw_loops_codes image width (Z.to_nat height) D HD) as Hloop.
    unfold lzw_codes. fold D.
    destruct (for_pure (Z.to_nat height) 0 _ _) as [[[[ct curr] size] mx] codes].
    destruct Hloop as (Hinv & Hcodes & Hcurr).
    { intros x y Hx Hy. apply Hsym; lia. }
    cbn [fst snd] in Hcurr. specialize (Hcurr ltac:(lia) ltac:(lia)).
    destruct Hinv as (Hc & Hm & Hs & Hfit & _).
    assert (Hpow : 2 ^ (D + 1) <= 2 ^ size) by (apply Z.pow_le_mono_r; lia).
    assert (HpS : 2 ^ (D + 1) = 2 * 2 ^ D) by (apply Z.pow_succ_r; lia).
    apply Forall_app. split; [exact Hcodes|].
    rewrite Hclear, Hsz, Hmx.
    rewrite (u32_small curr)
      by (split; [lia|]; apply (Z.lt_trans _ 4096); [lia|reflexivity]).
    repeat constructor; cbn [fst snd]; lia.
  - intros Hempty. unfold lzw_codes. fold D.
    assert (E : for_pure (Z.to_nat height) 0
                  (fun y acc =>
                     for_pure (Z.to_nat width) 0
                       (fun x acc0 =>
                          let '(t, codes) := acc0 in
                          let '(t0, new) :=
                            lzw_step D (u32 (Z.shiftl 1 D))
                              (lzw_input image width y x) t in
                          (t0, codes ++ new)) acc)
                  (∅, -1, u32 (D + 1), u32 (u32 (Z.shiftl 1 D) + 1),
                   [(u32 (Z.shiftl 1 D), u32 (D + 1))])
                = (∅, -1, u32 (D + 1), u32 (u32 (Z.shiftl 1 D) + 1),
                   [(u32 (Z.shiftl 1 D), u32 (D + 1))])).
    { destruct (Z.le_gt_cases height 0) as [Hh|Hh].
      - replace (Z.to_nat height) with 0%nat by lia. reflexivity.
      - assert (Hw : Z.to_nat width = 0%nat) by lia. rewrite Hw.
        apply for_pure_id. reflexivity. }
    rewrite E. rewrite Hclear, Hsz, Hmx. reflexivity.
Qed.

(** X21. every code of a frame fits the width it is written in.  For a bit
    depth from 1 to 8 and a frame of at least one pixel whose symbols are
    below 2^bit_depth, each code of the image data is non-negative and below
    2^width, and each width lies between bit_depth + 1 and 12: no bit of a
    code is cut off.  A frame without pixels is the exception: its final run
    is the code -1, written as 2^32 - 1 in bit_depth + 1 bits. *)
Theorem lzw_codes_fit_their_width :
  forall (image : list Z) (width height : Z) (pal : Palette.t),
    1 <= Palette.bit_depth pal <= 8 ->
    (forall x y, 0 <= x < width -> 0 <= y < height ->
                 0 <= lzw_input image width y x < 2 ^ Palette.bit_depth pal) ->
    (1 <= width -> 1 <= height ->
     Forall (code_ok (Palette.bit_depth pal)) (lzw_codes image width height pal))
    /\ (width <= 0 \/ height <= 0 ->
        lzw_codes image width height pal
        = [(2 ^ Palette.bit_depth pal, Palette.bit_depth pal + 1);
           (2 ^ 32 - 1, Palette.bit_depth pal + 1);
           (2 ^ Palette.bit_depth pal, Palette.bit_depth pal + 1);
           (2 ^ Palette.bit_depth pal + 1, Palette.bit_depth pal + 1)]).
Proof.
  intros image width height pal HD Hsym.
  exact (lzw_codes_spec image width height pal HD Hsym).
Qed.

Lemma lzw_codes_fit_their_width_witness :
  1 <= Palette.bit_depth demo_pal <= 8
  /\ (forall x y, 0 <= x < 3 -> 0 <= y < 1 ->
        0 <= lzw_input [0; 0; 0; 1; 0; 0; 0; 1; 0; 0; 0; 0] 3 y x
        < 2 ^ Palette.bit_depth demo_pal)
  /\ (1 <= 3 -> 1 <= 1 ->
      Forall (code_ok (Palette.bit_depth demo_pal))
        (lzw_codes [0; 0; 0; 1; 0; 0; 0; 1; 0; 0; 0; 0] 3 1 demo_pal))
  /\ (3 <= 0 \/ 1 <= 0 ->
      lzw_codes [0; 0; 0; 1; 0; 0; 0; 1; 0; 0; 0; 0] 3 1 demo_pal
      = [(2 ^ Palette.bit_depth demo_pal, Palette.bit_depth demo_pal + 1);
         (2 ^ 32 - 1, Palette.bit_depth demo_pal + 1);
         (2 ^ Palette.bit_depth demo_pal, Palette.bit_depth demo_pal + 1);
         (2 ^ Palette.bit_depth demo_pal + 1, Palette.bit_depth demo_pal + 1)]).
Proof.
  assert (H1 : 1 <= Palette.bit_depth demo_pal <= 8) by (simpl; lia).
  assert (H2 : forall x y, 0 <= x < 3 -> 0 <= y < 1 ->
             0 <= lzw_input [0; 0; 0; 1; 0; 0; 0; 1; 0; 0; 0; 0] 3 y x
             < 2 ^ Palette.bit_depth demo_pal).
  { intros x y Hx Hy. assert (y = 0) by lia. subst y.
    assert (Hc : x = 0 \/ x = 1 \/ x = 2) by lia.
    destruct Hc as [-> | [-> | ->]]; vm_compute; split; congruence. }
  split; [exact H1|]. split; [exact H2|].
  exact (lzw_codes_fit_their_width [0; 0; 0; 1; 0; 0; 0; 1; 0; 0; 0; 0] 3 1 demo_pal
           H1 H2).
Defined.

(** X22. the header of a frame.  [write_lzw_image] appends to the file a
    graphic control extension (disposal "leave in place" with the
    transparency flag, the delay modulo 65536, transparent index 0), an
    image descriptor whose four 16-bit fields hold left, top, width and
    height modulo 65536, a packed byte announcing a local colour table of
    2^bit_depth entries, and that table: 18 bytes and three per entry. *)
Theorem frame_header_layout :
  forall (f : list Z) (left top width height delay : Z) (pal : Palette.t),
    0 <= left -> 0 <= top -> 0 <= width -> 0 <= height -> 0 <= delay ->
    1 <= Palette.bit_depth pal <= 8 ->
    exists hdr,
      write_frame_header f left top width height delay pal = f ++ hdr
      /\ Z.of_nat (length hdr) = 18 + 3 * 2 ^ Palette.bit_depth pal
      /\ take 4 hdr = [0x21; 0xf9; 4; 5]
      /\ le16 hdr 4 = delay mod 65536
      /\ rd hdr 6 = transparency_index /\ rd hdr 7 = 0 /\ rd hdr 8 = 0x2c
      /\ le16 hdr 9 = left mod 65536 /\ le16 hdr 11 = top mod 65536
      /\ le16 hdr 13 = width mod 65536 /\ le16 hdr 15 = height mod 65536
      /\ rd hdr 17 = 0x80 + Palette.bit_depth pal - 1
      /\ drop 18 hdr = color_table pal (Z.to_nat (2 ^ Palette.bit_depth pal - 1)).
Proof.
  intros f left top width height delay pal Hl Ht Hw Hh Hd HD.
  unfold write_frame_header. rewrite Palette_write_table. unfold fputc.
  rewrite <- !app_assoc. cbn [app]. rewrite Z.shiftl_1_l.
  eexists. split; [reflexivity|].
  assert (Hp : 2 <= 2 ^ Palette.bit_depth pal).
  { change 2 with (2 ^ 1) at 1. apply Z.pow_le_mono_r; lia. }
  split.
  { cbn [length]. rewrite color_table_length. lia. }
  split; [reflexivity|].
  split; [cbn; apply le16_split; exact Hd|].
  split; [reflexivity|]. split; [reflexivity|]. split; [reflexivity|].
  split; [cbn; apply le16_split; exact Hl|].
  split; [cbn; apply le16_split; exact Ht|].
  split; [cbn; apply le16_split; exact Hw|].
  split; [cbn; apply le16_split; exact Hh|].
  split; [|reflexivity].
  cbn. unfold u8. apply Z.mod_small. lia.
Qed.

Lemma frame_header_layout_witness :
  0 <= 0 /\ 0 <= 0 /\ 0 <= 70000 /\ 0 <= 3 /\ 0 <= 65546
  /\ 1 <= Palette.bit_depth demo_pal <= 8
  /\ exists hdr,
      write_frame_header [59] 0 0 70000 3 65546 demo_pal = [59] ++ hdr
      /\ Z.of_nat (length hdr) = 18 + 3 * 2 ^ Palette.bit_depth demo_pal
      /\ le16 hdr 4 = 10
      /\ le16 hdr 13 = 4464
      /\ rd hdr 17 = 0x80.
Proof.
  assert (H0 : 0 <= 0) by lia. assert (H1 : 0 <= 70000) by lia.
  assert (H2 : 0 <= 3) by lia. assert (H3 : 0 <= 65546) by lia.
  assert (H4 : 1 <= Palette.bit_depth demo_pal <= 8) by (simpl; lia).
  split; [exact H0|]. split; [exact H0|]. split; [exact H1|]. split; [exact H2|].
  split; [exact H3|]. split; [exact H4|].
  destruct (frame_header_layout [59] 0 0 70000 3 65546 demo_pal H0 H0 H1 H2 H3 H4)
    as (hdr & E & Hlen & _ & Hdelay & _ & _ & _ & _ & _ & Hwidth & _ & Hpacked & _).
  exists hdr. split; [exact E|]. split; [exact Hlen|]. split; [exact Hdelay|].
  split; [exact Hwidth|exact Hpacked].
Defined.

Lemma dec_steps_app (clear : Z) :
  forall (cs1 cs2 : list Z) (d d1 d2 : dec_state) (o1 o2 : list Z),
    dec_steps clear d cs1 = Some (d1, o1) ->
    dec_steps clear d1 cs2 = Some (d2, o2) ->
    dec_steps clear d (cs1 ++ cs2) = Some (d2, o1 ++ o2).
Proof.
  induction cs1 as [|c cs1 IH]; intros cs2 d d1 d2 o1 o2 H1 H2.
  - injection H1 as <- <-. exact H2.
  - cbn [dec_steps app] in *.
    destruct (dec_step clear d c) as [[d0 s]|]; [|discriminate].
    destruct (dec_steps clear d0 cs1) as [[d0' r]|] eqn:E; [|discriminate].
    injection H1 as <- <-.
    rewrite (IH cs2 d0 d0' d2 r o2 E H2). rewrite <- app_assoc. reflexivity.
Qed.

Lemma lzw_decode_app (clear : Z) :
  forall (cs rest : list Z) (d d' : dec_state) (o : list Z),
    Forall (fun c => c <> clear + 1) cs ->
    dec_steps clear d cs = Some (d', o) ->
    lzw_decode clear d (cs ++ rest)
    = match lzw_decode clear d' rest with
      | Some r => Some (o ++ r)
      | None => None
      end.
Proof.
  induction cs as [|c cs IH]; intros rest d d' o Hne Hrun.
  - injection Hrun as <- <-. cbn [app]. destruct (lzw_decode clear d rest); reflexivity.
  - cbn [dec_steps app lzw_decode] in *.
    apply Forall_cons in Hne as [Hc Hne].
    destruct (Z.eqb_spec c (clear + 1)) as [|_]; [contradiction|].
    destruct (dec_step clear d c) as [[d0 s]|]; [|discriminate].
    destruct (dec_steps clear d0 cs) as [[d0' r]|] eqn:E; [|discriminate].
    injection Hrun as <- <-.
    rewrite (IH rest d0 d0' r Hne E).
    destruct (lzw_decode clear d0' rest); [|reflexivity].
    rewrite <- app_assoc. reflexivity.
Qed.

Lemma take_1_app (p x : list Z) : p <> [] -> take 1 (p ++ x) = take 1 p.
Proof. destruct p as [|a p]; [contradiction|reflexivity]. Qed.

(** Writing the pending run: the decoder produces it. *)
Lemma decode_emit (clear : Z) (G : gmap Z (list Z)) (ct : gmap (Z * Z) Z)
    (curr size mx : Z) (d : dec_state) (w out syms : list Z) :
  decode_inv clear G (ct, curr, size, mx) d w out syms -> 0 <= curr ->
  curr <> clear /\ curr <> clear + 1 /\ curr <= mx
  /\ dec_step clear d curr = Some ((G, mx + 1, Some w), w).
Proof.
  destruct d as [[table next] prev].
  intros (Hmx & Hdom & Hct & Hcurr & Hout & Hdec) Hpos.
  destruct (Z.ltb_spec curr 0) as [|_]; [lia|].
  destruct Hcurr as (Hvalid & Hw & Hne).
  split; [lia|]. split; [lia|]. split; [lia|].
  unfold dec_step.
  destruct (Z.eqb_spec curr clear) as [|_]; [lia|].
  assert (Hstr : dec_str clear G curr = Some w
                 /\ (curr <> mx -> dec_str clear (delete mx G) curr = Some w)).
  { unfold dec_str. unfold code_str in Hw.
    destruct (curr <? clear) eqn:Hb.
    - apply Z.ltb_lt in Hb.
      destruct (Z.leb_spec 0 curr) as [_|]; [|lia]. cbn [andb].
      subst w. split; reflexivity.
    - apply Z.ltb_ge in Hb. rewrite andb_false_r.
      destruct (proj2 (Hdom curr) ltac:(lia)) as [x Hx].
      rewrite Hx in Hw. cbn in Hw. subst x.
      split; [exact Hx|]. intros Hnm. rewrite lookup_delete_ne by lia. exact Hx. }
  destruct Hstr as [Hs1 Hs2].
  destruct prev as [p|].
  - destruct Hdec as (Hp & -> & -> & Hlast & _).
    assert (Hlt : (mx <? 4096) = true) by (apply Z.ltb_lt; lia).
    assert (Hs : (if curr =? mx then Some (p ++ take 1 p)
                  else dec_str clear (delete mx G) curr) = Some w).
    { destruct (Z.eqb_spec curr mx) as [->|Hnm]; [|exact (Hs2 Hnm)].
      unfold dec_str in Hs1.
      assert (Hb : (mx <? clear) = false) by (apply Z.ltb_ge; lia).
      rewrite Hb, andb_false_r, Hlast in Hs1. injection Hs1 as Hw'.
      assert (Ht : take 1 w = take 1 p).
      { rewrite <- Hw' at 1. apply take_1_app. exact Hp. }
      rewrite <- Ht. f_equal. exact Hw'. }
    rewrite Hs, Hlt.
    rewrite insert_delete_eq, insert_id by exact Hlast. reflexivity.
  - destruct Hdec as (-> & -> & -> & ->).
    rewrite Hs1. f_equal. f_equal. f_equal. f_equal. lia.
Qed.

Lemma code_str_insert (clear : Z) (G : gmap Z (list Z)) (k c : Z) (x : list Z) :
  c <> k -> code_str clear (<[k := x]> G) c = code_str clear G c.
Proof.
  intros Hne. unfold code_str. rewrite lookup_insert_ne by (intros E; apply Hne; auto).
  reflexivity.
Qed.

(** One pixel: the decoder follows the encoder. *)
Lemma decode_step_sim (D v : Z) (G : gmap Z (list Z))
    (t : gmap (Z * Z) Z * Z * Z * Z) (d : dec_state) (w out syms : list Z) :
  1 <= D <= 8 -> 0 <= v < 2 ^ D ->
  decode_inv (2 ^ D) G t d w out syms ->
  let '(t', new) := lzw_step D (u32 (Z.shiftl 1 D)) v t in
  exists G' d' o w',
    dec_steps (2 ^ D) d (fst <$> new) = Some (d', o)
    /\ Forall (fun c => c <> 2 ^ D + 1) (fst <$> new)
    /\ decode_inv (2 ^ D) G' t' d' w' (out ++ o) (syms ++ [v])
    /\ 0 <= snd (fst (fst t')).
Proof.
  intros HD Hv Hinv.
  assert (Hp : 2 <= 2 ^ D <= 256).
  { split.
    - change 2 with (2 ^ 1) at 1. apply Z.pow_le_mono_r; lia.
    - change 256 with (2 ^ 8). apply Z.pow_le_mono_r; lia. }
  assert (Hclear : u32 (Z.shiftl 1 D) = 2 ^ D).
  { rewrite shiftl_1 by lia. apply u32_small.
    split; [lia|]. apply (Z.le_lt_trans _ 256); [lia|reflexivity]. }
  set (clear := 2 ^ D) in *.
  destruct t as [[[ct curr] size] mx]. destruct d as [[table next] prev].
  unfold lzw_step. rewrite Hclear.
  destruct (Z.ltb_spec curr 0) as [Hneg|Hpos].
  { (* first value in a new run *)
    destruct Hinv as (Hmx & Hdom & Hct & Hcurr & Hout & Hdec).
    destruct (Z.ltb_spec curr 0) as [_|]; [|lia].
    destruct Hcurr as [-> ->]. rewrite app_nil_r in Hout. subst syms.
    exists G, (table, next, None), [], [v]. cbn [fmap list_fmap dec_steps fst snd].
    split; [reflexivity|]. split; [constructor|]. split; [|lia].
    unfold decode_inv. split; [exact Hmx|]. split; [exact Hdom|]. split; [exact Hct|].
    destruct (Z.ltb_spec v 0) as [|_]; [lia|].
    split.
    { split; [lia|]. split; [|discriminate]. unfold code_str.
      destruct (Z.ltb_spec v clear) as [_|]; [reflexivity|lia]. }
    split; [rewrite app_nil_r; reflexivity|exact Hdec]. }
  pose proof (decode_emit clear G ct curr size mx (table, next, prev) w out syms
                Hinv Hpos) as (Hnc & Hne & Hle & Hemit).
  destruct Hinv as (Hmx & Hdom & Hct & Hcurr & Hout & Hdec).
  destruct (Z.ltb_spec curr 0) as [|_]; [lia|].
  destruct Hcurr as (Hvalid & Hw & Hwne).
  destruct (ct !! (curr, v)) as [k|] eqn:Hk.
  - (* the dictionary knows the longer run *)
    assert (Hn : codetree_next ct curr v = k)
      by (unfold codetree_next; rewrite Hk; reflexivity).
    rewrite !Hn.
    destruct (Hct curr v k Hk) as (Hkr & _ & HG).
    destruct (Z.eqb_spec k 0) as [|_]; [lia|]. cbn [negb].
    exists G, (table, next, prev), [], (w ++ [v]).
    cbn [fmap list_fmap dec_steps fst snd].
    split; [reflexivity|]. split; [constructor|]. split; [|lia].
    unfold decode_inv. split; [exact Hmx|]. split; [exact Hdom|]. split; [exact Hct|].
    destruct (Z.ltb_spec k 0) as [|_]; [lia|].
    split.
    { split; [lia|]. split; [|intros E; apply app_eq_nil in E as [_ E]; discriminate].
      unfold code_str. destruct (Z.ltb_spec k clear) as [|_]; [lia|].
      rewrite HG, Hw. reflexivity. }
    split; [rewrite app_nil_r, app_assoc, Hout; reflexivity|].
    destruct prev as [p|]; [|exact Hdec].
    destruct Hdec as (Hp0 & Hnx & Ht & Hlast & _).
    rewrite take_1_app by exact Hwne. repeat split; try assumption. lia.
  - (* finish the current run, write a code *)
    assert (Hn : codetree_next ct curr v = 0)
      by (unfold codetree_next; rewrite Hk; reflexivity).
    rewrite !Hn. change (0 =? 0) with true. cbn [negb].
    assert (Hcu : u32 curr = curr).
    { apply u32_small. split; [lia|]. apply (Z.lt_trans _ 4096); [lia|reflexivity]. }
    assert (Hm1 : u32 (mx + 1) = mx + 1).
    { apply u32_small. split; [lia|]. apply (Z.lt_trans _ 4096); [lia|reflexivity]. }
    rewrite Hcu, Hm1.
    assert (HnoG : G !! (mx + 1) = None).
    { destruct (G !! (mx + 1)) as [x|] eqn:E; [|reflexivity].
      assert (Hs : is_Some (G !! (mx + 1))) by (rewrite E; eauto).
      apply Hdom in Hs. lia. }
    destruct (Z.eqb_spec (mx + 1) 4095) as [Hfull|Hroom].
    + (* the dictionary is full *)
      exists ∅, (dec_init clear), (w ++ []), [v].
      cbn [fmap list_fmap dec_steps fst snd].
      rewrite Hemit. unfold dec_step at 1. rewrite Z.eqb_refl.
      split; [reflexivity|].
      split; [constructor; [exact Hne|constructor; [lia|constructor]]|].
      split; [|lia].
      rewrite (u32_small (clear + 1))
        by (split; [lia|]; apply (Z.le_lt_trans _ 257); [lia|reflexivity]).
      unfold decode_inv, dec_init.
      split; [lia|]. split.
      { intros k0. rewrite lookup_empty. split; [intros [x Hx]; discriminate|lia]. }
      split; [intros c0 v0 k0 Hl; rewrite lookup_empty in Hl; discriminate|].
      destruct (Z.ltb_spec v 0) as [|_]; [lia|].
      split.
      { split; [lia|]. split; [|discriminate]. unfold code_str.
        destruct (Z.ltb_spec v clear) as [_|]; [reflexivity|lia]. }
      split; [rewrite app_nil_r, Hout; reflexivity|].
      repeat split; reflexivity.
    + exists (<[mx + 1 := w ++ [v]]> G), (G, mx + 1, Some w), (w ++ []), [v].
      cbn [fmap list_fmap dec_steps fst snd].
      rewrite Hemit.
      split; [reflexivity|]. split; [constructor; [exact Hne|constructor]|].
      split; [|lia].
      unfold decode_inv.
      split; [lia|]. split.
      { intros k0. destruct (Z.eq_dec k0 (mx + 1)) as [->|Hk0].
        - rewrite lookup_insert_eq. split; [lia|eauto].
        - rewrite lookup_insert_ne by (intros E; apply Hk0; auto).
          rewrite Hdom. lia. }
      split.
      { intros c0 v0 k0 Hl.
        destruct (decide ((curr, v) = (c0, v0))) as [E|Hother].
        - injection E as <- <-. rewrite lookup_insert_eq in Hl. injection Hl as <-.
          rewrite Z.mod_small by lia.
          split; [lia|]. split; [lia|].
          rewrite lookup_insert_eq, code_str_insert by lia. rewrite Hw. reflexivity.
        - rewrite lookup_insert_ne in Hl by exact Hother.
          destruct (Hct c0 v0 k0 Hl) as (Hr1 & Hr2 & Hr3).
          split; [lia|]. split; [lia|].
          rewrite lookup_insert_ne by lia. rewrite code_str_insert by lia. exact Hr3. }
      destruct (Z.ltb_spec v 0) as [|_]; [lia|].
      split.
      { split; [lia|]. split; [|discriminate]. unfold code_str.
        destruct (Z.ltb_spec v clear) as [_|]; [reflexivity|lia]. }
      split; [rewrite app_nil_r, Hout; reflexivity|].
      split; [exact Hwne|]. split; [reflexivity|].
      split; [rewrite delete_insert_eq, delete_id by exact HnoG; reflexivity|].
      split; [rewrite lookup_insert_eq; reflexivity|lia].
Qed.

Lemma lzw_symbols_S (image : list Z) (width y : Z) :
  0 <= y ->
  lzw_symbols image width (y + 1)
  = lzw_symbols image width y
    ++ ((fun x => lzw_input image width y x) <$> seqZ 0 width).
Proof.
  intros Hy. unfold lzw_symbols.
  rewrite seqZ_app by lia. rewrite fmap_app, concat_app.
  rewrite (seqZ_cons (0 + y) 1) by lia. rewrite (seqZ_nil _ (Z.pred 1)) by lia.
  cbn [fmap list_fmap concat]. rewrite app_nil_r. reflexivity.
Qed.

Lemma seqZ_snoc (x : Z) : 0 <= x -> seqZ 0 (x + 1) = seqZ 0 x ++ [x].
Proof.
  intros Hx. rewrite seqZ_app by lia.
  rewrite (seqZ_cons (0 + x) 1) by lia. rewrite (seqZ_nil _ (Z.pred 1)) by lia.
  reflexivity.
Qed.

Lemma seqZ_to_nat (n : Z) : seqZ 0 (Z.of_nat (Z.to_nat n)) = seqZ 0 n.
Proof.
  destruct (Z.le_gt_cases 0 n) as [Hn|Hn]; [rewrite Z2Nat.id by lia; reflexivity|].
  rewrite !seqZ_nil by lia. reflexivity.
Qed.

Lemma decoded_step (D v : Z) (syms : list Z)
    (t : gmap (Z * Z) Z * Z * Z * Z) (codes : list (Z * Z)) :
  1 <= D <= 8 -> 0 <= v < 2 ^ D ->
  decoded_so_far D syms (t, codes) ->
  decoded_so_far D (syms ++ [v])
    (let '(t', new) := lzw_step D (u32 (Z.shiftl 1 D)) v t in (t', codes ++ new)).
Proof.
  intros HD Hv (G & d & w & out & Hrun & Hne & Hinv & _).
  cbn [fst snd] in Hrun, Hne, Hinv.
  pose proof (decode_step_sim D v G t d w out syms HD Hv Hinv) as Hstep.
  destruct (lzw_step D (u32 (Z.shiftl 1 D)) v t) as [t' new].
  destruct Hstep as (G' & d' & o & w' & Hrun' & Hne' & Hinv' & Hcurr).
  exists G', d', w', (out ++ o). cbn [fst snd].
  rewrite fmap_app.
  split; [exact (dec_steps_app _ _ _ _ _ _ _ _ Hrun Hrun')|].
  split; [apply Forall_app; split; assumption|].
  split; [exact Hinv'|]. intros _. exact Hcurr.
Qed.

Lemma decoded_loops (image : list Z) (width : Z) (height : nat) (D : Z) :
  1 <= D <= 8 ->
  (forall x y, 0 <= x < width -> 0 <= y < Z.of_nat height ->
               0 <= lzw_input image width y x < 2 ^ D) ->
  decoded_so_far D (lzw_symbols image width (Z.of_nat height))
    (for_pure height 0
       (fun y acc =>
          for_pure (Z.to_nat width) 0
            (fun x acc =>
               let '(t, codes) := acc in
               let '(t, new) :=
                 lzw_step D (u32 (Z.shiftl 1 D)) (lzw_input image width y x) t in
               (t, codes ++ new))
            acc)
       (∅, -1, u32 (D + 1), u32 (u32 (Z.shiftl 1 D) + 1),
        [(u32 (Z.shiftl 1 D), u32 (D + 1))])).
Proof.
  intros HD Hsym.
  assert (Hp : 2 <= 2 ^ D <= 256).
  { split.
    - change 2 with (2 ^ 1) at 1. apply Z.pow_le_mono_r; lia.
    - change 256 with (2 ^ 8). apply Z.pow_le_mono_r; lia. }
  assert (Hclear : u32 (Z.shiftl 1 D) = 2 ^ D).
  { rewrite shiftl_1 by lia. apply u32_small.
    split; [lia|]. apply (Z.le_lt_trans _ 256); [lia|reflexivity]. }
  assert (Hmx : u32 (2 ^ D + 1) = 2 ^ D + 1).
  { apply u32_small. split; [lia|]. apply (Z.lt_trans _ 258); [lia|reflexivity]. }
  match goal with |- decoded_so_far D _ (for_pure height 0 ?body ?s) =>
    pose proof (for_pure_inv
                  (fun y acc => 0 <= y /\ decoded_so_far D (lzw_symbols image width y) acc)
                  body height 0 s) as Hloop
  end.
  rewrite Z.add_0_l in Hloop. apply Hloop; clear Hloop.
  - split; [lia|]. exists ∅, (dec_init (2 ^ D)), [], []. cbn [fst snd].
    rewrite !Hclear. rewrite Hmx.
    cbn [fmap list_fmap dec_steps]. unfold dec_step at 1.
    cbn [dec_init]. rewrite Z.eqb_refl.
    split; [reflexivity|]. split; [constructor; [cbn [fst]; lia|constructor]|].
    split; [|intros H; contradiction].
    unfold decode_inv, dec_init.
    split; [lia|]. split.
    { intros k. rewrite lookup_empty. split; [intros [x Hx]; discriminate|lia]. }
    split; [intros c v k Hl; rewrite lookup_empty in Hl; discriminate|].
    change (-1 <? 0) with true. repeat split; reflexivity.
  - intros y acc Hy [Hy0 HQ]. split; [lia|].
    rewrite lzw_symbols_S by lia. rewrite <- (seqZ_to_nat width).
    match goal with |- decoded_so_far D _ (for_pure ?n 0 ?body acc) =>
      pose proof (for_pure_inv
                    (fun x acc0 =>
                       0 <= x
                       /\ decoded_so_far D
                            (lzw_symbols image width y
                             ++ ((fun x0 => lzw_input image width y x0) <$> seqZ 0 x))
                            acc0)
                    body n 0 acc) as Hrow
    end.
    rewrite Z.add_0_l in Hrow. apply Hrow; clear Hrow.
    + split; [lia|]. cbn. rewrite app_nil_r. exact HQ.
    + intros x [t0 codes0] Hx [Hx0 HR]. split; [lia|].
      rewrite seqZ_snoc by lia. rewrite fmap_app, app_assoc. cbn [fmap list_fmap].
      apply decoded_step; [exact HD| |exact HR].
      apply Hsym; lia.
Qed.

Lemma lzw_symbols_nonempty (image : list Z) (width height : Z) :
  1 <= width -> 1 <= height -> lzw_symbols image width height <> [].
Proof.
  intros Hw Hh. replace height with (height - 1 + 1) by lia.
  rewrite lzw_symbols_S by lia.
  rewrite (seqZ_cons 0 width) by lia. cbn [fmap list_fmap].
  intros E. apply app_eq_nil in E as [_ E]. discriminate.
Qed.

Lemma lzw_round_trip (image : list Z) (width height : Z) (pal : Palette.t) :
  1 <= Palette.bit_depth pal <= 8 -> 1 <= width -> 1 <= height ->
  (forall x y, 0 <= x < width -> 0 <= y < height ->
               0 <= lzw_input image width y x < 2 ^ Palette.bit_depth pal) ->
  lzw_decode (2 ^ Palette.bit_depth pal) (dec_init (2 ^ Palette.bit_depth pal))
    (fst <$> lzw_codes image width height pal)
  = Some (lzw_symbols image width height).
Proof.
  intros HD Hw Hh Hsym. set (D := Palette.bit_depth pal) in *.
  assert (Hp : 2 <= 2 ^ D <= 256).
  { split.
    - change 2 with (2 ^ 1) at 1. apply Z.pow_le_mono_r; lia.
    - change 256 with (2 ^ 8). apply Z.pow_le_mono_r; lia. }
  assert (Hclear : u32 (Z.shiftl 1 D) = 2 ^ D).
  { rewrite shiftl_1 by lia. apply u32_small.
    split; [lia|]. apply (Z.le_lt_trans _ 256); [lia|reflexivity]. }
  assert (Hmx : u32 (2 ^ D + 1) = 2 ^ D + 1).
  { apply u32_small. split; [lia|]. apply (Z.lt_trans _ 258); [lia|reflexivity]. }
  pose proof (decoded_loops image width (Z.to_nat height) D HD) as Hloop.
  rewrite Z2Nat.id in Hloop by lia. specialize (Hloop Hsym).
  unfold lzw_codes. fold D.
  destruct (for_pure (Z.to_nat height) 0 _ _) as [[[[ct curr] size] mx] codes].
  destruct Hloop as (G & d & w & out & Hrun & Hne & Hinv & Hcurr).
  cbn [fst snd] in Hrun, Hne, Hinv, Hcurr.
  specialize (Hcurr (lzw_symbols_nonempty image width height Hw Hh)).
  destruct (decode_emit (2 ^ D) G ct curr size mx d w out _ Hinv Hcurr)
    as (Hnc & Hneoi & Hle & Hemit).
  assert (Hout : out ++ w = lzw_symbols image width height).
  { destruct d as [[table next] prev]. exact (proj1 (proj2 (proj2 (proj2 (proj2 Hinv))))). }
  assert (Hmxr : mx < 4095).
  { destruct d as [[table next] prev]. exact (proj2 (proj1 Hinv)). }
  rewrite fmap_app. cbn [fmap list_fmap fst].
  rewrite (lzw_decode_app _ _ _ _ _ _ Hne Hrun).
  rewrite Hclear, Hmx.
  rewrite (u32_small curr)
    by (split; [lia|]; apply (Z.lt_trans _ 4096); [lia|reflexivity]).
  cbn [lzw_decode].
  destruct (Z.eqb_spec curr (2 ^ D + 1)) as [|_]; [contradiction|].
  rewrite Hemit.
  destruct (Z.eqb_spec (2 ^ D) (2 ^ D + 1)) as [|_]; [lia|].
  unfold dec_step. rewrite !Z.eqb_refl.
  rewrite !app_nil_r, Hout. reflexivity.
Qed.

(** X23. the codes of a frame decode to its symbols.  For a bit depth from 1
    to 8 and a frame of at least one pixel whose symbols are below
    2^bit_depth, a decoder that rebuilds the string table from the codes
    alone (clear code, end code, a code one ahead of the table) reads back,
    from the codes [write_lzw_image] writes, exactly the fourth bytes of the
    pixels in raster order.  The decoder is a reference one: the repository
    has none, and it reads codes, not bits. *)
Theorem lzw_codes_decode_to_symbols :
  forall (image : list Z) (width height : Z) (pal : Palette.t),
    1 <= Palette.bit_depth pal <= 8 -> 1 <= width -> 1 <= height ->
    (forall x y, 0 <= x < width -> 0 <= y < height ->
                 0 <= lzw_input image width y x < 2 ^ Palette.bit_depth pal) ->
    lzw_decode (2 ^ Palette.bit_depth pal) (dec_init (2 ^ Palette.bit_depth pal))
      (fst <$> lzw_codes image width height pal)
    = Some (lzw_symbols image width height).
Proof.
  intros image width height pal HD Hw Hh Hsym.
  exact (lzw_round_trip image width height pal HD Hw Hh Hsym).
Qed.

Lemma lzw_codes_decode_to_symbols_witness :
  1 <= Palette.bit_depth demo_pal <= 8 /\ 1 <= 3 /\ 1 <= 1
  /\ (forall x y, 0 <= x < 3 -> 0 <= y < 1 ->
        0 <= lzw_input [0; 0; 0; 1; 0; 0; 0; 1; 0; 0; 0; 0] 3 y x
        < 2 ^ Palette.bit_depth demo_pal)
  /\ lzw_decode (2 ^ Palette.bit_depth demo_pal) (dec_init (2 ^ Palette.bit_depth demo_pal))
       (fst <$> lzw_codes [0; 0; 0; 1; 0; 0; 0; 1; 0; 0; 0; 0] 3 1 demo_pal)
     = Some (lzw_symbols [0; 0; 0; 1; 0; 0; 0; 1; 0; 0; 0; 0] 3 1).
Proof.
  assert (H1 : 1 <= Palette.bit_depth demo_pal <= 8) by (simpl; lia).
  assert (H2 : 1 <= 3) by lia. assert (H3 : 1 <= 1) by lia.
  assert (H4 : forall x y, 0 <= x < 3 -> 0 <= y < 1 ->
             0 <= lzw_input [0; 0; 0; 1; 0; 0; 0; 1; 0; 0; 0; 0] 3 y x
             < 2 ^ Palette.bit_depth demo_pal).
  { intros x y Hx Hy. assert (y = 0) by lia. subst y.
    assert (Hc : x = 0 \/ x = 1 \/ x = 2) by lia.
    destruct Hc as [-> | [-> | ->]]; vm_compute; split; congruence. }
  split; [exact H1|]. split; [exact H2|]. split; [exact H3|]. split; [exact H4|].
  exact (lzw_codes_decode_to_symbols [0; 0; 0; 1; 0; 0; 0; 1; 0; 0; 0; 0] 3 1 demo_pal
           H1 H2 H3 H4).
Defined.

(** X24. the encoding loses nothing.  Two frames of the same size and bit
    depth (1 to 8, symbols below 2^bit_depth, at least one pixel) that give
    the same codes have the same symbols, pixel by pixel. *)
Theorem lzw_codes_determine_symbols :
  forall (image image' : list Z) (width height : Z) (pal : Palette.t),
    1 <= Palette.bit_depth pal <= 8 -> 1 <= width -> 1 <= height ->
    (forall x y, 0 <= x < width -> 0 <= y < height ->
                 0 <= lzw_input image width y x < 2 ^ Palette.bit_depth pal) ->
    (forall x y, 0 <= x < width -> 0 <= y < height ->
                 0 <= lzw_input image' width y x < 2 ^ Palette.bit_depth pal) ->
    lzw_codes image width height pal = lzw_codes image' width height pal ->
    lzw_symbols image width height = lzw_symbols image' width height.
Proof.
  intros image image' width height pal HD Hw Hh Hsym Hsym' Hcodes.
  pose proof (lzw_round_trip image width height pal HD Hw Hh Hsym) as H1.
  pose proof (lzw_round_trip image' width height pal HD Hw Hh Hsym') as H2.
  rewrite Hcodes in H1. congruence.
Qed.

Lemma lzw_codes_determine_symbols_witness :
  1 <= Palette.bit_depth demo_pal <= 8 /\ 1 <= 2 /\ 1 <= 1
  /\ (forall x y, 0 <= x < 2 -> 0 <= y < 1 ->
        0 <= lzw_input [0; 0; 0; 1; 0; 0; 0; 0] 2 y x < 2 ^ Palette.bit_depth demo_pal)
  /\ (forall x y, 0 <= x < 2 -> 0 <= y < 1 ->
        0 <= lzw_input [9; 9; 9; 1; 7; 7; 7; 0] 2 y x < 2 ^ Palette.bit_depth demo_pal)
  /\ lzw_codes [0; 0; 0; 1; 0; 0; 0; 0] 2 1 demo_pal
     = lzw_codes [9; 9; 9; 1; 7; 7; 7; 0] 2 1 demo_pal
  /\ lzw_symbols [0; 0; 0; 1; 0; 0; 0; 0] 2 1 = lzw_symbols [9; 9; 9; 1; 7; 7; 7; 0] 2 1.
Proof.
  assert (H1 : 1 <= Palette.bit_depth demo_pal <= 8) by (simpl; lia).
  assert (H2 : 1 <= 2) by lia. assert (H3 : 1 <= 1) by lia.
  assert (H4 : forall x y, 0 <= x < 2 -> 0 <= y < 1 ->
             0 <= lzw_input [0; 0; 0; 1; 0; 0; 0; 0] 2 y x
             < 2 ^ Palette.bit_depth demo_pal).
  { intros x y Hx Hy. assert (y = 0) by lia. subst y.
    assert (Hc : x = 0 \/ x = 1) by lia.
    destruct Hc as [-> | ->]; vm_compute; split; congruence. }
  assert (H5 : forall x y, 0 <= x < 2 -> 0 <= y < 1 ->
             0 <= lzw_input [9; 9; 9; 1; 7; 7; 7; 0] 2 y x
             < 2 ^ Palette.bit_depth demo_pal).
  { intros x y Hx Hy. assert (y = 0) by lia. subst y.
    assert (Hc : x = 0 \/ x = 1) by lia.
    destruct Hc as [-> | ->]; vm_compute; split; congruence. }
  assert (H6 : lzw_codes [0; 0; 0; 1; 0; 0; 0; 0] 2 1 demo_pal
               = lzw_codes [9; 9; 9; 1; 7; 7; 7; 0] 2 1 demo_pal)
    by (vm_compute; reflexivity).
  split; [exact H1|]. split; [exact H2|]. split; [exact H3|]. split; [exact H4|].
  split; [exact H5|]. split; [exact H6|].
  exact (lzw_codes_determine_symbols [0; 0; 0; 1; 0; 0; 0; 0] [9; 9; 9; 1; 7; 7; 7; 0]
           2 1 demo_pal H1 H2 H3 H4 H5 H6).
Defined.

(** *** A frame equal to the previous one *)

Lemma demo_uninit_77_wf : pal_wf (uninit_pal demo_uninit_77).
Proof.
  unfold pal_wf, bytes, demo_uninit_77.
  cbn [uninit_pal Palette.r Palette.g Palette.b Palette.tree_split_elt
       Palette.tree_split].
  repeat split; first [apply length_replicate | apply Forall_replicate; lia].
Qed.

Lemma changed_pixels_none (last_frame frame : list Z) (n : Z) :
  (forall i, 0 <= i < n -> same_rgb last_frame frame i = true) ->
  changed_pixels last_frame frame n = [].
Proof.
  intros Hsame. unfold changed_pixels. apply filter_none.
  apply Forall_seqZ. intros i Hi. rewrite Hsame by lia. discriminate.
Qed.

(** With nothing changed the constructor has no pixel to build from: it
    returns at once, with the arrays as they were but for entry 0 and the
    bottom node. *)
Lemma Palette_new_unchanged (uninit : Palette.t) (last_frame next_frame : list Z)
    (width height bit_depth : Z) :
  1 <= bit_depth <= 8 ->
  0 <= width * height < 2 ^ 48 ->
  4 * (width * height) <= Z.of_nat (length next_frame) ->
  (forall i, 0 <= i < width * height -> same_rgb last_frame next_frame i = true) ->
  Palette_new uninit (Some last_frame) next_frame width height bit_depth false
  = Ok (set_color
          (set_tree_split_elt
             (set_tree_split (set_bit_depth uninit bit_depth)
                (Z.shiftl 1 (bit_depth - 1)) 0)
             (Z.shiftl 1 (bit_depth - 1)) 0) 0 (0, 0, 0)).
Proof.
  intros HD Hn Hlen Hsame. set (n := width * height) in *.
  pose proof (palette_input_pixels (Some last_frame) next_frame n ltac:(lia) Hlen) as Hin.
  cbv zeta in Hin. cbn [palette_input] in Hin.
  rewrite (changed_pixels_none last_frame next_frame n Hsame) in Hin.
  unfold Palette_new. rewrite depth_guard by exact HD. fold n.
  assert (H64 : 2 ^ 48 * 4 < 2 ^ 64) by reflexivity.
  replace (n * 4) with (4 * n) by lia.
  rewrite !usize_small by lia.
  destruct (pick_changed_pixels last_frame (copy_image next_frame (4 * n)) n)
    as [image n'].
  destruct Hin as (-> & _). cbn [length Z.of_nat].
  cbn [split]. rewrite orb_true_r. reflexivity.
Qed.

Lemma threshold_unchanged (next_frame out_frame : list Z) (width height : Z)
    (pal : Palette.t) :
  0 <= width * height < 2 ^ 62 ->
  4 * (width * height) <= Z.of_nat (length out_frame) ->
  (forall i, 0 <= i < width * height -> same_rgb out_frame next_frame i = true) ->
  exists out',
    threshold_image SameAsOut next_frame out_frame width height pal = Ok out'
    /\ length out' = length out_frame
    /\ (forall j, 4 * (width * height) <= j -> rd out' j = rd out_frame j)
    /\ forall i, 0 <= i < width * height ->
         pixel out' i
         = (rd out_frame (4 * i), rd out_frame (4 * i + 1), rd out_frame (4 * i + 2), 0).
Proof.
  intros Hn Hlen Hsame. set (n := width * height) in *.
  assert (H64 : 2 ^ 62 < 2 ^ 64) by reflexivity.
  unfold threshold_image. fold n. rewrite usize_small by lia.
  destruct (for_loop_total
              (fun k out =>
                 length out = length out_frame
                 /\ (forall j, 4 * k <= j -> rd out j = rd out_frame j)
                 /\ forall i, 0 <= i < k ->
                      pixel out i
                      = (rd out_frame (4 * i), rd out_frame (4 * i + 1),
                         rd out_frame (4 * i + 2), 0))
              (threshold_pixel SameAsOut next_frame pal) (Z.to_nat n) 0 out_frame)
    as (out' & Hrun & Hpost).
  - split; [reflexivity|]. split; [auto|]. intros i Hi. lia.
  - intros k out Hk (Hl & Hrest & Hdone).
    specialize (Hsame k ltac:(lia)). unfold same_rgb in Hsame.
    apply andb_true_iff in Hsame as [Hsame H2].
    apply andb_true_iff in Hsame as [H0 H1].
    unfold threshold_pixel. cbn [is_null negb deref andb].
    rewrite !Hrest by lia. rewrite H0, H1, H2. cbn [andb].
    eexists. split; [reflexivity|].
    rewrite !rd_wr_other by lia. rewrite !Hrest by lia.
    destruct (wr_quad out k (rd out_frame (4 * k)) (rd out_frame (4 * k + 1))
                (rd out_frame (4 * k + 2)) transparency_index ltac:(lia)
                ltac:(rewrite Hl; lia)) as (Hpix & Hlen' & Hother).
    split; [rewrite Hlen'; exact Hl|]. split.
    + intros j Hj. rewrite Hother by lia. apply Hrest. lia.
    + intros i Hi. destruct (Z.eq_dec i k) as [->|Hne]; [exact Hpix|].
      unfold pixel. rewrite !Hother by lia. apply Hdone. lia.
  - exists out'. split; [exact Hrun|].
    rewrite Z.add_0_l, Z2Nat.id in Hpost by lia. exact Hpost.
Qed.

Lemma write_frame_unchanged (u : uninit) (w : Writer.t) (f buf image : list Z)
    (width height delay bit_depth : Z) :
  Writer.f w = Some f -> Writer.old_image w = Some buf ->
  Writer.first_frame w = false ->
  1 <= bit_depth <= 8 -> pal_wf (uninit_pal u) ->
  length (uninit_chunk u) = 256%nat ->
  0 <= width * height < 2 ^ 48 ->
  4 * (width * height) <= Z.of_nat (length image) ->
  4 * (width * height) <= Z.of_nat (length buf) ->
  (forall i, 0 <= i < width * height -> same_rgb buf image i = true) ->
  exists data buf',
    write_frame u w image width height delay bit_depth false
    = Ok (true, Writer.mk (Some (f ++ data)) (Some buf') false)
    /\ length buf' = length buf
    /\ forall i, 0 <= i < width * height ->
         pixel buf' i = (rd buf (4 * i), rd buf (4 * i + 1), rd buf (4 * i + 2), 0).
Proof.
  intros Hf Hbuf Hfirst HD Hwf Hchunk Hn Hlen Hlenb Hsame.
  assert (H48 : 2 ^ 48 < 2 ^ 64) by reflexivity.
  unfold write_frame. rewrite Hf, Hbuf, Hfirst.
  change (default [] (Some buf)) with buf. cbn [orb].
  rewrite (usize_small (width * height)) by lia.
  destruct (Z.ltb_spec (Z.of_nat (length buf)) (4 * (width * height))); [lia|].
  rewrite (Palette_new_unchanged (uninit_pal u) buf image width height bit_depth
             HD Hn Hlen Hsame).
  cbn [bind].
  set (pal := set_color _ 0 (0, 0, 0)).
  assert (H62 : 2 ^ 48 < 2 ^ 62) by reflexivity.
  destruct (threshold_unchanged image buf width height pal ltac:(lia) Hlenb Hsame)
    as (out' & Hrun & Hl & _ & Hpix).
  rewrite Hrun. cbn [bind].
  destruct (write_lzw_image_framed (uninit_chunk u) f out' 0 0 width height delay pal
              Hchunk) as (full & last & pad & Hw & _).
  rewrite Hw. cbn [bind].
  destruct (write_frame_header_app f 0 0 width height delay pal) as [hdr ->].
  rewrite <- !app_assoc. eexists. exists out'.
  split; [reflexivity|]. split; [exact Hl|exact Hpix].
Qed.

(** X25. a frame equal to the previous one is written as a transparent
    frame.  When every pixel of the frame has the colour the previous-frame
    buffer holds, the buffer holds the frame and the bit depth is one the
    palette arrays can hold, [write_frame] without dithering returns true
    whatever the 256 bytes of each uninitialised array are (no palette
    colour is looked up), keeps the colours of the buffer and gives every
    pixel the transparency index 0; the file keeps what it held, followed
    by the data of the frame. *)
Theorem unchanged_frame_is_transparent :
  forall (u : uninit) (w : Writer.t) (f buf image : list Z)
         (width height delay bit_depth : Z),
    Writer.f w = Some f -> Writer.old_image w = Some buf ->
    Writer.first_frame w = false ->
    1 <= bit_depth <= 8 -> pal_wf (uninit_pal u) ->
    length (uninit_chunk u) = 256%nat ->
    0 <= width * height < 2 ^ 48 ->
    4 * (width * height) <= Z.of_nat (length image) ->
    4 * (width * height) <= Z.of_nat (length buf) ->
    (forall i, 0 <= i < width * height -> same_rgb buf image i = true) ->
    exists data buf',
      write_frame u w image width height delay bit_depth false
      = Ok (true, Writer.mk (Some (f ++ data)) (Some buf') false)
      /\ length buf' = length buf
      /\ forall i, 0 <= i < width * height ->
           pixel buf' i = (rd buf (4 * i), rd buf (4 * i + 1), rd buf (4 * i + 2), 0).
Proof.
  intros u w f buf image width height delay bit_depth
    Hf Hbuf Hfirst HD Hwf Hchunk Hn Hlen Hlenb Hsame.
  exact (write_frame_unchanged u w f buf image width height delay bit_depth
           Hf Hbuf Hfirst HD Hwf Hchunk Hn Hlen Hlenb Hsame).
Qed.

Lemma unchanged_frame_is_transparent_witness :
  Writer.f (Writer.mk (Some [59]) (Some [10; 20; 30; 7; 1; 2; 3; 1]) false) = Some [59]
  /\ Writer.old_image (Writer.mk (Some [59]) (Some [10; 20; 30; 7; 1; 2; 3; 1]) false)
     = Some [10; 20; 30; 7; 1; 2; 3; 1]
  /\ Writer.first_frame (Writer.mk (Some [59]) (Some [10; 20; 30; 7; 1; 2; 3; 1]) false)
     = false
  /\ 1 <= 2 <= 8 /\ pal_wf (uninit_pal demo_uninit_77)
  /\ length (uninit_chunk demo_uninit_77) = 256%nat
  /\ 0 <= 2 * 1 < 2 ^ 48
  /\ 4 * (2 * 1) <= Z.of_nat (length [10; 20; 30; 255; 1; 2; 3; 255])
  /\ 4 * (2 * 1) <= Z.of_nat (length [10; 20; 30; 7; 1; 2; 3; 1])
  /\ (forall i, 0 <= i < 2 * 1 ->
        same_rgb [10; 20; 30; 7; 1; 2; 3; 1] [10; 20; 30; 255; 1; 2; 3; 255] i = true)
  /\ exists data buf',
      write_frame demo_uninit_77
        (Writer.mk (Some [59]) (Some [10; 20; 30; 7; 1; 2; 3; 1]) false)
        [10; 20; 30; 255; 1; 2; 3; 255] 2 1 0 2 false
      = Ok (true, Writer.mk (Some ([59] ++ data)) (Some buf') false)
      /\ length buf' = length [10; 20; 30; 7; 1; 2; 3; 1]
      /\ forall i, 0 <= i < 2 * 1 ->
           pixel buf' i
           = (rd [10; 20; 30; 7; 1; 2; 3; 1] (4 * i),
              rd [10; 20; 30; 7; 1; 2; 3; 1] (4 * i + 1),
              rd [10; 20; 30; 7; 1; 2; 3; 1] (4 * i + 2), 0).
Proof.
  assert (H0 : 1 <= 2 <= 8) by lia.
  assert (H1 : length (uninit_chunk demo_uninit_77) = 256%nat) by reflexivity.
  assert (H2 : 0 <= 2 * 1 < 2 ^ 48) by (split; [lia|reflexivity]).
  assert (H3 : 4 * (2 * 1) <= Z.of_nat (length [10; 20; 30; 255; 1; 2; 3; 255]))
    by (simpl; lia).
  assert (H4 : 4 * (2 * 1) <= Z.of_nat (length [10; 20; 30; 7; 1; 2; 3; 1]))
    by (simpl; lia).
  assert (H5 : forall i, 0 <= i < 2 * 1 ->
             same_rgb [10; 20; 30; 7; 1; 2; 3; 1] [10; 20; 30; 255; 1; 2; 3; 255] i
             = true).
  { intros i Hi. assert (Hc : i = 0 \/ i = 1) by lia.
    destruct Hc as [-> | ->]; reflexivity. }
  split; [reflexivity|]. split; [reflexivity|]. split; [reflexivity|].
  split; [exact H0|]. split; [exact demo_uninit_77_wf|].
  split; [exact H1|]. split; [exact H2|]. split; [exact H3|]. split; [exact H4|].
  split; [exact H5|].
  exact (unchanged_frame_is_transparent demo_uninit_77
           (Writer.mk (Some [59]) (Some [10; 20; 30; 7; 1; 2; 3; 1]) false)
           [59] [10; 20; 30; 7; 1; 2; 3; 1] [10; 20; 30; 255; 1; 2; 3; 255]
           2 1 0 2 eq_refl eq_refl eq_refl H0 demo_uninit_77_wf H1 H2 H3 H4 H5).
Defined.

Lemma run_call_rel (c c' : call) (st : Writer.t * disk) :
  same_call c c' -> dithered_call c -> dithered_call c' ->
  run_call c' st = run_call c st.
Proof.
  destruct st as [w d].
  destruct c as [u image width height delay bit_depth dither|],
           c' as [u' image' width' height' delay' bit_depth' dither'|];
    cbn [same_call]; try contradiction; [|reflexivity].
  intros (-> & -> & -> & -> & -> & ->) (-> & HD & Hwf & Hc & Hn & Hlen & Hb)
    (_ & _ & Hwf' & Hc' & _).
  cbn [run_call].
  assert (Hp : 0 < 2 ^ bit_depth) by (apply Z.pow_pos_nonneg; lia).
  rewrite (write_frame_rel u u' w image width height delay bit_depth true
             HD Hwf Hwf' Hc Hc' ltac:(lia) Hlen Hb); [reflexivity|].
  cbn [orb palette_input]. rewrite length_seqZ. lia.
Qed.

Lemma run_rel :
  forall (cs cs' : list call),
    Forall2 same_call cs cs' -> Forall dithered_call cs -> Forall dithered_call cs' ->
    forall st, run cs' st = run cs st.
Proof.
  induction 1 as [|c c' cs cs' Hc Hcs IH]; intros Hok Hok' st; [reflexivity|].
  apply Forall_cons in Hok as [Hc1 Hok]. apply Forall_cons in Hok' as [Hc1' Hok'].
  cbn [run]. rewrite (run_call_rel c c' st Hc Hc1 Hc1').
  destruct (run_call c st) as [st1|]; [|reflexivity].
  cbn [bind]. apply IH; assumption.
Qed.

(** X26. a run of dithered frames is determined by its inputs.  For any
    sequence of [write_frame] calls with dithering on, frames of bytes with
    at least 2^bit_depth - 1 pixels each, and [close] calls: when the run
    is defined (every frame fits the buffer of the writer and no [i32]
    overflows), the writer and the files on disk it ends with are the same
    whatever the uninitialised palette arrays and chunk buffers held at each
    call. *)
Theorem dithered_run_is_deterministic :
  forall (cs cs' : list call) (st st' : Writer.t * disk),
    Forall2 same_call cs cs' ->
    Forall dithered_call cs -> Forall dithered_call cs' ->
    run cs st = Ok st' ->
    run cs' st = Ok st'.
Proof.
  intros cs cs' st st' Hsame Hok Hok' Hrun.
  rewrite (run_rel cs cs' Hsame Hok Hok' st). exact Hrun.
Qed.

Lemma dithered_run_is_deterministic_witness :
  Forall2 same_call
    [CallWriteFrame demo_uninit demo_frame_rgb 3 1 2 2 true;
     CallWriteFrame demo_uninit demo_frame_rgb 3 1 2 2 true; CallClose]
    [CallWriteFrame demo_uninit_99 demo_frame_rgb 3 1 2 2 true;
     CallWriteFrame demo_uninit_77 demo_frame_rgb 3 1 2 2 true; CallClose]
  /\ Forall dithered_call
       [CallWriteFrame demo_uninit demo_frame_rgb 3 1 2 2 true;
        CallWriteFrame demo_uninit demo_frame_rgb 3 1 2 2 true; CallClose]
  /\ Forall dithered_call
       [CallWriteFrame demo_uninit_99 demo_frame_rgb 3 1 2 2 true;
        CallWriteFrame demo_uninit_77 demo_frame_rgb 3 1 2 2 true; CallClose]
  /\ exists st',
      run [CallWriteFrame demo_uninit demo_frame_rgb 3 1 2 2 true;
           CallWriteFrame demo_uninit demo_frame_rgb 3 1 2 2 true; CallClose]
        (Writer.mk (Some GIF89a) (Some (replicate 12 0)) true, [])
      = Ok st'
      /\ run [CallWriteFrame demo_uninit_99 demo_frame_rgb 3 1 2 2 true;
              CallWriteFrame demo_uninit_77 demo_frame_rgb 3 1 2 2 true; CallClose]
           (Writer.mk (Some GIF89a) (Some (replicate 12 0)) true, [])
         = Ok st'.
Proof.
  assert (Hframe : forall u, pal_wf (uninit_pal u) ->
             length (uninit_chunk u) = 256%nat ->
             dithered_call (CallWriteFrame u demo_frame_rgb 3 1 2 2 true)).
  { intros u Hwf Hc. cbn [dithered_call].
    split; [reflexivity|]. split; [lia|]. split; [exact Hwf|]. split; [exact Hc|].
    split; [split; [simpl; lia|reflexivity]|].
    split; [simpl; lia|exact demo_frame_rgb_bytes]. }
  assert (H1 : Forall2 same_call
                 [CallWriteFrame demo_uninit demo_frame_rgb 3 1 2 2 true;
                  CallWriteFrame demo_uninit demo_frame_rgb 3 1 2 2 true; CallClose]
                 [CallWriteFrame demo_uninit_99 demo_frame_rgb 3 1 2 2 true;
                  CallWriteFrame demo_uninit_77 demo_frame_rgb 3 1 2 2 true; CallClose]).
  { repeat constructor. }
  assert (H2 : Forall dithered_call
                 [CallWriteFrame demo_uninit demo_frame_rgb 3 1 2 2 true;
                  CallWriteFrame demo_uninit demo_frame_rgb 3 1 2 2 true; CallClose]).
  { repeat (constructor; [first [exact I | apply Hframe;
                                            [exact demo_uninit_wf|reflexivity]]|]).
    constructor. }
  assert (H3 : Forall dithered_call
                 [CallWriteFrame demo_uninit_99 demo_frame_rgb 3 1 2 2 true;
                  CallWriteFrame demo_uninit_77 demo_frame_rgb 3 1 2 2 true; CallClose]).
  { constructor; [apply Hframe; [exact demo_uninit_99_wf|reflexivity]|].
    constructor; [apply Hframe; [exact demo_uninit_77_wf|reflexivity]|].
    constructor; [exact I|constructor]. }
  split; [exact H1|]. split; [exact H2|]. split; [exact H3|].
  destruct (run [CallWriteFrame demo_uninit demo_frame_rgb 3 1 2 2 true;
                 CallWriteFrame demo_uninit demo_frame_rgb 3 1 2 2 true; CallClose]
              (Writer.mk (Some GIF89a) (Some (replicate 12 0)) true, []))
    as [st'|] eqn:Hrun; [|vm_compute in Hrun; discriminate].
  exists st'. split; [reflexivity|].
  exact (dithered_run_is_deterministic _ _
           (Writer.mk (Some GIF89a) (Some (replicate 12 0)) true, []) st'
           H1 H2 H3 Hrun).
Defined.

(** *** The sum of the buffer bounds its cells *)

Lemma total_cons (a : Z) (q : list Z) : total (a :: q) = a + total q.
Proof. reflexivity. Qed.

Lemma total_insert (q : list Z) :
  forall (i : nat) (v x : Z),
    q !! i = Some x -> total (<[i := v]> q) = total q - x + v.
Proof.
  induction q as [|a q IH]; intros i v x Hx; [discriminate|].
  destruct i as [|i]; cbn in Hx.
  - injection Hx as ->. change (<[0%nat := v]> (x :: q)) with (v :: q).
    rewrite !total_cons. lia.
  - change (<[S i := v]> (a :: q)) with (a :: <[i := v]> q).
    rewrite !total_cons, (IH i v x Hx). lia.
Qed.

Lemma total_wr (q : list Z) (i v : Z) :
  0 <= i < Z.of_nat (length q) -> total (wr q i v) = total q - rd q i + v.
Proof.
  intros Hi. unfold wr, rd.
  destruct (lookup_lt_is_Some_2 q (Z.to_nat i)) as [x Hx]; [lia|].
  rewrite Hx. cbn. apply total_insert. exact Hx.
Qed.

Lemma nonneg_Forall (q : list Z) : nonneg q -> Forall (fun v => 0 <= v) q.
Proof.
  intros Hq. apply Forall_lookup. intros i v Hv.
  specialize (Hq (Z.of_nat i)). unfold rd in Hq.
  rewrite Nat2Z.id, Hv in Hq. exact Hq.
Qed.

Lemma total_lookup (q : list Z) :
  Forall (fun v => 0 <= v) q ->
  0 <= total q /\ forall (i : nat) (x : Z), q !! i = Some x -> x <= total q.
Proof.
  induction 1 as [|a q Ha Hq [IH0 IH]]; [split; [reflexivity|discriminate]|].
  rewrite total_cons. split; [lia|].
  intros i x Hx. destruct i as [|i]; cbn in Hx.
  - injection Hx as ->. lia.
  - specialize (IH i x Hx). lia.
Qed.

Lemma rd_le_total (q : list Z) (i : Z) : nonneg q -> 0 <= rd q i <= total q.
Proof.
  intros Hq. split; [apply Hq|].
  destruct (total_lookup q (nonneg_Forall q Hq)) as [H0 Hle].
  unfold rd. destruct (q !! Z.to_nat i) as [x|] eqn:Hx; cbn; [|exact H0].
  exact (Hle _ _ Hx).
Qed.

Lemma total_bound (M : Z) (q : list Z) :
  Forall (fun v => v <= M) q -> total q <= M * Z.of_nat (length q).
Proof.
  induction 1 as [|a q Ha Hq IH]; [cbn; lia|].
  rewrite total_cons. cbn [length]. lia.
Qed.

Lemma quant_init_total (next_frame : list Z) (num_pixels : Z) :
  bytes next_frame ->
  total (quant_init next_frame num_pixels)
  <= 65280 * Z.of_nat (length (quant_init next_frame num_pixels)).
Proof.
  intros Hb. apply total_bound. unfold quant_init.
  apply Forall_fmap, Forall_forall. intros i _. cbn.
  pose proof (bytes_rd next_frame i Hb). lia.
Qed.

(** *** One update, the four of a pixel, one pixel *)

Lemma shares_le (e : Z) :
  0 <= e ->
  Z.quot (e * 7) 16 + Z.quot (e * 3) 16 + Z.quot (e * 5) 16 + Z.quot (e * 1) 16 <= e.
Proof.
  intros He. rewrite !Z.quot_div_nonneg by lia.
  pose proof (Z.mul_div_le (e * 7) 16 ltac:(lia)).
  pose proof (Z.mul_div_le (e * 3) 16 ltac:(lia)).
  pose proof (Z.mul_div_le (e * 5) 16 ltac:(lia)).
  pose proof (Z.mul_div_le (e * 1) 16 ltac:(lia)). lia.
Qed.

Lemma add_channel_mass (pix err weight M B : Z) :
  0 <= pix <= M -> - B <= err <= B -> 1 <= weight <= 7 ->
  0 <= B -> 7 * B < 2 ^ 31 -> M + B < 2 ^ 31 ->
  exists v,
    add_channel pix err weight = Ok v
    /\ 0 <= v /\ v - pix <= Z.quot (Z.max 0 err * weight) 16.
Proof.
  intros Hpix Herr Hw HB H7 HM.
  assert (Hm : - (7 * B) <= err * weight <= 7 * B) by nia.
  pose proof (quot16_bounds (err * weight)) as Hq.
  assert (Hs : Z.quot (err * weight) 16 <= B).
  { destruct (Z.le_gt_cases 0 (err * weight)) as [Hpos|Hneg]; [|lia].
    rewrite Z.quot_div_nonneg by lia. apply Z.div_le_upper_bound; lia. }
  exists (pix + Z.max (- pix) (Z.quot (err * weight) 16)).
  split; [apply add_channel_small; lia|]. split; [lia|].
  destruct (Z.le_gt_cases 0 err) as [Hpos|Hneg].
  - assert (0 <= Z.quot (err * weight) 16) by (apply Z.quot_pos; nia).
    rewrite (Z.max_r 0 err) by lia. lia.
  - rewrite (Z.max_l 0 err) by lia. rewrite Z.mul_0_l.
    change (Z.quot 0 16) with 0.
    assert (err * weight <= 0) by nia. lia.
Qed.

Lemma add_error_mass (q : list Z) (n loc weight r_err g_err b_err M B : Z) :
  0 <= loc -> length q = Z.to_nat (4 * n) -> nonneg q -> total q <= M ->
  - B <= r_err <= B -> - B <= g_err <= B -> - B <= b_err <= B ->
  1 <= weight <= 7 -> 0 <= B -> 7 * B < 2 ^ 31 -> M + B < 2 ^ 31 ->
  exists q',
    add_error q n loc weight r_err g_err b_err = Ok q'
    /\ length q' = length q /\ nonneg q'
    /\ total q' <= total q + Z.quot (Z.max 0 r_err * weight) 16
                  + Z.quot (Z.max 0 g_err * weight) 16
                  + Z.quot (Z.max 0 b_err * weight) 16.
Proof.
  intros Hloc Hlen Hq Ht Hr Hg Hb Hw HB H7 HM.
  assert (S0 : forall e, 0 <= Z.quot (Z.max 0 e * weight) 16)
    by (intros e; apply Z.quot_pos; nia).
  pose proof (S0 r_err). pose proof (S0 g_err). pose proof (S0 b_err).
  unfold add_error. destruct (Z.ltb_spec loc n) as [Hlt|Hge].
  2:{ exists q. split; [reflexivity|]. split; [reflexivity|]. split; [exact Hq|lia]. }
  pose proof (rd_le_total q (4 * loc) Hq) as P0.
  pose proof (rd_le_total q (4 * loc + 1) Hq) as P1.
  pose proof (rd_le_total q (4 * loc + 2) Hq) as P2.
  destruct (add_channel_mass (rd q (4 * loc)) r_err weight M B)
    as (v0 & E0 & N0 & D0); try lia.
  destruct (add_channel_mass (rd q (4 * loc + 1)) g_err weight M B)
    as (v1 & E1 & N1 & D1); try lia.
  destruct (add_channel_mass (rd q (4 * loc + 2)) b_err weight M B)
    as (v2 & E2 & N2 & D2); try lia.
  cbv zeta. rewrite E0. cbn [bind]. rewrite rd_wr_other by lia.
  rewrite E1. cbn [bind]. rewrite !rd_wr_other by lia.
  rewrite E2. cbn [bind].
  eexists. split; [reflexivity|]. split; [rewrite !wr_length; reflexivity|].
  split; [repeat apply nonneg_wr; assumption|].
  rewrite !total_wr by (rewrite ?wr_length; lia).
  rewrite !rd_wr_other by lia. lia.
Qed.

Lemma propagate_mass (q : list Z) (n width x y r_err g_err b_err M B : Z) :
  length q = Z.to_nat (4 * n) -> nonneg q -> total q <= M ->
  - B <= r_err <= B -> - B <= g_err <= B -> - B <= b_err <= B ->
  0 <= B -> 7 * B < 2 ^ 31 -> M + 4 * B < 2 ^ 31 ->
  exists q',
    propagate q n width x y r_err g_err b_err = Ok q'
    /\ length q' = length q /\ nonneg q'
    /\ total q' <= total q + Z.max 0 r_err + Z.max 0 g_err + Z.max 0 b_err.
Proof.
  intros Hlen Hq Ht Hr Hg Hb HB H7 HM.
  destruct (quantloc_nonneg width x y) as (N7 & N3 & N5 & N1).
  pose proof (shares_le (Z.max 0 r_err) ltac:(lia)) as Sr.
  pose proof (shares_le (Z.max 0 g_err) ltac:(lia)) as Sg.
  pose proof (shares_le (Z.max 0 b_err) ltac:(lia)) as Sb.
  assert (S0 : forall e w, 0 <= w -> 0 <= Z.quot (Z.max 0 e * w) 16)
    by (intros e w Hw; apply Z.quot_pos; nia).
  pose proof (S0 r_err 7 ltac:(lia)). pose proof (S0 g_err 7 ltac:(lia)).
  pose proof (S0 b_err 7 ltac:(lia)). pose proof (S0 r_err 3 ltac:(lia)).
  pose proof (S0 g_err 3 ltac:(lia)). pose proof (S0 b_err 3 ltac:(lia)).
  pose proof (S0 r_err 5 ltac:(lia)). pose proof (S0 g_err 5 ltac:(lia)).
  pose proof (S0 b_err 5 ltac:(lia)). pose proof (S0 r_err 1 ltac:(lia)).
  pose proof (S0 g_err 1 ltac:(lia)). pose proof (S0 b_err 1 ltac:(lia)).
  destruct (add_error_mass q n (quantloc_7 width x y) 7 r_err g_err b_err
              (M + 3 * B) B) as (q7 & R7 & L7 & Q7 & T7); try assumption; try lia.
  destruct (add_error_mass q7 n (quantloc_3 width x y) 3 r_err g_err b_err
              (M + 3 * B) B) as (q3 & R3 & L3 & Q3 & T3); try assumption; try lia.
  destruct (add_error_mass q3 n (quantloc_5 width x y) 5 r_err g_err b_err
              (M + 3 * B) B) as (q5 & R5 & L5 & Q5 & T5); try assumption; try lia.
  destruct (add_error_mass q5 n (quantloc_1 width x y) 1 r_err g_err b_err
              (M + 3 * B) B) as (q1 & R1 & L1 & Q1 & T1); try assumption; try lia.
  exists q1. split; [apply propagate_inv; eauto 10|].
  split; [congruence|]. split; [exact Q1|lia].
Qed.

Lemma rounded_le (v : Z) : 0 <= v -> 0 <= rounded v <= v.
Proof.
  intros Hv. unfold rounded. rewrite Z.quot_div_nonneg by lia.
  split; [apply Z.div_pos; lia|].
  destruct (Z.eq_dec v 0) as [->|Hne]; [reflexivity|].
  apply Z.div_le_upper_bound; lia.
Qed.

(** A pixel step on a buffer of non-negative cells whose sum is at most
    [M]: it is defined, and the sum grows by 1020 at most. *)
Lemma dither_pixel_mass (last_frame : frame_ptr) (last : list Z) (pal : Palette.t)
    (n width y x : Z) (q : list Z) (M : Z) :
  0 <= Palette.bit_depth pal <= 8 -> tree_ok pal -> pal_bytes pal ->
  0 <= y * width + x < n -> n < 2 ^ 60 ->
  length q = Z.to_nat (4 * n) -> nonneg q -> total q <= M ->
  65280 <= M -> 7 * M < 2 ^ 31 ->
  exists q',
    dither_pixel last_frame last pal n width y x q = Ok q'
    /\ length q' = length q /\ nonneg q'
    /\ total q' <= total q + 1020.
Proof.
  intros HD Hok Hpal Hk Hn Hlen Hq Ht HM H7.
  assert (H60 : 2 ^ 60 < 2 ^ 64) by reflexivity.
  assert (H31 : 2 ^ 31 = 2147483648) by reflexivity.
  set (k := y * width + x) in *.
  pose proof (rd_le_total q (4 * k) Hq) as P0.
  pose proof (rd_le_total q (4 * k + 1) Hq) as P1.
  pose proof (rd_le_total q (4 * k + 2) Hq) as P2.
  pose proof (rd_le_total q (4 * k + 3) Hq) as P3.
  pose proof (rounded_le (rd q (4 * k)) ltac:(lia)) as R0.
  pose proof (rounded_le (rd q (4 * k + 1)) ltac:(lia)) as R1.
  pose proof (rounded_le (rd q (4 * k + 2)) ltac:(lia)) as R2.
  unfold dither_pixel. fold k. rewrite (usize_small k) by lia.
  rewrite !i32_small by lia. cbn [bind].
  destruct (_ && _).
  - eexists. split; [reflexivity|]. split; [rewrite !wr_length; reflexivity|].
    split; [repeat apply nonneg_wr; try assumption; unfold transparency_index; lia|].
    rewrite !total_wr by (rewrite ?wr_length; lia).
    rewrite !rd_wr_other by lia. unfold transparency_index. lia.
  - match goal with |- context [closest_from_root pal ?a ?b ?c ?bi] =>
      destruct (closest_from_root_total pal a b c bi (proj1 HD) Hok) as [best Hbest]
    end.
    rewrite Hbest. cbn [bind]. unfold pixel_error.
    apply closest_from_root_improves in Hbest; [|lia].
    assert (H256 : 2 ^ Palette.bit_depth pal <= 256).
    { change 256 with (2 ^ 8). apply Z.pow_le_mono_r; lia. }
    assert (Hbi : 0 <= fst best <= 255).
    { destruct Hbest as [->|Hbest]; [unfold transparency_index; cbn; lia|lia]. }
    destruct (Hpal (fst best)) as (C0 & C1 & C2).
    rewrite !i32_small by lia. cbn [bind].
    set (q0 := wr (wr (wr (wr q (4 * k) (rd (Palette.r pal) (fst best)))
                         (4 * k + 1) (rd (Palette.g pal) (fst best)))
                     (4 * k + 2) (rd (Palette.b pal) (fst best)))
                 (4 * k + 3) (fst best)).
    assert (L0 : length q0 = length q) by (unfold q0; rewrite !wr_length; reflexivity).
    assert (N0 : nonneg q0) by (unfold q0; repeat apply nonneg_wr; assumption || lia).
    assert (T0 : total q0
                 = total q - rd q (4 * k) - rd q (4 * k + 1) - rd q (4 * k + 2)
                   - rd q (4 * k + 3) + rd (Palette.r pal) (fst best)
                   + rd (Palette.g pal) (fst best) + rd (Palette.b pal) (fst best)
                   + fst best).
    { unfold q0. rewrite !total_wr by (rewrite ?wr_length; lia).
      rewrite !rd_wr_other by lia. lia. }
    destruct (propagate_mass q0 n width x y
                (rd q (4 * k) - rd (Palette.r pal) (fst best) * 256)
                (rd q (4 * k + 1) - rd (Palette.g pal) (fst best) * 256)
                (rd q (4 * k + 2) - rd (Palette.b pal) (fst best) * 256)
                (M + 1020) M) as (q' & Hrun & L' & N' & T'); try lia.
    { exact N0. }
    exists q'. split; [exact Hrun|]. split; [congruence|]. split; [exact N'|lia].
Qed.

(** *** The whole pass *)

Lemma dither_rows_small (last_frame : frame_ptr) (last : list Z) (pal : Palette.t)
    (width height : Z) (q : list Z) :
  0 <= Palette.bit_depth pal <= 8 -> tree_ok pal -> pal_bytes pal ->
  0 <= width -> 0 <= height -> width * height <= 1170 ->
  length q = Z.to_nat (4 * (width * height)) -> nonneg q ->
  total q <= 261120 * (width * height) ->
  exists q',
    dither_rows last_frame last pal (width * height) width (Z.to_nat height) q = Ok q'
    /\ length q' = length q.
Proof.
  intros HD Hok Hpal Hw Hh Hn Hlen Hq Ht. set (n := width * height) in *.
  assert (Hn0 : 0 <= n) by (unfold n; nia).
  assert (H60 : 1170 < 2 ^ 60) by reflexivity.
  assert (H31 : 2 ^ 31 = 2147483648) by reflexivity.
  unfold dither_rows.
  destruct (for_loop_total
              (fun y t => 0 <= y /\ length t = Z.to_nat (4 * n) /\ nonneg t
                          /\ total t <= 261120 * n + 1020 * (y * width))
              (fun y t =>
                 for_loop (Z.to_nat width) 0
                   (dither_pixel last_frame last pal n width y) t)
              (Z.to_nat height) 0 q) as (q' & Hrun & _ & Hl' & _).
  - split; [lia|]. split; [exact Hlen|]. split; [exact Hq|lia].
  - intros y t Hy (Hy0 & Hlt & Hnt & Htt).
    destruct (for_loop_total
                (fun x v => 0 <= x /\ length v = Z.to_nat (4 * n) /\ nonneg v
                            /\ total v <= 261120 * n + 1020 * (y * width + x))
                (dither_pixel last_frame last pal n width y) (Z.to_nat width) 0 t)
      as (t' & Hrow & _ & Hl1 & Hn1 & Ht1).
    + split; [lia|]. split; [exact Hlt|]. split; [exact Hnt|lia].
    + intros x v Hx (Hx0 & Hlv & Hnv & Htv).
      assert (Hk : 0 <= y * width + x < n) by (unfold n; nia).
      destruct (dither_pixel_mass last_frame last pal n width y x v 306703800
                  HD Hok Hpal Hk ltac:(lia) Hlv Hnv ltac:(lia) ltac:(lia) ltac:(lia))
        as (v' & Hstep & Hl2 & Hn2 & Ht2).
      exists v'. split; [exact Hstep|]. split; [lia|].
      split; [congruence|]. split; [exact Hn2|lia].
    + exists t'. split; [exact Hrow|]. split; [lia|]. split; [exact Hl1|].
      split; [exact Hn1|]. rewrite Z2Nat.id in Ht1 by lia. lia.
  - exists q'. split; [exact Hrun|congruence].
Qed.

Lemma copy_length (q out : list Z) (n : nat) :
  length (for_pure n 0 (fun i out_frame => wr out_frame i (u8 (rd q i))) out)
  = length out.
Proof.
  apply (for_pure_inv (fun _ o => length o = length out)
           (fun i out_frame => wr out_frame i (u8 (rd q i))) n 0 out);
    [reflexivity|].
  intros j t _ Ht. rewrite wr_length. exact Ht.
Qed.

Lemma dither_image_small (last_frame : frame_ptr) (next_frame out_frame : list Z)
    (width height : Z) (pal : Palette.t) :
  0 <= Palette.bit_depth pal <= 8 -> tree_ok pal -> pal_bytes pal ->
  bytes next_frame ->
  0 <= width -> 0 <= height -> width * height <= 1170 ->
  exists out',
    dither_image last_frame next_frame out_frame width height pal = Ok out'
    /\ length out' = length out_frame.
Proof.
  intros HD Hok Hpal Hb Hw Hh Hn. set (n := width * height) in *.
  assert (Hn0 : 0 <= n) by (unfold n; nia).
  assert (H64 : 4 * 1170 < 2 ^ 64) by reflexivity.
  unfold dither_image. fold n.
  rewrite (usize_small n) by lia.
  pose proof (quant_init_length next_frame n) as Hlen.
  rewrite (usize_small (n * 4)) in Hlen |- * by lia.
  destruct (dither_rows_small last_frame (deref last_frame out_frame) pal width height
              (quant_init next_frame n) HD Hok Hpal Hw Hh Hn)
    as (q' & Hrun & _).
  - fold n. rewrite Hlen. f_equal. lia.
  - apply quant_init_nonneg, bytes_nonneg, Hb.
  - fold n. pose proof (quant_init_total next_frame n Hb) as Ht.
    rewrite Hlen in Ht. lia.
  - fold n in Hrun. rewrite Hrun. cbn [bind].
    eexists. split; [reflexivity|]. apply copy_length.
Qed.

Lemma write_frame_dither_spec (u : uninit) (w : Writer.t) (f buf image : list Z)
    (width height delay bit_depth : Z) :
  Writer.f w = Some f -> Writer.old_image w = Some buf ->
  4 * (width * height) <= Z.of_nat (length buf) ->
  1 <= bit_depth <= 8 -> pal_wf (uninit_pal u) ->
  length (uninit_chunk u) = 256%nat ->
  0 <= width -> 0 <= height ->
  2 ^ bit_depth - 1 <= width * height <= 1170 ->
  4 * (width * height) <= Z.of_nat (length image) ->
  bytes image ->
  exists data buf',
    write_frame u w image width height delay bit_depth true
    = Ok (true, Writer.mk (Some (f ++ data)) (Some buf') false)
    /\ length buf' = length buf.
Proof.
  intros Hf Hold Hfit HD Hwf Hchunk Hw Hh Hn Hlen Hbytes.
  assert (H48 : 1170 < 2 ^ 48) by reflexivity.
  assert (H64 : 2 ^ 48 < 2 ^ 64) by reflexivity.
  assert (Hp : 0 < 2 ^ bit_depth) by (apply Z.pow_pos_nonneg; lia).
  unfold write_frame. rewrite Hf, Hold.
  change (default [] (Some buf)) with buf. cbn [orb].
  rewrite (usize_small (width * height)) by lia.
  destruct (Z.ltb_spec (Z.of_nat (length buf)) (4 * (width * height))); [lia|].
  destruct (Palette_new_spec (uninit_pal u) None image width height bit_depth true
              HD Hwf ltac:(lia) Hlen Hbytes) as (pal & Hpal & Hd & Hwfp & Htree & _).
  { cbn [palette_input]. rewrite length_seqZ. lia. }
  rewrite Hpal. cbn [bind].
  assert (Hok : tree_ok pal) by (apply search_tree_ok; rewrite Hd; [lia|exact Htree]).
  assert (Hpb : pal_bytes pal).
  { destruct Hwfp as ((_ & ?) & (_ & ?) & (_ & ?) & _).
    apply pal_bytes_intro; assumption. }
  destruct (dither_image_small (if Writer.first_frame w then Null else SameAsOut)
              image buf width height pal ltac:(lia) Hok Hpb Hbytes Hw Hh ltac:(lia))
    as (buf' & Hbuf & Hlen').
  rewrite Hbuf. cbn [bind].
  destruct (write_lzw_image_framed (uninit_chunk u) f buf' 0 0 width height delay pal
              Hchunk) as (full & last & pad & Hrun & _).
  rewrite Hrun. cbn [bind].
  destruct (write_frame_header_app f 0 0 width height delay pal) as [hdr ->].
  rewrite <- !app_assoc. eexists. exists buf'. split; [reflexivity|exact Hlen'].
Qed.



(** X28. a small dithered frame is written.  On an open writer whose buffer
    holds the frame, with dither on, a frame of bytes with at least
    2^bit_depth - 1 and at most 1170 pixels is written: [write_frame]
    returns true whatever the uninitialised arrays hold, no [i32] overflows,
    the file keeps what it held, followed by the data of the frame, and the
    buffer keeps its size. *)
Theorem small_dithered_frame_is_written :
  forall (u : uninit) (w : Writer.t) (f buf image : list Z)
         (width height delay bit_depth : Z),
    Writer.f w = Some f -> Writer.old_image w = Some buf ->
    4 * (width * height) <= Z.of_nat (length buf) ->
    1 <= bit_depth <= 8 -> pal_wf (uninit_pal u) ->
    length (uninit_chunk u) = 256%nat ->
    0 <= width -> 0 <= height ->
    2 ^ bit_depth - 1 <= width * height <= 1170 ->
    4 * (width * height) <= Z.of_nat (length image) ->
    bytes image ->
    exists data buf',
      write_frame u w image width height delay bit_depth true
      = Ok (true, Writer.mk (Some (f ++ data)) (Some buf') false)
      /\ length buf' = length buf.
Proof.
  intros u w f buf image width height delay bit_depth
    Hf Hold Hfit HD Hwf Hchunk Hw Hh Hn Hlen Hbytes.
  exact (write_frame_dither_spec u w f buf image width height delay bit_depth
           Hf Hold Hfit HD Hwf Hchunk Hw Hh Hn Hlen Hbytes).
Qed.

Lemma small_dithered_frame_is_written_witness :
  let w := Writer.mk (Some [71; 73; 70]) (Some (replicate 12 0)) false in
  Writer.f w = Some [71; 73; 70]
  /\ Writer.old_image w = Some (replicate 12 0)
  /\ 4 * (3 * 1) <= Z.of_nat (length (replicate 12 0))
  /\ 1 <= 2 <= 8 /\ pal_wf (uninit_pal demo_uninit)
  /\ length (uninit_chunk demo_uninit) = 256%nat
  /\ 0 <= 3 /\ 0 <= 1
  /\ 2 ^ 2 - 1 <= 3 * 1 <= 1170
  /\ 4 * (3 * 1) <= Z.of_nat (length demo_frame_rgb)
  /\ bytes demo_frame_rgb
  /\ exists data buf',
      write_frame demo_uninit w demo_frame_rgb 3 1 0 2 true
      = Ok (true, Writer.mk (Some ([71; 73; 70] ++ data)) (Some buf') false)
      /\ length buf' = length (replicate 12 0).
Proof.
  intros w.
  assert (H0 : 4 * (3 * 1) <= Z.of_nat (length (replicate 12 0))) by (simpl; lia).
  assert (H1 : 1 <= 2 <= 8) by lia.
  assert (H2 : length (uninit_chunk demo_uninit) = 256%nat) by reflexivity.
  assert (H3 : 0 <= 3) by lia. assert (H3' : 0 <= 1) by lia.
  assert (H4 : 2 ^ 2 - 1 <= 3 * 1 <= 1170) by (simpl; lia).
  assert (H5 : 4 * (3 * 1) <= Z.of_nat (length demo_frame_rgb)) by (simpl; lia).
  split; [reflexivity|]. split; [reflexivity|]. split; [exact H0|].
  split; [exact H1|]. split; [exact demo_uninit_wf|].
  split; [exact H2|]. split; [exact H3|]. split; [exact H3'|].
  split; [exact H4|]. split; [exact H5|]. split; [exact demo_frame_rgb_bytes|].
  exact (small_dithered_frame_is_written demo_uninit w
           [71; 73; 70] (replicate 12 0) demo_frame_rgb 3 1 0 2
           eq_refl eq_refl H0 H1 demo_uninit_wf H2 H3 H3' H4 H5 demo_frame_rgb_bytes).
Defined.
